(** * The OpenGL ES 2 render driver of SDL: shader and program caches

  A shallow embedding of [src/render/opengles2/SDL_render_gles2.c].
  The C heap holding the two intrusive doubly linked caches is modelled
  explicitly (addresses, [prev]/[next] pointers, allocation and release),
  the calls made to OpenGL and to the video subsystem are recorded in a
  log, and everything those libraries answer (allocation results, object
  names, compile and link status, error flags) is supplied by oracles. *)

From Stdlib Require Import ZArith List Bool Lia String PeanoNat.
From Stdlib Require Import Floats.SpecFloat.
Import ListNotations.

Local Open Scope Z_scope.

(** ** GLfloat: IEEE-754 binary32 *)

Module F32.

Definition prec : Z := 24.
Definition emax : Z := 128.

Definition GLfloat : Type := spec_float.

(** Conversion of a C [int] to [float] (round to nearest even). *)
Definition of_int (z : Z) : GLfloat := binary_normalize prec emax z 0 false.

Definition div (x y : GLfloat) : GLfloat := SFdiv prec emax x y.
Definition mul (x y : GLfloat) : GLfloat := SFmul prec emax x y.
Definition add (x y : GLfloat) : GLfloat := SFadd prec emax x y.
Definition neg (x : GLfloat) : GLfloat := SFopp x.
Definition eqb (x y : GLfloat) : bool := SFeqb x y.

Definition zero : GLfloat := S754_zero false.   (* 0.0f *)
Definition one : GLfloat := of_int 1.           (* 1.0f *)
Definition two : GLfloat := of_int 2.           (* 2.0f *)

End F32.

(** ** The OpenGL ES 2 interface

  Enumerants carry the values of the Khronos [gl2.h] header.  A call is
  recorded with its arguments; what the driver answers is not part of
  the call but comes from an oracle. *)

Module GL.

Definition GLenum : Type := Z.
Definition GLuint : Type := Z.

Definition GL_ZERO : GLenum := 0.
Definition GL_ONE : GLenum := 1.
Definition GL_FALSE : Z := 0.
Definition GL_SRC_COLOR : GLenum := 0x0300.
Definition GL_SRC_ALPHA : GLenum := 0x0302.
Definition GL_ONE_MINUS_SRC_ALPHA : GLenum := 0x0303.
Definition GL_BLEND : GLenum := 0x0BE2.
Definition GL_UNPACK_ALIGNMENT : GLenum := 0x0CF5.
Definition GL_TEXTURE0 : GLenum := 0x84C0.
Definition GL_COMPILE_STATUS : GLenum := 0x8B81.
Definition GL_LINK_STATUS : GLenum := 0x8B82.
Definition GL_SHADER_BINARY_FORMATS : GLenum := 0x8DF8.
Definition GL_NUM_SHADER_BINARY_FORMATS : GLenum := 0x8DF9.
Definition GL_SHADER_COMPILER : GLenum := 0x8DFA.

(** [(GLenum)-1], the format tag of a shader given as source text. *)
Definition GLenum_minus_one : GLenum := 4294967295.

Inductive call : Type :=
| glGetError
| glViewport (x y w h : Z)
| glEnable (cap : GLenum)
| glDisable (cap : GLenum)
| glBlendFunc (sfactor dfactor : GLenum)
| glCreateShader (type : GLenum)
| glShaderSource (shader : GLuint) (data : nat) (length : Z)
| glCompileShader (shader : GLuint)
| glGetShaderiv (shader : GLuint) (pname : GLenum)
| glShaderBinary (shader : GLuint) (format : GLenum) (data : nat) (length : Z)
| glDeleteShader (shader : GLuint)
| glCreateProgram
| glAttachShader (program shader : GLuint)
| glBindAttribLocation (program : GLuint) (index : Z) (name : string)
| glLinkProgram (program : GLuint)
| glGetProgramiv (program : GLuint) (pname : GLenum)
| glDeleteProgram (program : GLuint)
| glGetUniformLocation (program : GLuint) (name : string)
| glUseProgram (program : GLuint)
| glUniformMatrix4fv (location : GLuint) (count : Z) (transpose : Z)
                     (value : list F32.GLfloat)
| glActiveTexture (texture : GLenum)
| glBindTexture (target : GLenum) (texture : GLuint)
| glPixelStorei (pname : GLenum) (param : Z)
| glTexSubImage2D (target : GLenum) (level x y w h : Z)
                  (format type : GLenum) (pixels : list Z)
| glGetIntegerv (pname : GLenum)
| glGetBooleanv (pname : GLenum).

Definition is_glUseProgram (c : call) : bool :=
  match c with glUseProgram _ => true | _ => false end.


End GL.
Import GL.

(** ** C arrays

  [a[n] = x] on an array held as a list; the source never writes outside
  an array's bounds, and a write there is dropped. *)

Fixpoint store_at {A : Type} (n : nat) (x : A) (a : list A) : list A :=
  match a, n with
  | [], _ => []
  | _ :: tl, O => x :: tl
  | hd :: tl, S k => hd :: store_at k x tl
  end.

(** ** The orthographic projection ([GLES2_SetOrthographicProjection])

  [GLfloat projection[4][4]] is sixteen floats in row-major C order; the
  element [projection[i][j]] lives at offset [4*i + j]. *)

Module Projection.

Definition matrix : Type := list F32.GLfloat.

Definition blank : matrix := repeat F32.zero 16.

(** [projection[i][j] = x;] *)
Definition store (i j : nat) (x : F32.GLfloat) (m : matrix) : matrix :=
  store_at (4 * i + j) x m.

(** [projection[i][j]] *)
Definition load (m : matrix) (i j : nat) : F32.GLfloat :=
  nth (4 * i + j) m F32.zero.

(** The sixteen assignments of the source, in the order written there. *)
Definition build (w h : Z) : matrix :=
  let p := blank in
  let p := store 0 0 (F32.div F32.two (F32.of_int w)) p in
  let p := store 0 1 F32.zero p in
  let p := store 0 2 F32.zero p in
  let p := store 0 3 F32.zero p in
  let p := store 1 0 F32.zero p in
  let p := store 1 1 (F32.div (F32.neg F32.two) (F32.of_int h)) p in
  let p := store 1 2 F32.zero p in
  let p := store 1 3 F32.zero p in
  let p := store 2 0 F32.zero p in
  let p := store 2 1 F32.zero p in
  let p := store 2 2 F32.one p in
  let p := store 2 3 F32.zero p in
  let p := store 3 0 (F32.neg F32.one) p in
  let p := store 3 1 F32.one p in
  let p := store 3 2 F32.zero p in
  let p := store 3 3 F32.one p in
  p.

(** The matrix is handed to [glUniformMatrix4fv] with [transpose =
    GL_FALSE], so OpenGL reads the sixteen floats column by column:
    [projection[c]] is column [c].  Row [r] of the product with the
    column vector [(x, y, z, w)], every operation rounded to binary32. *)
Definition row (m : matrix) (r : nat) (x y z w : F32.GLfloat) : F32.GLfloat :=
  F32.add (F32.add (F32.add (F32.mul (load m 0 r) x)
                            (F32.mul (load m 1 r) y))
                   (F32.mul (load m 2 r) z))
          (F32.mul (load m 3 r) w).

(** Normalised device coordinates of the pixel [(px, py)]: the vertex
    shader applies the matrix to [(px, py, 0, 1)]. *)
Definition to_ndc (m : matrix) (px py : Z) : F32.GLfloat * F32.GLfloat :=
  (row m 0 (F32.of_int px) (F32.of_int py) F32.zero F32.one,
   row m 1 (F32.of_int px) (F32.of_int py) F32.zero F32.one).

End Projection.

(** ** Blend state ([GLES2_SetBlendMode])

  The enumerators of [SDL_BlendMode] come from [SDL_blendmode.h], which
  is not part of the sources at hand; they are parameters, pairwise
  distinct as the labels of one [switch] must be. *)

Section BlendMode.

Variables SDL_BLENDMODE_NONE SDL_BLENDMODE_BLEND
          SDL_BLENDMODE_ADD SDL_BLENDMODE_MOD : Z.

Definition GLES2_SetBlendMode (blendMode : Z) : list GL.call :=
  if blendMode =? SDL_BLENDMODE_NONE then
    [glDisable GL_BLEND]
  else if blendMode =? SDL_BLENDMODE_BLEND then
    [glEnable GL_BLEND; glBlendFunc GL_SRC_ALPHA GL_ONE_MINUS_SRC_ALPHA]
  else if blendMode =? SDL_BLENDMODE_ADD then
    [glEnable GL_BLEND; glBlendFunc GL_SRC_ALPHA GL_ONE]
  else if blendMode =? SDL_BLENDMODE_MOD then
    [glEnable GL_BLEND; glBlendFunc GL_ZERO GL_SRC_COLOR]
  else (* default: *)
    [glDisable GL_BLEND].

End BlendMode.

(** ** Shader variants ([SDL_shaders_gles2.h])

  A [GLES2_ShaderInstance] is static data; two instances are the same when
  they are the same object, so each carries its address.  A [GLES2_Shader]
  is the array of its [instance_count] candidate instances. *)

Inductive GLES2_ShaderType : Type :=
| GLES2_SHADER_VERTEX_DEFAULT
| GLES2_SHADER_FRAGMENT_SOLID_SRC
| GLES2_SHADER_FRAGMENT_TEXTURE_SRC.

Inductive GLES2_ImageSource : Type :=
| GLES2_IMAGESOURCE_SOLID
| GLES2_IMAGESOURCE_TEXTURE.

Record GLES2_ShaderInstance : Type := mkInstance {
  inst_addr : nat;
  inst_type : GLenum;
  inst_format : GLenum;
  inst_length : Z;
  inst_data : nat
}.

Record GLES2_Shader : Type := mkShader {
  instances : list GLES2_ShaderInstance
}.

Definition instance_count (s : GLES2_Shader) : nat := List.length (instances s).

(** [a == b] on two [const GLES2_ShaderInstance *]. *)
Definition same_instance (a b : GLES2_ShaderInstance) : bool :=
  Nat.eqb (inst_addr a) (inst_addr b).

(** The search for a supported instance in [GLES2_CacheShader]:

      for (i = 0; i < shader->instance_count; ++i)
          for (j = 0; j < rdata->shader_format_count; ++j) {
              if (shader->instances[i]->format != rdata->shader_formats[j])
                  continue;
              instance = shader->instances[i];
              break;
          }

    [instance] is the variable of that name, carried through both loops;
    [break] leaves the inner loop only. *)

Fixpoint scan_formats (candidate : GLES2_ShaderInstance) (formats : list GLenum)
    (instance : option GLES2_ShaderInstance) : option GLES2_ShaderInstance :=
  match formats with
  | [] => instance
  | f :: rest =>
      if inst_format candidate =? f then Some candidate
      else scan_formats candidate rest instance
  end.

Fixpoint scan_instances (candidates : list GLES2_ShaderInstance)
    (formats : list GLenum) (instance : option GLES2_ShaderInstance)
    : option GLES2_ShaderInstance :=
  match candidates with
  | [] => instance
  | c :: rest => scan_instances rest formats (scan_formats c formats instance)
  end.

Definition find_instance (shader : GLES2_Shader) (formats : list GLenum)
    : option GLES2_ShaderInstance :=
  scan_instances (instances shader) formats None.

(** A candidate is supported when its format is one of the platform's. *)
Definition supported (formats : list GLenum) (c : GLES2_ShaderInstance) : bool :=
  existsb (fun f => inst_format c =? f) formats.

(** ** Memory

  Addresses are block names: [calloc] hands out the next unused one and
  never reuses a released one.  A pointer is [None] (NULL) or an address;
  reading or writing through NULL or through a released block is
  undefined behaviour. *)

Definition addr : Type := nat.

Definition heap (A : Type) : Type := addr -> option A.

Definition upd {A : Type} (h : heap A) (a : addr) (v : option A) : heap A :=
  fun x => if Nat.eqb x a then v else h x.
Arguments upd : simpl never.

Definition ptr_eqb (p q : option addr) : bool :=
  match p, q with
  | None, None => true
  | Some a, Some b => Nat.eqb a b
  | _, _ => false
  end.

Record GLES2_ShaderCacheEntry : Type := mkShaderEntry {
  sh_id : GLuint;
  sh_type : GLES2_ShaderType;
  sh_instance : GLES2_ShaderInstance;
  references : Z;
  sh_prev : option addr;
  sh_next : option addr
}.

Record GLES2_ProgramCacheEntry : Type := mkProgramEntry {
  pr_id : GLuint;
  blend_mode : Z;
  vertex_shader : addr;
  fragment_shader : addr;
  uniform_locations : list GLuint;
  pr_prev : option addr;
  pr_next : option addr
}.

Definition GLES2_UNIFORM_PROJECTION : nat := 0.
Definition GLES2_UNIFORM_TEXTURE : nat := 1.
Definition GLES2_UNIFORM_MODULATION : nat := 2.
Definition GLES2_UNIFORM_COLOR : nat := 3.
Definition GLES2_UNIFORM_COLORTABLE : nat := 4.

Definition GLES2_ATTRIBUTE_POSITION : Z := 0.
Definition GLES2_ATTRIBUTE_TEXCOORD : Z := 1.

Definition GLES2_MAX_CACHED_PROGRAMS : Z := 8.

Definition set_references (r : Z) (e : GLES2_ShaderCacheEntry) :=
  mkShaderEntry (sh_id e) (sh_type e) (sh_instance e) r (sh_prev e) (sh_next e).
Definition set_sh_prev (p : option addr) (e : GLES2_ShaderCacheEntry) :=
  mkShaderEntry (sh_id e) (sh_type e) (sh_instance e) (references e) p (sh_next e).
Definition set_sh_next (n : option addr) (e : GLES2_ShaderCacheEntry) :=
  mkShaderEntry (sh_id e) (sh_type e) (sh_instance e) (references e) (sh_prev e) n.
Definition set_sh_id (i : GLuint) (e : GLES2_ShaderCacheEntry) :=
  mkShaderEntry i (sh_type e) (sh_instance e) (references e) (sh_prev e) (sh_next e).

Definition set_pr_prev (p : option addr) (e : GLES2_ProgramCacheEntry) :=
  mkProgramEntry (pr_id e) (blend_mode e) (vertex_shader e) (fragment_shader e)
                 (uniform_locations e) p (pr_next e).
Definition set_pr_next (n : option addr) (e : GLES2_ProgramCacheEntry) :=
  mkProgramEntry (pr_id e) (blend_mode e) (vertex_shader e) (fragment_shader e)
                 (uniform_locations e) (pr_prev e) n.
Definition set_pr_id (i : GLuint) (e : GLES2_ProgramCacheEntry) :=
  mkProgramEntry i (blend_mode e) (vertex_shader e) (fragment_shader e)
                 (uniform_locations e) (pr_prev e) (pr_next e).
Definition set_uniform_location (k : nat) (loc : GLuint) (e : GLES2_ProgramCacheEntry) :=
  mkProgramEntry (pr_id e) (blend_mode e) (vertex_shader e) (fragment_shader e)
                 (store_at k loc (uniform_locations e)) (pr_prev e) (pr_next e).

(** ** The state of the process

  [SDL_CurrentContext] is the file's static variable; the fields from
  [context] to [updateSize] are those of the renderer's
  [GLES2_DriverContext], with [shader_cache] and [program_cache] flattened
  ([shader_formats] is the array with its length
  [shader_format_count]); then come the heap of the two kinds of cache
  entries, the size of the renderer's window, the calls made to OpenGL
  so far (oldest first) and the message of the last [SDL_SetError]. *)

Record World : Type := mkWorld {
  SDL_CurrentContext : option nat;
  context : option nat;
  shader_formats : list GLenum;
  shader_cache_count : Z;
  shader_cache_head : option addr;
  program_cache_count : Z;
  program_cache_head : option addr;
  program_cache_tail : option addr;
  current_program : option addr;
  updateSize : bool;
  shader_heap : heap GLES2_ShaderCacheEntry;
  program_heap : heap GLES2_ProgramCacheEntry;
  brk : addr;
  window_w : Z;
  window_h : Z;
  gl_log : list GL.call;
  sdl_error : option string
}.

Definition set_SDL_CurrentContext (v : option nat) (w : World) : World :=
  mkWorld v (context w) (shader_formats w) (shader_cache_count w)
    (shader_cache_head w) (program_cache_count w) (program_cache_head w)
    (program_cache_tail w) (current_program w) (updateSize w) (shader_heap w)
    (program_heap w) (brk w) (window_w w) (window_h w) (gl_log w) (sdl_error w).
Definition set_context (v : option nat) (w : World) : World :=
  mkWorld (SDL_CurrentContext w) v (shader_formats w) (shader_cache_count w)
    (shader_cache_head w) (program_cache_count w) (program_cache_head w)
    (program_cache_tail w) (current_program w) (updateSize w) (shader_heap w)
    (program_heap w) (brk w) (window_w w) (window_h w) (gl_log w) (sdl_error w).
Definition set_shader_formats (v : list GLenum) (w : World) : World :=
  mkWorld (SDL_CurrentContext w) (context w) v (shader_cache_count w)
    (shader_cache_head w) (program_cache_count w) (program_cache_head w)
    (program_cache_tail w) (current_program w) (updateSize w) (shader_heap w)
    (program_heap w) (brk w) (window_w w) (window_h w) (gl_log w) (sdl_error w).
Definition set_shader_cache_count (v : Z) (w : World) : World :=
  mkWorld (SDL_CurrentContext w) (context w) (shader_formats w) v
    (shader_cache_head w) (program_cache_count w) (program_cache_head w)
    (program_cache_tail w) (current_program w) (updateSize w) (shader_heap w)
    (program_heap w) (brk w) (window_w w) (window_h w) (gl_log w) (sdl_error w).
Definition set_shader_cache_head (v : option addr) (w : World) : World :=
  mkWorld (SDL_CurrentContext w) (context w) (shader_formats w)
    (shader_cache_count w) v (program_cache_count w) (program_cache_head w)
    (program_cache_tail w) (current_program w) (updateSize w) (shader_heap w)
    (program_heap w) (brk w) (window_w w) (window_h w) (gl_log w) (sdl_error w).
Definition set_program_cache_count (v : Z) (w : World) : World :=
  mkWorld (SDL_CurrentContext w) (context w) (shader_formats w)
    (shader_cache_count w) (shader_cache_head w) v (program_cache_head w)
    (program_cache_tail w) (current_program w) (updateSize w) (shader_heap w)
    (program_heap w) (brk w) (window_w w) (window_h w) (gl_log w) (sdl_error w).
Definition set_program_cache_head (v : option addr) (w : World) : World :=
  mkWorld (SDL_CurrentContext w) (context w) (shader_formats w)
    (shader_cache_count w) (shader_cache_head w) (program_cache_count w) v
    (program_cache_tail w) (current_program w) (updateSize w) (shader_heap w)
    (program_heap w) (brk w) (window_w w) (window_h w) (gl_log w) (sdl_error w).
Definition set_program_cache_tail (v : option addr) (w : World) : World :=
  mkWorld (SDL_CurrentContext w) (context w) (shader_formats w)
    (shader_cache_count w) (shader_cache_head w) (program_cache_count w)
    (program_cache_head w) v (current_program w) (updateSize w) (shader_heap w)
    (program_heap w) (brk w) (window_w w) (window_h w) (gl_log w) (sdl_error w).
Definition set_current_program (v : option addr) (w : World) : World :=
  mkWorld (SDL_CurrentContext w) (context w) (shader_formats w)
    (shader_cache_count w) (shader_cache_head w) (program_cache_count w)
    (program_cache_head w) (program_cache_tail w) v (updateSize w) (shader_heap w)
    (program_heap w) (brk w) (window_w w) (window_h w) (gl_log w) (sdl_error w).
Definition set_updateSize (v : bool) (w : World) : World :=
  mkWorld (SDL_CurrentContext w) (context w) (shader_formats w)
    (shader_cache_count w) (shader_cache_head w) (program_cache_count w)
    (program_cache_head w) (program_cache_tail w) (current_program w) v
    (shader_heap w) (program_heap w) (brk w) (window_w w) (window_h w)
    (gl_log w) (sdl_error w).
Definition set_shader_heap (v : heap GLES2_ShaderCacheEntry) (w : World) : World :=
  mkWorld (SDL_CurrentContext w) (context w) (shader_formats w)
    (shader_cache_count w) (shader_cache_head w) (program_cache_count w)
    (program_cache_head w) (program_cache_tail w) (current_program w)
    (updateSize w) v (program_heap w) (brk w) (window_w w) (window_h w)
    (gl_log w) (sdl_error w).
Definition set_program_heap (v : heap GLES2_ProgramCacheEntry) (w : World) : World :=
  mkWorld (SDL_CurrentContext w) (context w) (shader_formats w)
    (shader_cache_count w) (shader_cache_head w) (program_cache_count w)
    (program_cache_head w) (program_cache_tail w) (current_program w)
    (updateSize w) (shader_heap w) v (brk w) (window_w w) (window_h w)
    (gl_log w) (sdl_error w).
Definition set_brk (v : addr) (w : World) : World :=
  mkWorld (SDL_CurrentContext w) (context w) (shader_formats w)
    (shader_cache_count w) (shader_cache_head w) (program_cache_count w)
    (program_cache_head w) (program_cache_tail w) (current_program w)
    (updateSize w) (shader_heap w) (program_heap w) v (window_w w) (window_h w)
    (gl_log w) (sdl_error w).
Definition set_gl_log (v : list GL.call) (w : World) : World :=
  mkWorld (SDL_CurrentContext w) (context w) (shader_formats w)
    (shader_cache_count w) (shader_cache_head w) (program_cache_count w)
    (program_cache_head w) (program_cache_tail w) (current_program w)
    (updateSize w) (shader_heap w) (program_heap w) (brk w) (window_w w)
    (window_h w) v (sdl_error w).
Definition set_sdl_error (v : option string) (w : World) : World :=
  mkWorld (SDL_CurrentContext w) (context w) (shader_formats w)
    (shader_cache_count w) (shader_cache_head w) (program_cache_count w)
    (program_cache_head w) (program_cache_tail w) (current_program w)
    (updateSize w) (shader_heap w) (program_heap w) (brk w) (window_w w)
    (window_h w) (gl_log w) v.

(** ** Computations

  A C function is a function of the state that returns a value and the
  new state ([Val]), runs into undefined behaviour ([Undef]) or never
  returns ([Div]). *)

Inductive Res (A : Type) : Type :=
| Val (a : A)
| Undef
| Div.
Arguments Val {A} a.
Arguments Undef {A}.
Arguments Div {A}.

Definition M (A : Type) : Type := World -> Res (A * World).

Definition ret {A : Type} (a : A) : M A := fun w => Val (a, w).

Definition bind {A B : Type} (m : M A) (k : A -> M B) : M B :=
  fun w =>
    match m w with
    | Val (a, w') => k a w'
    | Undef => Undef
    | Div => Div
    end.

Definition undefined {A : Type} : M A := fun _ => Undef.

Definition gets {A : Type} (f : World -> A) : M A := fun w => Val (f w, w).

Definition modify (f : World -> World) : M unit := fun w => Val (tt, f w).

Declare Scope m_scope.
Delimit Scope m_scope with m.
Notation "x <- m ;; k" := (bind m (fun x => k))
  (at level 61, m at next level, right associativity) : m_scope.
Notation "m ;; k" := (bind m (fun _ => k))
  (at level 61, right associativity) : m_scope.
Local Open Scope m_scope.

Definition when (b : bool) (m : M unit) : M unit := if b then m else ret tt.

(** A call into OpenGL. *)
Definition gl (c : GL.call) : M unit :=
  modify (fun w => set_gl_log (gl_log w ++ [c]) w).

Definition SDL_SetError (msg : string) : M unit :=
  modify (set_sdl_error (Some msg)).

Definition SDL_OutOfMemory : M unit := SDL_SetError "Out of memory".

(** [*p] for a pointer to a cache entry. *)
Definition load_shader (a : addr) : M GLES2_ShaderCacheEntry :=
  fun w => match shader_heap w a with
           | Some e => Val (e, w)
           | None => Undef
           end.

Definition load_program (a : addr) : M GLES2_ProgramCacheEntry :=
  fun w => match program_heap w a with
           | Some e => Val (e, w)
           | None => Undef
           end.

(** [*p = e] *)
Definition store_shader (a : addr) (e : GLES2_ShaderCacheEntry) : M unit :=
  fun w => match shader_heap w a with
           | Some _ => Val (tt, set_shader_heap (upd (shader_heap w) a (Some e)) w)
           | None => Undef
           end.

Definition store_program (a : addr) (e : GLES2_ProgramCacheEntry) : M unit :=
  fun w => match program_heap w a with
           | Some _ => Val (tt, set_program_heap (upd (program_heap w) a (Some e)) w)
           | None => Undef
           end.

(** [p->field = v] and [if (p) p->field = v]. *)
Definition update_shader (a : addr)
    (f : GLES2_ShaderCacheEntry -> GLES2_ShaderCacheEntry) : M unit :=
  e <- load_shader a ;; store_shader a (f e).

Definition update_program (a : addr)
    (f : GLES2_ProgramCacheEntry -> GLES2_ProgramCacheEntry) : M unit :=
  e <- load_program a ;; store_program a (f e).

Definition deref {A : Type} (p : option addr) (k : addr -> M A) : M A :=
  match p with
  | Some a => k a
  | None => undefined
  end.

Definition if_nonnull (p : option addr) (k : addr -> M unit) : M unit :=
  match p with
  | Some a => k a
  | None => ret tt
  end.

(** [SDL_calloc] of one cache entry, with the fields the caller sets right
    after; [ok] tells whether memory is left. *)
Definition calloc_shader (ok : bool) (init : GLES2_ShaderCacheEntry)
    : M (option addr) :=
  fun w =>
    if ok then
      Val (Some (brk w),
           set_brk (S (brk w))
             (set_shader_heap (upd (shader_heap w) (brk w) (Some init)) w))
    else Val (None, w).

Definition calloc_program (ok : bool) (init : GLES2_ProgramCacheEntry)
    : M (option addr) :=
  fun w =>
    if ok then
      Val (Some (brk w),
           set_brk (S (brk w))
             (set_program_heap (upd (program_heap w) (brk w) (Some init)) w))
    else Val (None, w).

(** [SDL_free]: nothing on NULL, undefined on a block already released. *)
Definition free_shader (p : option addr) : M unit :=
  match p with
  | None => ret tt
  | Some a =>
      fun w => match shader_heap w a with
               | Some _ => Val (tt, set_shader_heap (upd (shader_heap w) a None) w)
               | None => Undef
               end
  end.

Definition free_program (p : option addr) : M unit :=
  match p with
  | None => ret tt
  | Some a =>
      fun w => match program_heap w a with
               | Some _ => Val (tt, set_program_heap (upd (program_heap w) a None) w)
               | None => Undef
               end
  end.

(** ** What the libraries answer

  One record per call of the function it serves: whether [SDL_calloc]
  finds memory, the object name OpenGL hands out, the status it reports
  and whether [glGetError] finds an error raised since the last query. *)

Record ShaderOracle : Type := mkShaderOracle {
  so_alloc : bool;
  so_id : GLuint;
  so_compiled : bool;
  so_error : bool
}.

Record ProgramOracle : Type := mkProgramOracle {
  po_alloc : bool;
  po_id : GLuint;
  po_linked : bool;
  po_error : bool;
  po_location : string -> GLuint
}.

Record SelectOracle : Type := mkSelectOracle {
  o_vertex : ShaderOracle;
  o_fragment : ShaderOracle;
  o_program : ProgramOracle;
  o_use_error : bool;
  o_uniform_error : bool
}.

(** ** Renderer state APIs *)

(** [make_current] tells whether [SDL_GL_MakeCurrent] succeeds. *)
Definition GLES2_ActivateRenderer (make_current : bool) : M Z :=
  cur <- gets SDL_CurrentContext ;;
  ctx <- gets context ;;
  bound <-
    (if negb (ptr_eqb cur ctx) then
       (* Null out the current program to ensure we set it again *)
       modify (set_current_program None) ;;
       if make_current then
         modify (set_SDL_CurrentContext ctx) ;; ret true
       else ret false
     else ret true) ;;
  if bound : bool then
    resize <- gets updateSize ;;
    when resize
      (w <- gets window_w ;;
       h <- gets window_h ;;
       gl (glViewport 0 0 w h) ;;
       modify (set_updateSize false)) ;;
    ret 0
  else ret (-1).

Section WindowEvent.

(** The event code of [SDL_video.h]. *)
Variable SDL_WINDOWEVENT_RESIZED : Z.

Definition GLES2_WindowEvent (event : Z) : M unit :=
  when (event =? SDL_WINDOWEVENT_RESIZED)
    ((* Rebind the context to the window area *)
     modify (set_SDL_CurrentContext None) ;;
     modify (set_updateSize true)).

End WindowEvent.

(** ** Shader management functions *)

(** The [while (entry)] scans of the two caches.  The scan stops on the
    entry sought or on NULL; it dereferences every entry it visits.  On a
    heap whose blocks all lie below [brk], a scan that has visited
    [brk + 1] blocks has entered a cycle, which it never leaves. *)

Fixpoint find_shader (fuel : nat) (h : heap GLES2_ShaderCacheEntry)
    (entry : option addr) (instance : GLES2_ShaderInstance)
    : Res (option addr) :=
  match entry with
  | None => Val None
  | Some a =>
      match h a with
      | None => Undef
      | Some e =>
          if same_instance (sh_instance e) instance then Val (Some a)
          else match fuel with
               | O => Div
               | S k => find_shader k h (sh_next e) instance
               end
      end
  end.

Fixpoint find_program (fuel : nat) (h : heap GLES2_ProgramCacheEntry)
    (entry : option addr) (vertex fragment : addr) : Res (option addr) :=
  match entry with
  | None => Val None
  | Some a =>
      match h a with
      | None => Undef
      | Some e =>
          if Nat.eqb (vertex_shader e) vertex
             && Nat.eqb (fragment_shader e) fragment
          then Val (Some a)
          else match fuel with
               | O => Div
               | S k => find_program k h (pr_next e) vertex fragment
               end
      end
  end.

Definition lift {A : Type} (f : World -> Res A) : M A :=
  fun w => match f w with
           | Val a => Val (a, w)
           | Undef => Undef
           | Div => Div
           end.

Definition GLES2_EvictShader (entry : addr) : M unit :=
  (* Unlink the shader from the cache *)
  e <- load_shader entry ;;
  if_nonnull (sh_next e) (fun n => update_shader n (set_sh_prev (sh_prev e))) ;;
  e <- load_shader entry ;;
  if_nonnull (sh_prev e) (fun p => update_shader p (set_sh_next (sh_next e))) ;;
  head <- gets shader_cache_head ;;
  e <- load_shader entry ;;
  when (ptr_eqb head (Some entry)) (modify (set_shader_cache_head (sh_next e))) ;;
  modify (fun w => set_shader_cache_count (shader_cache_count w - 1) w) ;;
  (* Deallocate the shader *)
  e <- load_shader entry ;;
  gl (glDeleteShader (sh_id e)) ;;
  free_shader (Some entry).

(** [if (--shaderEntry->references <= 0) GLES2_EvictShader(...)] *)
Definition release_shader (shaderEntry : addr) : M unit :=
  update_shader shaderEntry (fun e => set_references (references e - 1) e) ;;
  e <- load_shader shaderEntry ;;
  when (references e <=? 0) (GLES2_EvictShader shaderEntry).

(** The block under "Evict the last entry from the cache if we exceed the
    limit"; [tail] is [rdata->program_cache.tail], which nothing in the
    block writes before its own assignment. *)
Definition evict_tail : M unit :=
  tail <- gets program_cache_tail ;;
  deref tail (fun t =>
    te <- load_program t ;;
    release_shader (vertex_shader te) ;;
    te <- load_program t ;;
    release_shader (fragment_shader te) ;;
    te <- load_program t ;;
    gl (glDeleteProgram (pr_id te)) ;;
    modify (set_program_cache_tail (pr_prev te)) ;;
    deref (pr_prev te) (fun q =>
      qe <- load_program q ;;
      free_program (pr_next qe) ;;
      update_program q (set_pr_next None)) ;;
    modify (fun w => set_program_cache_count (program_cache_count w - 1) w)).

(** The block under [if (entry)]: a hit moves the entry to the head. *)
Definition promote (entry : addr) : M unit :=
  count <- gets program_cache_count ;;
  when (count >? 1)
    (e <- load_program entry ;;
     if_nonnull (pr_next e) (fun n => update_program n (set_pr_prev (pr_prev e))) ;;
     e <- load_program entry ;;
     if_nonnull (pr_prev e) (fun p => update_program p (set_pr_next (pr_next e))) ;;
     update_program entry (set_pr_prev None) ;;
     head <- gets program_cache_head ;;
     update_program entry (set_pr_next head) ;;
     deref head (fun h => update_program h (set_pr_prev (Some entry))) ;;
     modify (set_program_cache_head (Some entry))).

Definition locate_uniform (entry : addr) (o : ProgramOracle) (k : nat)
    (name : string) : M unit :=
  e <- load_program entry ;;
  gl (glGetUniformLocation (pr_id e) name) ;;
  update_program entry (set_uniform_location k (po_location o name)).

Definition GLES2_CacheProgram (vertex fragment : addr) (blendMode : Z)
    (o : ProgramOracle) : M (option addr) :=
  (* Check if we've already cached this program *)
  found <- lift (fun w => find_program (brk w) (program_heap w)
                            (program_cache_head w) vertex fragment) ;;
  match found with
  | Some entry => promote entry ;; ret (Some entry)
  | None =>
    (* Create a program cache entry *)
    p <- calloc_program (po_alloc o)
           (mkProgramEntry 0 blendMode vertex fragment (repeat 0 16) None None) ;;
    match p with
    | None => SDL_OutOfMemory ;; ret None
    | Some entry =>
      (* Create the program and link it *)
      gl glGetError ;;
      gl glCreateProgram ;;
      update_program entry (set_pr_id (po_id o)) ;;
      e <- load_program entry ;;
      v <- load_shader vertex ;;
      gl (glAttachShader (pr_id e) (sh_id v)) ;;
      f <- load_shader fragment ;;
      gl (glAttachShader (pr_id e) (sh_id f)) ;;
      gl (glBindAttribLocation (pr_id e) GLES2_ATTRIBUTE_POSITION "a_position") ;;
      gl (glBindAttribLocation (pr_id e) GLES2_ATTRIBUTE_TEXCOORD "a_texCoord") ;;
      gl (glLinkProgram (pr_id e)) ;;
      gl (glGetProgramiv (pr_id e) GL_LINK_STATUS) ;;
      gl glGetError ;;
      if po_error o || negb (po_linked o) then
        SDL_SetError "Failed to link shader program" ;;
        gl (glDeleteProgram (pr_id e)) ;;
        free_program (Some entry) ;;
        ret None
      else
        (* Predetermine locations of uniform variables *)
        locate_uniform entry o GLES2_UNIFORM_PROJECTION "u_projection" ;;
        locate_uniform entry o GLES2_UNIFORM_TEXTURE "u_texture" ;;
        locate_uniform entry o GLES2_UNIFORM_MODULATION "u_modulation" ;;
        locate_uniform entry o GLES2_UNIFORM_COLOR "u_color" ;;
        locate_uniform entry o GLES2_UNIFORM_COLORTABLE "u_colorTable" ;;
        (* Cache the linked program *)
        head <- gets program_cache_head ;;
        match head with
        | Some h =>
            update_program entry (set_pr_next head) ;;
            update_program h (set_pr_prev (Some entry))
        | None => modify (set_program_cache_tail (Some entry))
        end ;;
        modify (set_program_cache_head (Some entry)) ;;
        modify (fun w => set_program_cache_count (program_cache_count w + 1) w) ;;
        (* Increment the refcount of the shaders we're using *)
        update_shader vertex (fun e => set_references (references e + 1) e) ;;
        update_shader fragment (fun e => set_references (references e + 1) e) ;;
        (* Evict the last entry from the cache if we exceed the limit *)
        count <- gets program_cache_count ;;
        when (count >? GLES2_MAX_CACHED_PROGRAMS) evict_tail ;;
        ret (Some entry)
    end
  end.

Definition GLES2_SetOrthographicProjection (uniform_error : bool) : M Z :=
  (* Get the window width and height *)
  w <- gets window_w ;;
  h <- gets window_h ;;
  (* Prepare an orthographic projection *)
  let projection := Projection.build w h in
  (* Set the projection matrix *)
  cur <- gets current_program ;;
  deref cur (fun c =>
    ce <- load_program c ;;
    let locProjection := nth GLES2_UNIFORM_PROJECTION (uniform_locations ce) 0 in
    gl glGetError ;;
    gl (glUniformMatrix4fv locProjection 1 GL_FALSE projection) ;;
    gl glGetError ;;
    if uniform_error then
      SDL_SetError "Failed to set orthographic projection" ;; ret (-1)
    else ret 0).

Section ShaderTable.

(** [GLES2_GetShader] of [SDL_shaders_gles2.c]: the shader defined for a
    type and a blend mode, NULL when there is none. *)
Variable GLES2_GetShader : GLES2_ShaderType -> Z -> option GLES2_Shader.

Definition GLES2_CacheShader (type : GLES2_ShaderType) (blendMode : Z)
    (o : ShaderOracle) : M (option addr) :=
  (* Find the corresponding shader *)
  match GLES2_GetShader type blendMode with
  | None =>
      SDL_SetError "No shader matching the requested characteristics was found" ;;
      ret None
  | Some shader =>
    (* Find a matching shader instance that's supported on this hardware *)
    formats <- gets shader_formats ;;
    match find_instance shader formats with
    | None =>
        SDL_SetError "The specified shader cannot be loaded on the current platform" ;;
        ret None
    | Some instance =>
      (* Check if we've already cached this shader *)
      found <- lift (fun w => find_shader (brk w) (shader_heap w)
                                (shader_cache_head w) instance) ;;
      match found with
      | Some entry => ret (Some entry)
      | None =>
        (* Create a shader cache entry *)
        p <- calloc_shader (so_alloc o) (mkShaderEntry 0 type instance 0 None None) ;;
        match p with
        | None => SDL_OutOfMemory ;; ret None
        | Some entry =>
          (* Compile or load the selected shader instance *)
          gl glGetError ;;
          gl (glCreateShader (inst_type instance)) ;;
          update_shader entry (set_sh_id (so_id o)) ;;
          e <- load_shader entry ;;
          compileSuccessful <-
            (if inst_format instance =? GLenum_minus_one then
               gl (glShaderSource (sh_id e) (inst_data instance) (inst_length instance)) ;;
               gl (glCompileShader (sh_id e)) ;;
               gl (glGetShaderiv (sh_id e) GL_COMPILE_STATUS) ;;
               ret (so_compiled o)
             else
               gl (glShaderBinary (sh_id e) (inst_format instance)
                     (inst_data instance) (inst_length instance)) ;;
               ret true) ;;
          gl glGetError ;;
          if so_error o || negb compileSuccessful then
            SDL_SetError "Failed to load the specified shader" ;;
            gl (glDeleteShader (sh_id e)) ;;
            free_shader (Some entry) ;;
            ret None
          else
            (* Link the shader entry in at the front of the cache *)
            head <- gets shader_cache_head ;;
            if_nonnull head (fun h =>
              update_shader entry (set_sh_next head) ;;
              update_shader h (set_sh_prev (Some entry))) ;;
            modify (set_shader_cache_head (Some entry)) ;;
            modify (fun w => set_shader_cache_count (shader_cache_count w + 1) w) ;;
            ret (Some entry)
        end
      end
    end
  end.

(** The code under the label [fault] of [GLES2_SelectProgram]. *)
Definition fault (vertex fragment : option addr) : M Z :=
  if_nonnull vertex (fun v =>
    e <- load_shader v ;;
    when (references e <=? 0) (GLES2_EvictShader v)) ;;
  if_nonnull fragment (fun f =>
    e <- load_shader f ;;
    when (references e <=? 0) (GLES2_EvictShader f)) ;;
  modify (set_current_program None) ;;
  ret (-1).

Definition fragment_type (source : GLES2_ImageSource) : GLES2_ShaderType :=
  match source with
  | GLES2_IMAGESOURCE_SOLID => GLES2_SHADER_FRAGMENT_SOLID_SRC
  | GLES2_IMAGESOURCE_TEXTURE => GLES2_SHADER_FRAGMENT_TEXTURE_SRC
  end.

Definition GLES2_SelectProgram (source : GLES2_ImageSource) (blendMode : Z)
    (o : SelectOracle) : M Z :=
  (* Select an appropriate shader pair for the specified modes *)
  let vtype := GLES2_SHADER_VERTEX_DEFAULT in
  let ftype := fragment_type source in
  (* Load the requested shaders *)
  vertex <- GLES2_CacheShader vtype blendMode (o_vertex o) ;;
  match vertex with
  | None => fault None None
  | Some v =>
    fragment <- GLES2_CacheShader ftype blendMode (o_fragment o) ;;
    match fragment with
    | None => fault vertex None
    | Some f =>
      (* Check if we need to change programs at all *)
      cur <- gets current_program ;;
      unchanged <-
        match cur with
        | None => ret false
        | Some c =>
            ce <- load_program c ;;
            ret (Nat.eqb (vertex_shader ce) v && Nat.eqb (fragment_shader ce) f)
        end ;;
      if unchanged : bool then ret 0
      else
        (* Generate a matching program *)
        program <- GLES2_CacheProgram v f blendMode (o_program o) ;;
        match program with
        | None => fault vertex fragment
        | Some p =>
          (* Select that program in OpenGL *)
          gl glGetError ;;
          pe <- load_program p ;;
          gl (glUseProgram (pr_id pe)) ;;
          gl glGetError ;;
          if o_use_error o then
            SDL_SetError "Failed to select program" ;;
            fault vertex fragment
          else
            (* Set the current program *)
            modify (set_current_program program) ;;
            (* Activate an orthographic projection *)
            r <- GLES2_SetOrthographicProjection (o_uniform_error o) ;;
            if r <? 0 then fault vertex fragment
            else ret 0
        end
    end
  end.

End ShaderTable.

(** ** Texture APIs *)

Record SDL_Rect : Type := mkRect {
  rect_x : Z;
  rect_y : Z;
  rect_w : Z;
  rect_h : Z
}.

(** [pixel_data] is NULL or the streaming buffer, a sequence of bytes. *)
Record GLES2_TextureData : Type := mkTextureData {
  texture : GLuint;
  texture_type : GLenum;
  pixel_format : GLenum;
  pixel_type : GLenum;
  pixel_data : option (list Z);
  pitch : Z
}.

Record SDL_Texture : Type := mkTexture {
  format : Z;
  tex_w : Z;
  tex_h : Z;
  driverdata : GLES2_TextureData
}.

Definition set_pixel_data (d : option (list Z)) (t : SDL_Texture) : SDL_Texture :=
  mkTexture (format t) (tex_w t) (tex_h t)
    (mkTextureData (texture (driverdata t)) (texture_type (driverdata t))
       (pixel_format (driverdata t)) (pixel_type (driverdata t)) d
       (pitch (driverdata t))).

(** The [len] bytes of [buf] from offset [off], if they lie inside it. *)
Definition slice (buf : list Z) (off len : Z) : option (list Z) :=
  if (0 <=? off) && (0 <=? len) && (off + len <=? Z.of_nat (List.length buf))
  then Some (firstn (Z.to_nat len) (skipn (Z.to_nat off) buf))
  else None.

(** [SDL_memcpy(buf + off, data, len)] with [len] the length of [data]. *)
Definition splice (buf : list Z) (off : Z) (data : list Z) : option (list Z) :=
  if (0 <=? off) && (off + Z.of_nat (List.length data) <=? Z.of_nat (List.length buf))
  then Some (firstn (Z.to_nat off) buf ++ data
             ++ skipn (Z.to_nat off + List.length data) buf)
  else None.

(** The loop that packs [rows] rows of [srcPitch] bytes, [pitch] apart in
    [pixels], into the blob. *)
Fixpoint pack_rows (rows : nat) (pixels : list Z) (off pitch srcPitch : Z)
    : option (list Z) :=
  match rows with
  | O => Some []
  | S k =>
      match slice pixels off srcPitch,
            pack_rows k pixels (off + pitch) pitch srcPitch with
      | Some r, Some rest => Some (r ++ rest)
      | _, _ => None
      end
  end.

(** The loop that copies [rows] packed rows of [src] into the streaming
    buffer, [dpitch] apart. *)
Fixpoint copy_rows (rows : nat) (dest : list Z) (doff : Z) (src : list Z)
    (soff dpitch srcPitch : Z) : option (list Z) :=
  match rows with
  | O => Some dest
  | S k =>
      match slice src soff srcPitch with
      | Some r =>
          match splice dest doff r with
          | Some dest' =>
              copy_rows k dest' (doff + dpitch) src (soff + srcPitch) dpitch srcPitch
          | None => None
          end
      | None => None
      end
  end.

Definition or_undefined {A : Type} (x : option A) : M A :=
  match x with
  | Some a => ret a
  | None => undefined
  end.

Section Texture.

(** The macro of [SDL_pixels.h]. *)
Variable SDL_BYTESPERPIXEL : Z -> Z.

(** [make_current] is the answer of [SDL_GL_MakeCurrent], [blob_alloc]
    that of [SDL_malloc], [gl_error] whether the upload raises an error.
    The texture comes back with the function's result. *)
Definition GLES2_UpdateTexture (make_current blob_alloc gl_error : bool)
    (tex : SDL_Texture) (rect : SDL_Rect) (pixels : list Z) (pixels_pitch : Z)
    : M (Z * SDL_Texture) :=
  let tdata := driverdata tex in
  GLES2_ActivateRenderer make_current ;;
  (* Bail out if we're supposed to update an empty rectangle *)
  if (rect_w rect <=? 0) || (rect_h rect <=? 0) then ret (0, tex)
  else
    (* Reformat the texture data into a tightly packed array *)
    let srcPitch := rect_w rect * SDL_BYTESPERPIXEL (format tex) in
    if negb (pixels_pitch =? srcPitch) && negb blob_alloc then
      SDL_OutOfMemory ;; ret (-1, tex)
    else
      src <- or_undefined
               (if negb (pixels_pitch =? srcPitch) then
                  pack_rows (Z.to_nat (rect_h rect)) pixels 0 pixels_pitch srcPitch
                else slice pixels 0 (srcPitch * rect_h rect)) ;;
      (* Create a texture subimage with the supplied data *)
      gl glGetError ;;
      gl (glActiveTexture GL_TEXTURE0) ;;
      gl (glBindTexture (texture_type tdata) (texture tdata)) ;;
      gl (glPixelStorei GL_UNPACK_ALIGNMENT 1) ;;
      gl (glTexSubImage2D (texture_type tdata) 0 (rect_x rect) (rect_y rect)
            (rect_w rect) (rect_h rect) (pixel_format tdata) (pixel_type tdata) src) ;;
      gl glGetError ;;
      if gl_error then
        SDL_SetError "Failed to update texture" ;; ret (-1, tex)
      else
        (* Update the (streaming) texture buffer, in one pass if possible *)
        match pixel_data tdata with
        | None => ret (0, tex)
        | Some buf =>
            let dest := pitch tdata * rect_y rect
                        + SDL_BYTESPERPIXEL (format tex) * rect_x rect in
            buf' <- or_undefined
                      (if rect_w rect =? tex_w tex then splice buf dest src
                       else copy_rows (Z.to_nat (rect_h rect)) buf dest src 0
                              (pitch tdata) srcPitch) ;;
            ret (0, set_pixel_data (Some buf') tex)
        end.

End Texture.

(** ** Renderer instantiation *)

Record CreateOracle : Type := mkCreateOracle {
  co_renderer : bool;          (* SDL_calloc of the SDL_Renderer *)
  co_rdata : bool;             (* SDL_calloc of the GLES2_DriverContext *)
  co_context : option nat;     (* SDL_GL_CreateContext *)
  co_make_current : bool;      (* SDL_GL_MakeCurrent *)
  co_nFormats : nat;           (* GL_NUM_SHADER_BINARY_FORMATS *)
  co_hasCompiler : bool;       (* GL_SHADER_COMPILER *)
  co_formats : list GLenum;    (* GL_SHADER_BINARY_FORMATS *)
  co_error : bool;             (* glGetError after the queries *)
  co_shader_formats : bool     (* SDL_calloc of the format array *)
}.

(** A [GLES2_DriverContext] fresh from [SDL_calloc]. *)
Definition zero_driver_context (w : World) : World :=
  mkWorld (SDL_CurrentContext w) None [] 0 None 0 None None None false
    (shader_heap w) (program_heap w) (brk w) (window_w w) (window_h w)
    (gl_log w) (sdl_error w).

(** [glGetIntegerv(GL_SHADER_BINARY_FORMATS, formats)] into an array of
    [n] zeroes, then the source-form tag in the last slot when a compiler
    is present. *)
Definition query_formats (o : CreateOracle) : list GLenum :=
  let nFormats := (co_nFormats o + if co_hasCompiler o then 1 else 0)%nat in
  let formats := firstn nFormats (firstn (co_nFormats o) (co_formats o)
                                  ++ repeat 0 nFormats) in
  if co_hasCompiler o then store_at (nFormats - 1) GLenum_minus_one formats
  else formats.

(** The result tells whether a renderer is returned (rather than NULL).
    The fields of the [SDL_Renderer] itself (its info and its table of
    functions) are no part of the state modelled here, and the variant
    for [ZUNE_HD] is left out. *)
Definition GLES2_CreateRenderer (o : CreateOracle) : M bool :=
  (* Create the renderer struct *)
  if negb (co_renderer o) then
    SDL_OutOfMemory ;; ret false
  else if negb (co_rdata o) then
    (* rdata is NULL, and [rdata->context = ...] writes through it *)
    undefined
  else
    modify zero_driver_context ;;
    (* Create the GL context *)
    modify (set_context (co_context o)) ;;
    match co_context o with
    | None => ret false
    | Some _ =>
      if negb (co_make_current o) then ret false
      else
        (* Determine supported shader formats *)
        gl glGetError ;;
        gl (glGetIntegerv GL_NUM_SHADER_BINARY_FORMATS) ;;
        gl (glGetBooleanv GL_SHADER_COMPILER) ;;
        if negb (co_shader_formats o) then
          SDL_OutOfMemory ;; ret false
        else
          gl (glGetIntegerv GL_SHADER_BINARY_FORMATS) ;;
          gl glGetError ;;
          if co_error o then
            SDL_SetError "Failed to query supported shader formats" ;; ret false
          else
            modify (set_shader_formats (query_formats o)) ;;
            ret true
    end.

(** ** Reading the caches

  The entries linked from a cache's head, in list order.  The walk stops
  at NULL, at a released block, and after [fuel] entries. *)

Fixpoint program_list (fuel : nat) (h : heap GLES2_ProgramCacheEntry)
    (p : option addr) : list addr :=
  match fuel, p with
  | S k, Some a =>
      match h a with
      | Some e => a :: program_list k h (pr_next e)
      | None => []
      end
  | _, _ => []
  end.

Fixpoint shader_list (fuel : nat) (h : heap GLES2_ShaderCacheEntry)
    (p : option addr) : list addr :=
  match fuel, p with
  | S k, Some a =>
      match h a with
      | Some e => a :: shader_list k h (sh_next e)
      | None => []
      end
  | _, _ => []
  end.

Definition cached_programs (w : World) : list addr :=
  program_list (brk w) (program_heap w) (program_cache_head w).

Definition cached_shaders (w : World) : list addr :=
  shader_list (brk w) (shader_heap w) (shader_cache_head w).

(** The (vertex, fragment) pair of a program entry, and the reference
    count of a shader entry, as stored. *)
Definition shader_pair (w : World) (p : addr) : option (addr * addr) :=
  match program_heap w p with
  | Some e => Some (vertex_shader e, fragment_shader e)
  | None => None
  end.

Definition refcount (w : World) (s : addr) : option Z :=
  match shader_heap w s with
  | Some e => Some (references e)
  | None => None
  end.

Definition viewport_calls (l : list GL.call) : list GL.call :=
  filter (fun c => match c with glViewport _ _ _ _ => true | _ => false end) l.

(** ** A platform to run the driver on

  A shader table with the shape of SDL's: one vertex shader for all blend
  modes, one fragment shader for each image source and blend mode, each
  with a single binary instance in the format the platform accepts. *)

Module Demo.

Definition binary_format : GLenum := 0x890B.
Definition GL_FRAGMENT_SHADER : GLenum := 0x8B30.
Definition GL_VERTEX_SHADER : GLenum := 0x8B31.

Definition GetShader (type : GLES2_ShaderType) (blendMode : Z)
    : option GLES2_Shader :=
  if blendMode <? 0 then None
  else
    Some (mkShader
      [match type with
       | GLES2_SHADER_VERTEX_DEFAULT =>
           mkInstance 1%nat GL_VERTEX_SHADER binary_format 16 1%nat
       | GLES2_SHADER_FRAGMENT_SOLID_SRC =>
           mkInstance (100 + Z.to_nat blendMode)%nat GL_FRAGMENT_SHADER
                      binary_format 16 (100 + Z.to_nat blendMode)%nat
       | GLES2_SHADER_FRAGMENT_TEXTURE_SRC =>
           mkInstance (200 + Z.to_nat blendMode)%nat GL_FRAGMENT_SHADER
                      binary_format 16 (200 + Z.to_nat blendMode)%nat
       end]).

(** A renderer just created for context 1 on a window of 800 by 600,
    whose context is current; address 0 is never handed out. *)
Definition start : World :=
  mkWorld (Some 1%nat) (Some 1%nat) [binary_format] 0 None 0 None None None
    false (fun _ => None) (fun _ => None) 1%nat 800 600 [] None.

(** Everything succeeds; object names are told apart by [k]. *)
Definition shader_ok (k : Z) : ShaderOracle := mkShaderOracle true k true false.
Definition program_ok (k : Z) : ProgramOracle :=
  mkProgramOracle true k true false (fun _ => 0).
Definition all_ok (k : Z) : SelectOracle :=
  mkSelectOracle (shader_ok 1000) (shader_ok (1100 + k)) (program_ok (2000 + k))
                 false false.

Definition select (blendMode : Z) : M Z :=
  GLES2_SelectProgram GetShader GLES2_IMAGESOURCE_SOLID blendMode (all_ok blendMode).

Fixpoint run {A : Type} (l : list (M A)) : M (list A) :=
  match l with
  | [] => ret []
  | m :: rest => x <- m ;; xs <- run rest ;; ret (x :: xs)
  end.

Definition state_after {A : Type} (m : M A) (w : World) : option World :=
  match m w with
  | Val (_, w') => Some w'
  | _ => None
  end.

(** The vertex shader and the solid fragment shaders of blend modes 0
    to 8, cached one after the other: entries 1 and 2 to 10. *)
Definition shaders_loaded : option World :=
  state_after
    (GLES2_CacheShader GetShader GLES2_SHADER_VERTEX_DEFAULT 0 (shader_ok 1000) ;;
     run (map (fun b => GLES2_CacheShader GetShader
                          GLES2_SHADER_FRAGMENT_SOLID_SRC b (shader_ok (1100 + b)))
              [0; 1; 2; 3; 4; 5; 6; 7; 8]))
    start.

(** [GLES2_CacheProgram] for the vertex shader (entry 1) and the fragment
    shader of blend mode [b] (entry [2 + b]). *)
Definition acquire (b : nat) : M (option addr) :=
  GLES2_CacheProgram 1%nat (2 + b)%nat (Z.of_nat b) (program_ok (2000 + Z.of_nat b)).

(** Eight programs acquired, for blend modes 0 to 7: entries 11 to 18. *)
Definition eight_programs : option World :=
  match shaders_loaded with
  | Some w => state_after (run (map acquire (seq 0 8))) w
  | None => None
  end.

(** Then the oldest of them, the tail of the list, is acquired again... *)
Definition tail_promoted : option World :=
  match eight_programs with
  | Some w => state_after (acquire 0) w
  | None => None
  end.

(** ... and then a ninth pair. *)
Definition ninth_after_promotion : option World :=
  match tail_promoted with
  | Some w => state_after (acquire 8) w
  | None => None
  end.

Definition world_of (o : option World) : World :=
  match o with
  | Some w => w
  | None => start
  end.

(** A program selected and bound, for drawing in a solid colour with
    blend mode 1. *)
Definition drawing : World := world_of (state_after (select 1) start).

(** The renderer's window has been resized. *)
Definition resized : World := set_updateSize true start.

Definition some_texture : SDL_Texture :=
  mkTexture 0 2 2 (mkTextureData 5 0x0DE1 0x1908 0x1401 None 0).

(** A shader with two candidate instances, both in formats the platform
    accepts. *)
Definition first_candidate : GLES2_ShaderInstance :=
  mkInstance 1%nat GL_VERTEX_SHADER binary_format 16 1%nat.
Definition second_candidate : GLES2_ShaderInstance :=
  mkInstance 2%nat GL_VERTEX_SHADER GLenum_minus_one 64 2%nat.

Definition GetShader_two (type : GLES2_ShaderType) (blendMode : Z)
    : option GLES2_Shader :=
  Some (mkShader [first_candidate; second_candidate]).

Definition start_two : World :=
  mkWorld (Some 1%nat) (Some 1%nat) [binary_format; GLenum_minus_one] 0 None 0
    None None None false (fun _ => None) (fun _ => None) 1%nat 800 600 [] None.

(** The instance of the entry that [GLES2_CacheShader] returns. *)
Definition cached_instance (r : Res (option addr * World)) : option nat :=
  match r with
  | Val (Some a, w) =>
      match shader_heap w a with
      | Some e => Some (inst_addr (sh_instance e))
      | None => None
      end
  | _ => None
  end.

(** A process before the renderer exists, and the renderer that
    [GLES2_CreateRenderer] makes there when everything succeeds, on a
    platform that loads [binary_format] and has no compiler. *)
Definition nothing : World :=
  mkWorld None None [] 0 None 0 None None None false (fun _ => None)
    (fun _ => None) 1%nat 800 600 [] None.

Definition create_ok : CreateOracle :=
  mkCreateOracle true true (Some 1%nat) true 1 false [binary_format] false true.

Definition created : World :=
  world_of (state_after (GLES2_CreateRenderer create_ok) nothing).

(** That renderer after it selected the program for solid colour and
    blend mode 1. *)
Definition selected : World := world_of (state_after (select 1) created).

(** Nothing succeeds any more: no memory, no compile, no link, errors
    raised by every call. *)
Definition nothing_works : SelectOracle :=
  mkSelectOracle (mkShaderOracle false 0 false true)
                 (mkShaderOracle false 0 false true)
                 (mkProgramOracle false 0 false true (fun _ => 0))
                 true true.


(** The renderer [created] after it selected, one after the other, the
    programs for solid colour and blend modes 0 to 7: the vertex shader is
    entry 1, the fragment shader of mode [b] entry [2 b + 2], its program
    entry [2 b + 3].  Then the fragment shader of mode 8 is cached (entry
    18), and the program for it acquired: the ninth. *)
Definition eight_selected : World :=
  world_of (state_after (run (map select [0; 1; 2; 3; 4; 5; 6; 7])) created).

Definition ninth_fragment : World :=
  world_of (state_after
              (GLES2_CacheShader GetShader GLES2_SHADER_FRAGMENT_SOLID_SRC 8
                 (shader_ok 1108))
              eight_selected).

Definition ninth_program : World :=
  world_of (state_after (GLES2_CacheProgram 1%nat 18%nat 8 (program_ok 2008))
              ninth_fragment).


End Demo.

(** ** Well-formed caches *)

(** [dll h prev cur l]: the shader entries linked from [cur] on are those
    of [l], in that order, and each points back to the one before it
    ([prev] for the first). *)
Fixpoint dll (h : heap GLES2_ShaderCacheEntry) (prev cur : option addr)
    (l : list addr) : Prop :=
  match l with
  | [] => cur = None
  | a :: rest =>
      cur = Some a /\
      exists e, h a = Some e /\ sh_prev e = prev /\ dll h (Some a) (sh_next e) rest
  end.

Definition b2n (b : bool) : nat := if b then 1%nat else 0%nat.

Fixpoint count_below (f : addr -> nat) (n : nat) : nat :=
  match n with
  | O => O
  | S k => (count_below f k + f k)%nat
  end.

(** The shader pair of a program entry, and how many of its two pointers
    go to the shader entry [s]. *)
Definition pair_of (e : option GLES2_ProgramCacheEntry) : option (addr * addr) :=
  match e with
  | Some e => Some (vertex_shader e, fragment_shader e)
  | None => None
  end.

Definition uses (p : option (addr * addr)) (s : addr) : nat :=
  match p with
  | Some (v, f) => (b2n (Nat.eqb v s) + b2n (Nat.eqb f s))%nat
  | None => O
  end.

Definition held (pairs : addr -> option (addr * addr)) (b : nat) (s : addr) : nat :=
  count_below (fun p => uses (pairs p) s) b.

Definition pairs_of (w : World) : addr -> option (addr * addr) :=
  fun p => pair_of (program_heap w p).

(** The number of live program entries whose [vertex_shader] is [s] plus
    the number of those whose [fragment_shader] is [s]. *)
Definition references_held (w : World) (s : addr) : nat :=
  held (pairs_of w) (brk w) s.

(** The number of live program entries whose [vertex_shader] or
    [fragment_shader] is [s]. *)
Definition holders (w : World) (s : addr) : nat :=
  count_below
    (fun p => match program_heap w p with
              | Some e => b2n (Nat.eqb (vertex_shader e) s
                               || Nat.eqb (fragment_shader e) s)
              | None => O
              end)
    (brk w).

(** The shader cache is sound with respect to the shader pairs [pairs] of
    the programs counted: its entries are those of the list [l], linked
    both ways from the head, one per instance, all allocated below [b];
    the shaders of every pair are entries; and every entry's reference
    count is the number of pointers to it among the pairs, plus [extra]
    (what a program being inserted or evicted has yet to add or give
    back). *)
Record shaders_ok (sh : heap GLES2_ShaderCacheEntry) (hd : option addr)
    (cnt : Z) (b : nat) (pairs : addr -> option (addr * addr))
    (extra : addr -> Z) (l : list addr) : Prop := mk_shaders_ok {
  s_dll : dll sh None hd l;
  s_nodup : NoDup l;
  s_live : forall a e, sh a = Some e -> In a l;
  s_inst : forall a c ea ec,
      sh a = Some ea -> sh c = Some ec ->
      same_instance (sh_instance ea) (sh_instance ec) = true -> a = c;
  s_bound : forall a, In a l -> (a < b)%nat;
  s_count : cnt = Z.of_nat (List.length l);
  s_pbound : forall p, pairs p <> None -> (p < b)%nat;
  s_pairs : forall p v f, pairs p = Some (v, f) -> In v l /\ In f l;
  s_refs : forall a e,
      sh a = Some e -> references e = Z.of_nat (held pairs b a) + extra a
}.

(** What holds of the links between program entries whatever hits did to
    the list: a live entry's [prev], when it is live too, points back to
    the entry by its [next]. *)
Record programs_ok (ph : heap GLES2_ProgramCacheEntry) (b : nat) : Prop :=
  mk_programs_ok {
  p_bound : forall p e, ph p = Some e -> (p < b)%nat;
  p_prev : forall p e q, ph p = Some e -> pr_prev e = Some q -> (q < b)%nat;
  p_back : forall p e q eq,
      ph p = Some e -> pr_prev e = Some q -> ph q = Some eq ->
      pr_next eq = Some p
}.

Definition no_extra : addr -> Z := fun _ => 0.

Definition consistent (w : World) (l : list addr) : Prop :=
  shaders_ok (shader_heap w) (shader_cache_head w) (shader_cache_count w)
             (brk w) (pairs_of w) no_extra l /\
  programs_ok (program_heap w) (brk w) /\
  (forall h, program_cache_head w = Some h -> (h < brk w)%nat).

(** Between two calls of the driver every cached shader is in use. *)
Definition all_referenced (w : World) : Prop :=
  forall a e, shader_heap w a = Some e -> 1 <= references e.

(** No program entry uses one shader entry in both roles. *)
Definition roles_apart (w : World) : Prop :=
  forall p e, program_heap w p = Some e -> vertex_shader e <> fragment_shader e.

(** What unlinking an entry whose neighbours are [pe] and [ne] makes of
    the entry [ea] at [a]: the entry after it takes over its [prev], the
    entry before it its [next]. *)
Definition relink (pe ne : option addr) (a : addr) (ea : GLES2_ShaderCacheEntry)
    : GLES2_ShaderCacheEntry :=
  let ea1 := if ptr_eqb ne (Some a) then set_sh_prev pe ea else ea in
  if ptr_eqb pe (Some a) then set_sh_next ne ea1 else ea1.

(** The fields of a shader entry other than its links. *)
Definition payload (e : GLES2_ShaderCacheEntry)
    : GLuint * GLES2_ShaderType * GLES2_ShaderInstance * Z :=
  (sh_id e, sh_type e, sh_instance e, references e).

(** A state that differs from [w] in the shader cache only. *)
Definition with_shaders (sh : heap GLES2_ShaderCacheEntry) (hd : option addr)
    (cnt : Z) (w : World) : World :=
  set_shader_heap sh (set_shader_cache_head hd (set_shader_cache_count cnt w)).

(** [w'] is [w] but for the log, the error message, the allocation mark
    and heaps that hold the same entries. *)
Definition quiet_change (w w' : World) : Prop :=
  exists sh ph log err b,
    w' = set_sdl_error err
           (set_gl_log log
              (set_brk b (set_program_heap ph (set_shader_heap sh w)))) /\
    (forall a, sh a = shader_heap w a) /\
    (forall a, ph a = program_heap w a) /\
    (brk w <= b)%nat.

(** The compile or load of a new shader goes wrong. *)
Definition load_fails (o : ShaderOracle) (instance : GLES2_ShaderInstance) : bool :=
  so_error o
  || negb (if inst_format instance =? GLenum_minus_one then so_compiled o else true).

(** The calls that compile or load a new shader named [id]. *)
Definition load_calls (id : GLuint) (instance : GLES2_ShaderInstance)
    : list GL.call :=
  [glGetError; glCreateShader (inst_type instance)]
  ++ (if inst_format instance =? GLenum_minus_one then
        [glShaderSource id (inst_data instance) (inst_length instance);
         glCompileShader id;
         glGetShaderiv id GL_COMPILE_STATUS]
      else
        [glShaderBinary id (inst_format instance) (inst_data instance)
           (inst_length instance)])
  ++ [glGetError].

(** The program heap [ph'] holds the entries of [ph] with their shader
    pairs; the links of the entry at [a] are [fprev a e] and [fnext a e],
    where [e] is the entry of [ph] there. *)
Definition tracks (ph ph' : heap GLES2_ProgramCacheEntry)
    (fprev fnext : addr -> GLES2_ProgramCacheEntry -> option addr) : Prop :=
  (forall a, ph a = None -> ph' a = None) /\
  (forall a ea, ph a = Some ea ->
     exists ea', ph' a = Some ea' /\
                 pr_prev ea' = fprev a ea /\ pr_next ea' = fnext a ea /\
                 vertex_shader ea' = vertex_shader ea /\
                 fragment_shader ea' = fragment_shader ea).

(** Every entry of [sh'] was an entry of [sh], for the same instance, and
    its reference count has not gone down unless it is still positive. *)
Definition entries_kept (sh sh' : heap GLES2_ShaderCacheEntry) : Prop :=
  forall a ea', sh' a = Some ea' ->
    exists ea, sh a = Some ea /\ sh_instance ea' = sh_instance ea /\
               (references ea <= references ea' \/ 1 <= references ea').

(** Every entry of [sh'], but for one just allocated at [fresh], is the
    entry of [sh] at that address, up to its links. *)
Definition carried (fresh : option addr) (sh sh' : heap GLES2_ShaderCacheEntry)
    : Prop :=
  forall b e', sh' b = Some e' ->
    fresh = Some b \/ exists e, sh b = Some e /\ payload e' = payload e.

(** Every entry of [sh] is still in [sh'], up to its links. *)
Definition retained (sh sh' : heap GLES2_ShaderCacheEntry) : Prop :=
  forall b e, sh b = Some e -> exists e', sh' b = Some e' /\ payload e' = payload e.

(** [w'] has the caches of [w], entry for entry. *)
Definition same_caches (w w' : World) : Prop :=
  shader_heap w' = shader_heap w /\
  shader_cache_head w' = shader_cache_head w /\
  shader_cache_count w' = shader_cache_count w /\
  program_heap w' = program_heap w /\
  program_cache_head w' = program_cache_head w /\
  program_cache_tail w' = program_cache_tail w /\
  program_cache_count w' = program_cache_count w /\
  shader_formats w' = shader_formats w /\
  brk w' = brk w.

(** ** The states the driver can be in *)

Definition set_window_size (ww wh : Z) (w : World) : World :=
  mkWorld (SDL_CurrentContext w) (context w) (shader_formats w)
    (shader_cache_count w) (shader_cache_head w) (program_cache_count w)
    (program_cache_head w) (program_cache_tail w) (current_program w)
    (updateSize w) (shader_heap w) (program_heap w) (brk w) ww wh
    (gl_log w) (sdl_error w).

(** A process in which no cache entry has been allocated yet. *)
Definition no_entries (w : World) : Prop :=
  (forall a, shader_heap w a = None) /\ (forall a, program_heap w a = None).

Section Reachable.

Variable GLES2_GetShader : GLES2_ShaderType -> Z -> option GLES2_Shader.

(** One call into the driver, or a change of the window's size. *)
Inductive step : World -> World -> Prop :=
| step_select : forall source blendMode o r w w',
    GLES2_SelectProgram GLES2_GetShader source blendMode o w = Val (r, w') ->
    step w w'
| step_activate : forall make_current r w w',
    GLES2_ActivateRenderer make_current w = Val (r, w') ->
    step w w'
| step_event : forall RESIZED event w w',
    GLES2_WindowEvent RESIZED event w = Val (tt, w') ->
    step w w'
| step_update : forall bpp make_current blob_alloc gl_error tex rect pixels pitch r w w',
    GLES2_UpdateTexture bpp make_current blob_alloc gl_error tex rect pixels pitch w
    = Val (r, w') ->
    step w w'
| step_window : forall ww wh w,
    step w (set_window_size ww wh w).

Inductive reachable : World -> Prop :=
| reach_create : forall o w0 w,
    no_entries w0 ->
    GLES2_CreateRenderer o w0 = Val (true, w) ->
    reachable w
| reach_step : forall w w',
    reachable w -> step w w' -> reachable w'.

(** The same with the cache operations taken one by one: a call of
    [GLES2_CacheShader] or of [GLES2_CacheProgram] (for pointers to
    entries of the shader cache) on its own. *)
Inductive cache_step : World -> World -> Prop :=
| cache_driver : forall w w',
    step w w' -> cache_step w w'
| cache_shader : forall type blendMode o r w w',
    GLES2_CacheShader GLES2_GetShader type blendMode o w = Val (r, w') ->
    cache_step w w'
| cache_program : forall v f blendMode o r w w',
    shader_heap w v <> None -> shader_heap w f <> None ->
    GLES2_CacheProgram v f blendMode o w = Val (r, w') ->
    cache_step w w'.

Inductive cache_reachable : World -> Prop :=
| cache_create : forall o w0 w,
    no_entries w0 ->
    GLES2_CreateRenderer o w0 = Val (true, w) ->
    cache_reachable w
| cache_next : forall w w',
    cache_reachable w -> cache_step w w' -> cache_reachable w'.

(** The table keeps vertex and fragment shaders apart: no instance is a
    candidate of both the vertex shader and a fragment shader of one
    blend mode. *)
Definition typed_table : Prop :=
  forall source blendMode sv sf iv fi,
    GLES2_GetShader GLES2_SHADER_VERTEX_DEFAULT blendMode = Some sv ->
    GLES2_GetShader (fragment_type source) blendMode = Some sf ->
    In iv (instances sv) -> In fi (instances sf) ->
    inst_addr iv <> inst_addr fi.

End Reachable.

(** ** The rest of the driver

  [GLES2_DestroyRenderer] walks the program cache from its head and
  releases, for every entry, the two shaders it points to and the entry
  itself.  The entry is read once: nothing the loop body does before
  [SDL_free(entry)] writes to it.  Each turn releases the block it
  visits, so the loop cannot run for more turns than there are blocks;
  [fuel] only bounds the recursion.  The calls that end the function
  ([SDL_GL_DeleteContext] and the release of the format list, of the
  driver context and of the renderer) take the renderer away as a whole
  and are left out, as its creation is in [GLES2_CreateRenderer]. *)

Fixpoint destroy_programs (fuel : nat) (entry : option addr) : M unit :=
  match entry with
  | None => ret tt
  | Some a =>
      e <- load_program a ;;
      v <- load_shader (vertex_shader e) ;;
      gl (glDeleteShader (sh_id v)) ;;
      f <- load_shader (fragment_shader e) ;;
      gl (glDeleteShader (sh_id f)) ;;
      free_shader (Some (vertex_shader e)) ;;
      free_shader (Some (fragment_shader e)) ;;
      gl (glDeleteProgram (pr_id e)) ;;
      free_program (Some a) ;;
      match fuel with
      | O => fun _ => Div
      | S k => destroy_programs k (pr_next e)
      end
  end.

Definition GLES2_DestroyRenderer (make_current : bool) : M unit :=
  GLES2_ActivateRenderer make_current ;;
  (* Deallocate everything *)
  head <- gets program_cache_head ;;
  fuel <- gets brk ;;
  destroy_programs fuel head.

(** C integers: [x] as an unsigned integer of [bits] bits, and as an
    [int] (32 bits, two's complement). *)
Definition INT_MAX : Z := 2147483647.

Definition as_unsigned (bits x : Z) : Z := x mod 2 ^ bits.

Definition as_int (x : Z) : Z :=
  let u := as_unsigned 32 x in
  if u <=? INT_MAX then u else u - 2 ^ 32.

Section LockTexture.

Variable SDL_BYTESPERPIXEL : Z -> Z.

(** The width of [size_t], in bits. *)
Variable SIZE_BITS : Z.

(** [*pixels] is given as its offset from [tdata->pixel_data]; the result
    is the return value with [*pixels] and [*pitch].  [tdata->pitch *
    rect->y] is a product of [size_t], [rect->x * SDL_BYTESPERPIXEL(...)]
    one of 32-bit unsigned integers, and [*pitch] is [tdata->pitch]
    converted to [int].  The function does not touch the renderer. *)
Definition GLES2_LockTexture (tex : SDL_Texture) (rect : SDL_Rect) : Z * (Z * Z) :=
  let tdata := driverdata tex in
  (* Retrieve the buffer/pitch for the specified region *)
  (0, (as_unsigned SIZE_BITS (pitch tdata * rect_y rect)
       + as_unsigned 32 (rect_x rect * SDL_BYTESPERPIXEL (format tex)),
       as_int (pitch tdata))).

End LockTexture.

(** A computation keeps [f] when no run of it changes what [f] reads of
    the state. *)
Definition keeps {A B : Type} (f : World -> B) (m : M A) : Prop :=
  forall w r w', m w = Val (r, w') -> f w' = f w.

(** [ensures m Q]: whenever [m] returns, [Q] holds of its result and of
    the state it leaves. *)
Definition ensures {A : Type} (m : M A) (Q : A -> World -> Prop) : Prop :=
  forall w r w', m w = Val (r, w') -> Q r w'.

(** [chain ph cur l]: the program entries linked by [next] from [cur] on
    are those of [l], in that order, and the last one's [next] is NULL. *)
Fixpoint chain (ph : heap GLES2_ProgramCacheEntry) (cur : option addr)
    (l : list addr) : Prop :=
  match l with
  | [] => cur = None
  | a :: rest => cur = Some a /\ exists e, ph a = Some e /\ chain ph (pr_next e) rest
  end.

(** The shader pointers of the program entries [l], entry by entry, the
    vertex shader first. *)
Definition shaders_of (ph : heap GLES2_ProgramCacheEntry) (l : list addr)
    : list addr :=
  flat_map (fun p => match ph p with
                     | Some e => [vertex_shader e; fragment_shader e]
                     | None => []
                     end) l.

(** The GL calls that [GLES2_DestroyRenderer] makes for the program
    entries [l]. *)
Definition deletions (ph : heap GLES2_ProgramCacheEntry)
    (sh : heap GLES2_ShaderCacheEntry) (l : list addr) : list GL.call :=
  flat_map (fun p => match ph p with
                     | Some e =>
                         match sh (vertex_shader e), sh (fragment_shader e) with
                         | Some ev, Some ef =>
                             [glDeleteShader (sh_id ev); glDeleteShader (sh_id ef);
                              glDeleteProgram (pr_id e)]
                         | _, _ => []
                         end
                     | None => []
                     end) l.

(** [((Uint8 * )buf)[k]], if [k] lies inside the block. *)
Definition byte (buf : list Z) (k : Z) : option Z :=
  if k <? 0 then None else nth_error buf (Z.to_nat k).

(** The program that the GL calls of [log] leave in use: the argument of
    the last [glUseProgram]. *)
Definition program_in_use (log : list GL.call) : option GLuint :=
  fold_left (fun acc c => match c with glUseProgram p => Some p | _ => acc end)
            log None.

(** The current program, if there is one, is an entry not released, and
    its GL program is the one in use. *)
Definition current_in_use (w : World) : Prop :=
  forall c, current_program w = Some c ->
    exists ce, program_heap w c = Some ce /\
               program_in_use (gl_log w) = Some (pr_id ce).

(** Whether the program block at [p] is allocated and not released, as a
    number to count. *)
Definition alive (ph : heap GLES2_ProgramCacheEntry) (p : addr) : nat :=
  match ph p with Some _ => 1%nat | None => 0%nat end.

(** The program blocks not released, counted. *)
Definition live_programs (w : World) : nat :=
  count_below (alive (program_heap w)) (brk w).

(** The program cache holds as many blocks as it counts, and no more than
    its capacity. *)
Definition within_capacity (w : World) : Prop :=
  Z.of_nat (live_programs w) = program_cache_count w /\
  program_cache_count w <= GLES2_MAX_CACHED_PROGRAMS.

(** ** More scenes *)

Module Scene.

(** The event code standing for [SDL_WINDOWEVENT_RESIZED]. *)
Definition RESIZED : Z := 5.

(** The renderer [Demo.created] after it drew in solid colour with blend
    mode 0 and then with blend mode 1: the vertex shader is entry 1, the
    fragment shaders entries 2 and 4, the programs entries 3 and 5, the
    one of blend mode 1 at the head. *)
Definition two_programs : World :=
  Demo.world_of (Demo.state_after (Demo.run (map Demo.select [0; 1])) Demo.created).

(** Then its window is resized, and the renderer activated by the next
    call into the driver: the current program is forgotten. *)
Definition rebound : World :=
  Demo.world_of
    (Demo.state_after
       (GLES2_WindowEvent RESIZED RESIZED ;; GLES2_ActivateRenderer true)
       two_programs).

(** Then it draws with blend mode 1 again. *)
Definition looped : World :=
  Demo.world_of (Demo.state_after (Demo.select 1) rebound).

(** [Demo.created] after [GLES2_CacheShader] loaded the vertex shader,
    which no program uses yet (entry 1). *)
Definition lone_shader : World :=
  Demo.world_of
    (Demo.state_after
       (GLES2_CacheShader Demo.GetShader GLES2_SHADER_VERTEX_DEFAULT 0
          (Demo.shader_ok 1000))
       Demo.created).

(** Then the fragment shader of blend mode 0 is loaded too (entry 2). *)
Definition shaders_ready : World :=
  Demo.world_of
    (Demo.state_after
       (GLES2_CacheShader Demo.GetShader GLES2_SHADER_FRAGMENT_SOLID_SRC 0
          (Demo.shader_ok 1100))
       lone_shader).

(** The allocation succeeds, the link does not. *)
Definition link_fails : ProgramOracle :=
  mkProgramOracle true 2000 false false (fun _ => 0).

(** The block is allocated, the shader does not load. *)
Definition load_refused : ShaderOracle := mkShaderOracle true 1000 false true.

(** [Demo.created] after the vertex shader failed to load. *)
Definition refused : World :=
  Demo.world_of
    (Demo.state_after
       (GLES2_CacheShader Demo.GetShader GLES2_SHADER_VERTEX_DEFAULT 0 load_refused)
       Demo.created).

(** [shaders_ready] after the program of its two shaders failed to link. *)
Definition unlinked : World :=
  Demo.world_of
    (Demo.state_after (GLES2_CacheProgram 1%nat 2%nat 0 link_fails) shaders_ready).

(** The renderer [Demo.selected], with its one program, released. *)
Definition released : World :=
  Demo.world_of (Demo.state_after (GLES2_DestroyRenderer true) Demo.selected).

(** A streaming texture of 4 by 3 pixels of two bytes each, all zero, and
    a rectangle of 2 by 2 pixels inside it; the pixels for it come in rows
    6 bytes apart. *)
Definition bytes_per_pixel (format : Z) : Z := 2.

Definition streaming : SDL_Texture :=
  mkTexture 0 4 3 (mkTextureData 5 0x0DE1 0x1908 0x1401 (Some (repeat 0 24)) 8).

Definition area : SDL_Rect := mkRect 1 1 2 2.

Definition padded_pixels : list Z := [11; 12; 13; 14; 0; 0; 21; 22; 23; 24].

(** [Demo.start] after an upload to [Demo.some_texture] that GL refused. *)
Definition upload_refused : World :=
  Demo.world_of
    (Demo.state_after
       (GLES2_UpdateTexture bytes_per_pixel true true true Demo.some_texture
          (mkRect 0 0 1 1) [1; 2] 2)
       Demo.start).


(** A platform that loads [Demo.binary_format] and has a compiler, and
    the renderer created there. *)
Definition with_compiler : CreateOracle :=
  mkCreateOracle true true (Some 1%nat) true 1 true [Demo.binary_format] false true.

Definition compiling : World :=
  Demo.world_of (Demo.state_after (GLES2_CreateRenderer with_compiler) Demo.nothing).

End Scene.

(** * Properties *)

Local Open Scope m_scope.

(** ** Blend state *)

(** C9: whatever integer [GLES2_SetBlendMode] receives, if it is none of
    [SDL_BLENDMODE_BLEND], [SDL_BLENDMODE_ADD] and [SDL_BLENDMODE_MOD]
    then blending is switched off, and nothing else is done: this covers
    [SDL_BLENDMODE_NONE] as well as values that name no blend mode. *)
Theorem SetBlendMode_default_disables :
  forall NONE BLEND ADD MOD blendMode : Z,
    blendMode <> BLEND -> blendMode <> ADD -> blendMode <> MOD ->
    GLES2_SetBlendMode NONE BLEND ADD MOD blendMode = [glDisable GL_BLEND].
Proof.
  intros NONE BLEND ADD MOD b Hb Ha Hm. unfold GLES2_SetBlendMode.
  destruct (Z.eqb_spec b NONE) as [_ | _]; [reflexivity | ].
  destruct (Z.eqb_spec b BLEND) as [E | _]; [contradiction | ].
  destruct (Z.eqb_spec b ADD) as [E | _]; [contradiction | ].
  destruct (Z.eqb_spec b MOD) as [E | _]; [contradiction | reflexivity].
Qed.

Lemma SetBlendMode_default_disables_witness :
  (77 <> 1 /\ 77 <> 2 /\ 77 <> 4) /\
  GLES2_SetBlendMode 0 1 2 4 77 = [glDisable GL_BLEND].
Proof.
  split; [lia | ].
  apply (SetBlendMode_default_disables 0 1 2 4 77); lia.
Defined.

(** ** The search for a supported shader instance *)

Lemma scan_formats_spec :
  forall c formats acc,
    scan_formats c formats acc = if supported formats c then Some c else acc.
Proof.
  intros c formats acc. induction formats as [| f rest IH]; simpl.
  - reflexivity.
  - destruct (inst_format c =? f); [reflexivity | exact IH].
Qed.

Lemma find_snoc :
  forall (A : Type) (f : A -> bool) (l : list A) (c : A),
    find f (l ++ [c]) =
    match find f l with
    | Some x => Some x
    | None => if f c then Some c else None
    end.
Proof.
  intros A f l c. induction l as [| a l IH]; simpl.
  - reflexivity.
  - destruct (f a); [reflexivity | exact IH].
Qed.

(** The variable [instance] ends up holding the last supported candidate,
    not the first: every later match overwrites an earlier one. *)
Lemma scan_instances_last :
  forall candidates formats acc,
    scan_instances candidates formats acc =
    match find (supported formats) (rev candidates) with
    | Some c => Some c
    | None => acc
    end.
Proof.
  induction candidates as [| c rest IH]; intros formats acc; simpl.
  - reflexivity.
  - rewrite IH, scan_formats_spec.
    rewrite find_snoc.
    destruct (find (supported formats) (rev rest)); [reflexivity | ].
    destruct (supported formats c); reflexivity.
Qed.

Lemma find_instance_last :
  forall shader formats,
    find_instance shader formats =
    find (supported formats) (rev (instances shader)).
Proof.
  intros shader formats. unfold find_instance.
  rewrite scan_instances_last.
  destruct (find (supported formats) (rev (instances shader))); reflexivity.
Qed.

(** C3, on a shader whose candidates at indices 0 and 1 are both in
    formats the platform accepts: [GLES2_CacheShader] compiles and caches
    the candidate at index 1, where the first match in candidate order is
    the one at index 0. *)
Theorem CacheShader_takes_last_match :
  supported (shader_formats Demo.start_two) Demo.first_candidate = true /\
  supported (shader_formats Demo.start_two) Demo.second_candidate = true /\
  find_instance (mkShader [Demo.first_candidate; Demo.second_candidate])
                (shader_formats Demo.start_two) = Some Demo.second_candidate /\
  Demo.cached_instance
    (GLES2_CacheShader Demo.GetShader_two GLES2_SHADER_VERTEX_DEFAULT 0
       (Demo.shader_ok 1000) Demo.start_two)
  = Some (inst_addr Demo.second_candidate).
Proof.
  repeat split; vm_compute; reflexivity.
Qed.

(** ** The orthographic projection *)

Lemma build_layout :
  forall w h i j,
    (i < 4)%nat -> (j < 4)%nat ->
    Projection.load (Projection.build w h) i j =
    match i, j with
    | 0%nat, 0%nat => F32.div F32.two (F32.of_int w)
    | 1%nat, 1%nat => F32.div (F32.neg F32.two) (F32.of_int h)
    | 2%nat, 2%nat => F32.one
    | 3%nat, 0%nat => F32.neg F32.one
    | 3%nat, 1%nat => F32.one
    | 3%nat, 3%nat => F32.one
    | _, _ => F32.zero
    end.
Proof.
  intros w h i j Hi Hj.
  destruct i as [| [| [| [| i]]]]; try lia;
    destruct j as [| [| [| [| j]]]]; try lia; reflexivity.
Qed.

(** C7: with a window of [w] by [h] pixels, both positive, and a program
    bound, [GLES2_SetOrthographicProjection] uploads (untransposed, so
    read column by column) the matrix whose entry [[0][0]] is [2/w],
    [[1][1]] is [-2/h], [[2][2]] and [[3][3]] are 1, [[3][0]] and
    [[3][1]] are -1 and 1, and whose other entries are 0, all in binary32;
    and the matrix for 800 by 600 takes pixel (0, 0) to (-1, 1) and pixel
    (800, 600) to (1, -1). *)
Theorem SetOrthographicProjection_matrix :
  forall (world : World) (uniform_error : bool) (c : addr)
         (ce : GLES2_ProgramCacheEntry),
    0 < window_w world -> 0 < window_h world ->
    current_program world = Some c ->
    program_heap world c = Some ce ->
    let m := Projection.build (window_w world) (window_h world) in
    (exists r world',
        GLES2_SetOrthographicProjection uniform_error world = Val (r, world') /\
        r = (if uniform_error then -1 else 0) /\
        gl_log world' =
        gl_log world ++
          [glGetError;
           glUniformMatrix4fv
             (nth GLES2_UNIFORM_PROJECTION (uniform_locations ce) 0) 1 GL_FALSE m;
           glGetError]) /\
    Projection.load m 0 0 = F32.div F32.two (F32.of_int (window_w world)) /\
    Projection.load m 1 1 = F32.div (F32.neg F32.two) (F32.of_int (window_h world)) /\
    Projection.load m 2 2 = F32.one /\
    Projection.load m 3 3 = F32.one /\
    Projection.load m 3 0 = F32.neg F32.one /\
    Projection.load m 3 1 = F32.one /\
    (forall i j, (i < 4)%nat -> (j < 4)%nat ->
       (i, j) <> (0, 0)%nat -> (i, j) <> (1, 1)%nat -> (i, j) <> (2, 2)%nat ->
       (i, j) <> (3, 3)%nat -> (i, j) <> (3, 0)%nat -> (i, j) <> (3, 1)%nat ->
       Projection.load m i j = F32.zero) /\
    Projection.to_ndc (Projection.build 800 600) 0 0 = (F32.neg F32.one, F32.one) /\
    Projection.to_ndc (Projection.build 800 600) 800 600 = (F32.one, F32.neg F32.one).
Proof.
  intros world uniform_error c ce Hw Hh Hcur Hce m.
  split.
  { unfold GLES2_SetOrthographicProjection, bind, gets, deref, load_program.
    rewrite Hcur, Hce. fold m.
    destruct uniform_error; eexists; eexists; (split; [reflexivity | ]);
      (split; [reflexivity | ]); simpl; rewrite <- !app_assoc; reflexivity. }
  repeat (split; [reflexivity | ]).
  split.
  { intros i j Hi Hj H00 H11 H22 H33 H30 H31. unfold m.
    rewrite build_layout by assumption.
    destruct i as [| [| [| [| i]]]]; try lia;
      destruct j as [| [| [| [| j]]]]; try lia;
      try reflexivity; congruence. }
  split; vm_compute; reflexivity.
Qed.

Lemma SetOrthographicProjection_matrix_witness :
  0 < window_w Demo.drawing /\ 0 < window_h Demo.drawing /\
  Projection.load (Projection.build (window_w Demo.drawing) (window_h Demo.drawing)) 3 1
  = F32.one.
Proof.
  assert (Hw : 0 < window_w Demo.drawing) by (vm_compute; reflexivity).
  assert (Hh : 0 < window_h Demo.drawing) by (vm_compute; reflexivity).
  split; [exact Hw | split; [exact Hh | ]].
  refine (proj1 (proj2 (proj2 (proj2 (proj2 (proj2 (proj2
    (SetOrthographicProjection_matrix Demo.drawing false 3%nat
       (mkProgramEntry 2001 1 1%nat 2%nat
          (0 :: repeat 0 15) None None) Hw Hh _ _)))))))).
  - vm_compute; reflexivity.
  - vm_compute; reflexivity.
Defined.

(** ** Renderer instantiation *)

(** C8, when the [SDL_Renderer] is allocated and the allocation of the
    [GLES2_DriverContext] fails: [GLES2_CreateRenderer] does not return
    NULL with an out-of-memory error; it goes on and writes
    [rdata->context] through the null pointer. *)
Theorem CreateRenderer_unchecked_driver_context :
  forall (w : World) (ctx : option nat) (mc : bool) (n : nat) (hc : bool)
         (fs : list GLenum) (er sf : bool),
    GLES2_CreateRenderer (mkCreateOracle true false ctx mc n hc fs er sf) w
    = Undef.
Proof. reflexivity. Qed.

(** The check that is there: without memory for the [SDL_Renderer], the
    function reports the error and returns NULL. *)
Lemma CreateRenderer_renderer_alloc_fails :
  forall (w : World) (o : CreateOracle),
    co_renderer o = false ->
    GLES2_CreateRenderer o w
    = Val (false, set_sdl_error (Some "Out of memory"%string) w).
Proof.
  intros w o H. unfold GLES2_CreateRenderer. rewrite H. reflexivity.
Qed.

(** ** Context and viewport binding *)

Lemma ptr_eqb_refl : forall p, ptr_eqb p p = true.
Proof. intros [a |]; simpl; [apply Nat.eqb_refl | reflexivity]. Qed.

(** Once bound and in step with the window, binding again does nothing. *)
Lemma ActivateRenderer_idle :
  forall (w : World) (make_current : bool),
    SDL_CurrentContext w = context w -> updateSize w = false ->
    GLES2_ActivateRenderer make_current w = Val (0, w).
Proof.
  intros w mk Hc Hu. unfold GLES2_ActivateRenderer, bind, gets, when, ret.
  rewrite Hc, ptr_eqb_refl. simpl. rewrite Hu. reflexivity.
Qed.

(** C4 as stated fails: the renderer's context is the current one before
    the resize event (the handle does not differ) and a program is bound;
    after the event and a successful bind the program tracker is NULL. *)
Lemma resize_bind_drops_program_of_same_context :
  ~ (forall (RESIZED : Z) (w w2 : World) (make_current : bool) (r : Z),
       (GLES2_WindowEvent RESIZED RESIZED ;;
        GLES2_ActivateRenderer make_current) w = Val (r, w2) ->
       current_program w2 <> current_program w ->
       SDL_CurrentContext w <> context w).
Proof.
  intro H.
  refine (H 5 Demo.drawing _ true 0 _ _ _).
  - vm_compute. reflexivity.
  - vm_compute. discriminate.
  - vm_compute. reflexivity.
Qed.

(** C4, amended: after a resize event and a bind, the program tracker is
    NULL whenever the renderer has a context, whichever context was
    current before the event (with no context it is left alone); if the
    context can be made current the bind returns 0, has set the viewport
    to the window's size by one call and cleared the flag, and a further
    bind changes nothing; if it cannot, the bind returns -1 with no call
    made and the flag still set. *)
Theorem resize_then_bind :
  forall (RESIZED : Z) (w : World) (make_current : bool),
  exists (r : Z) (w2 : World),
    (GLES2_WindowEvent RESIZED RESIZED ;;
     GLES2_ActivateRenderer make_current) w = Val (r, w2) /\
    (context w <> None -> current_program w2 = None) /\
    (context w = None -> current_program w2 = current_program w) /\
    (make_current = true \/ context w = None ->
       r = 0 /\
       gl_log w2 = gl_log w ++ [glViewport 0 0 (window_w w) (window_h w)] /\
       updateSize w2 = false /\
       forall again : bool, GLES2_ActivateRenderer again w2 = Val (0, w2)) /\
    (make_current = false /\ context w <> None ->
       r = -1 /\ gl_log w2 = gl_log w /\ updateSize w2 = true).
Proof.
  intros RESIZED w mk.
  destruct (GLES2_ActivateRenderer mk
              (set_updateSize true (set_SDL_CurrentContext None w)))
    as [[r w2] | |] eqn:Hrun.
  2,3: (unfold GLES2_ActivateRenderer, bind, when, modify, gets, ret, gl in Hrun;
        simpl in Hrun; destruct (context w); destruct mk; discriminate Hrun).
  exists r, w2. split.
  { unfold GLES2_WindowEvent, bind, when, modify. rewrite Z.eqb_refl.
    simpl. exact Hrun. }
  unfold GLES2_ActivateRenderer, bind, when, modify, gets, ret, gl in Hrun.
  simpl in Hrun.
  destruct (context w) as [c |] eqn:Hctx; simpl in Hrun.
  - destruct mk; simpl in Hrun; injection Hrun as Hr Hw2; subst r w2; simpl.
    + split; [reflexivity | ]. split; [discriminate | ].
      split.
      * intros _. repeat split.
        intro again. apply ActivateRenderer_idle; simpl; [auto | reflexivity].
      * intros [H _]. discriminate.
    + split; [reflexivity | ]. split; [discriminate | ].
      split.
      * intros [H | H]; discriminate.
      * intros _. repeat split.
  - injection Hrun as Hr Hw2; subst r w2; simpl.
    split; [intro H; contradiction | ]. split; [reflexivity | ].
    split.
    + intros _. repeat split.
      intro again. apply ActivateRenderer_idle; simpl; [auto | reflexivity].
    + intros [_ H]. contradiction.
Qed.

(** ** Texture update *)

(** C10 as stated fails: with a resize pending, an update with an empty
    rectangle makes a call to OpenGL. *)
Lemma UpdateTexture_empty_sets_viewport :
  ~ (forall (BYTESPERPIXEL : Z -> Z) (make_current blob_alloc gl_error : bool)
            (tex : SDL_Texture) (rect : SDL_Rect) (pixels : list Z) (pitch : Z)
            (w w' : World) (r : Z * SDL_Texture),
       rect_w rect <= 0 \/ rect_h rect <= 0 ->
       GLES2_UpdateTexture BYTESPERPIXEL make_current blob_alloc gl_error
         tex rect pixels pitch w = Val (r, w') ->
       r = (0, tex) /\ gl_log w' = gl_log w).
Proof.
  intro H.
  destruct (H (fun _ => 4) true true false Demo.some_texture
              (mkRect 0 0 0 0) [] 0 Demo.resized
              (set_updateSize false
                 (set_gl_log [glViewport 0 0 800 600] Demo.resized))
              (0, Demo.some_texture)) as [_ Hlog].
  - left. simpl. lia.
  - reflexivity.
  - discriminate Hlog.
Qed.

(** C10, amended: an update with an empty rectangle binds the renderer
    and returns 0 with the texture, its streaming buffer included, as it
    was; the state is the one the bind leaves, so the only call to
    OpenGL there can be is the bind's [glViewport] for a pending resize,
    and with none pending no call is made. *)
Theorem UpdateTexture_empty_rectangle :
  forall (BYTESPERPIXEL : Z -> Z) (make_current blob_alloc gl_error : bool)
         (tex : SDL_Texture) (rect : SDL_Rect) (pixels : list Z) (pitch : Z)
         (w : World),
    rect_w rect <= 0 \/ rect_h rect <= 0 ->
    exists (r : Z) (w' : World),
      GLES2_ActivateRenderer make_current w = Val (r, w') /\
      GLES2_UpdateTexture BYTESPERPIXEL make_current blob_alloc gl_error
        tex rect pixels pitch w = Val ((0, tex), w') /\
      (gl_log w' = gl_log w \/
       gl_log w' = gl_log w ++ [glViewport 0 0 (window_w w) (window_h w)]) /\
      (updateSize w = false -> gl_log w' = gl_log w).
Proof.
  intros BPP mk ba ge tex rect pixels pitch w Hempty.
  assert (Hb : (rect_w rect <=? 0) || (rect_h rect <=? 0) = true).
  { apply orb_true_iff. destruct Hempty; [left | right]; apply Z.leb_le; assumption. }
  unfold GLES2_UpdateTexture. rewrite Hb.
  unfold GLES2_ActivateRenderer, bind, when, modify, gets, ret, gl.
  destruct (negb (ptr_eqb (SDL_CurrentContext w) (context w))); simpl.
  - destruct mk; simpl.
    + destruct (updateSize w) eqn:Hu; simpl; eexists; eexists;
        (split; [reflexivity | ]); (split; [reflexivity | ]); simpl; split;
        auto; discriminate.
    + eexists; eexists; (split; [reflexivity | ]); (split; [reflexivity | ]);
        simpl; auto.
  - destruct (updateSize w) eqn:Hu; simpl; eexists; eexists;
      (split; [reflexivity | ]); (split; [reflexivity | ]); simpl; split;
      auto; discriminate.
Qed.

Lemma UpdateTexture_empty_rectangle_witness :
  (rect_w (mkRect 3 4 0 7) <= 0 \/ rect_h (mkRect 3 4 0 7) <= 0) /\
  exists (r : Z) (w' : World),
    GLES2_ActivateRenderer true Demo.drawing = Val (r, w') /\
    GLES2_UpdateTexture (fun _ => 4) true true false Demo.some_texture
      (mkRect 3 4 0 7) [1; 2; 3] 12 Demo.drawing
    = Val ((0, Demo.some_texture), w') /\
    (gl_log w' = gl_log Demo.drawing \/
     gl_log w' = gl_log Demo.drawing
                 ++ [glViewport 0 0 (window_w Demo.drawing) (window_h Demo.drawing)]) /\
    (updateSize Demo.drawing = false -> gl_log w' = gl_log Demo.drawing).
Proof.
  assert (H : rect_w (mkRect 3 4 0 7) <= 0 \/ rect_h (mkRect 3 4 0 7) <= 0)
    by (left; simpl; lia).
  split; [exact H | ].
  exact (UpdateTexture_empty_rectangle (fun _ => 4) true true false
           Demo.some_texture (mkRect 3 4 0 7) [1; 2; 3] 12 Demo.drawing H).
Defined.

(** ** The program cache on a concrete run *)

(** C1, on eight programs acquired in turn (entries 11 to 18, the list
    running from 18 down to 11), the oldest acquired again and then a
    ninth pair acquired.  The hit moves entry 11 to the head and leaves
    the cache's tail pointing at it; the least recently used entry is
    then 12.  The insertion of the ninth pair releases entry 11, the one
    used last before it, keeps entry 12 allocated, and cuts the list
    after the new entry 19: the seven other programs are no longer
    reachable from the head, while the count says 8. *)
Theorem CacheProgram_evicts_promoted_tail :
  option_map cached_programs Demo.eight_programs
  = Some [18; 17; 16; 15; 14; 13; 12; 11]%nat /\
  option_map program_cache_tail Demo.eight_programs = Some (Some 11%nat) /\
  option_map cached_programs Demo.tail_promoted
  = Some [11; 18; 17; 16; 15; 14; 13; 12]%nat /\
  option_map program_cache_tail Demo.tail_promoted = Some (Some 11%nat) /\
  exists w : World,
    Demo.ninth_after_promotion = Some w /\
    program_heap w 11%nat = None /\
    shader_pair w 12%nat = Some (1%nat, 3%nat) /\
    cached_programs w = [19%nat] /\
    program_cache_tail w = Some 19%nat /\
    program_cache_count w = 8.
Proof.
  split; [vm_compute; reflexivity | ].
  split; [vm_compute; reflexivity | ].
  split; [vm_compute; reflexivity | ].
  split; [vm_compute; reflexivity | ].
  destruct Demo.ninth_after_promotion as [w |] eqn:E.
  - exists w. split; [reflexivity | ].
    assert (Hw : Some w = Demo.ninth_after_promotion) by (symmetry; exact E).
    clear E. vm_compute in Hw. injection Hw as Hw. subst w.
    repeat split.
  - vm_compute in E. discriminate E.
Qed.

(** * The caches *)

(** ** Heaps *)

Lemma upd_eq : forall (A : Type) (h : heap A) (a : addr) (v : option A),
    upd h a v a = v.
Proof. intros. unfold upd. rewrite Nat.eqb_refl. reflexivity. Qed.

Lemma upd_neq : forall (A : Type) (h : heap A) (a x : addr) (v : option A),
    x <> a -> upd h a v x = h x.
Proof.
  intros A h a x v H. unfold upd.
  destruct (Nat.eqb_spec x a); [contradiction | reflexivity].
Qed.

(** ** Counting *)

Lemma count_below_ext : forall (f g : addr -> nat) (n : nat),
    (forall a, (a < n)%nat -> f a = g a) ->
    count_below f n = count_below g n.
Proof.
  intros f g n. induction n as [| n IH]; intros H; simpl.
  - reflexivity.
  - rewrite IH by (intros a Ha; apply H; lia). rewrite (H n) by lia. reflexivity.
Qed.

Lemma count_below_zero : forall (f : addr -> nat) (n : nat),
    (forall a, (a < n)%nat -> f a = 0%nat) -> count_below f n = 0%nat.
Proof.
  intros f n. induction n as [| n IH]; intros H; simpl.
  - reflexivity.
  - rewrite IH by (intros a Ha; apply H; lia). rewrite (H n) by lia. reflexivity.
Qed.

Lemma count_below_is_zero : forall (f : addr -> nat) (n a : nat),
    count_below f n = 0%nat -> (a < n)%nat -> f a = 0%nat.
Proof.
  intros f n a. induction n as [| n IH]; intros H Ha; simpl in H.
  - lia.
  - destruct (Nat.eq_dec a n) as [-> | Hne]; [lia | apply IH; lia].
Qed.

(** Changing the function at one place below [n]. *)
Lemma count_below_change : forall (f g : addr -> nat) (n p : nat),
    (p < n)%nat ->
    (forall a, (a < n)%nat -> a <> p -> f a = g a) ->
    (count_below f n + g p = count_below g n + f p)%nat.
Proof.
  intros f g n p. induction n as [| n IH]; intros Hp H; simpl.
  - lia.
  - destruct (Nat.eq_dec p n) as [-> | Hne].
    + rewrite (count_below_ext f g n) by (intros a Ha; apply H; lia). lia.
    + rewrite (H n) by lia.
      assert (count_below f n + g p = count_below g n + f p)%nat
        by (apply IH; [lia | intros a Ha Hap; apply H; lia]).
      lia.
Qed.

Lemma count_below_positive : forall (f : addr -> nat) (n p : nat),
    (p < n)%nat -> (f p <= count_below f n)%nat.
Proof.
  intros f n p. induction n as [| n IH]; intros Hp; simpl.
  - lia.
  - destruct (Nat.eq_dec p n) as [-> | Hne]; [lia | ].
    assert (f p <= count_below f n)%nat by (apply IH; lia). lia.
Qed.

(** ** Doubly linked lists *)

Lemma dll_ext : forall l h h' prev cur,
    (forall a, In a l -> h' a = h a) ->
    dll h prev cur l -> dll h' prev cur l.
Proof.
  induction l as [| a l IH]; intros h h' prev cur Hext H; simpl in *.
  - exact H.
  - destruct H as [Hcur [e [Ha [Hp Hrest]]]].
    split; [exact Hcur | ]. exists e.
    rewrite Hext by (left; reflexivity).
    repeat split; try assumption.
    apply IH with (h := h); [intros x Hx; apply Hext; right; exact Hx | exact Hrest].
Qed.

Lemma dll_live : forall l h prev cur a,
    dll h prev cur l -> In a l -> exists e, h a = Some e.
Proof.
  induction l as [| x l IH]; intros h prev cur a H Hin; simpl in *.
  - contradiction.
  - destruct H as [_ [e [Hx [_ Hrest]]]].
    destruct Hin as [-> | Hin]; [exists e; exact Hx | eapply IH; eassumption].
Qed.

Lemma dll_head : forall l h prev cur,
    dll h prev cur l -> cur = hd_error l.
Proof.
  intros [| a l] h prev cur H; simpl in *; [exact H | exact (proj1 H)].
Qed.

Lemma last_cons_default : forall (A : Type) (l : list A) (a d d' : A),
    last (a :: l) d = last (a :: l) d'.
Proof.
  intros A l. induction l as [| b l IH]; intros a d d'.
  - reflexivity.
  - change (last (b :: l) d = last (b :: l) d'). apply IH.
Qed.

(** The neighbours of an entry of the list. *)
Lemma dll_neighbours : forall l1 h prev cur x e l2,
    dll h prev cur (l1 ++ x :: l2) -> h x = Some e ->
    sh_prev e = last (map Some l1) prev /\ sh_next e = hd_error l2.
Proof.
  induction l1 as [| a l1 IH]; intros h prev cur x e l2 H Hx; simpl in H.
  - destruct H as [_ [e' [Hx' [Hp Hrest]]]].
    rewrite Hx in Hx'. injection Hx' as <-.
    split; [exact Hp | eapply dll_head; exact Hrest].
  - destruct H as [_ [ea [Ha [Hp Hrest]]]].
    destruct (IH h (Some a) (sh_next ea) x e l2 Hrest Hx) as [H1 H2].
    split; [ | exact H2].
    rewrite H1. destruct l1 as [| b l1]; [reflexivity | ].
    change (last (map Some (b :: l1)) (Some a) = last (map Some (b :: l1)) prev).
    simpl map. apply last_cons_default.
Qed.

Lemma length_below : forall (l : list addr) (n : nat),
    NoDup l -> (forall a, In a l -> (a < n)%nat) -> (List.length l <= n)%nat.
Proof.
  intros l n Hnd Hb.
  rewrite <- (length_seq n 0).
  apply NoDup_incl_length; [exact Hnd | ].
  intros a Ha. apply in_seq. specialize (Hb a Ha). lia.
Qed.

(** The scan of a well-linked list returns, and finds the first entry of
    the instance sought. *)
Lemma find_shader_dll : forall l fuel h prev cur inst,
    dll h prev cur l -> (List.length l <= fuel)%nat ->
    find_shader fuel h cur inst =
    Val (find (fun a => match h a with
                        | Some e => same_instance (sh_instance e) inst
                        | None => false
                        end) l).
Proof.
  induction l as [| a l IH]; intros fuel h prev cur inst H Hlen; simpl in H.
  - subst cur. destruct fuel; reflexivity.
  - destruct H as [-> [e [Ha [_ Hrest]]]].
    simpl in Hlen. destruct fuel as [| fuel]; [lia | ].
    simpl. rewrite Ha.
    destruct (same_instance (sh_instance e) inst); [reflexivity | ].
    apply IH with (prev := Some a); [exact Hrest | lia].
Qed.

(** ** Running computations *)

Lemma bind_val : forall (A B : Type) (m : M A) (k : A -> M B) w r w',
    bind m k w = Val (r, w') ->
    exists a w1, m w = Val (a, w1) /\ k a w1 = Val (r, w').
Proof.
  intros A B m k w r w' H. unfold bind in H.
  destruct (m w) as [[a w1] | |]; try discriminate.
  exists a, w1. split; [reflexivity | exact H].
Qed.

Lemma bind_assoc : forall (A B C : Type) (m : M A) (k1 : A -> M B) (k2 : B -> M C) w,
    bind (bind m k1) k2 w = bind m (fun a => bind (k1 a) k2) w.
Proof.
  intros. unfold bind. destruct (m w) as [[a w1] | |]; reflexivity.
Qed.

Lemma bind_ret : forall (A B : Type) (a : A) (k : A -> M B) w,
    bind (ret a) k w = k a w.
Proof. reflexivity. Qed.

Lemma bind_gets : forall (A B : Type) (f : World -> A) (k : A -> M B) w,
    bind (gets f) k w = k (f w) w.
Proof. reflexivity. Qed.

Lemma bind_modify : forall (B : Type) (f : World -> World) (k : unit -> M B) w,
    bind (modify f) k w = k tt (f w).
Proof. reflexivity. Qed.

Lemma bind_gl : forall (B : Type) (c : GL.call) (k : unit -> M B) w,
    bind (gl c) k w = k tt (set_gl_log (gl_log w ++ [c]) w).
Proof. reflexivity. Qed.

Lemma bind_SetError : forall (B : Type) (msg : string) (k : unit -> M B) w,
    bind (SDL_SetError msg) k w = k tt (set_sdl_error (Some msg) w).
Proof. reflexivity. Qed.

Lemma bind_load_shader : forall (B : Type) a e (k : _ -> M B) w,
    shader_heap w a = Some e ->
    bind (load_shader a) k w = k e w.
Proof. intros. unfold bind, load_shader. rewrite H. reflexivity. Qed.

Lemma bind_update_shader : forall (B : Type) a f e (k : unit -> M B) w,
    shader_heap w a = Some e ->
    bind (update_shader a f) k w
    = k tt (set_shader_heap (upd (shader_heap w) a (Some (f e))) w).
Proof.
  intros. unfold update_shader, bind, load_shader, store_shader.
  rewrite H. rewrite H. reflexivity.
Qed.

Lemma run_update_shader : forall a f e w,
    shader_heap w a = Some e ->
    update_shader a f w
    = Val (tt, set_shader_heap (upd (shader_heap w) a (Some (f e))) w).
Proof.
  intros. unfold update_shader, bind, load_shader, store_shader.
  rewrite H. rewrite H. reflexivity.
Qed.

Lemma bind_load_program : forall (B : Type) a e (k : _ -> M B) w,
    program_heap w a = Some e ->
    bind (load_program a) k w = k e w.
Proof. intros. unfold bind, load_program. rewrite H. reflexivity. Qed.

Lemma bind_update_program : forall (B : Type) a f e (k : unit -> M B) w,
    program_heap w a = Some e ->
    bind (update_program a f) k w
    = k tt (set_program_heap (upd (program_heap w) a (Some (f e))) w).
Proof.
  intros. unfold update_program, bind, load_program, store_program.
  rewrite H. rewrite H. reflexivity.
Qed.

(** Backwards: what a step that returned must have found. *)
Lemma load_shader_val : forall a w e w',
    load_shader a w = Val (e, w') -> shader_heap w a = Some e /\ w' = w.
Proof.
  intros a w e w' H. unfold load_shader in H.
  destruct (shader_heap w a); [ | discriminate].
  injection H as -> ->. split; reflexivity.
Qed.

Lemma load_program_val : forall a w e w',
    load_program a w = Val (e, w') -> program_heap w a = Some e /\ w' = w.
Proof.
  intros a w e w' H. unfold load_program in H.
  destruct (program_heap w a); [ | discriminate].
  injection H as -> ->. split; reflexivity.
Qed.

Lemma update_shader_val : forall a f w u w',
    update_shader a f w = Val (u, w') ->
    exists e, shader_heap w a = Some e /\
              w' = set_shader_heap (upd (shader_heap w) a (Some (f e))) w.
Proof.
  intros a f w u w' H. unfold update_shader, bind, load_shader, store_shader in H.
  destruct (shader_heap w a) as [e |] eqn:E; [ | discriminate].
  rewrite E in H. injection H as _ <-. exists e. split; reflexivity.
Qed.

Lemma update_program_val : forall a f w u w',
    update_program a f w = Val (u, w') ->
    exists e, program_heap w a = Some e /\
              w' = set_program_heap (upd (program_heap w) a (Some (f e))) w.
Proof.
  intros a f w u w' H. unfold update_program, bind, load_program, store_program in H.
  destruct (program_heap w a) as [e |] eqn:E; [ | discriminate].
  rewrite E in H. injection H as _ <-. exists e. split; reflexivity.
Qed.

Lemma free_program_val : forall a w u w',
    free_program (Some a) w = Val (u, w') ->
    exists e, program_heap w a = Some e /\
              w' = set_program_heap (upd (program_heap w) a None) w.
Proof.
  intros a w u w' H. unfold free_program in H.
  destruct (program_heap w a) as [e |] eqn:E; [ | discriminate].
  injection H as _ <-. exists e. split; reflexivity.
Qed.

(** ** Unlinking a shader *)

Lemma relink_payload : forall pe ne a ea,
    sh_id (relink pe ne a ea) = sh_id ea /\
    sh_type (relink pe ne a ea) = sh_type ea /\
    sh_instance (relink pe ne a ea) = sh_instance ea /\
    references (relink pe ne a ea) = references ea.
Proof.
  intros. unfold relink.
  destruct (ptr_eqb ne (Some a)), (ptr_eqb pe (Some a)); repeat split.
Qed.

Lemma ptr_eqb_eq : forall p q, ptr_eqb p q = true <-> p = q.
Proof.
  intros [a |] [b |]; simpl; split; intro H; try discriminate; try reflexivity.
  - apply Nat.eqb_eq in H. subst. reflexivity.
  - injection H as ->. apply Nat.eqb_refl.
Qed.

Lemma ptr_eqb_neq : forall p q, ptr_eqb p q = false <-> p <> q.
Proof.
  intros p q. split; intro H.
  - intro E. apply ptr_eqb_eq in E. congruence.
  - destruct (ptr_eqb p q) eqn:E; [ | reflexivity].
    apply ptr_eqb_eq in E. contradiction.
Qed.

Lemma last_some_in : forall (l : list addr) (b : addr) (d : option addr) (a : addr),
    last (map Some (b :: l)) d = Some a -> In a (b :: l).
Proof.
  induction l as [| c l IH]; intros b d a H.
  - simpl in H. injection H as ->. left. reflexivity.
  - change (last (map Some (c :: l)) d = Some a) in H.
    right. exact (IH c d a H).
Qed.

Lemma dll_unlink : forall l1 h h' prev cur x e l2,
    dll h prev cur (l1 ++ x :: l2) ->
    NoDup (l1 ++ x :: l2) ->
    (forall p, prev = Some p -> ~ In p (l1 ++ x :: l2)) ->
    h x = Some e ->
    (forall a ea, In a (l1 ++ l2) -> h a = Some ea ->
                  h' a = Some (relink (sh_prev e) (sh_next e) a ea)) ->
    dll h' prev (match l1 with [] => sh_next e | _ => cur end) (l1 ++ l2).
Proof.
  induction l1 as [| a l1 IH]; intros h h' prev cur x e l2 Hdll Hnd Hprev Hx Hh'.
  - simpl in *. destruct Hdll as [_ [e' [Hx' [Hp Hrest]]]].
    rewrite Hx in Hx'. injection Hx' as <-.
    destruct l2 as [| n l2]; simpl in *; [exact Hrest | ].
    destruct Hrest as [Hn [en [Hen [Hpn Hrest]]]].
    split; [exact Hn | ].
    exists (relink (sh_prev e) (sh_next e) n en).
    split; [apply Hh'; [left; reflexivity | exact Hen] | ].
    assert (Hxn : x <> n).
    { intro E. subst n. inversion Hnd as [| ? ? Hnot _]. apply Hnot. left. reflexivity. }
    assert (Hpe : ptr_eqb (sh_prev e) (Some n) = false).
    { apply ptr_eqb_neq. rewrite Hp. intro E. apply (Hprev n E). right. left. reflexivity. }
    unfold relink. rewrite Hn, ptr_eqb_refl, Hpe. simpl.
    split; [exact Hp | ].
    apply dll_ext with (h := h); [ | exact Hrest].
    intros c Hc.
    destruct (dll_live _ _ _ _ c Hrest Hc) as [ec Hec].
    rewrite (Hh' c ec) by (try (right; exact Hc); exact Hec).
    rewrite Hec. f_equal. unfold relink.
    assert (Hcn : c <> n).
    { intro E. subst c. inversion Hnd as [| ? ? _ Hnd']. inversion Hnd' as [| ? ? Hnot _].
      contradiction. }
    assert (H1 : ptr_eqb (Some n) (Some c) = false)
      by (apply ptr_eqb_neq; congruence).
    assert (H2 : ptr_eqb (sh_prev e) (Some c) = false).
    { apply ptr_eqb_neq. rewrite Hp. intro E. apply (Hprev c E). right. right. exact Hc. }
    rewrite Hn, H1, H2. reflexivity.
  - simpl in Hdll. destruct Hdll as [Hcur [ea [Ha [Hp Hrest]]]].
    simpl in Hnd. apply NoDup_cons_iff in Hnd as [Hnota Hnd'].
    destruct (dll_neighbours _ _ _ _ _ _ _ Hrest Hx) as [Hpe Hne].
    assert (Hax : a <> x).
    { intro E. subst. apply Hnota. apply in_or_app. right. left. reflexivity. }
    assert (Hnext : ptr_eqb (sh_next e) (Some a) = false).
    { apply ptr_eqb_neq. rewrite Hne. intro E.
      destruct l2 as [| n l2]; [discriminate | ]. simpl in E. injection E as ->.
      apply Hnota. apply in_or_app. right. right. left. reflexivity. }
    assert (IH' : dll h' (Some a) (match l1 with [] => sh_next e | _ => sh_next ea end)
                      (l1 ++ l2)).
    { apply IH with (h := h) (x := x); try assumption.
      - intros p E. injection E as <-. exact Hnota.
      - intros c ec Hc Hec. apply Hh'; [right; exact Hc | exact Hec]. }
    simpl. split; [exact Hcur | ].
    exists (relink (sh_prev e) (sh_next e) a ea).
    split; [apply Hh'; [left; reflexivity | exact Ha] | ].
    unfold relink. rewrite Hnext.
    destruct l1 as [| b l1].
    + simpl in Hpe. rewrite Hpe, ptr_eqb_refl. simpl.
      split; [exact Hp | exact IH'].
    + assert (Hprevx : ptr_eqb (sh_prev e) (Some a) = false).
      { apply ptr_eqb_neq. rewrite Hpe. intro E.
        apply last_some_in in E.
        apply Hnota. apply in_or_app. left. exact E. }
      rewrite Hprevx. split; [exact Hp | exact IH'].
Qed.

Lemma in_middle_neq : forall (l1 l2 : list addr) (x a : addr),
    NoDup (l1 ++ x :: l2) -> In a (l1 ++ l2) -> a <> x.
Proof.
  intros l1 l2 x a Hnd Hin E. subst a.
  apply NoDup_remove_2 in Hnd. contradiction.
Qed.

Lemma in_middle_split : forall (l1 l2 : list addr) (x a : addr),
    In a (l1 ++ x :: l2) -> a <> x -> In a (l1 ++ l2).
Proof.
  intros l1 l2 x a Hin Hne. apply in_app_or in Hin. apply in_or_app.
  destruct Hin as [H | [H | H]]; [left; exact H | congruence | right; exact H].
Qed.

Lemma in_middle_weaken : forall (l1 l2 : list addr) (x a : addr),
    In a (l1 ++ l2) -> In a (l1 ++ x :: l2).
Proof.
  intros l1 l2 x a Hin. apply in_app_or in Hin. apply in_or_app.
  destruct Hin as [H | H]; [left; exact H | right; right; exact H].
Qed.

(** The run of [GLES2_EvictShader] on an entry of a well-linked list. *)
Lemma EvictShader_run : forall w l1 x l2 e,
    dll (shader_heap w) None (shader_cache_head w) (l1 ++ x :: l2) ->
    NoDup (l1 ++ x :: l2) ->
    shader_heap w x = Some e ->
    exists sh',
      GLES2_EvictShader x w
      = Val (tt, set_gl_log (gl_log w ++ [glDeleteShader (sh_id e)])
                   (with_shaders sh'
                      (match l1 with [] => sh_next e | _ => shader_cache_head w end)
                      (shader_cache_count w - 1) w)) /\
      sh' x = None /\
      (forall a ea, a <> x -> shader_heap w a = Some ea ->
                    sh' a = Some (relink (sh_prev e) (sh_next e) a ea)) /\
      (forall a, shader_heap w a = None -> sh' a = None).
Proof.
  intros w l1 x l2 e Hdll Hnd Hx.
  destruct (dll_neighbours _ _ _ _ _ _ _ Hdll Hx) as [Hpe Hne].
  assert (Hhead : shader_cache_head w = hd_error (l1 ++ x :: l2))
    by (eapply dll_head; exact Hdll).
  (* the neighbours are live entries, distinct from [x] and from each other *)
  assert (Hn : forall n, sh_next e = Some n ->
                 In n l2 /\ n <> x /\ exists en, shader_heap w n = Some en).
  { intros n E. rewrite Hne in E. destruct l2 as [| n' l2]; [discriminate | ].
    injection E as ->.
    assert (Hin : In n (l1 ++ n :: l2)) by (apply in_or_app; right; left; reflexivity).
    split; [left; reflexivity | ]. split.
    - apply (in_middle_neq l1 (n :: l2) x n Hnd Hin).
    - apply (dll_live _ _ _ _ n Hdll). apply in_or_app. right. right. left. reflexivity. }
  assert (Hp : forall p, sh_prev e = Some p ->
                 In p l1 /\ p <> x /\ exists ep, shader_heap w p = Some ep).
  { intros p E. rewrite Hpe in E. destruct l1 as [| b l1]; [discriminate | ].
    apply last_some_in in E.
    split; [exact E | ]. split.
    - apply (in_middle_neq (b :: l1) l2 x p Hnd). apply in_or_app. left. exact E.
    - apply (dll_live _ _ _ _ p Hdll). apply in_or_app. left. exact E. }
  assert (Hnp : forall n p, sh_next e = Some n -> sh_prev e = Some p -> n <> p).
  { intros n p En Ep E. subst p.
    destruct (Hn n En) as [H2 _]. destruct (Hp n Ep) as [H1 _].
    apply NoDup_remove_1 in Hnd.
    revert H1 H2. clear - Hnd. revert Hnd. induction l1 as [| b l1 IH]; intros Hnd H1 H2.
    - contradiction.
    - simpl in Hnd. apply NoDup_cons_iff in Hnd as [Hnot Hnd].
      destruct H1 as [-> | H1].
      + apply Hnot. apply in_or_app. right. exact H2.
      + exact (IH Hnd H1 H2). }
  assert (Hishead : ptr_eqb (shader_cache_head w) (Some x)
                    = match l1 with [] => true | _ => false end).
  { rewrite Hhead. destruct l1 as [| b l1]; simpl.
    - apply Nat.eqb_refl.
    - apply Nat.eqb_neq. intro E. subst b.
      simpl in Hnd. apply NoDup_cons_iff in Hnd as [Hnot _].
      apply Hnot. apply in_or_app. right. left. reflexivity. }
  assert (Hwhen : forall (B : Type) (k : unit -> M B) w1 (ne : option addr),
             bind (when (match l1 with [] => true | _ => false end)
                     (modify (set_shader_cache_head ne))) k w1
             = k tt (set_shader_cache_head
                       (match l1 with [] => ne | _ => shader_cache_head w1 end) w1)).
  { intros B k w1 ne. destruct l1; [reflexivity | ]. unfold when.
    rewrite bind_ret. destruct w1; reflexivity. }
  unfold GLES2_EvictShader.
  destruct (sh_next e) as [n |] eqn:En; destruct (sh_prev e) as [p |] eqn:Ep.
  - destruct (Hn n eq_refl) as [_ [Hnx [en Hen]]].
    destruct (Hp p eq_refl) as [_ [Hpx [ep Hep]]].
    specialize (Hnp n p eq_refl eq_refl).
    eexists. split.
    + rewrite (bind_load_shader _ x e) by exact Hx.
      rewrite En, Ep. unfold if_nonnull.
      rewrite (bind_update_shader _ n _ en) by exact Hen.
      rewrite (bind_load_shader _ x e) by (simpl; rewrite upd_neq by congruence; exact Hx).
      rewrite Ep, En.
      rewrite (bind_update_shader _ p _ ep)
        by (simpl; rewrite upd_neq by congruence; exact Hep).
      rewrite bind_gets.
      rewrite (bind_load_shader _ x e)
        by (simpl; rewrite !upd_neq by congruence; exact Hx).
      simpl shader_cache_head. rewrite Hishead, En, Hwhen, bind_modify.
      rewrite (bind_load_shader _ x e)
        by (simpl; rewrite !upd_neq by congruence; exact Hx).
      rewrite bind_gl. unfold free_shader. simpl.
      rewrite !upd_neq by congruence. rewrite Hx. reflexivity.
    + cbv beta. split; [rewrite Nat.eqb_refl; reflexivity | ]. split.
      * intros a ea Hax Ha.
        destruct (Nat.eqb_spec a x) as [| _]; [contradiction | ].
        unfold relink, upd. simpl.
        destruct (Nat.eqb_spec a p) as [-> | Hap].
        -- destruct (Nat.eqb_spec p n); [congruence | ].
           rewrite Nat.eqb_refl.
           replace (Nat.eqb n p) with false by (symmetry; apply Nat.eqb_neq; congruence).
           congruence.
        -- replace (Nat.eqb p a) with false by (symmetry; apply Nat.eqb_neq; congruence).
           destruct (Nat.eqb_spec a n) as [-> | Han].
           ++ rewrite Nat.eqb_refl. congruence.
           ++ replace (Nat.eqb n a) with false by (symmetry; apply Nat.eqb_neq; congruence).
              exact Ha.
      * intros a Ha. unfold upd.
        destruct (Nat.eqb_spec a x); [reflexivity | ].
        destruct (Nat.eqb_spec a p); [congruence | ].
        destruct (Nat.eqb_spec a n); [congruence | exact Ha].
  - destruct (Hn n eq_refl) as [_ [Hnx [en Hen]]].
    eexists. split.
    + rewrite (bind_load_shader _ x e) by exact Hx.
      rewrite En, Ep. unfold if_nonnull.
      rewrite (bind_update_shader _ n _ en) by exact Hen.
      rewrite (bind_load_shader _ x e) by (simpl; rewrite upd_neq by congruence; exact Hx).
      rewrite Ep, bind_ret, bind_gets.
      rewrite (bind_load_shader _ x e)
        by (simpl; rewrite !upd_neq by congruence; exact Hx).
      simpl shader_cache_head. rewrite Hishead, En, Hwhen, bind_modify.
      rewrite (bind_load_shader _ x e)
        by (simpl; rewrite !upd_neq by congruence; exact Hx).
      rewrite bind_gl. unfold free_shader. simpl.
      rewrite !upd_neq by congruence. rewrite Hx. reflexivity.
    + cbv beta. split; [rewrite Nat.eqb_refl; reflexivity | ]. split.
      * intros a ea Hax Ha.
        destruct (Nat.eqb_spec a x) as [| _]; [contradiction | ].
        unfold relink, upd. simpl.
        destruct (Nat.eqb_spec a n) as [-> | Han].
        -- rewrite Nat.eqb_refl. congruence.
        -- replace (Nat.eqb n a) with false by (symmetry; apply Nat.eqb_neq; congruence).
           exact Ha.
      * intros a Ha. unfold upd.
        destruct (Nat.eqb_spec a x); [reflexivity | ].
        destruct (Nat.eqb_spec a n); [congruence | exact Ha].
  - destruct (Hp p eq_refl) as [_ [Hpx [ep Hep]]].
    eexists. split.
    + rewrite (bind_load_shader _ x e) by exact Hx.
      rewrite En, Ep. unfold if_nonnull.
      rewrite bind_ret.
      rewrite (bind_load_shader _ x e) by exact Hx.
      rewrite Ep, En.
      rewrite (bind_update_shader _ p _ ep) by exact Hep.
      rewrite bind_gets.
      rewrite (bind_load_shader _ x e)
        by (simpl; rewrite !upd_neq by congruence; exact Hx).
      simpl shader_cache_head. rewrite Hishead, En, Hwhen, bind_modify.
      rewrite (bind_load_shader _ x e)
        by (simpl; rewrite !upd_neq by congruence; exact Hx).
      rewrite bind_gl. unfold free_shader. simpl.
      rewrite !upd_neq by congruence. rewrite Hx. reflexivity.
    + cbv beta. split; [rewrite Nat.eqb_refl; reflexivity | ]. split.
      * intros a ea Hax Ha.
        destruct (Nat.eqb_spec a x) as [| _]; [contradiction | ].
        unfold relink, upd. simpl.
        destruct (Nat.eqb_spec a p) as [-> | Hap].
        -- rewrite Nat.eqb_refl. congruence.
        -- replace (Nat.eqb p a) with false by (symmetry; apply Nat.eqb_neq; congruence).
           exact Ha.
      * intros a Ha. unfold upd.
        destruct (Nat.eqb_spec a x); [reflexivity | ].
        destruct (Nat.eqb_spec a p); [congruence | exact Ha].
  - eexists. split.
    + rewrite (bind_load_shader _ x e) by exact Hx.
      rewrite En, Ep. unfold if_nonnull.
      rewrite bind_ret.
      rewrite (bind_load_shader _ x e) by exact Hx.
      rewrite Ep, bind_ret, bind_gets.
      rewrite (bind_load_shader _ x e) by exact Hx.
      rewrite Hishead, En, Hwhen, bind_modify.
      rewrite (bind_load_shader _ x e) by exact Hx.
      rewrite bind_gl. unfold free_shader. simpl.
      rewrite Hx. reflexivity.
    + cbv beta. split; [rewrite Nat.eqb_refl; reflexivity | ]. split.
      * intros a ea Hax Ha.
        destruct (Nat.eqb_spec a x) as [| _]; [contradiction | ].
        unfold relink. simpl. exact Ha.
      * intros a Ha. unfold upd.
        destruct (Nat.eqb_spec a x); [reflexivity | exact Ha].
Qed.

Lemma relink_same_payload : forall pe ne a ea, payload (relink pe ne a ea) = payload ea.
Proof.
  intros. unfold payload.
  destruct (relink_payload pe ne a ea) as [H1 [H2 [H3 H4]]].
  rewrite H1, H2, H3, H4. reflexivity.
Qed.

Lemma payload_instance : forall e e', payload e' = payload e -> sh_instance e' = sh_instance e.
Proof. intros e e' H. unfold payload in H. congruence. Qed.

Lemma payload_references : forall e e', payload e' = payload e -> references e' = references e.
Proof. intros e e' H. unfold payload in H. congruence. Qed.

Lemma payload_id : forall e e', payload e' = payload e -> sh_id e' = sh_id e.
Proof. intros e e' H. unfold payload in H. congruence. Qed.

(** A shader in no pair is pointed to by no pair. *)
Lemma held_zero_not_used : forall pairs b x p v f,
    held pairs b x = 0%nat -> (p < b)%nat -> pairs p = Some (v, f) ->
    v <> x /\ f <> x.
Proof.
  intros pairs b x p v f H Hp Hpair.
  unfold held in H.
  pose proof (count_below_is_zero _ _ p H Hp) as Hu. simpl in Hu.
  rewrite Hpair in Hu. simpl in Hu.
  split; intro E; subst.
  - rewrite Nat.eqb_refl in Hu. simpl in Hu. lia.
  - rewrite Nat.eqb_refl in Hu. simpl in Hu. lia.
Qed.

(** Evicting an entry that no pair counted uses keeps the cache sound. *)
Lemma EvictShader_ok : forall w b pairs extra l1 x l2 e,
    shaders_ok (shader_heap w) (shader_cache_head w) (shader_cache_count w)
               b pairs extra (l1 ++ x :: l2) ->
    shader_heap w x = Some e ->
    held pairs b x = 0%nat ->
    exists sh' hd',
      GLES2_EvictShader x w
      = Val (tt, set_gl_log (gl_log w ++ [glDeleteShader (sh_id e)])
                   (with_shaders sh' hd' (shader_cache_count w - 1) w)) /\
      shaders_ok sh' hd' (shader_cache_count w - 1) b pairs extra (l1 ++ l2) /\
      sh' x = None /\
      (forall a ea, a <> x -> shader_heap w a = Some ea ->
                    exists ea', sh' a = Some ea' /\ payload ea' = payload ea) /\
      (forall a ea', sh' a = Some ea' ->
                     a <> x /\ exists ea, shader_heap w a = Some ea /\ payload ea' = payload ea).
Proof.
  intros w b pairs extra l1 x l2 e Hok Hx Hheld.
  destruct Hok as [Hdll Hnd Hlive Hinst Hbound Hcount Hpb Hpairs Hrefs].
  destruct (EvictShader_run w l1 x l2 e Hdll Hnd Hx) as [sh' [Hrun [Hgone [Hkept Hnone]]]].
  assert (Hback : forall a ea', sh' a = Some ea' ->
            a <> x /\ exists ea, shader_heap w a = Some ea /\ payload ea' = payload ea).
  { intros a ea' Ha.
    assert (Hax : a <> x) by (intro E; subst; congruence).
    split; [exact Hax | ].
    destruct (shader_heap w a) as [ea |] eqn:Hea.
    - exists ea. split; [reflexivity | ].
      rewrite (Hkept a ea Hax Hea) in Ha. injection Ha as <-.
      apply relink_same_payload.
    - rewrite (Hnone a Hea) in Ha. discriminate. }
  exists sh', (match l1 with [] => sh_next e | _ => shader_cache_head w end).
  split; [exact Hrun | ].
  split; [ | split; [exact Hgone | split; [ | exact Hback]]].
  - constructor.
    + apply dll_unlink with (h := shader_heap w) (x := x); try assumption.
      * intros p E. discriminate.
      * intros a ea Ha Hea. apply Hkept; [ | exact Hea].
        apply (in_middle_neq l1 l2 x a Hnd Ha).
    + apply NoDup_remove_1 in Hnd. exact Hnd.
    + intros a ea' Ha. destruct (Hback a ea' Ha) as [Hax [ea [Hea _]]].
      apply in_middle_split with (x := x); [eapply Hlive; exact Hea | exact Hax].
    + intros a c ea' ec' Ha Hc Hsame.
      destruct (Hback a ea' Ha) as [_ [ea [Hea Hpa]]].
      destruct (Hback c ec' Hc) as [_ [ec [Hec Hpc]]].
      apply (Hinst a c ea ec Hea Hec).
      rewrite <- (payload_instance _ _ Hpa), <- (payload_instance _ _ Hpc). exact Hsame.
    + intros a Ha. apply Hbound. apply in_middle_weaken. exact Ha.
    + rewrite Hcount. rewrite !length_app. simpl. lia.
    + exact Hpb.
    + intros p v f Hp.
      destruct (Hpairs p v f Hp) as [Hv Hf].
      assert (Hpb' : (p < b)%nat) by (apply Hpb; congruence).
      destruct (held_zero_not_used pairs b x p v f Hheld Hpb' Hp) as [Hvx Hfx].
      split; apply in_middle_split with (x := x); assumption.
    + intros a ea' Ha. destruct (Hback a ea' Ha) as [_ [ea [Hea Hpa]]].
      rewrite (payload_references _ _ Hpa). apply Hrefs. exact Hea.
  - intros a ea Hax Hea. exists (relink (sh_prev e) (sh_next e) a ea).
    split; [apply Hkept; assumption | apply relink_same_payload].
Qed.

(** Links are all that [dll] reads. *)
Lemma dll_links : forall l h h' prev cur,
    (forall a e, In a l -> h a = Some e ->
                 exists e', h' a = Some e' /\ sh_prev e' = sh_prev e
                            /\ sh_next e' = sh_next e) ->
    dll h prev cur l -> dll h' prev cur l.
Proof.
  induction l as [| a l IH]; intros h h' prev cur Hext H; simpl in *.
  - exact H.
  - destruct H as [Hcur [e [Ha [Hp Hrest]]]].
    destruct (Hext a e (or_introl eq_refl) Ha) as [e' [Ha' [Hp' Hn']]].
    split; [exact Hcur | ]. exists e'.
    split; [exact Ha' | ]. split; [congruence | ].
    rewrite Hn'. apply IH with (h := h); [ | exact Hrest].
    intros x ex Hx Hex. apply Hext; [right; exact Hx | exact Hex].
Qed.

Lemma held_ext : forall pairs pairs' b a,
    (forall p, (p < b)%nat -> pairs' p = pairs p) ->
    held pairs' b a = held pairs b a.
Proof.
  intros pairs pairs' b a H. unfold held.
  apply count_below_ext. intros p Hp. rewrite (H p Hp). reflexivity.
Qed.

Lemma shaders_ok_ext : forall sh hd cnt b pairs pairs' extra extra' l,
    (forall p, pairs' p = pairs p) ->
    (forall a, extra' a = extra a) ->
    shaders_ok sh hd cnt b pairs extra l ->
    shaders_ok sh hd cnt b pairs' extra' l.
Proof.
  intros sh hd cnt b pairs pairs' extra extra' l Hp He
         [Hdll Hnd Hlive Hinst Hbound Hcount Hpb Hpairs Hrefs].
  constructor; try assumption.
  - intros p H. apply Hpb. rewrite <- Hp. exact H.
  - intros p v f H. apply (Hpairs p v f). rewrite <- Hp. exact H.
  - intros a e Ha. rewrite He.
    rewrite (held_ext pairs pairs' b a) by (intros; apply Hp).
    apply Hrefs. exact Ha.
Qed.

(** More addresses handed out, none of them holding a program. *)
Lemma held_grow : forall pairs b b' a,
    (b <= b')%nat -> (forall p, pairs p <> None -> (p < b)%nat) ->
    held pairs b' a = held pairs b a.
Proof.
  intros pairs b b' a Hle Hpb. induction Hle as [| b' Hle IH].
  - reflexivity.
  - unfold held in *. simpl. rewrite IH.
    destruct (pairs b') as [[v f] |] eqn:E.
    + assert (b' < b)%nat by (apply Hpb; congruence). lia.
    + simpl. lia.
Qed.

Lemma shaders_ok_grow : forall sh hd cnt b b' pairs extra l,
    (b <= b')%nat ->
    shaders_ok sh hd cnt b pairs extra l ->
    shaders_ok sh hd cnt b' pairs extra l.
Proof.
  intros sh hd cnt b b' pairs extra l Hle
         [Hdll Hnd Hlive Hinst Hbound Hcount Hpb Hpairs Hrefs].
  constructor; try assumption.
  - intros a Ha. specialize (Hbound a Ha). lia.
  - intros p H. specialize (Hpb p H). lia.
  - intros a e Ha. rewrite (held_grow pairs b b' a Hle Hpb). apply Hrefs. exact Ha.
Qed.

(** Changing the reference count of one entry by [d]. *)
Lemma bump_ok : forall sh hd cnt b pairs extra l s e d,
    shaders_ok sh hd cnt b pairs extra l ->
    sh s = Some e ->
    shaders_ok (upd sh s (Some (set_references (references e + d) e))) hd cnt b pairs
               (fun a => if Nat.eqb a s then extra a + d else extra a) l.
Proof.
  intros sh hd cnt b pairs extra l s e d
         [Hdll Hnd Hlive Hinst Hbound Hcount Hpb Hpairs Hrefs] Hs.
  constructor; try assumption.
  - apply dll_links with (h := sh); [ | exact Hdll].
    intros a ea Ha Hea. unfold upd.
    destruct (Nat.eqb_spec a s) as [-> | Hne].
    + rewrite Hs in Hea. injection Hea as <-.
      eexists. split; [reflexivity | split; reflexivity].
    + exists ea. split; [exact Hea | split; reflexivity].
  - intros a ea Ha. apply (Hlive a) with (e := if Nat.eqb a s then e else ea).
    unfold upd in Ha. destruct (Nat.eqb_spec a s) as [-> | Hne]; [exact Hs | exact Ha].
  - intros a c ea ec Ha Hc Hsame.
    assert (Ha' : exists ea0, sh a = Some ea0 /\ sh_instance ea0 = sh_instance ea).
    { unfold upd in Ha. destruct (Nat.eqb_spec a s) as [-> | Hne].
      - injection Ha as <-. exists e. split; [exact Hs | reflexivity].
      - exists ea. split; [exact Ha | reflexivity]. }
    assert (Hc' : exists ec0, sh c = Some ec0 /\ sh_instance ec0 = sh_instance ec).
    { unfold upd in Hc. destruct (Nat.eqb_spec c s) as [-> | Hne].
      - injection Hc as <-. exists e. split; [exact Hs | reflexivity].
      - exists ec. split; [exact Hc | reflexivity]. }
    destruct Ha' as [ea0 [Hea0 Hia]]. destruct Hc' as [ec0 [Hec0 Hic]].
    apply (Hinst a c ea0 ec0 Hea0 Hec0). rewrite Hia, Hic. exact Hsame.
  - intros a ea Ha. unfold upd in Ha.
    destruct (Nat.eqb_spec a s) as [-> | Hne].
    + injection Ha as <-. simpl. rewrite (Hrefs s e Hs). lia.
    + apply Hrefs. exact Ha.
Qed.

(** [release_shader] on an entry that holds an extra reference. *)
Lemma release_ok : forall w b pairs extra l s e,
    shaders_ok (shader_heap w) (shader_cache_head w) (shader_cache_count w)
               b pairs extra l ->
    shader_heap w s = Some e ->
    1 <= extra s ->
    exists sh' hd' cnt' log' l',
      release_shader s w = Val (tt, set_gl_log log' (with_shaders sh' hd' cnt' w)) /\
      shaders_ok sh' hd' cnt' b pairs
                 (fun a => if Nat.eqb a s then extra a - 1 else extra a) l' /\
      (forall a ea', sh' a = Some ea' ->
         exists ea, shader_heap w a = Some ea /\
                    sh_instance ea' = sh_instance ea /\
                    references ea' = references ea - (if Nat.eqb a s then 1 else 0) /\
                    (a = s -> 0 < references ea')) /\
      (forall a ea, shader_heap w a = Some ea ->
         (a = s /\ references ea - 1 <= 0 /\ sh' a = None) \/
         (exists ea', sh' a = Some ea')).
Proof.
  intros w b pairs extra l s e Hok Hs Hextra.
  pose proof (bump_ok _ _ _ _ _ _ _ s e (-1) Hok Hs) as Hok1.
  set (e1 := set_references (references e + -1) e) in *.
  set (w1 := set_shader_heap (upd (shader_heap w) s (Some e1)) w).
  assert (Hs1 : shader_heap w1 s = Some e1) by (simpl; apply upd_eq).
  assert (Hrun1 : forall (B : Type) (k : unit -> M B),
             bind (update_shader s (fun e => set_references (references e - 1) e)) k w
             = k tt w1).
  { intros B k. rewrite (bind_update_shader _ s _ e) by exact Hs. reflexivity. }
  unfold release_shader. rewrite Hrun1.
  rewrite (bind_load_shader _ s e1) by exact Hs1.
  destruct (references e1 <=? 0) eqn:Hle; unfold when.
  - (* evicted *)
    apply Z.leb_le in Hle.
    assert (Hin : In s l).
    { destruct Hok as [_ _ Hlive _ _ _ _ _ _]. eapply Hlive. exact Hs. }
    apply in_split in Hin. destruct Hin as [l1 [l2 ->]].
    assert (Hheld : held pairs b s = 0%nat).
    { destruct Hok as [_ _ _ _ _ _ _ _ Hrefs]. specialize (Hrefs s e Hs).
      simpl in Hle. lia. }
    destruct (EvictShader_ok w1 b pairs _ l1 s l2 e1 Hok1 Hs1 Hheld)
      as [sh' [hd' [Hrun [Hok' [Hgone [Hkept Hback]]]]]].
    exists sh', hd', (shader_cache_count w - 1),
           (gl_log w ++ [glDeleteShader (sh_id e1)]), (l1 ++ l2).
    split; [rewrite Hrun; reflexivity | ].
    split; [ | split].
    + eapply shaders_ok_ext; [ | | exact Hok']; [reflexivity | ].
      intro a. simpl. destruct (Nat.eqb a s); lia.
    + intros a ea' Ha. destruct (Hback a ea' Ha) as [Hne [ea1 [Hea1 Hp]]].
      simpl in Hea1. rewrite upd_neq in Hea1 by exact Hne.
      exists ea1. split; [exact Hea1 | ].
      split; [apply payload_instance; exact Hp | ].
      split; [ | intro; contradiction].
      rewrite (payload_references _ _ Hp).
      destruct (Nat.eqb_spec a s); [contradiction | lia].
    + intros a ea Ha. destruct (Nat.eq_dec a s) as [-> | Hne].
      * left. rewrite Hs in Ha. injection Ha as <-.
        split; [reflexivity | ]. split; [simpl in Hle; lia | exact Hgone].
      * right. destruct (Hkept a ea Hne) as [ea' [Hea' _]].
        -- simpl. rewrite upd_neq by exact Hne. exact Ha.
        -- exists ea'. exact Hea'.
  - (* kept *)
    apply Z.leb_gt in Hle.
    exists (upd (shader_heap w) s (Some e1)), (shader_cache_head w),
           (shader_cache_count w), (gl_log w), l.
    split; [destruct w; reflexivity | ].
    split; [ | split].
    + eapply shaders_ok_ext; [ | | exact Hok1]; [reflexivity | ].
      intro a. simpl. destruct (Nat.eqb a s); lia.
    + intros a ea' Ha. unfold upd in Ha.
      destruct (Nat.eqb_spec a s) as [-> | Hne].
      * injection Ha as <-. exists e. split; [exact Hs | ].
        split; [reflexivity | ]. split; [simpl; lia | intros _; exact Hle].
      * exists ea'. split; [exact Ha | ]. split; [reflexivity | ].
        split; [lia | intro; contradiction].
    + intros a ea Ha. right. unfold upd.
      destruct (Nat.eqb_spec a s); eexists; [reflexivity | exact Ha].
Qed.

(** ** [GLES2_CacheShader] on a sound cache *)

Ltac wsimpl :=
  cbn [SDL_CurrentContext context shader_formats shader_cache_count
       shader_cache_head program_cache_count program_cache_head
       program_cache_tail current_program updateSize shader_heap program_heap
       brk window_w window_h gl_log sdl_error
       set_SDL_CurrentContext set_context set_shader_formats
       set_shader_cache_count set_shader_cache_head set_program_cache_count
       set_program_cache_head set_program_cache_tail set_current_program
       set_updateSize set_shader_heap set_program_heap set_brk set_gl_log
       set_sdl_error with_shaders set_window_size].

Ltac wsimpl_in H :=
  cbn [SDL_CurrentContext context shader_formats shader_cache_count
       shader_cache_head program_cache_count program_cache_head
       program_cache_tail current_program updateSize shader_heap program_heap
       brk window_w window_h gl_log sdl_error
       set_SDL_CurrentContext set_context set_shader_formats
       set_shader_cache_count set_shader_cache_head set_program_cache_count
       set_program_cache_head set_program_cache_tail set_current_program
       set_updateSize set_shader_heap set_program_heap set_brk set_gl_log
       set_sdl_error with_shaders set_window_size] in H.

(** Runs the steps that cannot go wrong. *)
Ltac mrun :=
  repeat first
    [ rewrite bind_assoc
    | rewrite bind_gl
    | rewrite bind_ret
    | rewrite bind_gets
    | rewrite bind_modify
    | rewrite bind_SetError ];
  wsimpl.

Lemma bind_lift : forall (A B : Type) (f : World -> Res A) (k : A -> M B) w a,
    f w = Val a -> bind (lift f) k w = k a w.
Proof. intros A B f k w a H. unfold bind, lift. rewrite H. reflexivity. Qed.

Lemma bind_calloc_shader : forall (B : Type) init (k : option addr -> M B) w,
    bind (calloc_shader true init) k w
    = k (Some (brk w))
        (set_brk (S (brk w))
           (set_shader_heap (upd (shader_heap w) (brk w) (Some init)) w)).
Proof. reflexivity. Qed.

Lemma bind_OutOfMemory : forall (B : Type) (k : unit -> M B) w,
    bind SDL_OutOfMemory k w = k tt (set_sdl_error (Some "Out of memory"%string) w).
Proof. reflexivity. Qed.

Lemma find_none : forall (A : Type) (f : A -> bool) (l : list A),
    find f l = None -> forall a, In a l -> f a = false.
Proof.
  intros A f l H a Ha. apply (find_none f l H a Ha).
Qed.

Section CacheShader.

Variable GetShader : GLES2_ShaderType -> Z -> option GLES2_Shader.

Lemma CacheShader_undefined : forall type blendMode o w,
    GetShader type blendMode = None ->
    GLES2_CacheShader GetShader type blendMode o w
    = Val (None, set_sdl_error
                   (Some "No shader matching the requested characteristics was found"%string) w).
Proof.
  intros type blendMode o w H. unfold GLES2_CacheShader. rewrite H. reflexivity.
Qed.

Lemma CacheShader_unsupported : forall type blendMode o w shader,
    GetShader type blendMode = Some shader ->
    find_instance shader (shader_formats w) = None ->
    GLES2_CacheShader GetShader type blendMode o w
    = Val (None, set_sdl_error
                   (Some "The specified shader cannot be loaded on the current platform"%string) w).
Proof.
  intros type blendMode o w shader H1 H2. unfold GLES2_CacheShader.
  rewrite H1, bind_gets, H2. reflexivity.
Qed.

(** The scan of the shader cache, on a sound cache. *)
Lemma find_shader_ok : forall w l instance,
    consistent w l ->
    (exists a ea, shader_heap w a = Some ea /\
                  same_instance (sh_instance ea) instance = true /\
                  find_shader (brk w) (shader_heap w) (shader_cache_head w) instance
                  = Val (Some a)) \/
    ((forall a ea, shader_heap w a = Some ea ->
                   same_instance (sh_instance ea) instance = false) /\
     find_shader (brk w) (shader_heap w) (shader_cache_head w) instance = Val None).
Proof.
  intros w l instance [[Hdll Hnd Hlive Hinst Hbound Hcount Hpb Hpairs Hrefs] _].
  rewrite (find_shader_dll l (brk w) _ None _ instance Hdll)
    by (apply length_below; assumption).
  destruct (find _ l) as [a |] eqn:Hfind.
  - left. apply find_some in Hfind. destruct Hfind as [Hin Hsame].
    destruct (shader_heap w a) as [ea |] eqn:Hea; [ | discriminate].
    exists a, ea. repeat split; assumption.
  - right. split; [ | reflexivity].
    intros a ea Hea. pose proof (find_none _ _ l Hfind a (Hlive a ea Hea)) as H.
    simpl in H. rewrite Hea in H. exact H.
Qed.

Lemma CacheShader_hit : forall type blendMode o w l shader instance a ea,
    consistent w l ->
    GetShader type blendMode = Some shader ->
    find_instance shader (shader_formats w) = Some instance ->
    shader_heap w a = Some ea ->
    same_instance (sh_instance ea) instance = true ->
    GLES2_CacheShader GetShader type blendMode o w = Val (Some a, w).
Proof.
  intros type blendMode o w l shader instance a ea Hc H1 H2 Ha Hsame.
  unfold GLES2_CacheShader. rewrite H1, bind_gets, H2.
  destruct (find_shader_ok w l instance Hc) as [[c [ec [Hec [Hsc Hfind]]]] | [Hnone _]].
  - rewrite (bind_lift _ _ _ _ w (Some c)) by exact Hfind.
    assert (c = a).
    { destruct Hc as [[_ _ _ Hinst _ _ _ _ _] _].
      apply (Hinst c a ec ea Hec Ha).
      unfold same_instance in *. apply Nat.eqb_eq in Hsc, Hsame.
      apply Nat.eqb_eq. congruence. }
    subst c. reflexivity.
  - rewrite (Hnone a ea Ha) in Hsame. discriminate.
Qed.

(** The state after a shader has been created for [instance] and linked
    in at the head: the new entry sits at the old [brk], and the old head
    points back to it. *)
Lemma CacheShader_create : forall type blendMode o w l shader instance,
    consistent w l ->
    GetShader type blendMode = Some shader ->
    find_instance shader (shader_formats w) = Some instance ->
    (forall a ea, shader_heap w a = Some ea ->
                  same_instance (sh_instance ea) instance = false) ->
    so_alloc o = true ->
    load_fails o instance = false ->
    exists sh',
      GLES2_CacheShader GetShader type blendMode o w
      = Val (Some (brk w),
             set_gl_log (gl_log w ++ load_calls (so_id o) instance)
               (set_brk (S (brk w))
                  (with_shaders sh' (Some (brk w)) (shader_cache_count w + 1) w))) /\
      sh' (brk w)
      = Some (mkShaderEntry (so_id o) type instance 0 None (shader_cache_head w)) /\
      (forall a, a <> brk w ->
         sh' a = match shader_heap w a with
                 | Some ea =>
                     Some (if ptr_eqb (shader_cache_head w) (Some a)
                           then set_sh_prev (Some (brk w)) ea else ea)
                 | None => None
                 end).
Proof.
  intros type blendMode o w l shader instance Hc H1 H2 Hmiss Halloc Hload.
  destruct (find_shader_ok w l instance Hc) as [[c [ec [Hec [Hsc _]]]] | [_ Hfind]].
  { rewrite (Hmiss c ec Hec) in Hsc. discriminate. }
  destruct Hc as [[Hdll Hnd Hlive Hinst Hbound Hcount Hpb Hpairs Hrefs] _].
  assert (Hfresh : shader_heap w (brk w) = None).
  { destruct (shader_heap w (brk w)) as [e |] eqn:E; [ | reflexivity].
    specialize (Hbound _ (Hlive _ _ E)). lia. }
  set (N := brk w) in *.
  set (init := mkShaderEntry 0 type instance 0 None None).
  unfold load_fails in Hload. apply orb_false_iff in Hload. destruct Hload as [Herr Hcomp].
  assert (Hhead : shader_cache_head w = hd_error l) by (eapply dll_head; exact Hdll).
  destruct (shader_cache_head w) as [h |] eqn:Hh.
  - (* the list has a head *)
    assert (Hhl : In h l) by (destruct l; simpl in Hhead; [discriminate | left; congruence]).
    destruct (dll_live _ _ _ _ h Hdll Hhl) as [eh Heh].
    assert (HhN : h <> N) by (intro E; rewrite E in Heh; congruence).
    eexists. split.
    + unfold GLES2_CacheShader. rewrite H1, bind_gets, H2.
      rewrite (bind_lift _ _ _ _ w None) by (cbv beta; rewrite Hh; exact Hfind).
      rewrite Halloc, bind_calloc_shader. fold N. mrun.
      rewrite (bind_update_shader _ N _ init) by (wsimpl; apply upd_eq).
      rewrite (bind_load_shader _ N (set_sh_id (so_id o) init)) by (wsimpl; apply upd_eq).
      unfold load_calls.
      destruct (inst_format instance =? GLenum_minus_one) eqn:Hfmt.
      * mrun. rewrite Herr.
        apply negb_false_iff in Hcomp. rewrite Hcomp. cbn [orb negb]. mrun.
        rewrite Hh. unfold if_nonnull. mrun.
        rewrite (bind_update_shader _ N _ (set_sh_id (so_id o) init)) by (wsimpl; apply upd_eq).
        rewrite (bind_update_shader _ h _ eh)
          by (wsimpl; rewrite !upd_neq by exact HhN; exact Heh).
        mrun. unfold ret. rewrite <- !app_assoc. reflexivity.
      * mrun. rewrite Herr. cbn [orb negb]. mrun.
        rewrite Hh. unfold if_nonnull. mrun.
        rewrite (bind_update_shader _ N _ (set_sh_id (so_id o) init)) by (wsimpl; apply upd_eq).
        rewrite (bind_update_shader _ h _ eh)
          by (wsimpl; rewrite !upd_neq by exact HhN; exact Heh).
        mrun. unfold ret. rewrite <- !app_assoc. reflexivity.
    + cbv beta. split.
      * unfold upd. replace (Nat.eqb N h) with false
          by (symmetry; apply Nat.eqb_neq; congruence).
        rewrite Nat.eqb_refl. reflexivity.
      * intros a Ha. unfold upd. simpl.
        destruct (Nat.eqb_spec a h) as [-> | Hah].
        -- rewrite Heh, Nat.eqb_refl. reflexivity.
        -- replace (Nat.eqb a N) with false by (symmetry; apply Nat.eqb_neq; exact Ha).
           replace (Nat.eqb h a) with false by (symmetry; apply Nat.eqb_neq; congruence).
           destruct (shader_heap w a); reflexivity.
  - (* the list is empty *)
    eexists. split.
    + unfold GLES2_CacheShader. rewrite H1, bind_gets, H2.
      rewrite (bind_lift _ _ _ _ w None) by (cbv beta; rewrite Hh; exact Hfind).
      rewrite Halloc, bind_calloc_shader. fold N. mrun.
      rewrite (bind_update_shader _ N _ init) by (wsimpl; apply upd_eq).
      rewrite (bind_load_shader _ N (set_sh_id (so_id o) init)) by (wsimpl; apply upd_eq).
      unfold load_calls.
      destruct (inst_format instance =? GLenum_minus_one) eqn:Hfmt.
      * mrun. rewrite Herr.
        apply negb_false_iff in Hcomp. rewrite Hcomp. cbn [orb negb]. mrun.
        rewrite Hh. unfold if_nonnull. mrun.
        unfold ret. rewrite <- !app_assoc. reflexivity.
      * mrun. rewrite Herr. cbn [orb negb]. mrun.
        rewrite Hh. unfold if_nonnull. mrun.
        unfold ret. rewrite <- !app_assoc. reflexivity.
    + cbv beta. split.
      * unfold upd. rewrite Nat.eqb_refl. reflexivity.
      * intros a Ha. unfold upd. simpl.
        replace (Nat.eqb a N) with false by (symmetry; apply Nat.eqb_neq; exact Ha).
        destruct (shader_heap w a); reflexivity.
Qed.

End CacheShader.

(** ** States that differ in no entry *)

Lemma same_instance_sym : forall a b, same_instance a b = same_instance b a.
Proof. intros. unfold same_instance. apply Nat.eqb_sym. Qed.

Lemma same_instance_trans : forall a b c,
    same_instance a b = true -> same_instance b c = true -> same_instance a c = true.
Proof.
  unfold same_instance. intros a b c H1 H2.
  apply Nat.eqb_eq in H1, H2. apply Nat.eqb_eq. congruence.
Qed.

Lemma programs_ok_grow : forall ph b b',
    (b <= b')%nat -> programs_ok ph b -> programs_ok ph b'.
Proof.
  intros ph b b' Hle [H1 H2 H3]. constructor.
  - intros p e Hp. specialize (H1 p e Hp). lia.
  - intros p e q Hp Hq. specialize (H2 p e q Hp Hq). lia.
  - exact H3.
Qed.

Lemma shaders_ok_heap_ext : forall sh sh' hd cnt b pairs extra l,
    (forall a, sh' a = sh a) ->
    shaders_ok sh hd cnt b pairs extra l ->
    shaders_ok sh' hd cnt b pairs extra l.
Proof.
  intros sh sh' hd cnt b pairs extra l H
         [Hdll Hnd Hlive Hinst Hbound Hcount Hpb Hpairs Hrefs].
  constructor; try assumption.
  - apply dll_ext with (h := sh); [intros; apply H | exact Hdll].
  - intros a e Ha. rewrite H in Ha. eapply Hlive; exact Ha.
  - intros a c ea ec Ha Hc. rewrite H in Ha, Hc. eapply Hinst; eassumption.
  - intros a e Ha. rewrite H in Ha. apply Hrefs; exact Ha.
Qed.

Lemma programs_ok_heap_ext : forall ph ph' b,
    (forall a, ph' a = ph a) -> programs_ok ph b -> programs_ok ph' b.
Proof.
  intros ph ph' b H [H1 H2 H3]. constructor.
  - intros p e Hp. rewrite H in Hp. eapply H1; exact Hp.
  - intros p e q Hp. rewrite H in Hp. eapply H2; exact Hp.
  - intros p e q eq Hp Hprev Hq. rewrite H in Hp, Hq. eapply H3; eassumption.
Qed.

Lemma quiet_consistent : forall w w' l,
    quiet_change w w' -> consistent w l -> consistent w' l.
Proof.
  intros w w' l [sh [ph [log [err [b [-> [Hsh [Hph Hb]]]]]]]] [Hs [Hp Hh]].
  split; [ | split].
  - wsimpl. apply shaders_ok_grow with (b := brk w); [exact Hb | ].
    apply shaders_ok_heap_ext with (sh := shader_heap w); [exact Hsh | ].
    eapply shaders_ok_ext; [ | | exact Hs]; [ | reflexivity].
    intro p. unfold pairs_of. wsimpl. rewrite Hph. reflexivity.
  - wsimpl. apply programs_ok_grow with (b := brk w); [exact Hb | ].
    apply programs_ok_heap_ext with (ph := program_heap w); assumption.
  - wsimpl. intros h E. specialize (Hh h E). lia.
Qed.

Lemma quiet_refl : forall w, quiet_change w w.
Proof.
  intro w. exists (shader_heap w), (program_heap w), (gl_log w), (sdl_error w), (brk w).
  split; [destruct w; reflexivity | ]. repeat split; lia.
Qed.

Lemma quiet_error : forall w err, quiet_change w (set_sdl_error err w).
Proof.
  intros w err.
  exists (shader_heap w), (program_heap w), (gl_log w), err, (brk w).
  split; [destruct w; reflexivity | ]. repeat split; lia.
Qed.

(** The state with a shader created is sound, the new entry first. *)
Lemma created_consistent : forall w l sh' log id type instance,
    consistent w l ->
    (forall a ea, shader_heap w a = Some ea ->
                  same_instance (sh_instance ea) instance = false) ->
    sh' (brk w)
    = Some (mkShaderEntry id type instance 0 None (shader_cache_head w)) ->
    (forall a, a <> brk w ->
       sh' a = match shader_heap w a with
               | Some ea =>
                   Some (if ptr_eqb (shader_cache_head w) (Some a)
                         then set_sh_prev (Some (brk w)) ea else ea)
               | None => None
               end) ->
    consistent
      (set_gl_log log
         (set_brk (S (brk w))
            (with_shaders sh' (Some (brk w)) (shader_cache_count w + 1) w)))
      (brk w :: l).
Proof.
  intros w l sh' log id type instance [Hs [Hp Hh]] Hmiss HN Hother.
  destruct Hs as [Hdll Hnd Hlive Hinst Hbound Hcount Hpb Hpairs Hrefs].
  set (N := brk w) in *.
  assert (HNl : ~ In N l) by (intro H; specialize (Hbound N H); lia).
  assert (Hold : forall a ea', a <> N -> sh' a = Some ea' ->
            exists ea, shader_heap w a = Some ea /\ payload ea' = payload ea).
  { intros a ea' Ha H. rewrite (Hother a Ha) in H.
    destruct (shader_heap w a) as [ea |]; [ | discriminate].
    exists ea. split; [reflexivity | ]. injection H as <-.
    destruct (ptr_eqb (shader_cache_head w) (Some a)); reflexivity. }
  split; [ | split].
  - wsimpl. fold N. constructor.
    + simpl. split; [reflexivity | ].
      eexists. split; [exact HN | ]. split; [reflexivity | ]. simpl.
      destruct l as [| h l'].
      * simpl in *. exact Hdll.
      * simpl in Hdll. destruct Hdll as [Hhd [eh [Heh [Hph Hrest]]]].
        assert (HhN : h <> N) by (intro E; apply HNl; left; congruence).
        simpl. split; [exact Hhd | ].
        exists (set_sh_prev (Some N) eh). split.
        -- rewrite (Hother h HhN), Heh, Hhd, ptr_eqb_refl. reflexivity.
        -- split; [reflexivity | ]. simpl.
           apply dll_ext with (h := shader_heap w); [ | exact Hrest].
           intros a Ha.
           assert (HaN : a <> N) by (intro E; apply HNl; right; congruence).
           rewrite (Hother a HaN).
           destruct (dll_live _ _ _ _ a Hrest Ha) as [ea Hea]. rewrite Hea.
           assert (Hah : ptr_eqb (shader_cache_head w) (Some a) = false).
           { apply ptr_eqb_neq. rewrite Hhd. intro E. injection E as ->.
             apply NoDup_cons_iff in Hnd. tauto. }
           rewrite Hah. reflexivity.
    + constructor; assumption.
    + intros a ea' Ha. destruct (Nat.eq_dec a N) as [-> | Hne]; [left; reflexivity | ].
      right. destruct (Hold a ea' Hne Ha) as [ea [Hea _]]. eapply Hlive; exact Hea.
    + intros a c ea' ec' Ha Hc Hsame.
      destruct (Nat.eq_dec a N) as [-> | Hane]; destruct (Nat.eq_dec c N) as [-> | Hcne].
      * reflexivity.
      * exfalso. rewrite HN in Ha. injection Ha as <-. simpl in Hsame.
        destruct (Hold c ec' Hcne Hc) as [ec [Hec Hpc]].
        rewrite (payload_instance _ _ Hpc), same_instance_sym in Hsame.
        rewrite (Hmiss c ec Hec) in Hsame. discriminate.
      * exfalso. rewrite HN in Hc. injection Hc as <-. simpl in Hsame.
        destruct (Hold a ea' Hane Ha) as [ea [Hea Hpa]].
        rewrite (payload_instance _ _ Hpa) in Hsame.
        rewrite (Hmiss a ea Hea) in Hsame. discriminate.
      * destruct (Hold a ea' Hane Ha) as [ea [Hea Hpa]].
        destruct (Hold c ec' Hcne Hc) as [ec [Hec Hpc]].
        apply (Hinst a c ea ec Hea Hec).
        rewrite <- (payload_instance _ _ Hpa), <- (payload_instance _ _ Hpc). exact Hsame.
    + intros a [<- | Ha]; [lia | specialize (Hbound a Ha); lia].
    + simpl List.length. rewrite Hcount. lia.
    + intros p H. specialize (Hpb p H). lia.
    + intros p v f H. destruct (Hpairs p v f H). split; right; assumption.
    + intros a ea' Ha.
      rewrite (held_grow _ N (S N) a) by (try lia; exact Hpb).
      destruct (Nat.eq_dec a N) as [-> | Hne].
      * rewrite HN in Ha. injection Ha as <-. simpl.
        assert (Hz : held (pairs_of w) N N = 0%nat).
        { apply count_below_zero. intros p Hp'.
          destruct (pairs_of w p) as [[v f] |] eqn:E; [ | reflexivity].
          destruct (Hpairs p v f E) as [Hv Hf].
          simpl.
          replace (Nat.eqb v N) with false
            by (symmetry; apply Nat.eqb_neq; intro; subst; contradiction).
          replace (Nat.eqb f N) with false
            by (symmetry; apply Nat.eqb_neq; intro; subst; contradiction).
          reflexivity. }
        fold N in Hz. change (pairs_of _) with (pairs_of w). rewrite Hz.
        unfold no_extra. reflexivity.
      * destruct (Hold a ea' Hne Ha) as [ea [Hea Hpa]].
        rewrite (payload_references _ _ Hpa). apply Hrefs. exact Hea.
  - wsimpl. apply programs_ok_grow with (b := N); [lia | exact Hp].
  - wsimpl. intros h E. specialize (Hh h E). fold N in Hh. lia.
Qed.

(** ** Following the links of program entries through updates *)

Lemma tracks_refl : forall ph,
    tracks ph ph (fun _ e => pr_prev e) (fun _ e => pr_next e).
Proof.
  intro ph. split; [auto | ].
  intros a ea H. exists ea. repeat split; assumption.
Qed.

Lemma tracks_set_prev : forall ph ph' P N t et v,
    tracks ph ph' P N -> ph' t = Some et ->
    tracks ph (upd ph' t (Some (set_pr_prev v et)))
           (fun a e => if Nat.eqb a t then v else P a e) N.
Proof.
  intros ph ph' P N t et v [Hnone Hsome] Ht. split.
  - intros a Ha. unfold upd. destruct (Nat.eqb_spec a t) as [-> | Hne].
    + rewrite (Hnone t Ha) in Ht. discriminate.
    + apply Hnone. exact Ha.
  - intros a ea Ha. destruct (Hsome a ea Ha) as [ea' [H1 [H2 [H3 [H4 H5]]]]].
    unfold upd. destruct (Nat.eqb_spec a t) as [-> | Hne].
    + rewrite Ht in H1. injection H1 as ->.
      eexists. split; [reflexivity | ]. simpl. repeat split; assumption.
    + exists ea'. repeat split; assumption.
Qed.

Lemma tracks_set_next : forall ph ph' P N t et v,
    tracks ph ph' P N -> ph' t = Some et ->
    tracks ph (upd ph' t (Some (set_pr_next v et)))
           P (fun a e => if Nat.eqb a t then v else N a e).
Proof.
  intros ph ph' P N t et v [Hnone Hsome] Ht. split.
  - intros a Ha. unfold upd. destruct (Nat.eqb_spec a t) as [-> | Hne].
    + rewrite (Hnone t Ha) in Ht. discriminate.
    + apply Hnone. exact Ha.
  - intros a ea Ha. destruct (Hsome a ea Ha) as [ea' [H1 [H2 [H3 [H4 H5]]]]].
    unfold upd. destruct (Nat.eqb_spec a t) as [-> | Hne].
    + rewrite Ht in H1. injection H1 as ->.
      eexists. split; [reflexivity | ]. simpl. repeat split; assumption.
    + exists ea'. repeat split; assumption.
Qed.

(** An update that leaves links and shaders alone. *)
Lemma tracks_set_other : forall ph ph' P N t et et',
    tracks ph ph' P N -> ph' t = Some et ->
    pr_prev et' = pr_prev et -> pr_next et' = pr_next et ->
    vertex_shader et' = vertex_shader et ->
    fragment_shader et' = fragment_shader et ->
    tracks ph (upd ph' t (Some et')) P N.
Proof.
  intros ph ph' P N t et et' [Hnone Hsome] Ht E1 E2 E3 E4. split.
  - intros a Ha. unfold upd. destruct (Nat.eqb_spec a t) as [-> | Hne].
    + rewrite (Hnone t Ha) in Ht. discriminate.
    + apply Hnone. exact Ha.
  - intros a ea Ha. destruct (Hsome a ea Ha) as [ea' [H1 [H2 [H3 [H4 H5]]]]].
    unfold upd. destruct (Nat.eqb_spec a t) as [-> | Hne].
    + rewrite Ht in H1. injection H1 as ->.
      exists et'. split; [reflexivity | ]. repeat split; congruence.
    + exists ea'. repeat split; assumption.
Qed.

Lemma tracks_ext : forall ph ph' P N P' N',
    (forall a e, ph a = Some e -> P' a e = P a e) ->
    (forall a e, ph a = Some e -> N' a e = N a e) ->
    tracks ph ph' P N -> tracks ph ph' P' N'.
Proof.
  intros ph ph' P N P' N' HP HN [Hnone Hsome]. split; [exact Hnone | ].
  intros a ea Ha. destruct (Hsome a ea Ha) as [ea' [H1 [H2 [H3 [H4 H5]]]]].
  exists ea'. rewrite (HP a ea Ha), (HN a ea Ha). repeat split; assumption.
Qed.

Lemma tracks_lookup : forall ph ph' P N a ea',
    tracks ph ph' P N -> ph' a = Some ea' ->
    exists ea, ph a = Some ea /\ pr_prev ea' = P a ea /\ pr_next ea' = N a ea /\
               vertex_shader ea' = vertex_shader ea /\
               fragment_shader ea' = fragment_shader ea.
Proof.
  intros ph ph' P N a ea' [Hnone Hsome] Ha.
  destruct (ph a) as [ea |] eqn:E.
  - destruct (Hsome a ea E) as [ea2 [H1 H]]. rewrite Ha in H1. injection H1 as <-.
    exists ea. split; [reflexivity | exact H].
  - rewrite (Hnone a E) in Ha. discriminate.
Qed.

Lemma tracks_pairs : forall ph ph' P N p,
    tracks ph ph' P N -> pair_of (ph' p) = pair_of (ph p).
Proof.
  intros ph ph' P N p [Hnone Hsome].
  destruct (ph p) as [e |] eqn:E.
  - destruct (Hsome p e E) as [e' [H1 [_ [_ [H4 H5]]]]]. rewrite H1. simpl. congruence.
  - rewrite (Hnone p E). reflexivity.
Qed.

(** ** A hit: the entry is moved to the head *)

Lemma promote_tracks : forall w entry u w',
    promote entry w = Val (u, w') ->
    (w' = w /\ program_cache_count w <= 1) \/
    (exists ph' e0 h,
        program_heap w entry = Some e0 /\
        program_cache_head w = Some h /\
        w' = set_program_cache_head (Some entry) (set_program_heap ph' w) /\
        tracks (program_heap w) ph'
          (fun a e => if Nat.eqb a h then Some entry
                      else if Nat.eqb a entry then None
                      else if ptr_eqb (pr_next e0) (Some a) then pr_prev e0
                      else pr_prev e)
          (fun a e => if Nat.eqb a entry then Some h
                      else if ptr_eqb (pr_prev e0) (Some a) then pr_next e0
                      else pr_next e)).
Proof.
  intros w entry u w' H. unfold promote in H. rewrite bind_gets in H.
  destruct (program_cache_count w >? 1) eqn:Hcount; unfold when in H.
  2: { left. injection H as _ <-. split; [reflexivity | ].
       rewrite Z.gtb_ltb in Hcount. apply Z.ltb_ge in Hcount. exact Hcount. }
  right.
  pose proof (tracks_refl (program_heap w)) as T0.
  (* e = *entry *)
  apply bind_val in H. destruct H as [e0 [w0 [H0 H]]].
  apply load_program_val in H0. destruct H0 as [He0 ->].
  (* if (entry->next) entry->next->prev = entry->prev *)
  apply bind_val in H. destruct H as [u1 [w1 [H1 H]]].
  assert (T1 : exists ph1,
             w1 = set_program_heap ph1 w /\
             tracks (program_heap w) ph1
               (fun a e => if ptr_eqb (pr_next e0) (Some a) then pr_prev e0
                           else pr_prev e)
               (fun a e => pr_next e)).
  { unfold if_nonnull in H1. destruct (pr_next e0) as [n |] eqn:En.
    - apply update_program_val in H1. destruct H1 as [en [Hn ->]].
      eexists. split; [reflexivity | ].
      eapply tracks_ext; [ | | exact (tracks_set_prev _ _ _ _ n en (pr_prev e0) T0 Hn)].
      + intros a e _. simpl. rewrite Nat.eqb_sym. reflexivity.
      + reflexivity.
    - injection H1 as _ <-. exists (program_heap w).
      split; [destruct w; reflexivity | ].
      eapply tracks_ext; [ | | exact T0]; reflexivity. }
  destruct T1 as [ph1 [-> T1]]. clear H1.
  (* e = *entry again *)
  apply bind_val in H. destruct H as [e1 [w1 [H1 H]]].
  apply load_program_val in H1. destruct H1 as [He1 ->]. wsimpl_in He1.
  destruct (tracks_lookup _ _ _ _ entry e1 T1 He1) as [e0' [He0' [Hp1 [Hn1 _]]]].
  rewrite He0 in He0'. injection He0' as <-.
  assert (Hp1' : pr_prev e1 = pr_prev e0)
    by (rewrite Hp1; destruct (ptr_eqb (pr_next e0) (Some entry)); reflexivity).
  (* if (entry->prev) entry->prev->next = entry->next *)
  apply bind_val in H. destruct H as [u2 [w2 [H2 H]]].
  assert (T2 : exists ph2,
             w2 = set_program_heap ph2 w /\
             tracks (program_heap w) ph2
               (fun a e => if ptr_eqb (pr_next e0) (Some a) then pr_prev e0
                           else pr_prev e)
               (fun a e => if ptr_eqb (pr_prev e0) (Some a) then pr_next e0
                           else pr_next e)).
  { unfold if_nonnull in H2. rewrite Hp1', Hn1 in H2.
    destruct (pr_prev e0) as [p |] eqn:Ep.
    - apply update_program_val in H2. destruct H2 as [ep [Hp ->]]. wsimpl_in Hp.
      eexists. split; [reflexivity | ].
      eapply tracks_ext; [ | | exact (tracks_set_next _ _ _ _ p ep (pr_next e0) T1 Hp)].
      + reflexivity.
      + intros a e _. simpl. rewrite Nat.eqb_sym. reflexivity.
    - injection H2 as _ <-. exists ph1. split; [reflexivity | ].
      eapply tracks_ext; [ | | exact T1]; reflexivity. }
  destruct T2 as [ph2 [-> T2]]. clear H2.
  (* entry->prev = NULL *)
  apply bind_val in H. destruct H as [u3 [w3 [H3 H]]].
  apply update_program_val in H3. destruct H3 as [e2 [He2 ->]]. wsimpl_in He2.
  pose proof (tracks_set_prev _ _ _ _ entry e2 None T2 He2) as T3.
  (* entry->next = head *)
  rewrite bind_gets in H. wsimpl_in H.
  apply bind_val in H. destruct H as [u4 [w4 [H4 H]]].
  apply update_program_val in H4. destruct H4 as [e3 [He3 ->]]. wsimpl_in He3.
  pose proof (tracks_set_next _ _ _ _ entry e3 (program_cache_head w) T3 He3) as T4.
  (* head->prev = entry *)
  apply bind_val in H. destruct H as [u5 [w5 [H5 H]]].
  destruct (program_cache_head w) as [h |] eqn:Hh; [ | discriminate H5].
  unfold deref in H5.
  apply update_program_val in H5. destruct H5 as [e4 [He4 ->]]. wsimpl_in He4.
  pose proof (tracks_set_prev _ _ _ _ h e4 (Some entry) T4 He4) as T5.
  injection H as _ <-.
  eexists. exists e0, h. split; [exact He0 | ]. split; [reflexivity | ].
  split; [reflexivity | ].
  eapply tracks_ext; [ | | exact T5]; reflexivity.
Qed.

Lemma bind_run : forall (A B : Type) (m : M A) (k : A -> M B) w a w1,
    m w = Val (a, w1) -> bind m k w = k a w1.
Proof. intros A B m k w a w1 H. unfold bind. rewrite H. reflexivity. Qed.

Lemma entries_kept_refl : forall sh, entries_kept sh sh.
Proof.
  intros sh a ea H. exists ea. split; [exact H | ]. split; [reflexivity | left; lia].
Qed.

Lemma entries_kept_trans : forall sh1 sh2 sh3,
    entries_kept sh1 sh2 -> entries_kept sh2 sh3 -> entries_kept sh1 sh3.
Proof.
  intros sh1 sh2 sh3 H12 H23 a e3 H3.
  destruct (H23 a e3 H3) as [e2 [H2 [Hi2 Hr2]]].
  destruct (H12 a e2 H2) as [e1 [H1 [Hi1 Hr1]]].
  exists e1. split; [exact H1 | ]. split; [congruence | ].
  destruct Hr2 as [Hr2 | Hr2]; [ | right; exact Hr2].
  destruct Hr1 as [Hr1 | Hr1]; [left; lia | right; lia].
Qed.

(** Programs keep their links sound through a hit. *)
Lemma promote_ok : forall w entry u w',
    programs_ok (program_heap w) (brk w) ->
    (forall h, program_cache_head w = Some h -> (h < brk w)%nat) ->
    program_heap w entry <> None ->
    promote entry w = Val (u, w') ->
    exists ph' hd',
      w' = set_program_cache_head hd' (set_program_heap ph' w) /\
      programs_ok ph' (brk w) /\
      (forall p, pair_of (ph' p) = pair_of (program_heap w p)) /\
      (forall h, hd' = Some h -> (h < brk w)%nat).
Proof.
  intros w entry u w' Hok Hhead Hlive H.
  destruct (promote_tracks w entry u w' H)
    as [[-> _] | [ph' [e0 [h [He0 [Hh [-> T]]]]]]].
  - exists (program_heap w), (program_cache_head w).
    split; [destruct w; reflexivity | ]. split; [exact Hok | ].
    split; [reflexivity | exact Hhead].
  - exists ph', (Some entry). split; [reflexivity | ].
    destruct Hok as [Hb Hprev Hback].
    split; [ | split].
    + constructor.
      * intros p e Hp. destruct (tracks_lookup _ _ _ _ p e T Hp) as [e' [Hp' _]].
        eapply Hb; exact Hp'.
      * intros p e q Hp Hq.
        destruct (tracks_lookup _ _ _ _ p e T Hp) as [e' [Hp' [HP _]]].
        rewrite HP in Hq.
        destruct (Nat.eqb p h); [injection Hq as <-; eapply Hb; exact He0 | ].
        destruct (Nat.eqb p entry); [discriminate | ].
        destruct (ptr_eqb (pr_next e0) (Some p)).
        -- eapply Hprev; [exact He0 | exact Hq].
        -- eapply Hprev; [exact Hp' | exact Hq].
      * intros x ex q eq Hx Hq Hqq.
        destruct (tracks_lookup _ _ _ _ x ex T Hx) as [ex0 [Hx0 [HP _]]].
        destruct (tracks_lookup _ _ _ _ q eq T Hqq) as [eq0 [Hq0 [_ [HN _]]]].
        rewrite HN. rewrite HP in Hq.
        destruct (Nat.eqb_spec x h) as [-> | Hxh].
        { injection Hq as <-. rewrite Nat.eqb_refl. reflexivity. }
        destruct (Nat.eqb_spec x entry) as [-> | Hxe]; [discriminate | ].
        destruct (ptr_eqb (pr_next e0) (Some x)) eqn:Hnx.
        -- apply ptr_eqb_eq in Hnx.
           destruct (Nat.eqb_spec q entry) as [-> | Hqe].
           ++ exfalso. pose proof (Hback entry e0 entry e0 He0 Hq He0) as Hloop.
              congruence.
           ++ rewrite Hq, ptr_eqb_refl. exact Hnx.
        -- apply ptr_eqb_neq in Hnx.
           pose proof (Hback x ex0 q eq0 Hx0 Hq Hq0) as Hn.
           destruct (Nat.eqb_spec q entry) as [-> | Hqe].
           ++ exfalso. apply Hnx. congruence.
           ++ destruct (ptr_eqb (pr_prev e0) (Some q)) eqn:Hpq; [ | exact Hn].
              exfalso. apply ptr_eqb_eq in Hpq.
              pose proof (Hback entry e0 q eq0 He0 Hpq Hq0) as Hn'. congruence.
    + intro p. eapply tracks_pairs. exact T.
    + intros h' E. injection E as <-. eapply Hb. exact He0.
Qed.

(** What the scan of the program cache returns is a live entry holding
    the pair sought. *)
Lemma find_program_some : forall fuel ph cur v f entry,
    find_program fuel ph cur v f = Val (Some entry) ->
    exists e, ph entry = Some e /\ vertex_shader e = v /\ fragment_shader e = f.
Proof.
  induction fuel as [| fuel IH]; intros ph cur v f entry H;
    destruct cur as [a |]; simpl in H; try discriminate;
    destruct (ph a) as [e |] eqn:Ha; try discriminate;
    destruct (Nat.eqb (vertex_shader e) v && Nat.eqb (fragment_shader e) f) eqn:Hm;
    try discriminate.
  - injection H as <-. apply andb_true_iff in Hm. destruct Hm as [H1 H2].
    apply Nat.eqb_eq in H1, H2. exists e. repeat split; assumption.
  - injection H as <-. apply andb_true_iff in Hm. destruct Hm as [H1 H2].
    apply Nat.eqb_eq in H1, H2. exists e. repeat split; assumption.
  - eapply IH. exact H.
Qed.

Lemma lift_val : forall (A : Type) (f : World -> Res A) w a w',
    lift f w = Val (a, w') -> f w = Val a /\ w' = w.
Proof.
  intros A f w a w' H. unfold lift in H.
  destruct (f w) as [x | |]; try discriminate.
  injection H as -> ->. split; reflexivity.
Qed.

Lemma b2n_eqb_sym : forall a b, b2n (Nat.eqb a b) = b2n (Nat.eqb b a).
Proof. intros. rewrite Nat.eqb_sym. reflexivity. Qed.

(** Taking the pair of one program out of the count, as references still
    to be given back. *)
Lemma split_pair : forall sh hd cnt b pairs l t v f,
    shaders_ok sh hd cnt b pairs no_extra l ->
    pairs t = Some (v, f) ->
    shaders_ok sh hd cnt b (fun p => if Nat.eqb p t then None else pairs p)
               (fun a => Z.of_nat (uses (Some (v, f)) a)) l.
Proof.
  intros sh hd cnt b pairs l t v f
         [Hdll Hnd Hlive Hinst Hbound Hcount Hpb Hpairs Hrefs] Ht.
  constructor; try assumption.
  - intros p H. apply Hpb. destruct (Nat.eqb p t); congruence.
  - intros p v' f' H. apply (Hpairs p).
    destruct (Nat.eqb p t); [discriminate | exact H].
  - intros a e Ha. rewrite (Hrefs a e Ha). unfold no_extra.
    assert (Htb : (t < b)%nat) by (apply Hpb; congruence).
    pose proof (count_below_change
                  (fun p => uses (pairs p) a)
                  (fun p => uses (if Nat.eqb p t then None else pairs p) a)
                  b t Htb) as Hc.
    cbv beta in Hc. rewrite Nat.eqb_refl, Ht in Hc.
    unfold held.
    assert (Hagree : forall x, (x < b)%nat -> x <> t ->
              uses (pairs x) a = uses (if Nat.eqb x t then None else pairs x) a).
    { intros x _ Hne. destruct (Nat.eqb_spec x t); [contradiction | reflexivity]. }
    specialize (Hc Hagree). simpl uses at 2 in Hc. lia.
Qed.

(** The other direction, for a program just linked in at address [b]. *)
Lemma join_pair : forall sh hd cnt b pairs pairs' l v f,
    shaders_ok sh hd cnt b pairs no_extra l ->
    pairs' b = Some (v, f) ->
    (forall p, p <> b -> pairs' p = pairs p) ->
    In v l -> In f l ->
    shaders_ok sh hd cnt (S b) pairs'
               (fun a => - Z.of_nat (uses (Some (v, f)) a)) l.
Proof.
  intros sh hd cnt b pairs pairs' l v f
         [Hdll Hnd Hlive Hinst Hbound Hcount Hpb Hpairs Hrefs] Hb Hother Hv Hf.
  constructor; try assumption.
  - intros a Ha. specialize (Hbound a Ha). lia.
  - intros p H. destruct (Nat.eq_dec p b) as [-> | Hne]; [lia | ].
    rewrite (Hother p Hne) in H. specialize (Hpb p H). lia.
  - intros p v' f' H. destruct (Nat.eq_dec p b) as [-> | Hne].
    + rewrite Hb in H. injection H as <- <-. split; assumption.
    + rewrite (Hother p Hne) in H. apply (Hpairs p). exact H.
  - intros a e Ha. rewrite (Hrefs a e Ha). unfold no_extra, held.
    cbn [count_below]. rewrite Hb.
    rewrite (count_below_ext (fun p => uses (pairs' p) a) (fun p => uses (pairs p) a) b).
    + rewrite Nat2Z.inj_add. lia.
    + intros p Hp. rewrite Hother by lia. reflexivity.
Qed.

(** ** Eviction of a program *)

Lemma shaders_live_in : forall sh hd cnt b pairs extra l a,
    shaders_ok sh hd cnt b pairs extra l -> In a l -> exists e, sh a = Some e.
Proof.
  intros sh hd cnt b pairs extra l a [Hdll _ _ _ _ _ _ _ _] Ha.
  eapply dll_live; eassumption.
Qed.

Lemma uses_pair : forall v f a,
    uses (Some (v, f)) a = (b2n (Nat.eqb v a) + b2n (Nat.eqb f a))%nat.
Proof. reflexivity. Qed.

(** The eviction of the entry at the tail. *)
Lemma evict_tail_ok : forall w l u w',
    consistent w l ->
    evict_tail w = Val (u, w') ->
    exists t te q sh' hd' cnt' log' ph' l',
      program_cache_tail w = Some t /\
      program_heap w t = Some te /\
      pr_prev te = Some q /\
      w' = set_program_cache_count (program_cache_count w - 1)
             (set_program_cache_tail (Some q)
                (set_program_heap ph'
                   (set_gl_log log' (with_shaders sh' hd' cnt' w)))) /\
      consistent w' l' /\
      ph' t = None /\
      (forall p, p <> t -> pair_of (ph' p) = pair_of (program_heap w p)) /\
      entries_kept (shader_heap w) sh' /\
      (forall a ea, shader_heap w a = Some ea ->
         let d := Z.of_nat (uses (Some (vertex_shader te, fragment_shader te)) a) in
         (0 < d /\ references ea - d <= 0 /\ sh' a = None) \/
         (exists ea', sh' a = Some ea' /\ references ea' = references ea - d /\
                      (0 < d -> 0 < references ea'))).
Proof.
  intros w l u w' [Hs [Hp Hh]] H.
  unfold evict_tail in H. rewrite bind_gets in H.
  destruct (program_cache_tail w) as [t |] eqn:Ht; [ | discriminate H].
  unfold deref in H.
  apply bind_val in H. destruct H as [te [w0 [H0 H]]].
  apply load_program_val in H0. destruct H0 as [Hte ->].
  set (v := vertex_shader te) in *. set (f := fragment_shader te) in *.
  assert (Hpair : pairs_of w t = Some (v, f)) by (unfold pairs_of; rewrite Hte; reflexivity).
  pose proof (split_pair _ _ _ _ _ _ t v f Hs Hpair) as Hs0.
  set (pairs := fun p => if Nat.eqb p t then None else pairs_of w p) in *.
  set (extra0 := fun a => Z.of_nat (uses (Some (v, f)) a)) in *.
  destruct (s_pairs _ _ _ _ _ _ _ Hs t v f Hpair) as [Hvl Hfl].
  destruct (shaders_live_in _ _ _ _ _ _ _ v Hs Hvl) as [ev Hev].
  destruct (shaders_live_in _ _ _ _ _ _ _ f Hs Hfl) as [ef Hef].
  (* the vertex shader is released *)
  assert (Hx0v : 1 <= extra0 v).
  { unfold extra0. rewrite uses_pair, Nat.eqb_refl. simpl b2n. lia. }
  destruct (release_ok w (brk w) pairs extra0 l v ev Hs0 Hev Hx0v)
    as [sh1 [hd1 [cnt1 [log1 [l1 [Hrun1 [Hs1 [Hback1 Hfwd1]]]]]]]].
  rewrite (bind_run _ _ _ _ _ _ _ Hrun1) in H.
  set (w1 := set_gl_log log1 (with_shaders sh1 hd1 cnt1 w)) in *.
  set (extra1 := fun a => if Nat.eqb a v then extra0 a - 1 else extra0 a) in *.
  apply bind_val in H. destruct H as [te' [w1' [H1 H]]].
  apply load_program_val in H1. destruct H1 as [Hte' ->].
  change (program_heap w1 t) with (program_heap w t) in Hte'.
  rewrite Hte in Hte'. injection Hte' as <-. fold f in H.
  (* the fragment shader is released *)
  assert (Hef1 : exists ef1, sh1 f = Some ef1).
  { destruct (Hfwd1 f ef Hef) as [[Hfv [Hle _]] | Hlive]; [ | exact Hlive].
    exfalso. rewrite Hfv in Hef. rewrite Hev in Hef. injection Hef as <-.
    pose proof (s_refs _ _ _ _ _ _ _ Hs0 v ev Hev) as Hr.
    unfold extra0 in Hr. rewrite uses_pair in Hr.
    replace (Nat.eqb f v) with true in Hr by (symmetry; apply Nat.eqb_eq; exact Hfv).
    rewrite Nat.eqb_refl in Hr. simpl b2n in Hr. lia. }
  destruct Hef1 as [ef1 Hef1].
  assert (Hx1f : 1 <= extra1 f).
  { unfold extra1, extra0. rewrite uses_pair.
    destruct (Nat.eqb_spec f v) as [E | E].
    - rewrite E, Nat.eqb_refl. simpl b2n. lia.
    - rewrite Nat.eqb_refl. simpl b2n. lia. }
  destruct (release_ok w1 (brk w) pairs extra1 l1 f ef1 Hs1 Hef1 Hx1f)
    as [sh2 [hd2 [cnt2 [log2 [l2 [Hrun2 [Hs2 [Hback2 Hfwd2]]]]]]]].
  rewrite (bind_run _ _ _ _ _ _ _ Hrun2) in H.
  set (w2 := set_gl_log log2 (with_shaders sh2 hd2 cnt2 w1)) in *.
  (* the program is deleted and released *)
  apply bind_val in H. destruct H as [te' [w2' [H2 H]]].
  apply load_program_val in H2. destruct H2 as [Hte' ->].
  change (program_heap w2 t) with (program_heap w t) in Hte'.
  rewrite Hte in Hte'. injection Hte' as <-.
  rewrite bind_gl, bind_modify in H.
  apply bind_val in H. destruct H as [u3 [w3 [H3 H]]].
  destruct (pr_prev te) as [q |] eqn:Hq; [ | discriminate H3].
  unfold deref in H3.
  apply bind_val in H3. destruct H3 as [qe [w3' [H3 H4]]].
  apply load_program_val in H3. destruct H3 as [Hqe ->].
  change (program_heap w q = Some qe) in Hqe.
  destruct Hp as [Hpb Hpprev Hpback].
  pose proof (Hpback t te q qe Hte Hq Hqe) as Hqnext.
  rewrite Hqnext in H4.
  apply bind_val in H4. destruct H4 as [u4 [w4 [H4 H5]]].
  apply free_program_val in H4. destruct H4 as [te' [_ ->]].
  apply update_program_val in H5. destruct H5 as [qe' [Hqe' ->]].
  change (upd (program_heap w) t None q = Some qe') in Hqe'.
  assert (Hqt : q <> t).
  { intro E. rewrite E, upd_eq in Hqe'. discriminate. }
  rewrite upd_neq in Hqe' by exact Hqt. rewrite Hqe in Hqe'. injection Hqe' as <-.
  unfold modify in H. injection H as _ <-. wsimpl.
  set (ph' := upd (upd (program_heap w) t None) q (Some (set_pr_next None qe))).
  assert (Hph't : ph' t = None).
  { unfold ph'. rewrite upd_neq by congruence. apply upd_eq. }
  assert (Hpairs' : forall p, pair_of (ph' p) = pairs p).
  { intro p. unfold ph', pairs, pairs_of, upd.
    destruct (Nat.eqb_spec p q) as [-> | Hpq].
    - destruct (Nat.eqb_spec q t); [contradiction | ]. rewrite Hqe. reflexivity.
    - destruct (Nat.eqb_spec p t); reflexivity. }
  assert (Hx2 : forall a, (if Nat.eqb a f then extra1 a - 1 else extra1 a) = no_extra a).
  { intro a. unfold extra1, extra0, no_extra. rewrite uses_pair.
    rewrite (Nat.eqb_sym v a), (Nat.eqb_sym f a).
    destruct (Nat.eqb a f), (Nat.eqb a v); simpl b2n; lia. }
  exists t, te, q, sh2, hd2, cnt2,
         (log2 ++ [glDeleteProgram (pr_id te)]), ph', l2.
  split; [reflexivity | ]. split; [exact Hte | ]. split; [exact Hq | ].
  split; [reflexivity | ].
  split; [ | split; [exact Hph't | split; [ | split]]].
  - (* the state is sound *)
    split; [ | split]; wsimpl.
    + eapply shaders_ok_ext; [ | | exact Hs2].
      * intro p. unfold pairs_of. wsimpl. apply Hpairs'.
      * intro a. symmetry. apply Hx2.
    + constructor.
      * intros p e Hpe. unfold ph', upd in Hpe.
        destruct (Nat.eqb_spec p q) as [-> | Hpq]; [eapply Hpb; exact Hqe | ].
        destruct (Nat.eqb_spec p t); [discriminate | eapply Hpb; exact Hpe].
      * intros p e q' Hpe Hprev. unfold ph', upd in Hpe.
        destruct (Nat.eqb_spec p q) as [-> | Hpq].
        -- injection Hpe as <-. simpl in Hprev. eapply Hpprev; [exact Hqe | exact Hprev].
        -- destruct (Nat.eqb_spec p t); [discriminate | ].
           eapply Hpprev; [exact Hpe | exact Hprev].
      * intros x ex q' eq' Hx Hprev Hq'.
        assert (Hx0 : exists ex0, program_heap w x = Some ex0 /\ pr_prev ex0 = Some q' /\ x <> t).
        { unfold ph', upd in Hx. destruct (Nat.eqb_spec x q) as [-> | Hxq].
          - injection Hx as <-. exists qe. simpl in Hprev. repeat split; assumption.
          - destruct (Nat.eqb_spec x t); [discriminate | ].
            exists ex. repeat split; assumption. }
        destruct Hx0 as [ex0 [Hx0 [Hprev0 Hxt]]].
        unfold ph', upd in Hq'. destruct (Nat.eqb_spec q' q) as [-> | Hq'q].
        -- exfalso. pose proof (Hpback x ex0 q qe Hx0 Hprev0 Hqe). congruence.
        -- destruct (Nat.eqb_spec q' t); [discriminate | ].
           eapply Hpback; eassumption.
    + exact Hh.
  - intros p Hpt. rewrite Hpairs'. unfold pairs, pairs_of.
    destruct (Nat.eqb_spec p t); [contradiction | reflexivity].
  - (* every entry left was there before *)
    intros a ea2 Ha2.
    destruct (Hback2 a ea2 Ha2) as [ea1 [Ha1 [Hi2 [Hr2 Hpos2]]]].
    destruct (Hback1 a ea1 Ha1) as [ea [Ha [Hi1 [Hr1 Hpos1]]]].
    exists ea. split; [exact Ha | ]. split; [congruence | ].
    destruct (Nat.eqb_spec a f) as [E | Hnf].
    + right. specialize (Hpos2 E). lia.
    + destruct (Nat.eqb_spec a v) as [E | Hnv].
      * right. specialize (Hpos1 E). lia.
      * left. lia.
  - (* the counts of the two shaders *)
    intros a ea Ha. cbv zeta. rewrite uses_pair.
    change (vertex_shader te) with v. change (fragment_shader te) with f.
    rewrite (Nat.eqb_sym v a), (Nat.eqb_sym f a).
    destruct (Hfwd1 a ea Ha) as [[Hav [Hle1 Hgone1]] | [ea1 Ha1]].
    + (* released with the vertex shader *)
      left. subst a. rewrite Nat.eqb_refl.
      assert (Hgone2 : sh2 v = None).
      { destruct (sh2 v) as [e2 |] eqn:E; [ | reflexivity].
        destruct (Hback2 v e2 E) as [e1 [E1 _]].
        change (sh1 v = Some e1) in E1. congruence. }
      split; [simpl b2n; lia | ]. split; [ | exact Hgone2].
      simpl b2n. destruct (Nat.eqb v f); simpl b2n; lia.
    + destruct (Hback1 a ea1 Ha1) as [ea0 [Ha0 [_ [Hr1 Hpos1]]]].
      rewrite Ha in Ha0. injection Ha0 as <-.
      destruct (Hfwd2 a ea1 Ha1) as [[Haf [Hle2 Hgone2]] | [ea2 Ha2]].
      * left. subst a. rewrite Nat.eqb_refl.
        split; [destruct (Nat.eqb f v); simpl b2n; lia | ].
        split; [ | exact Hgone2].
        destruct (Nat.eqb f v); simpl b2n; lia.
      * right. exists ea2. split; [exact Ha2 | ].
        destruct (Hback2 a ea2 Ha2) as [ea1' [Ha1' [_ [Hr2 Hpos2]]]].
        change (sh1 a = Some ea1') in Ha1'.
        rewrite Ha1 in Ha1'. injection Ha1' as <-.
        split.
        -- destruct (Nat.eqb a v), (Nat.eqb a f); simpl b2n; lia.
        -- intros Hd.
           destruct (Nat.eqb_spec a f) as [E | Hnf]; [apply Hpos2; exact E | ].
           destruct (Nat.eqb_spec a v) as [E | Hnv]; [ | simpl b2n in Hd; lia].
           specialize (Hpos1 E). lia.
Qed.

(** ** [GLES2_CacheProgram] *)

Lemma bind_calloc_program : forall (B : Type) init (k : option addr -> M B) w,
    bind (calloc_program true init) k w
    = k (Some (brk w))
        (set_brk (S (brk w))
           (set_program_heap (upd (program_heap w) (brk w) (Some init)) w)).
Proof. reflexivity. Qed.

Lemma bind_locate_uniform : forall (B : Type) entry o n name e (k : unit -> M B) w,
    program_heap w entry = Some e ->
    bind (locate_uniform entry o n name) k w
    = k tt (set_program_heap
              (upd (program_heap w) entry
                   (Some (set_uniform_location n (po_location o name) e)))
              (set_gl_log (gl_log w ++ [glGetUniformLocation (pr_id e) name]) w)).
Proof.
  intros B entry o n name e k w H. unfold locate_uniform.
  rewrite bind_assoc, (bind_load_program _ entry e) by exact H.
  rewrite bind_assoc, bind_gl.
  rewrite (bind_update_program _ entry _ e) by (wsimpl; exact H).
  reflexivity.
Qed.

Ltac minv H :=
  repeat first
    [ rewrite bind_assoc in H
    | rewrite bind_gl in H
    | rewrite bind_ret in H
    | rewrite bind_gets in H
    | rewrite bind_modify in H
    | rewrite bind_SetError in H
    | rewrite bind_OutOfMemory in H ];
  wsimpl_in H.

Lemma referenced_by_program : forall w l p pe,
    consistent w l -> program_heap w p = Some pe ->
    (exists ev, shader_heap w (vertex_shader pe) = Some ev /\ 1 <= references ev) /\
    (exists ef, shader_heap w (fragment_shader pe) = Some ef /\ 1 <= references ef).
Proof.
  intros w l p pe [Hs [Hp _]] Hpe.
  assert (Hpair : pairs_of w p = Some (vertex_shader pe, fragment_shader pe))
    by (unfold pairs_of; rewrite Hpe; reflexivity).
  destruct (s_pairs _ _ _ _ _ _ _ Hs p _ _ Hpair) as [Hv Hf].
  assert (Hpb : (p < brk w)%nat) by (eapply (p_bound _ _ Hp); exact Hpe).
  split.
  - destruct (shaders_live_in _ _ _ _ _ _ _ _ Hs Hv) as [ev Hev].
    exists ev. split; [exact Hev | ].
    rewrite (s_refs _ _ _ _ _ _ _ Hs _ _ Hev). unfold no_extra, held.
    pose proof (count_below_positive
                  (fun q => uses (pairs_of w q) (vertex_shader pe)) (brk w) p Hpb) as H.
    cbv beta in H. rewrite Hpair, uses_pair, Nat.eqb_refl in H. simpl b2n in H. lia.
  - destruct (shaders_live_in _ _ _ _ _ _ _ _ Hs Hf) as [ef Hef].
    exists ef. split; [exact Hef | ].
    rewrite (s_refs _ _ _ _ _ _ _ Hs _ _ Hef). unfold no_extra, held.
    pose proof (count_below_positive
                  (fun q => uses (pairs_of w q) (fragment_shader pe)) (brk w) p Hpb) as H.
    cbv beta in H. rewrite Hpair, uses_pair, Nat.eqb_refl in H. simpl b2n in H. lia.
Qed.

(** The state with a program linked in and its shaders' counts raised. *)
Lemma inserted_consistent : forall w l v f ev ph5 e5 log sh' phA,
    consistent w l ->
    shader_heap w v = Some ev ->
    shader_heap w f <> None ->
    ph5 (brk w) = Some e5 ->
    (forall a, a <> brk w -> ph5 a = program_heap w a) ->
    pr_prev e5 = None -> pr_next e5 = None ->
    vertex_shader e5 = v -> fragment_shader e5 = f ->
    tracks ph5 phA
      (fun a e => if ptr_eqb (program_cache_head w) (Some a)
                  then Some (brk w) else pr_prev e)
      (fun a e => if Nat.eqb a (brk w) then program_cache_head w else pr_next e) ->
    (exists ef1,
        upd (shader_heap w) v
            (Some (set_references (references ev + 1) ev)) f = Some ef1 /\
        sh' = upd (upd (shader_heap w) v
                       (Some (set_references (references ev + 1) ev)))
                  f (Some (set_references (references ef1 + 1) ef1))) ->
    consistent
      (set_program_cache_head (Some (brk w))
         (set_gl_log log
            (set_brk (S (brk w))
               (set_program_heap phA (set_shader_heap sh' w)))))
      l.
Proof.
  intros w l v f ev ph5 e5 log sh' phA
         [Hs [Hp Hh]] Hev Hf H5 Hother Hprev5 Hnext5 Hv5 Hf5 T [ef1 [Hef1 ->]].
  set (N := brk w) in *.
  destruct Hp as [Hpb Hpprev Hpback].
  assert (HN : program_heap w N = None).
  { destruct (program_heap w N) as [e |] eqn:E; [ | reflexivity].
    specialize (Hpb N e E). lia. }
  assert (Hvl : In v l) by (eapply (s_live _ _ _ _ _ _ _ Hs); exact Hev).
  assert (Hfl : In f l).
  { destruct (shader_heap w f) as [ef |] eqn:E; [ | contradiction].
    eapply (s_live _ _ _ _ _ _ _ Hs); exact E. }
  assert (HpairsA : forall p, pair_of (phA p)
                              = if Nat.eqb p N then Some (v, f) else pairs_of w p).
  { intro p. rewrite (tracks_pairs _ _ _ _ p T). unfold pairs_of.
    destruct (Nat.eqb_spec p N) as [-> | Hne].
    - rewrite H5. simpl. congruence.
    - rewrite (Hother p Hne). reflexivity. }
  split; [ | split]; wsimpl.
  - (* the shader cache *)
    pose proof (join_pair _ _ _ _ _ (fun p => pair_of (phA p)) l v f Hs) as Hj.
    fold N in Hj. cbv beta in Hj. rewrite HpairsA, Nat.eqb_refl in Hj.
    specialize (Hj eq_refl).
    assert (Hj' : forall p, p <> N -> pair_of (phA p) = pairs_of w p).
    { intros p Hne. rewrite HpairsA. destruct (Nat.eqb_spec p N); [contradiction | reflexivity]. }
    specialize (Hj Hj' Hvl Hfl).
    pose proof (bump_ok _ _ _ _ _ _ _ v ev 1 Hj Hev) as Hb1.
    pose proof (bump_ok _ _ _ _ _ _ _ f ef1 1 Hb1 Hef1) as Hb2.
    eapply shaders_ok_ext; [ | | exact Hb2].
    + intro p. reflexivity.
    + intro a. unfold no_extra. rewrite uses_pair.
      rewrite (Nat.eqb_sym v a), (Nat.eqb_sym f a).
      destruct (Nat.eqb a f), (Nat.eqb a v); simpl b2n; lia.
  - (* the links of the programs *)
    assert (Hlive : forall a ea', phA a = Some ea' ->
              exists ea, ph5 a = Some ea /\
                pr_prev ea' = (if ptr_eqb (program_cache_head w) (Some a)
                               then Some N else pr_prev ea) /\
                pr_next ea' = (if Nat.eqb a N then program_cache_head w else pr_next ea)).
    { intros a ea' Ha. destruct (tracks_lookup _ _ _ _ a ea' T Ha) as [ea [E1 [E2 [E3 _]]]].
      exists ea. repeat split; assumption. }
    assert (HheadN : ptr_eqb (program_cache_head w) (Some N) = false).
    { apply ptr_eqb_neq. intro E. specialize (Hh N E). lia. }
    constructor.
    + intros p e Hpe. destruct (Hlive p e Hpe) as [e0 [E0 _]].
      destruct (Nat.eq_dec p N) as [-> | Hne]; [lia | ].
      rewrite (Hother p Hne) in E0. specialize (Hpb p e0 E0). lia.
    + intros p e q Hpe Hq. destruct (Hlive p e Hpe) as [e0 [E0 [E1 _]]].
      rewrite E1 in Hq.
      destruct (ptr_eqb (program_cache_head w) (Some p)); [injection Hq as <-; lia | ].
      destruct (Nat.eq_dec p N) as [-> | Hne].
      * rewrite H5 in E0. injection E0 as <-. congruence.
      * rewrite (Hother p Hne) in E0. specialize (Hpprev p e0 q E0 Hq). lia.
    + intros x ex q eq Hx Hq Hqq.
      destruct (Hlive x ex Hx) as [ex0 [Ex0 [Ex1 _]]].
      destruct (Hlive q eq Hqq) as [eq0 [Eq0 [_ Eq2]]].
      rewrite Eq2. rewrite Ex1 in Hq.
      destruct (ptr_eqb (program_cache_head w) (Some x)) eqn:Hhx.
      * injection Hq as <-. rewrite Nat.eqb_refl.
        apply ptr_eqb_eq in Hhx. exact Hhx.
      * destruct (Nat.eq_dec x N) as [-> | Hxne].
        { rewrite H5 in Ex0. injection Ex0 as <-. congruence. }
        rewrite (Hother x Hxne) in Ex0.
        pose proof (Hpprev x ex0 q Ex0 Hq) as Hqb.
        assert (Hqne : q <> N) by lia.
        rewrite (Hother q Hqne) in Eq0.
        destruct (Nat.eqb_spec q N); [contradiction | ].
        eapply Hpback; eassumption.
  - intros h E. injection E as <-. lia.
Qed.

Lemma bump_kept : forall sh s e,
    sh s = Some e ->
    entries_kept sh (upd sh s (Some (set_references (references e + 1) e))).
Proof.
  intros sh s e Hs a ea' Ha. unfold upd in Ha.
  destruct (Nat.eqb_spec a s) as [-> | Hne].
  - injection Ha as <-. exists e. split; [exact Hs | ].
    split; [reflexivity | left; simpl; lia].
  - exists ea'. split; [exact Ha | ]. split; [reflexivity | left; lia].
Qed.

Lemma quiet_fields : forall w w',
    SDL_CurrentContext w' = SDL_CurrentContext w ->
    context w' = context w ->
    shader_formats w' = shader_formats w ->
    shader_cache_count w' = shader_cache_count w ->
    shader_cache_head w' = shader_cache_head w ->
    program_cache_count w' = program_cache_count w ->
    program_cache_head w' = program_cache_head w ->
    program_cache_tail w' = program_cache_tail w ->
    current_program w' = current_program w ->
    updateSize w' = updateSize w ->
    window_w w' = window_w w ->
    window_h w' = window_h w ->
    (forall a, shader_heap w' a = shader_heap w a) ->
    (forall a, program_heap w' a = program_heap w a) ->
    (brk w <= brk w')%nat ->
    quiet_change w w'.
Proof.
  intros [c0 c1 c2 c3 c4 c5 c6 c7 c8 c9 sh ph b ww wh lg er]
         [d0 d1 d2 d3 d4 d5 d6 d7 d8 d9 sh' ph' b' ww' wh' lg' er'].
  simpl. intros -> -> -> -> -> -> -> -> -> -> -> -> Hsh Hph Hb.
  exists sh', ph', lg', er', b'. simpl. repeat split; assumption.
Qed.

Lemma world_ext : forall w w',
    SDL_CurrentContext w = SDL_CurrentContext w' ->
    context w = context w' ->
    shader_formats w = shader_formats w' ->
    shader_cache_count w = shader_cache_count w' ->
    shader_cache_head w = shader_cache_head w' ->
    program_cache_count w = program_cache_count w' ->
    program_cache_head w = program_cache_head w' ->
    program_cache_tail w = program_cache_tail w' ->
    current_program w = current_program w' ->
    updateSize w = updateSize w' ->
    shader_heap w = shader_heap w' ->
    program_heap w = program_heap w' ->
    brk w = brk w' ->
    window_w w = window_w w' ->
    window_h w = window_h w' ->
    gl_log w = gl_log w' ->
    sdl_error w = sdl_error w' ->
    w = w'.
Proof.
  intros [c0 c1 c2 c3 c4 c5 c6 c7 c8 c9 sh ph b ww wh lg er]
         [d0 d1 d2 d3 d4 d5 d6 d7 d8 d9 sh' ph' b' ww' wh' lg' er'].
  simpl. intros; subst; reflexivity.
Qed.

Lemma world_eta : forall w,
    w = mkWorld (SDL_CurrentContext w) (context w) (shader_formats w)
          (shader_cache_count w) (shader_cache_head w) (program_cache_count w)
          (program_cache_head w) (program_cache_tail w) (current_program w)
          (updateSize w) (shader_heap w) (program_heap w) (brk w)
          (window_w w) (window_h w) (gl_log w) (sdl_error w).
Proof. intros []. reflexivity. Qed.

(** Writes a state out field by field. *)
Ltac wflat_in H :=
  cbv beta delta
      [set_SDL_CurrentContext set_context set_shader_formats
       set_shader_cache_count set_shader_cache_head set_program_cache_count
       set_program_cache_head set_program_cache_tail set_current_program
       set_updateSize set_shader_heap set_program_heap set_brk set_gl_log
       set_sdl_error] in H;
  cbn [SDL_CurrentContext context shader_formats shader_cache_count
       shader_cache_head program_cache_count program_cache_head
       program_cache_tail current_program updateSize shader_heap program_heap
       brk window_w window_h gl_log sdl_error] in H.

(** As [minv], on a state written out field by field. *)
Ltac mflat H :=
  repeat (first
    [ rewrite bind_assoc in H
    | rewrite bind_gl in H
    | rewrite bind_ret in H
    | rewrite bind_gets in H
    | rewrite bind_modify in H
    | rewrite bind_SetError in H
    | rewrite bind_OutOfMemory in H ]; wflat_in H).

Lemma CacheProgram_ok : forall w l v f blendMode o r w',
    consistent w l ->
    shader_heap w v <> None -> shader_heap w f <> None ->
    GLES2_CacheProgram v f blendMode o w = Val (r, w') ->
    exists l',
      consistent w' l' /\
      entries_kept (shader_heap w) (shader_heap w') /\
      shader_formats w' = shader_formats w /\
      (forall q, pair_of (program_heap w' q) = pair_of (program_heap w q) \/
                 pair_of (program_heap w' q) = Some (v, f) \/
                 program_heap w' q = None) /\
      (forall t te, program_heap w t = Some te -> program_heap w' t = None ->
         forall s e, shader_heap w s = Some e ->
           let lost := Z.of_nat (uses (pair_of (Some te)) s) in
           let gained := Z.of_nat (uses (Some (v, f)) s) in
           (0 < lost /\ references e + gained - lost <= 0 /\
            shader_heap w' s = None) \/
           (exists e', shader_heap w' s = Some e' /\
                       references e' = references e + gained - lost /\
                       (0 < lost -> 0 < references e'))) /\
      match r with
      | Some p =>
          exists pe, program_heap w' p = Some pe /\
                     vertex_shader pe = v /\ fragment_shader pe = f
      | None => True
      end.
Proof.
  intros w l v f blendMode o r w' Hc Hvlive Hflive H.
  unfold GLES2_CacheProgram in H.
  apply bind_val in H. destruct H as [found [w0 [Hfind H]]].
  apply lift_val in Hfind. destruct Hfind as [Hfind ->].
  destruct found as [entry |].
  - (* a hit *)
    apply find_program_some in Hfind. destruct Hfind as [e [He [Hv Hf]]].
    apply bind_val in H. destruct H as [u [w1 [Hprom H]]].
    injection H as <- <-.
    destruct Hc as [Hs [Hp Hh]].
    destruct (promote_ok w entry u w1 Hp Hh) as [ph' [hd' [-> [Hp' [Hpairs Hh']]]]];
      [congruence | exact Hprom | ].
    exists l.
    split; [ | split; [apply entries_kept_refl | split; [reflexivity | split; [ | split]]]].
    + split; [ | split]; wsimpl.
      * eapply shaders_ok_ext; [ | | exact Hs]; [ | reflexivity].
        intro p. unfold pairs_of. wsimpl. apply Hpairs.
      * exact Hp'.
      * exact Hh'.
    + intro q. left. wsimpl. apply Hpairs.
    + intros t te Ht Ht'. wsimpl_in Ht'. pose proof (Hpairs t) as E.
      rewrite Ht, Ht' in E. discriminate.
    + wsimpl. pose proof (Hpairs entry) as Hpe. rewrite He in Hpe. simpl in Hpe.
      destruct (ph' entry) as [pe |]; [ | discriminate].
      simpl in Hpe. injection Hpe as E1 E2. exists pe. repeat split; congruence.
  - (* a miss *)
    rewrite (world_eta w) in H.
    destruct (po_alloc o) eqn:Halloc.
    2: { unfold bind, calloc_program in H. mflat H. unfold ret in H.
         injection H as <- <-.
         exists l. split; [eapply quiet_consistent; [apply quiet_error | exact Hc] | ].
         split; [apply entries_kept_refl | split; [reflexivity | ]].
         split; [intro q; left; reflexivity | ].
         split; [ | exact I]. intros t te Ht Ht'. wsimpl_in Ht'. congruence. }
    rewrite bind_calloc_program in H. wflat_in H. set (N := brk w) in *. mflat H.
    set (init := mkProgramEntry 0 blendMode v f (repeat 0 16) None None) in *.
    rewrite (bind_update_program _ N _ init) in H by (wsimpl; apply upd_eq).
    rewrite (bind_load_program _ N (set_pr_id (po_id o) init)) in H
      by (wsimpl; apply upd_eq).
    destruct (shader_heap w v) as [ev |] eqn:Hev; [ | contradiction].
    destruct (shader_heap w f) as [ef |] eqn:Hef; [ | contradiction].
    rewrite (bind_load_shader _ v ev) in H by (wsimpl; exact Hev). mflat H.
    rewrite (bind_load_shader _ f ef) in H by (wsimpl; exact Hef). mflat H.
    assert (HNfree : program_heap w N = None).
    { destruct Hc as [_ [[Hpb _ _] _]].
      destruct (program_heap w N) as [e |] eqn:E; [ | reflexivity].
      specialize (Hpb N e E). unfold N in Hpb. lia. }
    destruct (po_error o || negb (po_linked o)) eqn:Hlink.
    + (* the link fails *)
      mflat H. unfold free_program, bind in H. wflat_in H.
      rewrite upd_eq in H. unfold ret in H. injection H as <- <-.
      assert (Hsame : forall a,
                 upd (upd (upd (program_heap w) N (Some init)) N
                          (Some (set_pr_id (po_id o) init))) N None a
                 = program_heap w a).
      { intro a. unfold upd. destruct (Nat.eqb_spec a N) as [-> | _]; [ | reflexivity].
        symmetry. exact HNfree. }
      exists l. split; [ | split; [apply entries_kept_refl | split; [reflexivity | ]]].
      2: { split; [intro q; left; wsimpl; rewrite Hsame; reflexivity | ].
           split; [ | exact I]. intros t te Ht Ht'. wsimpl_in Ht'.
           rewrite Hsame in Ht'. congruence. }
      eapply quiet_consistent; [ | exact Hc].
      apply quiet_fields; wsimpl; try reflexivity; [exact Hsame | unfold N; lia].
    + (* the program is linked *)
      erewrite bind_locate_uniform in H by (wsimpl; apply upd_eq). wflat_in H.
      erewrite bind_locate_uniform in H by (wsimpl; apply upd_eq). wflat_in H.
      erewrite bind_locate_uniform in H by (wsimpl; apply upd_eq). wflat_in H.
      erewrite bind_locate_uniform in H by (wsimpl; apply upd_eq). wflat_in H.
      erewrite bind_locate_uniform in H by (wsimpl; apply upd_eq). wflat_in H.
      mflat H.
      match type of H with
      | context [mkWorld _ _ _ _ _ _ _ _ _ _ _ (upd ?h N (Some ?e))] =>
          set (ph5 := upd h N (Some e)) in *; set (e5 := e) in *
      end.
      assert (H5 : ph5 N = Some e5) by apply upd_eq.
      assert (Hother : forall a, a <> N -> ph5 a = program_heap w a).
      { intros a Ha. unfold ph5. rewrite !upd_neq by exact Ha. reflexivity. }
      pose proof (tracks_refl ph5) as T0.
      (* linked in at the head *)
      assert (Hlinked : exists phA w6,
                 tracks ph5 phA
                   (fun a e => if ptr_eqb (program_cache_head w) (Some a)
                               then Some N else pr_prev e)
                   (fun a e => if Nat.eqb a N then program_cache_head w else pr_next e) /\
                 program_heap w6 = phA /\
                 (exists log tl,
                    w6 = set_program_cache_tail tl
                           (set_gl_log log
                              (set_brk (S N) (set_program_heap phA w)))) /\
                 (modify (set_program_cache_head (Some N));;
                  modify (fun w => set_program_cache_count (program_cache_count w + 1) w);;
                  update_shader v (fun e => set_references (references e + 1) e);;
                  update_shader f (fun e => set_references (references e + 1) e);;
                  count <- gets program_cache_count;;
                  when (count >? GLES2_MAX_CACHED_PROGRAMS) evict_tail;;
                  ret (Some N)) w6 = Val (r, w')).
      { destruct (program_cache_head w) as [h |] eqn:Hh.
        - rewrite bind_assoc in H.
          rewrite (bind_update_program _ N _ e5) in H by (wsimpl; exact H5).
          apply bind_val in H. destruct H as [u [w6 [Hu H]]].
          apply update_program_val in Hu. destruct Hu as [eh [Heh ->]]. wflat_in Heh.
          wflat_in H.
          pose proof (tracks_set_next _ _ _ _ N e5 (Some h) T0 H5) as T1.
          pose proof (tracks_set_prev _ _ _ _ h eh (Some N) T1 Heh) as T2.
          eexists. eexists. split; [ | split; [reflexivity | split; [ | exact H]]].
          + eapply tracks_ext; [ | | exact T2].
            * intros a e _. simpl. rewrite Nat.eqb_sym. reflexivity.
            * intros a e _. reflexivity.
          + eexists. exists (program_cache_tail w).
            apply world_ext; wsimpl; first [reflexivity | symmetry; assumption].
        - rewrite bind_modify in H. wflat_in H.
          eexists. eexists. split; [ | split; [reflexivity | split; [ | exact H]]].
          + eapply tracks_ext; [ | | exact T0].
            * intros a e _. reflexivity.
            * intros a e Ha. simpl.
              destruct (Nat.eqb_spec a N) as [-> | _]; [ | reflexivity].
              rewrite H5 in Ha. injection Ha as <-. reflexivity.
          + eexists. exists (Some N).
            apply world_ext; wsimpl; first [reflexivity | symmetry; assumption]. }
      clear H. destruct Hlinked as [phA [w6 [T [_ [[log [tl ->]] H]]]]].
      mflat H.
      rewrite (bind_update_shader _ v _ ev) in H by (wsimpl; exact Hev).
      assert (Hef1 : exists ef1,
                 upd (shader_heap w) v
                     (Some (set_references (references ev + 1) ev)) f = Some ef1).
      { unfold upd. destruct (Nat.eqb f v); eexists; [reflexivity | exact Hef]. }
      destruct Hef1 as [ef1 Hef1].
      rewrite (bind_update_shader _ f _ ef1) in H by (wsimpl; exact Hef1).
      mflat H.
      match type of H with
      | bind _ _ ?W = _ => set (wA := W) in *
      end.
      assert (HcA : consistent wA l).
      { pose proof (inserted_consistent w l v f ev ph5 e5 log
                      (upd (upd (shader_heap w) v
                                (Some (set_references (references ev + 1) ev)))
                           f (Some (set_references (references ef1 + 1) ef1)))
                      phA Hc Hev) as HA.
        rewrite Hef in HA. specialize (HA ltac:(discriminate) H5 Hother).
        specialize (HA eq_refl eq_refl eq_refl eq_refl T).
        specialize (HA (ex_intro _ ef1 (conj Hef1 eq_refl))).
        unfold consistent, pairs_of in HA |- *. unfold wA.
        wsimpl. wflat_in HA. exact HA. }
      assert (HkA : entries_kept (shader_heap w) (shader_heap wA)).
      { unfold wA. wsimpl.
        eapply entries_kept_trans; [apply (bump_kept _ v ev Hev) | ].
        apply (bump_kept _ f ef1 Hef1). }
      assert (HNA : exists eN, program_heap wA N = Some eN /\ pr_prev eN = None /\
                               vertex_shader eN = v /\ fragment_shader eN = f).
      { destruct T as [_ Tsome]. destruct (Tsome N e5 H5) as [eN [E1 [E2 [_ [E4 E5]]]]].
        exists eN. unfold wA. wsimpl. split; [exact E1 | ].
        split; [ | split; [exact E4 | exact E5]].
        rewrite E2.
        assert (Hhn : ptr_eqb (program_cache_head w) (Some N) = false).
        { apply ptr_eqb_neq. intro E. destruct Hc as [_ [_ Hh]].
          specialize (Hh N E). unfold N in Hh. lia. }
        rewrite Hhn. reflexivity. }
      destruct HNA as [eN [HeN [HprevN [HvN HfN]]]].
      assert (HpA : forall q, pair_of (program_heap wA q) = pair_of (program_heap w q) \/
                              pair_of (program_heap wA q) = Some (v, f)).
      { intro q. unfold wA. wsimpl. rewrite (tracks_pairs _ _ _ _ q T).
        destruct (Nat.eq_dec q N) as [-> | Hne].
        - right. rewrite H5. reflexivity.
        - left. rewrite (Hother q Hne). reflexivity. }
      assert (HpA' : forall q, q <> N ->
                       pair_of (program_heap wA q) = pair_of (program_heap w q)).
      { intros q Hne. unfold wA. wsimpl. rewrite (tracks_pairs _ _ _ _ q T).
        rewrite (Hother q Hne). reflexivity. }
      assert (HsA : forall s e, shader_heap w s = Some e ->
                      exists eA, shader_heap wA s = Some eA /\
                                 references eA
                                 = references e + Z.of_nat (uses (Some (v, f)) s)).
      { intros s e Hs. unfold wA. wsimpl. rewrite uses_pair.
        unfold upd in Hef1 |- *. rewrite (Nat.eqb_sym v s), (Nat.eqb_sym f s).
        destruct (Nat.eqb_spec s f) as [-> | Hsf].
        - eexists. split; [reflexivity | ].
          destruct (Nat.eqb_spec f v) as [-> | Hfv].
          + injection Hef1 as <-. rewrite Hev in Hs. injection Hs as <-.
            simpl. lia.
          + rewrite Hef1 in Hs. injection Hs as <-. simpl. lia.
        - destruct (Nat.eqb_spec s v) as [-> | Hsv].
          + eexists. split; [reflexivity | ].
            rewrite Hev in Hs. injection Hs as <-. simpl. lia.
          + exists e. split; [exact Hs | simpl; lia]. }
      destruct (program_cache_count w + 1 >? GLES2_MAX_CACHED_PROGRAMS) eqn:Hover;
        unfold when in H.
      * (* the tail is evicted *)
        apply bind_val in H. destruct H as [u [w7 [Hev7 H]]].
        unfold ret in H. injection H as <- <-.
        destruct (evict_tail_ok wA l u w7 HcA Hev7)
          as [t [te [q [sh' [hd' [cnt' [log' [ph' [l'
             [Ht [Hte [Hq [-> [Hc7 [Hgone [Hpairs7 [Hk7 Hdec]]]]]]]]]]]]]]]]].
        assert (HNt : N <> t) by (intro E; rewrite <- E in Hte; congruence).
        exists l'. split; [exact Hc7 | ].
        split; [wsimpl; eapply entries_kept_trans; [exact HkA | exact Hk7] | ].
        split; [reflexivity | ].
        split.
        { intro p. wsimpl. destruct (Nat.eq_dec p t) as [-> | Hne].
          - right. right. exact Hgone.
          - rewrite (Hpairs7 p Hne).
            destruct (HpA p) as [E | E]; [left | right; left]; exact E. }
        split.
        { intros t1 te1 Ht1 Ht1'. wsimpl_in Ht1'.
          assert (Et : t1 = t).
          { destruct (Nat.eq_dec t1 t) as [E | Hne]; [exact E | exfalso].
            pose proof (Hpairs7 t1 Hne) as E. rewrite Ht1' in E.
            destruct (HpA t1) as [E' | E']; rewrite E' in E;
              [rewrite Ht1 in E | ]; discriminate. }
          subst t1.
          assert (Epair : pair_of (Some te) = pair_of (Some te1)).
          { rewrite <- Hte, <- Ht1. apply HpA'. congruence. }
          intros s e Hs. cbv zeta. rewrite <- Epair.
          destruct (HsA s e Hs) as [eA [HeA HrA]].
          pose proof (Hdec s eA HeA) as Hd. cbv zeta in Hd. wsimpl.
          change (pair_of (Some te)) with (Some (vertex_shader te, fragment_shader te)).
          rewrite <- HrA. exact Hd. }
        wsimpl.
        pose proof (Hpairs7 N HNt) as HpN. rewrite HeN in HpN. simpl in HpN.
        destruct (ph' N) as [pe |]; [ | discriminate].
        simpl in HpN. injection HpN as E1 E2. exists pe. repeat split; congruence.
      * rewrite bind_ret in H. unfold ret in H. injection H as <- <-.
        exists l. split; [exact HcA | ]. split; [exact HkA | ].
        split; [reflexivity | ].
        split; [intro q; destruct (HpA q) as [E | E]; [left | right; left]; exact E | ].
        split.
        { intros t te Ht Ht'. destruct (HpA t) as [E | E]; rewrite Ht' in E;
            [rewrite Ht in E | ]; discriminate. }
        exists eN. repeat split; assumption.
Qed.

(** ** The outcomes of [GLES2_CacheShader] *)

(** Writes the states of the goal out field by field. *)
Ltac wflat :=
  cbv beta delta
      [set_SDL_CurrentContext set_context set_shader_formats
       set_shader_cache_count set_shader_cache_head set_program_cache_count
       set_program_cache_head set_program_cache_tail set_current_program
       set_updateSize set_shader_heap set_program_heap set_brk set_gl_log
       set_sdl_error with_shaders];
  cbn [SDL_CurrentContext context shader_formats shader_cache_count
       shader_cache_head program_cache_count program_cache_head
       program_cache_tail current_program updateSize shader_heap program_heap
       brk window_w window_h gl_log sdl_error].

(** As [mrun], with the state written out after every step. *)
Ltac mrunf :=
  repeat (first
    [ rewrite bind_assoc
    | rewrite bind_gl
    | rewrite bind_ret
    | rewrite bind_gets
    | rewrite bind_modify
    | rewrite bind_SetError
    | rewrite bind_OutOfMemory ]; wflat).

Lemma same_instance_refl : forall a, same_instance a a = true.
Proof. intro a. unfold same_instance. apply Nat.eqb_refl. Qed.

Lemma carried_refl : forall r sh, carried r sh sh.
Proof. intros r sh b e' H. right. exists e'. split; [exact H | reflexivity]. Qed.

Lemma retained_refl : forall sh, retained sh sh.
Proof. intros sh b e H. exists e. split; [exact H | reflexivity]. Qed.

Lemma carried_ext : forall r sh sh',
    (forall a, sh' a = sh a) -> carried r sh sh'.
Proof.
  intros r sh sh' E b e' H. right. exists e'. rewrite <- E. split; [exact H | reflexivity].
Qed.

Lemma retained_ext : forall sh sh',
    (forall a, sh' a = sh a) -> retained sh sh'.
Proof.
  intros sh sh' E b e H. exists e. rewrite E. split; [exact H | reflexivity].
Qed.

Section CacheShaderCases.

Variable GetShader : GLES2_ShaderType -> Z -> option GLES2_Shader.

Lemma CacheShader_no_memory : forall type blendMode o w l shader instance,
    consistent w l ->
    GetShader type blendMode = Some shader ->
    find_instance shader (shader_formats w) = Some instance ->
    (forall a ea, shader_heap w a = Some ea ->
                  same_instance (sh_instance ea) instance = false) ->
    so_alloc o = false ->
    GLES2_CacheShader GetShader type blendMode o w
    = Val (None, set_sdl_error (Some "Out of memory"%string) w).
Proof.
  intros type blendMode o w l shader instance Hc H1 H2 Hmiss Halloc.
  destruct (find_shader_ok w l instance Hc) as [[c [ec [Hec [Hsc _]]]] | [_ Hfind]].
  { rewrite (Hmiss c ec Hec) in Hsc. discriminate. }
  unfold GLES2_CacheShader. rewrite H1, bind_gets, H2.
  rewrite (bind_lift _ _ _ _ w None) by exact Hfind.
  rewrite Halloc. unfold calloc_shader, bind at 1. rewrite bind_OutOfMemory.
  reflexivity.
Qed.

Lemma CacheShader_load_fails : forall type blendMode o w l shader instance,
    consistent w l ->
    GetShader type blendMode = Some shader ->
    find_instance shader (shader_formats w) = Some instance ->
    (forall a ea, shader_heap w a = Some ea ->
                  same_instance (sh_instance ea) instance = false) ->
    so_alloc o = true ->
    load_fails o instance = true ->
    exists w',
      GLES2_CacheShader GetShader type blendMode o w = Val (None, w') /\
      quiet_change w w'.
Proof.
  intros type blendMode o w l shader instance Hc H1 H2 Hmiss Halloc Hload.
  destruct (find_shader_ok w l instance Hc) as [[c [ec [Hec [Hsc _]]]] | [_ Hfind]].
  { rewrite (Hmiss c ec Hec) in Hsc. discriminate. }
  destruct Hc as [[Hdll Hnd Hlive Hinst Hbound Hcount Hpb Hpairs Hrefs] _].
  assert (Hfresh : shader_heap w (brk w) = None).
  { destruct (shader_heap w (brk w)) as [e |] eqn:E; [ | reflexivity].
    specialize (Hbound _ (Hlive _ _ E)). lia. }
  set (N := brk w) in *.
  set (init := mkShaderEntry 0 type instance 0 None None).
  unfold load_fails in Hload.
  assert (Hheap : forall a,
             upd (upd (upd (shader_heap w) N (Some init)) N
                      (Some (set_sh_id (so_id o) init))) N None a
             = shader_heap w a).
  { intro a. unfold upd. destruct (Nat.eqb_spec a N) as [-> | _]; [ | reflexivity].
    symmetry. exact Hfresh. }
  destruct (inst_format instance =? GLenum_minus_one) eqn:Hfmt.
  - eexists. split.
    + unfold GLES2_CacheShader. rewrite H1, bind_gets, H2.
      rewrite (bind_lift _ _ _ _ w None) by exact Hfind.
      rewrite Halloc, bind_calloc_shader. fold N. mrunf.
      rewrite (bind_update_shader _ N _ init) by (wsimpl; apply upd_eq). wflat.
      rewrite (bind_load_shader _ N (set_sh_id (so_id o) init)) by (wsimpl; apply upd_eq).
      rewrite Hfmt. mrunf. rewrite Hload. mrunf.
      unfold free_shader, bind. wflat. rewrite upd_eq. unfold ret. reflexivity.
    + apply quiet_fields; wsimpl; try reflexivity; try exact Hheap.
      unfold N. lia.
  - eexists. split.
    + unfold GLES2_CacheShader. rewrite H1, bind_gets, H2.
      rewrite (bind_lift _ _ _ _ w None) by exact Hfind.
      rewrite Halloc, bind_calloc_shader. fold N. mrunf.
      rewrite (bind_update_shader _ N _ init) by (wsimpl; apply upd_eq). wflat.
      rewrite (bind_load_shader _ N (set_sh_id (so_id o) init)) by (wsimpl; apply upd_eq).
      rewrite Hfmt. mrunf. rewrite Hload. mrunf.
      unfold free_shader, bind. wflat. rewrite upd_eq. unfold ret. reflexivity.
    + apply quiet_fields; wsimpl; try reflexivity; try exact Hheap.
      unfold N. lia.
Qed.

Lemma quiet_carried : forall w w' r,
    quiet_change w w' ->
    carried r (shader_heap w) (shader_heap w') /\
    retained (shader_heap w) (shader_heap w') /\
    (forall p, program_heap w' p = program_heap w p) /\
    shader_formats w' = shader_formats w /\
    current_program w' = current_program w.
Proof.
  intros w w' r [sh [ph [log [err [b [-> [Hsh [Hph Hb]]]]]]]]. wsimpl.
  split; [apply carried_ext; exact Hsh | ].
  split; [apply retained_ext; exact Hsh | ].
  split; [exact Hph | split; reflexivity].
Qed.

Lemma CacheShader_ok : forall type blendMode o w l r w',
    consistent w l ->
    GLES2_CacheShader GetShader type blendMode o w = Val (r, w') ->
    exists l',
      consistent w' l' /\
      carried r (shader_heap w) (shader_heap w') /\
      retained (shader_heap w) (shader_heap w') /\
      (forall p, program_heap w' p = program_heap w p) /\
      shader_formats w' = shader_formats w /\
      current_program w' = current_program w /\
      match r with
      | Some a =>
          exists shader instance e',
            GetShader type blendMode = Some shader /\
            find_instance shader (shader_formats w) = Some instance /\
            shader_heap w' a = Some e' /\
            same_instance (sh_instance e') instance = true
      | None => True
      end.
Proof.
  intros type blendMode o w l r w' Hc H.
  assert (Hquiet : forall w1, quiet_change w w1 ->
             GLES2_CacheShader GetShader type blendMode o w = Val (None, w1) ->
             exists l',
               consistent w' l' /\
               carried r (shader_heap w) (shader_heap w') /\
               retained (shader_heap w) (shader_heap w') /\
               (forall p, program_heap w' p = program_heap w p) /\
               shader_formats w' = shader_formats w /\
               current_program w' = current_program w /\
               match r with
               | Some a =>
                   exists shader instance e',
                     GetShader type blendMode = Some shader /\
                     find_instance shader (shader_formats w) = Some instance /\
                     shader_heap w' a = Some e' /\
                     same_instance (sh_instance e') instance = true
               | None => True
               end).
  { intros w1 Hq E. rewrite E in H. injection H as <- <-.
    exists l. split; [eapply quiet_consistent; [exact Hq | exact Hc] | ].
    destruct (quiet_carried w w1 None Hq) as [A [B [C [D F]]]].
    repeat split; assumption. }
  destruct (GetShader type blendMode) as [shader |] eqn:H1.
  2: { eapply Hquiet; [ | apply CacheShader_undefined; exact H1]. apply quiet_error. }
  destruct (find_instance shader (shader_formats w)) as [instance |] eqn:H2.
  2: { eapply Hquiet; [ | eapply CacheShader_unsupported; eassumption].
       apply quiet_error. }
  destruct (find_shader_ok w l instance Hc) as [[a [ea [Hea [Hsame _]]]] | [Hmiss _]].
  - (* a hit *)
    rewrite (CacheShader_hit GetShader type blendMode o w l shader instance a ea
               Hc H1 H2 Hea Hsame) in H.
    injection H as <- <-. exists l. split; [exact Hc | ].
    split; [apply carried_refl | split; [apply retained_refl | ]].
    split; [reflexivity | split; [reflexivity | split; [reflexivity | ]]].
    exists shader, instance, ea. repeat split; assumption.
  - destruct (so_alloc o) eqn:Halloc.
    2: { eapply Hquiet; [ | eapply CacheShader_no_memory; eassumption].
         apply quiet_error. }
    destruct (load_fails o instance) eqn:Hload.
    { destruct (CacheShader_load_fails type blendMode o w l shader instance
                  Hc H1 H2 Hmiss Halloc Hload) as [w1 [E Hq]].
      eapply Hquiet; eassumption. }
    (* a new entry *)
    destruct (CacheShader_create GetShader type blendMode o w l shader instance
                Hc H1 H2 Hmiss Halloc Hload) as [sh' [E [HN Hother]]].
    rewrite E in H. injection H as <- <-.
    exists (brk w :: l).
    split; [eapply created_consistent; eassumption | ].
    wsimpl.
    split.
    { intros b e' Hb. destruct (Nat.eq_dec b (brk w)) as [-> | Hne]; [left; reflexivity | ].
      right. rewrite (Hother b Hne) in Hb.
      destruct (shader_heap w b) as [eb |]; [ | discriminate].
      injection Hb as <-. exists eb. split; [reflexivity | ].
      destruct (ptr_eqb (shader_cache_head w) (Some b)); reflexivity. }
    split.
    { intros b e Hb.
      assert (Hne : b <> brk w).
      { intro Eb. destruct Hc as [Hs _].
        pose proof (s_bound _ _ _ _ _ _ _ Hs b (s_live _ _ _ _ _ _ _ Hs b e Hb)).
        lia. }
      rewrite (Hother b Hne), Hb. eexists. split; [reflexivity | ].
      destruct (ptr_eqb (shader_cache_head w) (Some b)); reflexivity. }
    split; [reflexivity | split; [reflexivity | split; [reflexivity | ]]].
    exists shader, instance. eexists. split; [reflexivity | ].
    split; [exact H2 | ]. split; [exact HN | ]. apply same_instance_refl.
Qed.

End CacheShaderCases.

(** ** The way out through [fault] *)

Lemma drop_unused_ok : forall w l v e,
    consistent w l ->
    shader_heap w v = Some e ->
    exists w' l',
      (e0 <- load_shader v ;; when (references e0 <=? 0) (GLES2_EvictShader v)) w
      = Val (tt, w') /\
      consistent w' l' /\
      program_heap w' = program_heap w /\
      shader_formats w' = shader_formats w /\
      current_program w' = current_program w /\
      (forall b e', shader_heap w' b = Some e' ->
         exists eb, shader_heap w b = Some eb /\ payload e' = payload eb /\
                    (b = v -> 1 <= references e')) /\
      (1 <= references e -> w' = w).
Proof.
  intros w l v e Hc Hv.
  rewrite (bind_load_shader _ v e) by exact Hv.
  destruct (references e <=? 0) eqn:Hr; unfold when.
  - apply Z.leb_le in Hr.
    destruct Hc as [Hs [Hp Hh]].
    assert (Hheld : held (pairs_of w) (brk w) v = 0%nat).
    { pose proof (s_refs _ _ _ _ _ _ _ Hs v e Hv) as E. unfold no_extra in E. lia. }
    assert (Hin : In v l) by (eapply (s_live _ _ _ _ _ _ _ Hs); exact Hv).
    apply in_split in Hin. destruct Hin as [l1 [l2 ->]].
    destruct (EvictShader_ok w (brk w) (pairs_of w) no_extra l1 v l2 e Hs Hv Hheld)
      as [sh' [hd' [E [Hs' [Hgone [Hkeep Hfrom]]]]]].
    eexists. exists (l1 ++ l2). split; [exact E | ].
    split.
    { split; [ | split]; wsimpl; [ | exact Hp | exact Hh].
      eapply shaders_ok_ext; [ | | exact Hs']; [ | reflexivity].
      intro p. reflexivity. }
    wsimpl. split; [reflexivity | split; [reflexivity | split; [reflexivity | ]]].
    split.
    + intros b e' Hb. destruct (Hfrom b e' Hb) as [Hne [eb [Heb Hpay]]].
      exists eb. split; [exact Heb | split; [exact Hpay | ]].
      intro Eb. contradiction.
    + intro H1. lia.
  - apply Z.leb_gt in Hr.
    exists w, l. split; [reflexivity | ]. split; [exact Hc | ].
    split; [reflexivity | split; [reflexivity | split; [reflexivity | ]]].
    split; [ | reflexivity].
    intros b e' Hb. exists e'. split; [exact Hb | split; [reflexivity | ]].
    intros ->. rewrite Hv in Hb. injection Hb as <-. lia.
Qed.

Lemma drop_val : forall w l x u w',
    consistent w l ->
    if_nonnull x
      (fun v => e0 <- load_shader v ;;
                when (references e0 <=? 0) (GLES2_EvictShader v)) w
    = Val (u, w') ->
    (exists l', consistent w' l') /\
    program_heap w' = program_heap w /\
    shader_formats w' = shader_formats w /\
    current_program w' = current_program w /\
    (forall b e', shader_heap w' b = Some e' ->
       exists eb, shader_heap w b = Some eb /\ payload e' = payload eb /\
                  (x = Some b -> 1 <= references e')).
Proof.
  intros w l x u w' Hc H. destruct x as [v |]; unfold if_nonnull in H.
  - destruct (shader_heap w v) as [e |] eqn:Hv.
    + destruct (drop_unused_ok w l v e Hc Hv)
        as [w1 [l1 [E [Hc1 [Hph [Hfm [Hcur [Hsh _]]]]]]]].
      rewrite E in H. injection H as _ <-.
      split; [exists l1; exact Hc1 | ].
      split; [exact Hph | split; [exact Hfm | split; [exact Hcur | ]]].
      intros b e' Hb. destruct (Hsh b e' Hb) as [eb [Heb [Hpay Hone]]].
      exists eb. split; [exact Heb | split; [exact Hpay | ]].
      intro Eb. injection Eb as <-. apply Hone. reflexivity.
    + unfold bind, load_shader in H. rewrite Hv in H. discriminate.
  - injection H as _ <-. split; [exists l; exact Hc | ].
    split; [reflexivity | split; [reflexivity | split; [reflexivity | ]]].
    intros b e' Hb. exists e'. split; [exact Hb | split; [reflexivity | ]].
    discriminate.
Qed.

Lemma fault_ok : forall w l vertex fragment r w',
    consistent w l ->
    fault vertex fragment w = Val (r, w') ->
    r = -1 /\
    (exists l', consistent w' l') /\
    program_heap w' = program_heap w /\
    shader_formats w' = shader_formats w /\
    current_program w' = None /\
    (forall b e', shader_heap w' b = Some e' ->
       exists eb, shader_heap w b = Some eb /\ payload e' = payload eb /\
                  (vertex = Some b \/ fragment = Some b -> 1 <= references e')).
Proof.
  intros w l vertex fragment r w' Hc H. unfold fault in H.
  apply bind_val in H. destruct H as [u1 [w1 [H1 H]]].
  destruct (drop_val w l vertex u1 w1 Hc H1) as [[l1 Hc1] [Hph1 [Hfm1 [_ Hsh1]]]].
  apply bind_val in H. destruct H as [u2 [w2 [H2 H]]].
  destruct (drop_val w1 l1 fragment u2 w2 Hc1 H2) as [[l2 Hc2] [Hph2 [Hfm2 [_ Hsh2]]]].
  rewrite bind_modify in H. unfold ret in H. injection H as <- <-.
  split; [reflexivity | ].
  split.
  { exists l2. destruct Hc2 as [Hs [Hp Hh]]. split; [ | split]; wsimpl; assumption. }
  wsimpl. split; [congruence | split; [congruence | split; [reflexivity | ]]].
  intros b e' Hb. destruct (Hsh2 b e' Hb) as [e1 [He1 [Hpay2 Hone2]]].
  destruct (Hsh1 b e1 He1) as [eb [Heb [Hpay1 Hone1]]].
  exists eb. split; [exact Heb | split; [congruence | ]].
  intros [Ev | Ef].
  - rewrite (payload_references _ _ Hpay2). apply Hone1. exact Ev.
  - apply Hone2. exact Ef.
Qed.

Lemma SetOrthographicProjection_frame : forall ue w r w',
    GLES2_SetOrthographicProjection ue w = Val (r, w') ->
    exists log err, w' = set_sdl_error err (set_gl_log log w).
Proof.
  intros ue w r w' H. unfold GLES2_SetOrthographicProjection in H.
  rewrite !bind_gets in H. cbv zeta in H.
  destruct (current_program w) as [c |]; unfold deref in H; [ | discriminate].
  apply bind_val in H. destruct H as [ce [w1 [Hl H]]].
  apply load_program_val in Hl. destruct Hl as [_ ->].
  rewrite !bind_gl in H.
  destruct ue.
  - rewrite bind_SetError in H. unfold ret in H. injection H as _ <-.
    eexists. eexists. apply world_ext; wsimpl; reflexivity.
  - unfold ret in H. injection H as _ <-.
    eexists. exists (sdl_error w). apply world_ext; wsimpl; reflexivity.
Qed.

(** ** [GLES2_SelectProgram] keeps the caches sound *)

Lemma find_instance_in : forall shader formats instance,
    find_instance shader formats = Some instance -> In instance (instances shader).
Proof.
  intros shader formats instance H. rewrite find_instance_last in H.
  apply find_some in H. destruct H as [H _]. apply in_rev. exact H.
Qed.

Lemma consistent_frame : forall w w' l,
    shader_heap w' = shader_heap w ->
    shader_cache_head w' = shader_cache_head w ->
    shader_cache_count w' = shader_cache_count w ->
    program_heap w' = program_heap w ->
    program_cache_head w' = program_cache_head w ->
    brk w' = brk w ->
    consistent w l -> consistent w' l.
Proof.
  intros w w' l E1 E2 E3 E4 E5 E6 Hc.
  unfold consistent, pairs_of in *. rewrite E1, E2, E3, E4, E5, E6. exact Hc.
Qed.

(** With a program for the pair in the cache, the two shaders are in use
    like the others. *)
Lemma referenced_with_pair : forall (Q : Prop) w l p pe,
    consistent w l ->
    program_heap w p = Some pe ->
    (forall b e, shader_heap w b = Some e ->
       Some (vertex_shader pe) = Some b \/ Some (fragment_shader pe) = Some b \/
       (Q -> 1 <= references e)) ->
    Q -> all_referenced w.
Proof.
  intros Q w l p pe Hc Hp Hbut HQ b e Hb.
  destruct (referenced_by_program w l p pe Hc Hp) as [[ev [Hev Hv1]] [ef [Hef Hf1]]].
  destruct (Hbut b e Hb) as [E | [E | E]].
  - injection E as E. rewrite E in Hev. rewrite Hev in Hb. injection Hb as <-. exact Hv1.
  - injection E as E. rewrite E in Hef. rewrite Hef in Hb. injection Hb as <-. exact Hf1.
  - exact (E HQ).
Qed.

Lemma fault_exit : forall (Q : Prop) w l vertex fragment r w',
    consistent w l ->
    (forall b e, shader_heap w b = Some e ->
       vertex = Some b \/ fragment = Some b \/ (Q -> 1 <= references e)) ->
    fault vertex fragment w = Val (r, w') ->
    r = -1 /\
    (exists l', consistent w' l') /\
    (Q -> all_referenced w') /\
    shader_formats w' = shader_formats w /\
    program_heap w' = program_heap w.
Proof.
  intros Q w l vertex fragment r w' Hc Hbut H.
  destruct (fault_ok w l vertex fragment r w' Hc H) as [Hr [Hc' [Hph [Hfm [_ Hsh]]]]].
  split; [exact Hr | split; [exact Hc' | split; [ | split; assumption]]].
  intros HQ b e' Hb. destruct (Hsh b e' Hb) as [eb [Heb [Hpay Hone]]].
  destruct (Hbut b eb Heb) as [E | [E | E]].
  - apply Hone. left. exact E.
  - apply Hone. right. exact E.
  - rewrite (payload_references _ _ Hpay). exact (E HQ).
Qed.

Lemma roles_apart_ext : forall w w',
    (forall q, pair_of (program_heap w' q) = pair_of (program_heap w q)) ->
    roles_apart w -> roles_apart w'.
Proof.
  intros w w' E Hr q e Hq. specialize (E q). rewrite Hq in E.
  destruct (program_heap w q) as [e0 |] eqn:E0; [ | discriminate].
  simpl in E. injection E as E1 E2. rewrite E1, E2. apply (Hr q e0 E0).
Qed.

Section SelectProgram.

Variable GetShader : GLES2_ShaderType -> Z -> option GLES2_Shader.

Lemma SelectProgram_ok : forall source blendMode o w l r w',
    consistent w l ->
    GLES2_SelectProgram GetShader source blendMode o w = Val (r, w') ->
    (exists l', consistent w' l') /\
    (all_referenced w -> all_referenced w') /\
    shader_formats w' = shader_formats w /\
    (typed_table GetShader -> roles_apart w -> roles_apart w') /\
    (r = 0 ->
     exists sv sf iv fi v f ev ef c ce,
       GetShader GLES2_SHADER_VERTEX_DEFAULT blendMode = Some sv /\
       find_instance sv (shader_formats w) = Some iv /\
       GetShader (fragment_type source) blendMode = Some sf /\
       find_instance sf (shader_formats w) = Some fi /\
       shader_heap w' v = Some ev /\ same_instance (sh_instance ev) iv = true /\
       shader_heap w' f = Some ef /\ same_instance (sh_instance ef) fi = true /\
       current_program w' = Some c /\ program_heap w' c = Some ce /\
       vertex_shader ce = v /\ fragment_shader ce = f).
Proof.
  intros source blendMode o w l r w' Hc H.
  (* every way out through [fault] *)
  assert (Hexit : forall wx lx vertex fragment,
             consistent wx lx ->
             (forall b e, shader_heap wx b = Some e ->
                vertex = Some b \/ fragment = Some b \/
                (all_referenced w -> 1 <= references e)) ->
             shader_formats wx = shader_formats w ->
             (typed_table GetShader -> roles_apart w -> roles_apart wx) ->
             fault vertex fragment wx = Val (r, w') ->
             (exists l', consistent w' l') /\
             (all_referenced w -> all_referenced w') /\
             shader_formats w' = shader_formats w /\
             (typed_table GetShader -> roles_apart w -> roles_apart w') /\
             (r = 0 ->
              exists sv sf iv fi v f ev ef c ce,
                GetShader GLES2_SHADER_VERTEX_DEFAULT blendMode = Some sv /\
                find_instance sv (shader_formats w) = Some iv /\
                GetShader (fragment_type source) blendMode = Some sf /\
                find_instance sf (shader_formats w) = Some fi /\
                shader_heap w' v = Some ev /\ same_instance (sh_instance ev) iv = true /\
                shader_heap w' f = Some ef /\ same_instance (sh_instance ef) fi = true /\
                current_program w' = Some c /\ program_heap w' c = Some ce /\
                vertex_shader ce = v /\ fragment_shader ce = f)).
  { intros wx lx vertex fragment Hcx Hbut Hfm Hroles Hf.
    destruct (fault_exit (all_referenced w) wx lx vertex fragment r w' Hcx Hbut Hf)
      as [Hr [Hc' [Href' [Hfm' Hph']]]].
    split; [exact Hc' | split; [exact Href' | split; [congruence | split]]].
    - intros Ht Hw. apply (roles_apart_ext wx w'); [ | apply Hroles; assumption].
      intro q. rewrite Hph'. reflexivity.
    - intro E. rewrite E in Hr. discriminate. }
  unfold GLES2_SelectProgram in H. cbv zeta in H.
  (* the vertex shader *)
  apply bind_val in H. destruct H as [vertex [w1 [Hv H]]].
  destruct (CacheShader_ok GetShader _ _ _ w l vertex w1 Hc Hv)
    as [l1 [Hc1 [Hcar1 [Hret1 [Hph1 [Hfm1 [Hcur1 Hm1]]]]]]].
  assert (Hbut1 : forall b e, shader_heap w1 b = Some e ->
                    vertex = Some b \/ (all_referenced w -> 1 <= references e)).
  { intros b e Hb. destruct (Hcar1 b e Hb) as [E | [e0 [He0 Hpay]]]; [left; exact E | ].
    right. intro Href. rewrite (payload_references _ _ Hpay). apply (Href b e0 He0). }
  assert (Hroles1 : typed_table GetShader -> roles_apart w -> roles_apart w1).
  { intros _. apply roles_apart_ext. intro q. rewrite Hph1. reflexivity. }
  destruct vertex as [v |].
  2: { apply (Hexit w1 l1 None None Hc1); [ | exact Hfm1 | exact Hroles1 | exact H].
       intros b e Hb. destruct (Hbut1 b e Hb) as [E | E]; [discriminate | ].
       right. right. exact E. }
  destruct Hm1 as [sv [iv [ev1 [Hsv [Hiv [Hev1 Hsame1]]]]]].
  (* the fragment shader *)
  apply bind_val in H. destruct H as [fragment [w2 [Hf H]]].
  destruct (CacheShader_ok GetShader _ _ _ w1 l1 fragment w2 Hc1 Hf)
    as [l2 [Hc2 [Hcar2 [Hret2 [Hph2 [Hfm2 [Hcur2 Hm2]]]]]]].
  assert (Hbut2 : forall b e, shader_heap w2 b = Some e ->
                    Some v = Some b \/ fragment = Some b \/
                    (all_referenced w -> 1 <= references e)).
  { intros b e Hb. destruct (Hcar2 b e Hb) as [E | [e1 [He1 Hpay]]];
      [right; left; exact E | ].
    destruct (Hbut1 b e1 He1) as [E | E]; [left; exact E | ].
    right. right. intro Href. rewrite (payload_references _ _ Hpay). exact (E Href). }
  assert (Hfm2w : shader_formats w2 = shader_formats w) by congruence.
  assert (Hroles2 : typed_table GetShader -> roles_apart w -> roles_apart w2).
  { intros Ht Hw. apply (roles_apart_ext w1 w2); [ | apply Hroles1; assumption].
    intro q. rewrite Hph2. reflexivity. }
  destruct fragment as [f |].
  2: { apply (Hexit w2 l2 (Some v) None Hc2); assumption. }
  destruct Hm2 as [sf [fi [ef [Hsf [Hfi [Hef Hsame2]]]]]].
  rewrite Hfm1 in Hfi.
  destruct (Hret2 v ev1 Hev1) as [ev [Hev Hpayv]].
  assert (Hsamev : same_instance (sh_instance ev) iv = true).
  { rewrite (payload_instance _ _ Hpayv). exact Hsame1. }
  (* is the program current already? *)
  rewrite bind_gets in H.
  apply bind_val in H. destruct H as [unchanged [w2' [Hun H]]].
  assert (Hsame : w2' = w2 /\
                  (unchanged = true ->
                   exists c ce, current_program w2 = Some c /\
                                program_heap w2 c = Some ce /\
                                vertex_shader ce = v /\ fragment_shader ce = f)).
  { destruct (current_program w2) as [c |] eqn:Hcur.
    - apply bind_val in Hun. destruct Hun as [ce [wx [Hl Hun]]].
      apply load_program_val in Hl. destruct Hl as [Hce ->].
      unfold ret in Hun. injection Hun as <- <-.
      split; [reflexivity | ]. intro Hb.
      apply andb_true_iff in Hb. destruct Hb as [Hb1 Hb2].
      apply Nat.eqb_eq in Hb1. apply Nat.eqb_eq in Hb2.
      exists c, ce. repeat split; assumption.
    - unfold ret in Hun. injection Hun as <- <-.
      split; [reflexivity | discriminate]. }
  destruct Hsame as [-> Hunch].
  destruct unchanged.
  - (* nothing to change *)
    unfold ret in H. injection H as <- <-.
    destruct (Hunch eq_refl) as [c [ce [Hcur [Hce [Hcv Hcf]]]]].
    split; [exists l2; exact Hc2 | ].
    split.
    { apply (referenced_with_pair (all_referenced w) w2 l2 c ce Hc2 Hce).
      rewrite Hcv, Hcf. exact Hbut2. }
    split; [exact Hfm2w | split; [exact Hroles2 | ]].
    intros _. exists sv, sf, iv, fi, v, f, ev, ef, c, ce.
    repeat split; assumption.
  - (* the program of the pair *)
    apply bind_val in H. destruct H as [program [w3 [Hp H]]].
    destruct (CacheProgram_ok w2 l2 v f blendMode (o_program o) program w3 Hc2)
      as [l3 [Hc3 [Hk3 [Hfm3 [Hpairs3 [_ Hm3]]]]]];
      [congruence | congruence | exact Hp | ].
    assert (Hbut3 : forall b e, shader_heap w3 b = Some e ->
                      Some v = Some b \/ Some f = Some b \/
                      (all_referenced w -> 1 <= references e)).
    { intros b e Hb. destruct (Hk3 b e Hb) as [ea [Hea [_ [Hle | Hone]]]].
      - destruct (Hbut2 b ea Hea) as [E | [E | E]];
          [left; exact E | right; left; exact E | ].
        right. right. intro Href. specialize (E Href). lia.
      - right. right. intros _. exact Hone. }
    assert (Hfm3w : shader_formats w3 = shader_formats w) by congruence.
    assert (Hroles3 : typed_table GetShader -> roles_apart w -> roles_apart w3).
    { intros Ht Hw q qe Hq.
      destruct (Hpairs3 q) as [E | [E | E]].
      - rewrite Hq in E. destruct (program_heap w2 q) as [q2 |] eqn:Hq2; [ | discriminate].
        simpl in E. injection E as E1 E2. rewrite E1, E2.
        apply (Hroles2 Ht Hw q q2 Hq2).
      - rewrite Hq in E. simpl in E. injection E as E1 E2. rewrite E1, E2.
        intro Evf. rewrite <- Evf in Hef. rewrite Hev in Hef. injection Hef as <-.
        apply (Ht source blendMode sv sf iv fi Hsv Hsf
                 (find_instance_in _ _ _ Hiv) (find_instance_in _ _ _ Hfi)).
        unfold same_instance in Hsamev, Hsame2.
        apply Nat.eqb_eq in Hsamev. apply Nat.eqb_eq in Hsame2. congruence.
      - congruence. }
    destruct program as [p |].
    2: { apply (Hexit w3 l3 (Some v) (Some f) Hc3); assumption. }
    destruct Hm3 as [pe [Hpe [Hpv Hpf]]].
    assert (Href3 : all_referenced w -> all_referenced w3).
    { apply (referenced_with_pair (all_referenced w) w3 l3 p pe Hc3 Hpe).
      rewrite Hpv, Hpf. exact Hbut3. }
    destruct (referenced_by_program w3 l3 p pe Hc3 Hpe) as [[ev3 [Hev3 _]] [ef3 [Hef3 _]]].
    rewrite Hpv in Hev3. rewrite Hpf in Hef3.
    assert (Hsamev3 : same_instance (sh_instance ev3) iv = true).
    { destruct (Hk3 v ev3 Hev3) as [ea [Hea [Hi _]]]. rewrite Hi.
      rewrite Hev in Hea. injection Hea as <-. exact Hsamev. }
    assert (Hsamef3 : same_instance (sh_instance ef3) fi = true).
    { destruct (Hk3 f ef3 Hef3) as [ea [Hea [Hi _]]]. rewrite Hi.
      rewrite Hef in Hea. injection Hea as <-. exact Hsame2. }
    rewrite bind_gl in H.
    rewrite (bind_load_program _ p pe) in H by (wsimpl; exact Hpe).
    rewrite !bind_gl in H. wflat_in H.
    destruct (o_use_error o).
    + rewrite bind_SetError in H. wflat_in H.
      refine (Hexit _ l3 (Some v) (Some f) _ _ _ _ H).
      * apply (consistent_frame w3); try reflexivity. exact Hc3.
      * exact Hbut3.
      * exact Hfm3w.
      * intros Ht Hw. apply (roles_apart_ext w3); [reflexivity | apply Hroles3; assumption].
    + rewrite bind_modify in H. wflat_in H.
      apply bind_val in H. destruct H as [r0 [w5 [Hsop H]]].
      apply SetOrthographicProjection_frame in Hsop. destruct Hsop as [log [err ->]].
      wflat_in H.
      destruct (r0 <? 0).
      * refine (Hexit _ l3 (Some v) (Some f) _ _ _ _ H).
        -- apply (consistent_frame w3); try reflexivity. exact Hc3.
        -- exact Hbut3.
        -- exact Hfm3w.
        -- intros Ht Hw. apply (roles_apart_ext w3); [reflexivity | apply Hroles3; assumption].
      * unfold ret in H. injection H as <- <-.
        split; [exists l3; apply (consistent_frame w3); try reflexivity; exact Hc3 | ].
        split; [exact Href3 | ].
        split; [exact Hfm3w | ].
        split.
        { intros Ht Hw. apply (roles_apart_ext w3); [reflexivity | apply Hroles3; assumption]. }
        intros _. exists sv, sf, iv, fi, v, f, ev3, ef3, p, pe.
        wsimpl. repeat split; assumption.
Qed.

End SelectProgram.

(** ** The invariant of the states the driver can be in *)

Lemma same_caches_refl : forall w, same_caches w w.
Proof. intro w. repeat split. Qed.

Lemma same_caches_trans : forall w1 w2 w3,
    same_caches w1 w2 -> same_caches w2 w3 -> same_caches w1 w3.
Proof.
  intros w1 w2 w3 [A1 [A2 [A3 [A4 [A5 [A6 [A7 [A8 A9]]]]]]]]
         [B1 [B2 [B3 [B4 [B5 [B6 [B7 [B8 B9]]]]]]]].
  repeat split; congruence.
Qed.

Lemma same_caches_consistent : forall w w' l,
    same_caches w w' -> consistent w l -> consistent w' l.
Proof.
  intros w w' l [A1 [A2 [A3 [A4 [A5 [A6 [A7 [A8 A9]]]]]]]].
  apply consistent_frame; assumption.
Qed.

Lemma same_caches_referenced : forall w w',
    same_caches w w' -> all_referenced w -> all_referenced w'.
Proof.
  intros w w' [A1 _] H a e Ha. rewrite A1 in Ha. apply (H a e Ha).
Qed.

Lemma same_caches_roles : forall w w',
    same_caches w w' -> roles_apart w -> roles_apart w'.
Proof.
  intros w w' [_ [_ [_ [A4 _]]]] H p e Hp. rewrite A4 in Hp. apply (H p e Hp).
Qed.

Lemma ActivateRenderer_caches : forall make_current w r w',
    GLES2_ActivateRenderer make_current w = Val (r, w') -> same_caches w w'.
Proof.
  intros mk w r w' H. unfold GLES2_ActivateRenderer in H.
  rewrite !bind_gets in H.
  destruct (negb (ptr_eqb (SDL_CurrentContext w) (context w))).
  - rewrite bind_assoc, bind_modify in H. destruct mk.
    + mflat H. destruct (updateSize w); unfold when in H.
      * mflat H. unfold ret in H. injection H as _ <-. repeat split.
      * mflat H. unfold ret in H. injection H as _ <-. repeat split.
    + mflat H. unfold ret in H. injection H as _ <-. repeat split.
  - mflat H. destruct (updateSize w); unfold when in H.
    + mflat H. unfold ret in H. injection H as _ <-. repeat split.
    + mflat H. unfold ret in H. injection H as _ <-. repeat split.
Qed.

Lemma WindowEvent_caches : forall RESIZED event w u w',
    GLES2_WindowEvent RESIZED event w = Val (u, w') -> same_caches w w'.
Proof.
  intros RESIZED event w u w' H. unfold GLES2_WindowEvent, when in H.
  destruct (event =? RESIZED).
  - rewrite bind_modify in H. unfold modify in H. injection H as _ <-. repeat split.
  - unfold ret in H. injection H as _ <-. apply same_caches_refl.
Qed.

Lemma or_undefined_val : forall (A : Type) (x : option A) w a w',
    or_undefined x w = Val (a, w') -> x = Some a /\ w' = w.
Proof.
  intros A x w a w' H. unfold or_undefined in H. destruct x; [ | discriminate].
  unfold ret in H. injection H as <- <-. split; reflexivity.
Qed.

Lemma UpdateTexture_caches :
  forall bpp make_current blob_alloc gl_error tex rect pixels pitch w r w',
    GLES2_UpdateTexture bpp make_current blob_alloc gl_error tex rect pixels pitch w
    = Val (r, w') ->
    same_caches w w'.
Proof.
  intros bpp mk blob gerr tex rect pixels pitch w r w' H.
  unfold GLES2_UpdateTexture in H. cbv zeta in H.
  apply bind_val in H. destruct H as [r0 [w1 [Ha H]]].
  apply ActivateRenderer_caches in Ha.
  apply (same_caches_trans w w1 w'); [exact Ha | ]. clear Ha.
  destruct ((rect_w rect <=? 0) || (rect_h rect <=? 0)).
  { unfold ret in H. injection H as _ <-. apply same_caches_refl. }
  destruct (negb (pitch =? rect_w rect * bpp (format tex)) && negb blob).
  { rewrite bind_OutOfMemory in H. unfold ret in H. injection H as _ <-. repeat split. }
  apply bind_val in H. destruct H as [src [w2 [Hs H]]].
  apply or_undefined_val in Hs. destruct Hs as [_ ->].
  mflat H.
  destruct gerr.
  { mflat H. unfold ret in H. injection H as _ <-. repeat split. }
  destruct (pixel_data (driverdata tex)).
  - apply bind_val in H. destruct H as [buf [w3 [Hb H]]].
    apply or_undefined_val in Hb. destruct Hb as [_ ->].
    unfold ret in H. injection H as _ <-. repeat split.
  - unfold ret in H. injection H as _ <-. repeat split.
Qed.

Lemma window_size_caches : forall ww wh w, same_caches w (set_window_size ww wh w).
Proof. intros. repeat split. Qed.

Lemma CreateRenderer_consistent : forall o w0 w,
    no_entries w0 ->
    GLES2_CreateRenderer o w0 = Val (true, w) ->
    consistent w [] /\ all_referenced w /\ roles_apart w.
Proof.
  intros o w0 w [Hsh Hph] H.
  assert (Hgoal : forall w1,
             shader_heap w1 = shader_heap w0 -> program_heap w1 = program_heap w0 ->
             shader_cache_head w1 = None -> shader_cache_count w1 = 0 ->
             program_cache_head w1 = None ->
             consistent w1 [] /\ all_referenced w1 /\ roles_apart w1).
  { intros w1 E1 E2 E3 E4 E5. split; [ | split].
    - split; [ | split].
      + constructor.
        * simpl. exact E3.
        * constructor.
        * intros a e Ha. rewrite E1, Hsh in Ha. discriminate.
        * intros a c ea ec Ha. rewrite E1, Hsh in Ha. discriminate.
        * intros a [].
        * simpl. exact E4.
        * intros p Hp. unfold pairs_of in Hp. rewrite E2, Hph in Hp.
          exfalso. apply Hp. reflexivity.
        * intros p v f Hp. unfold pairs_of in Hp. rewrite E2, Hph in Hp. discriminate.
        * intros a e Ha. rewrite E1, Hsh in Ha. discriminate.
      + constructor.
        * intros p e Hp. rewrite E2, Hph in Hp. discriminate.
        * intros p e q Hp. rewrite E2, Hph in Hp. discriminate.
        * intros p e q eq Hp. rewrite E2, Hph in Hp. discriminate.
      + intros h Hh. rewrite E5 in Hh. discriminate.
    - intros a e Ha. rewrite E1, Hsh in Ha. discriminate.
    - intros p e Hp. rewrite E2, Hph in Hp. discriminate. }
  unfold GLES2_CreateRenderer in H.
  destruct (negb (co_renderer o)).
  { rewrite bind_OutOfMemory in H. unfold ret in H. discriminate. }
  destruct (negb (co_rdata o)); [discriminate | ].
  rewrite !bind_modify in H. unfold zero_driver_context in H. wflat_in H.
  destruct (co_context o); [ | unfold ret in H; discriminate].
  destruct (negb (co_make_current o)); [unfold ret in H; discriminate | ].
  mflat H.
  destruct (negb (co_shader_formats o)).
  { mflat H. unfold ret in H. discriminate. }
  mflat H.
  destruct (co_error o).
  { mflat H. unfold ret in H. discriminate. }
  mflat H. unfold ret in H. injection H as <-.
  apply Hgoal; reflexivity.
Qed.

Section Invariant.

Variable GetShader : GLES2_ShaderType -> Z -> option GLES2_Shader.

Lemma step_invariant : forall w w',
    step GetShader w w' ->
    (exists l, consistent w l) /\ all_referenced w /\
    (typed_table GetShader -> roles_apart w) ->
    (exists l, consistent w' l) /\ all_referenced w' /\
    (typed_table GetShader -> roles_apart w').
Proof.
  intros w w' Hstep [[l Hc] [Href Hroles]].
  assert (Hsame : same_caches w w' ->
                  (exists l, consistent w' l) /\ all_referenced w' /\
                  (typed_table GetShader -> roles_apart w')).
  { intro Hs. split; [exists l; eapply same_caches_consistent; eassumption | ].
    split; [eapply same_caches_referenced; eassumption | ].
    intro Ht. eapply same_caches_roles; [exact Hs | apply Hroles; exact Ht]. }
  destruct Hstep as [source blendMode o r w w' H | mk r w w' H
                    | RESIZED event w w' H
                    | bpp mk blob gerr tex rect pixels pitch r w w' H | ww wh w].
  - destruct (SelectProgram_ok GetShader source blendMode o w l r w' Hc H)
      as [Hc' [Href' [_ [Hroles' _]]]].
    split; [exact Hc' | split; [exact (Href' Href) | ]].
    intro Ht. apply Hroles'; [exact Ht | apply Hroles; exact Ht].
  - apply Hsame. eapply ActivateRenderer_caches; exact H.
  - apply Hsame. eapply WindowEvent_caches; exact H.
  - apply Hsame. eapply UpdateTexture_caches; exact H.
  - apply Hsame. apply window_size_caches.
Qed.

Lemma reachable_invariant : forall w,
    reachable GetShader w ->
    (exists l, consistent w l) /\ all_referenced w /\
    (typed_table GetShader -> roles_apart w).
Proof.
  intros w H. induction H as [o w0 w Hno Hcreate | w w' Hreach IH Hstep].
  - destruct (CreateRenderer_consistent o w0 w Hno Hcreate) as [Hc [Href Hroles]].
    split; [exists []; exact Hc | split; [exact Href | intros _; exact Hroles]].
  - apply (step_invariant w w' Hstep IH).
Qed.

End Invariant.

(** ** Reference counts, and selecting twice *)

Lemma holders_held : forall w s,
    roles_apart w -> holders w s = references_held w s.
Proof.
  intros w s Hr. unfold holders, references_held, held.
  apply count_below_ext. intros p _. unfold pairs_of.
  destruct (program_heap w p) as [e |] eqn:E; [ | reflexivity].
  simpl. specialize (Hr p e E).
  destruct (Nat.eqb_spec (vertex_shader e) s) as [Ev | Ev];
    destruct (Nat.eqb_spec (fragment_shader e) s) as [Ef | Ef];
    try reflexivity.
  exfalso. apply Hr. congruence.
Qed.

Lemma reachable_cache_reachable : forall GetShader w,
    reachable GetShader w -> cache_reachable GetShader w.
Proof.
  intros GetShader w H. induction H as [o w0 w Hno Hcreate | w w' Hreach IH Hstep].
  - exact (cache_create GetShader o w0 w Hno Hcreate).
  - exact (cache_next GetShader w w' IH (cache_driver GetShader w w' Hstep)).
Qed.

Lemma cache_reachable_consistent : forall GetShader w,
    cache_reachable GetShader w -> exists l, consistent w l.
Proof.
  intros GetShader w H. induction H as [o w0 w Hno Hcreate | w w' Hreach IH Hstep].
  - destruct (CreateRenderer_consistent o w0 w Hno Hcreate) as [Hc _].
    exists []. exact Hc.
  - destruct IH as [l Hc].
    destruct Hstep as [w w' Hstep | type blendMode o r w w' H
                      | v f blendMode o r w w' Hv Hf H].
    + destruct Hstep as [source blendMode o r w w' H | mk r w w' H
                        | RESIZED event w w' H
                        | bpp mk blob gerr tex rect pixels pitch r w w' H | ww wh w].
      * destruct (SelectProgram_ok GetShader source blendMode o w l r w' Hc H)
          as [Hc' _]. exact Hc'.
      * exists l. eapply same_caches_consistent;
          [eapply ActivateRenderer_caches; exact H | exact Hc].
      * exists l. eapply same_caches_consistent;
          [eapply WindowEvent_caches; exact H | exact Hc].
      * exists l. eapply same_caches_consistent;
          [eapply UpdateTexture_caches; exact H | exact Hc].
      * exists l. eapply same_caches_consistent;
          [apply window_size_caches | exact Hc].
    + destruct (CacheShader_ok GetShader type blendMode o w l r w' Hc H)
        as [l' [Hc' _]]. exists l'. exact Hc'.
    + destruct (CacheProgram_ok w l v f blendMode o r w' Hc Hv Hf H)
        as [l' [Hc' _]]. exists l'. exact Hc'.
Qed.

(** C2: in every state that calls of [GLES2_CacheShader],
    [GLES2_CacheProgram] and [GLES2_SelectProgram] (and the driver's other
    entry points) lead to from a new renderer, the [references] field of
    each shader cache entry is the number of [vertex_shader] and
    [fragment_shader] pointers to it in the allocated program cache
    entries; when the table of shaders keeps vertex and fragment shaders
    apart, that is the number of program entries that point to it.  When
    a call of [GLES2_CacheProgram] releases a program entry [t], the count
    of every shader entry changes by what the program acquired points to
    it ([gained]) less what [t] pointed to it ([lost], one for each of its
    two shaders); a shader entry that [t] pointed to and whose count comes
    down to zero is released in the same call, and the others stay. *)
Theorem reference_counts_match_programs :
  forall (GetShader : GLES2_ShaderType -> Z -> option GLES2_Shader) (w : World),
    cache_reachable GetShader w ->
    (forall s e, shader_heap w s = Some e ->
       references e = Z.of_nat (references_held w s)) /\
    (typed_table GetShader -> reachable GetShader w ->
     forall s e, shader_heap w s = Some e ->
       references e = Z.of_nat (holders w s)) /\
    (forall v f blendMode o p w' t te,
       shader_heap w v <> None -> shader_heap w f <> None ->
       GLES2_CacheProgram v f blendMode o w = Val (p, w') ->
       program_heap w t = Some te -> program_heap w' t = None ->
       (forall s' e', shader_heap w' s' = Some e' ->
          references e' = Z.of_nat (references_held w' s')) /\
       forall s e, shader_heap w s = Some e ->
         let lost := Z.of_nat (uses (pair_of (Some te)) s) in
         let gained := Z.of_nat (uses (Some (v, f)) s) in
         match shader_heap w' s with
         | Some e' => references e' = references e + gained - lost /\
                      (0 < lost -> 0 < references e')
         | None => 0 < lost /\ references e + gained - lost <= 0
         end).
Proof.
  intros GetShader w Hreach.
  destruct (cache_reachable_consistent GetShader w Hreach) as [l Hc].
  assert (Hcount : forall w1 l1, consistent w1 l1 ->
            forall s e, shader_heap w1 s = Some e ->
                        references e = Z.of_nat (references_held w1 s)).
  { intros w1 l1 [Hs _] s e He.
    rewrite (s_refs _ _ _ _ _ _ _ Hs s e He). unfold no_extra, references_held. lia. }
  split; [exact (Hcount w l Hc) | ].
  split.
  - intros Ht Hr s e He.
    destruct (reachable_invariant GetShader w Hr) as [_ [_ Hroles]].
    rewrite (holders_held w s (Hroles Ht)). exact (Hcount w l Hc s e He).
  - intros v f blendMode o p w' t te Hv Hf H Ht Ht'.
    destruct (CacheProgram_ok w l v f blendMode o p w' Hc Hv Hf H)
      as [l' [Hc' [_ [_ [_ [Hev _]]]]]].
    split; [exact (Hcount w' l' Hc') | ].
    intros s e He. cbv zeta.
    pose proof (Hev t te Ht Ht' s e He) as Hd. cbv zeta in Hd.
    destruct Hd as [[H1 [H2 H3]] | [e' [H1 [H2 H3]]]].
    + rewrite H3. split; assumption.
    + rewrite H1. split; assumption.
Qed.

Lemma selects_reachable : forall bs w w',
    reachable Demo.GetShader w ->
    Demo.state_after (Demo.run (map Demo.select bs)) w = Some w' ->
    reachable Demo.GetShader w'.
Proof.
  induction bs as [| b bs IH]; intros w w' Hreach H; unfold Demo.state_after in H.
  - simpl in H. injection H as <-. exact Hreach.
  - cbn [map Demo.run] in H. unfold bind at 1 in H.
    destruct (Demo.select b w) as [[r w1] | |] eqn:Hb; try discriminate.
    assert (Hreach1 : reachable Demo.GetShader w1).
    { apply (reach_step Demo.GetShader w w1 Hreach).
      exact (step_select Demo.GetShader GLES2_IMAGESOURCE_SOLID b (Demo.all_ok b)
               r w w1 Hb). }
    unfold bind at 1 in H.
    destruct (Demo.run (map Demo.select bs) w1) as [[rs w2] | |] eqn:Hrest;
      try discriminate.
    unfold ret in H. injection H as <-.
    apply (IH w1 w2 Hreach1). unfold Demo.state_after. rewrite Hrest. reflexivity.
Qed.

Lemma reference_counts_match_programs_witness :
  cache_reachable Demo.GetShader Demo.ninth_fragment /\
  (forall s e, shader_heap Demo.ninth_fragment s = Some e ->
     references e = Z.of_nat (references_held Demo.ninth_fragment s)) /\
  GLES2_CacheProgram 1%nat 18%nat 8 (Demo.program_ok 2008) Demo.ninth_fragment
  = Val (Some 19%nat, Demo.ninth_program) /\
  shader_pair Demo.ninth_fragment 3%nat = Some (1%nat, 2%nat) /\
  program_heap Demo.ninth_program 3%nat = None /\
  (forall e, shader_heap Demo.ninth_fragment 1%nat = Some e ->
     match shader_heap Demo.ninth_program 1%nat with
     | Some e' => references e' = references e + 1 - 1 /\ (0 < 1 -> 0 < references e')
     | None => 0 < 1 /\ references e + 1 - 1 <= 0
     end) /\
  (forall e, shader_heap Demo.ninth_fragment 2%nat = Some e ->
     match shader_heap Demo.ninth_program 2%nat with
     | Some e' => references e' = references e + 0 - 1 /\ (0 < 1 -> 0 < references e')
     | None => 0 < 1 /\ references e + 0 - 1 <= 0
     end) /\
  shader_heap Demo.ninth_program 2%nat = None.
Proof.
  assert (Hno : no_entries Demo.nothing) by (split; intro a; reflexivity).
  assert (Hcreate : GLES2_CreateRenderer Demo.create_ok Demo.nothing
                    = Val (true, Demo.created)) by (vm_compute; reflexivity).
  assert (Height : Demo.state_after
                     (Demo.run (map Demo.select [0; 1; 2; 3; 4; 5; 6; 7])) Demo.created
                   = Some Demo.eight_selected) by (vm_compute; reflexivity).
  assert (Hshader : GLES2_CacheShader Demo.GetShader GLES2_SHADER_FRAGMENT_SOLID_SRC 8
                      (Demo.shader_ok 1108) Demo.eight_selected
                    = Val (Some 18%nat, Demo.ninth_fragment))
    by (vm_compute; reflexivity).
  assert (Hprogram : GLES2_CacheProgram 1%nat 18%nat 8 (Demo.program_ok 2008)
                       Demo.ninth_fragment
                     = Val (Some 19%nat, Demo.ninth_program))
    by (vm_compute; reflexivity).
  assert (Hreach : cache_reachable Demo.GetShader Demo.ninth_fragment).
  { apply (cache_next Demo.GetShader Demo.eight_selected Demo.ninth_fragment).
    - apply reachable_cache_reachable.
      apply (selects_reachable [0; 1; 2; 3; 4; 5; 6; 7] Demo.created);
        [ | exact Height].
      exact (reach_create Demo.GetShader Demo.create_ok Demo.nothing Demo.created
               Hno Hcreate).
    - exact (cache_shader Demo.GetShader GLES2_SHADER_FRAGMENT_SOLID_SRC 8
               (Demo.shader_ok 1108) (Some 18%nat) Demo.eight_selected
               Demo.ninth_fragment Hshader). }
  destruct (reference_counts_match_programs Demo.GetShader Demo.ninth_fragment Hreach)
    as [Hcount [_ Hevict]].
  split; [exact Hreach | split; [exact Hcount | split; [exact Hprogram | ]]].
  split; [vm_compute; reflexivity | ].
  assert (Hgone : program_heap Demo.ninth_program 3%nat = None)
    by (vm_compute; reflexivity).
  split; [exact Hgone | ].
  destruct (program_heap Demo.ninth_fragment 3%nat) as [te |] eqn:Hte.
  2: { vm_compute in Hte. discriminate Hte. }
  assert (Hpair : pair_of (Some te) = Some (1%nat, 2%nat)).
  { rewrite <- Hte. vm_compute. reflexivity. }
  assert (Hv : shader_heap Demo.ninth_fragment 1%nat <> None)
    by (vm_compute; discriminate).
  assert (Hf : shader_heap Demo.ninth_fragment 18%nat <> None)
    by (vm_compute; discriminate).
  destruct (Hevict 1%nat 18%nat 8 (Demo.program_ok 2008) (Some 19%nat)
              Demo.ninth_program 3%nat te Hv Hf Hprogram Hte Hgone) as [_ Hdec].
  split; [ | split].
  - intros e He. pose proof (Hdec 1%nat e He) as H. cbv zeta in H.
    rewrite Hpair in H. exact H.
  - intros e He. pose proof (Hdec 2%nat e He) as H. cbv zeta in H.
    rewrite Hpair in H. exact H.
  - vm_compute. reflexivity.
Defined.

(** C5: when [GLES2_SelectProgram] has succeeded, an immediate second call
    for the same image source and blend mode returns 0 and leaves the
    whole state as it is, whatever the libraries would answer: it makes
    no OpenGL call (no [glUseProgram], no object created), allocates
    nothing, and changes neither cache nor [current_program]. *)
Theorem SelectProgram_again_changes_nothing :
  forall (GetShader : GLES2_ShaderType -> Z -> option GLES2_Shader)
         (source : GLES2_ImageSource) (blendMode : Z) (o o' : SelectOracle)
         (w w1 : World),
    reachable GetShader w ->
    GLES2_SelectProgram GetShader source blendMode o w = Val (0, w1) ->
    GLES2_SelectProgram GetShader source blendMode o' w1 = Val (0, w1).
Proof.
  intros GetShader source blendMode o o' w w1 Hreach H.
  destruct (reachable_invariant GetShader w Hreach) as [[l Hc] _].
  destruct (SelectProgram_ok GetShader source blendMode o w l 0 w1 Hc H)
    as [[l1 Hc1] [_ [Hfm [_ Hsel]]]].
  destruct (Hsel eq_refl)
    as (sv & sf & iv & fi & v & f & ev & ef & c & ce & Hsv & Hiv & Hsf & Hfi
        & Hev & Hsamev & Hef & Hsamef & Hcur & Hce & Hcv & Hcf).
  rewrite <- Hfm in Hiv, Hfi.
  unfold GLES2_SelectProgram. cbv zeta.
  rewrite (bind_run _ _ _ _ _ _ _
             (CacheShader_hit GetShader GLES2_SHADER_VERTEX_DEFAULT blendMode
                (o_vertex o') w1 l1 sv iv v ev Hc1 Hsv Hiv Hev Hsamev)).
  rewrite (bind_run _ _ _ _ _ _ _
             (CacheShader_hit GetShader (fragment_type source) blendMode
                (o_fragment o') w1 l1 sf fi f ef Hc1 Hsf Hfi Hef Hsamef)).
  rewrite bind_gets, Hcur, bind_assoc.
  rewrite (bind_load_program _ c ce) by exact Hce.
  rewrite bind_ret, Hcv, Hcf, !Nat.eqb_refl. reflexivity.
Qed.

Lemma SelectProgram_again_changes_nothing_witness :
  reachable Demo.GetShader Demo.created /\
  GLES2_SelectProgram Demo.GetShader GLES2_IMAGESOURCE_SOLID 1 (Demo.all_ok 1)
    Demo.created = Val (0, Demo.selected) /\
  GLES2_SelectProgram Demo.GetShader GLES2_IMAGESOURCE_SOLID 1 Demo.nothing_works
    Demo.selected = Val (0, Demo.selected).
Proof.
  assert (Hno : no_entries Demo.nothing) by (split; intro a; reflexivity).
  assert (Hcreate : GLES2_CreateRenderer Demo.create_ok Demo.nothing
                    = Val (true, Demo.created)) by (vm_compute; reflexivity).
  assert (Hselect : GLES2_SelectProgram Demo.GetShader GLES2_IMAGESOURCE_SOLID 1
                      (Demo.all_ok 1) Demo.created
                    = Val (0, Demo.selected)) by (vm_compute; reflexivity).
  assert (Hreach : reachable Demo.GetShader Demo.created).
  { exact (reach_create Demo.GetShader Demo.create_ok Demo.nothing Demo.created
             Hno Hcreate). }
  split; [exact Hreach | split; [exact Hselect | ]].
  exact (SelectProgram_again_changes_nothing Demo.GetShader GLES2_IMAGESOURCE_SOLID 1
           (Demo.all_ok 1) Demo.nothing_works Demo.created Demo.selected
           Hreach Hselect).
Defined.

(** ** Shaders the platform cannot load *)



Section Unsupported.

Variable GetShader : GLES2_ShaderType -> Z -> option GLES2_Shader.


End Unsupported.




(** * More of the driver *)

(** ** The scenes *)

Lemma created_reachable : reachable Demo.GetShader Demo.created.
Proof.
  assert (Hno : no_entries Demo.nothing) by (split; intro a; reflexivity).
  assert (Hcreate : GLES2_CreateRenderer Demo.create_ok Demo.nothing
                    = Val (true, Demo.created)) by (vm_compute; reflexivity).
  exact (reach_create Demo.GetShader Demo.create_ok Demo.nothing Demo.created
           Hno Hcreate).
Qed.

Lemma two_programs_reachable : reachable Demo.GetShader Scene.two_programs.
Proof.
  apply (selects_reachable [0; 1] Demo.created); [exact created_reachable | ].
  vm_compute. reflexivity.
Qed.

Lemma rebound_reachable : reachable Demo.GetShader Scene.rebound.
Proof.
  assert (He : GLES2_WindowEvent Scene.RESIZED Scene.RESIZED Scene.two_programs
               = Val (tt, set_updateSize true
                            (set_SDL_CurrentContext None Scene.two_programs)))
    by (vm_compute; reflexivity).
  assert (Ha : GLES2_ActivateRenderer true
                 (set_updateSize true (set_SDL_CurrentContext None Scene.two_programs))
               = Val (0, Scene.rebound)) by (vm_compute; reflexivity).
  apply (reach_step Demo.GetShader
           (set_updateSize true (set_SDL_CurrentContext None Scene.two_programs))
           Scene.rebound).
  - apply (reach_step Demo.GetShader Scene.two_programs _ two_programs_reachable).
    exact (step_event Demo.GetShader Scene.RESIZED Scene.RESIZED Scene.two_programs
             _ He).
  - exact (step_activate Demo.GetShader true 0 _ Scene.rebound Ha).
Qed.

Lemma looped_reachable : reachable Demo.GetShader Scene.looped.
Proof.
  assert (Hs : GLES2_SelectProgram Demo.GetShader GLES2_IMAGESOURCE_SOLID 1
                 (Demo.all_ok 1) Scene.rebound
               = Val (0, Scene.looped)) by (vm_compute; reflexivity).
  apply (reach_step Demo.GetShader Scene.rebound _ rebound_reachable).
  exact (step_select Demo.GetShader GLES2_IMAGESOURCE_SOLID 1 (Demo.all_ok 1) 0
           Scene.rebound Scene.looped Hs).
Qed.

Lemma lone_shader_reachable : cache_reachable Demo.GetShader Scene.lone_shader.
Proof.
  assert (Hs : GLES2_CacheShader Demo.GetShader GLES2_SHADER_VERTEX_DEFAULT 0
                 (Demo.shader_ok 1000) Demo.created
               = Val (Some 1%nat, Scene.lone_shader)) by (vm_compute; reflexivity).
  apply (cache_next Demo.GetShader Demo.created).
  - apply reachable_cache_reachable. exact created_reachable.
  - exact (cache_shader Demo.GetShader GLES2_SHADER_VERTEX_DEFAULT 0
             (Demo.shader_ok 1000) (Some 1%nat) Demo.created Scene.lone_shader Hs).
Qed.

Lemma shaders_ready_reachable : cache_reachable Demo.GetShader Scene.shaders_ready.
Proof.
  assert (Hs : GLES2_CacheShader Demo.GetShader GLES2_SHADER_FRAGMENT_SOLID_SRC 0
                 (Demo.shader_ok 1100) Scene.lone_shader
               = Val (Some 2%nat, Scene.shaders_ready)) by (vm_compute; reflexivity).
  apply (cache_next Demo.GetShader Scene.lone_shader _ lone_shader_reachable).
  exact (cache_shader Demo.GetShader GLES2_SHADER_FRAGMENT_SOLID_SRC 0
           (Demo.shader_ok 1100) (Some 2%nat) Scene.lone_shader Scene.shaders_ready Hs).
Qed.

(** ** What a computation leaves alone *)

Section Keeps.

Context {B : Type} (f : World -> B).

Lemma keeps_ret : forall (A : Type) (a : A), keeps f (ret a).
Proof. intros A a w r w' H. unfold ret in H. injection H as _ <-. reflexivity. Qed.

Lemma keeps_bind : forall (A C : Type) (m : M A) (k : A -> M C),
    keeps f m -> (forall a, keeps f (k a)) -> keeps f (bind m k).
Proof.
  intros A C m k Hm Hk w r w' H. apply bind_val in H.
  destruct H as [a [w1 [H1 H2]]]. rewrite (Hk a w1 r w' H2). exact (Hm w a w1 H1).
Qed.

Lemma keeps_undefined : forall (A : Type), keeps f (@undefined A).
Proof. intros A w r w' H. discriminate. Qed.

Lemma keeps_gets : forall (A : Type) (g : World -> A), keeps f (gets g).
Proof. intros A g w r w' H. unfold gets in H. injection H as _ <-. reflexivity. Qed.

Lemma keeps_modify : forall (g : World -> World),
    (forall w, f (g w) = f w) -> keeps f (modify g).
Proof. intros g Hg w r w' H. unfold modify in H. injection H as _ <-. apply Hg. Qed.

Lemma keeps_lift : forall (A : Type) (g : World -> Res A), keeps f (lift g).
Proof.
  intros A g w r w' H. apply lift_val in H. destruct H as [_ ->]. reflexivity.
Qed.

Lemma keeps_load_shader : forall a, keeps f (load_shader a).
Proof.
  intros a w r w' H. apply load_shader_val in H. destruct H as [_ ->]. reflexivity.
Qed.

Lemma keeps_load_program : forall a, keeps f (load_program a).
Proof.
  intros a w r w' H. apply load_program_val in H. destruct H as [_ ->]. reflexivity.
Qed.

Lemma keeps_or_undefined : forall (A : Type) (x : option A), keeps f (or_undefined x).
Proof.
  intros A x w r w' H. apply or_undefined_val in H. destruct H as [_ ->]. reflexivity.
Qed.

Section Log.

Hypothesis f_log : forall v w, f (set_gl_log v w) = f w.

Lemma keeps_gl : forall c, keeps f (gl c).
Proof. intro c. apply keeps_modify. intro w. apply f_log. Qed.

End Log.

Section Error.

Hypothesis f_error : forall v w, f (set_sdl_error v w) = f w.

Lemma keeps_SetError : forall msg, keeps f (SDL_SetError msg).
Proof. intro msg. apply keeps_modify. intro w. apply f_error. Qed.

Lemma keeps_OutOfMemory : keeps f SDL_OutOfMemory.
Proof. apply keeps_SetError. Qed.

End Error.

Section Shaders.

Hypothesis f_shaders : forall v w, f (set_shader_heap v w) = f w.

Lemma keeps_store_shader : forall a e, keeps f (store_shader a e).
Proof.
  intros a e w r w' H. unfold store_shader in H.
  destruct (shader_heap w a); [ | discriminate]. injection H as _ <-. apply f_shaders.
Qed.

Lemma keeps_update_shader : forall a g, keeps f (update_shader a g).
Proof.
  intros a g. apply keeps_bind; [apply keeps_load_shader | ].
  intro e. apply keeps_store_shader.
Qed.

Lemma keeps_free_shader : forall p, keeps f (free_shader p).
Proof.
  intros [a |]; [ | apply keeps_ret]. intros w r w' H. unfold free_shader in H.
  destruct (shader_heap w a); [ | discriminate]. injection H as _ <-. apply f_shaders.
Qed.

Hypothesis f_brk : forall v w, f (set_brk v w) = f w.

Lemma keeps_calloc_shader : forall ok init, keeps f (calloc_shader ok init).
Proof.
  intros ok init w r w' H. unfold calloc_shader in H. destruct ok.
  - injection H as _ <-. rewrite f_brk. apply f_shaders.
  - injection H as _ <-. reflexivity.
Qed.

End Shaders.

Section Programs.

Hypothesis f_programs : forall v w, f (set_program_heap v w) = f w.

Lemma keeps_store_program : forall a e, keeps f (store_program a e).
Proof.
  intros a e w r w' H. unfold store_program in H.
  destruct (program_heap w a); [ | discriminate]. injection H as _ <-. apply f_programs.
Qed.

Lemma keeps_update_program : forall a g, keeps f (update_program a g).
Proof.
  intros a g. apply keeps_bind; [apply keeps_load_program | ].
  intro e. apply keeps_store_program.
Qed.

Lemma keeps_free_program : forall p, keeps f (free_program p).
Proof.
  intros [a |]; [ | apply keeps_ret]. intros w r w' H. unfold free_program in H.
  destruct (program_heap w a); [ | discriminate]. injection H as _ <-. apply f_programs.
Qed.

Hypothesis f_brk : forall v w, f (set_brk v w) = f w.

Lemma keeps_calloc_program : forall ok init, keeps f (calloc_program ok init).
Proof.
  intros ok init w r w' H. unfold calloc_program in H. destruct ok.
  - injection H as _ <-. rewrite f_brk. apply f_programs.
  - injection H as _ <-. reflexivity.
Qed.

End Programs.

End Keeps.

(** Splits a computation into its steps; what is left are the steps that
    write to the state. *)
Ltac frame_step :=
  match goal with
  | |- keeps _ (bind _ _) => apply keeps_bind; [ | intro ]
  | |- keeps _ (ret _) => apply keeps_ret
  | |- keeps _ (gets _) => apply keeps_gets
  | |- keeps _ undefined => apply keeps_undefined
  | |- keeps _ (lift _) => apply keeps_lift
  | |- keeps _ (load_shader _) => apply keeps_load_shader
  | |- keeps _ (load_program _) => apply keeps_load_program
  | |- keeps _ (or_undefined _) => apply keeps_or_undefined
  | |- keeps _ (gl _) => apply keeps_gl; intros; reflexivity
  | |- keeps _ (SDL_SetError _) => apply keeps_SetError; intros; reflexivity
  | |- keeps _ SDL_OutOfMemory => apply keeps_OutOfMemory; intros; reflexivity
  | |- keeps _ (update_shader _ _) => apply keeps_update_shader; intros; reflexivity
  | |- keeps _ (free_shader _) => apply keeps_free_shader; intros; reflexivity
  | |- keeps _ (calloc_shader _ _) => apply keeps_calloc_shader; intros; reflexivity
  | |- keeps _ (update_program _ _) => apply keeps_update_program; intros; reflexivity
  | |- keeps _ (free_program _) => apply keeps_free_program; intros; reflexivity
  | |- keeps _ (calloc_program _ _) => apply keeps_calloc_program; intros; reflexivity
  | |- keeps _ (modify _) => apply keeps_modify; intros; reflexivity
  | |- keeps _ (when ?b _) => unfold when; destruct b
  | |- keeps _ (if_nonnull ?p _) => unfold if_nonnull; destruct p
  | |- keeps _ (deref ?p _) => unfold deref; destruct p
  | |- keeps _ (if ?b then _ else _) => destruct b
  | |- keeps _ (match ?x with _ => _ end) => destruct x
  end.

Ltac frame := repeat frame_step.

Lemma EvictShader_keeps_error : forall x, keeps sdl_error (GLES2_EvictShader x).
Proof. intro x. unfold GLES2_EvictShader. frame. Qed.

Lemma EvictShader_keeps_programs : forall x,
    keeps (fun w => (program_heap w, program_cache_head w, program_cache_tail w,
                     program_cache_count w, current_program w))
          (GLES2_EvictShader x).
Proof. intro x. unfold GLES2_EvictShader. frame. Qed.

(** ** What a computation ends with *)

Lemma ensures_bind : forall (A C : Type) (m : M A) (k : A -> M C) Q,
    (forall a, ensures (k a) Q) -> ensures (bind m k) Q.
Proof.
  intros A C m k Q Hk w r w' H. apply bind_val in H.
  destruct H as [a [w1 [_ H2]]]. exact (Hk a w1 r w' H2).
Qed.

Lemma ensures_ret : forall (A : Type) (a : A) (Q : A -> World -> Prop),
    (forall w, Q a w) -> ensures (ret a) Q.
Proof. intros A a Q HQ w r w' H. unfold ret in H. injection H as <- <-. apply HQ. Qed.

Lemma ensures_undefined : forall (A : Type) (Q : A -> World -> Prop),
    ensures undefined Q.
Proof. intros A Q w r w' H. discriminate. Qed.

(** Once an error message is set, steps that keep it end with it. *)
Lemma ensures_error : forall (A : Type) msg (k : M A) (Q : A -> World -> Prop),
    keeps sdl_error k ->
    ensures k (fun r w => sdl_error w = Some msg -> Q r w) ->
    ensures (SDL_SetError msg ;; k) Q.
Proof.
  intros A msg k Q Hk HQ w r w' H. rewrite bind_SetError in H.
  apply (HQ _ _ _ H). rewrite (Hk _ _ _ H). reflexivity.
Qed.

Ltac frame_more :=
  repeat first
    [ frame_step
    | match goal with
      | |- keeps _ (GLES2_EvictShader _) => unfold GLES2_EvictShader
      | |- keeps _ (release_shader _) => unfold release_shader
      | |- keeps _ evict_tail => unfold evict_tail
      | |- keeps _ (promote _) => unfold promote
      | |- keeps _ (locate_uniform _ _ _ _) => unfold locate_uniform
      | |- keeps _ (fault _ _) => unfold fault
      end ].

Ltac ends :=
  repeat first
    [ apply ensures_error; [frame_more | ]
    | apply ensures_bind; intro
    | apply ensures_ret; intro; intros; try discriminate; try congruence
    | apply ensures_undefined
    | match goal with
      | |- ensures (if ?b then _ else _) _ => destruct b
      | |- ensures (match ?x with _ => _ end) _ => destruct x
      end ].

Lemma CacheShader_none_sets_error : forall GetShader type blendMode o,
    ensures (GLES2_CacheShader GetShader type blendMode o)
            (fun r w => r = None -> sdl_error w <> None).
Proof.
  intros GetShader type blendMode o. unfold GLES2_CacheShader, SDL_OutOfMemory. ends.
Qed.

Lemma CacheProgram_none_sets_error : forall v f blendMode o,
    ensures (GLES2_CacheProgram v f blendMode o)
            (fun r w => r = None -> sdl_error w <> None).
Proof.
  intros v f blendMode o. unfold GLES2_CacheProgram, SDL_OutOfMemory. ends.
Qed.

Lemma fault_result : forall vertex fragment w r w',
    fault vertex fragment w = Val (r, w') ->
    r = -1 /\ current_program w' = None /\ sdl_error w' = sdl_error w.
Proof.
  intros vertex fragment w r w' H.
  assert (Hk : keeps sdl_error (fault vertex fragment)) by frame_more.
  split; [ | split; [ | exact (Hk w r w' H)]].
  - revert w r w' H.
    change (ensures (fault vertex fragment) (fun r _ => r = -1)).
    unfold fault. ends.
  - unfold fault in H.
    apply bind_val in H. destruct H as [u1 [w1 [_ H]]].
    apply bind_val in H. destruct H as [u2 [w2 [_ H]]].
    rewrite bind_modify in H. unfold ret in H. injection H as _ <-. reflexivity.
Qed.

Lemma SetOrthographicProjection_result : forall ue w r w',
    GLES2_SetOrthographicProjection ue w = Val (r, w') ->
    current_program w' = current_program w /\
    program_heap w' = program_heap w /\
    (r = 0 \/ (r = -1 /\ sdl_error w' <> None)).
Proof.
  intros ue w r w' H.
  assert (Hk : keeps (fun w => (current_program w, program_heap w))
                     (GLES2_SetOrthographicProjection ue)).
  { unfold GLES2_SetOrthographicProjection. cbv zeta. frame. }
  assert (He : ensures (GLES2_SetOrthographicProjection ue)
                       (fun r w => r = 0 \/ (r = -1 /\ sdl_error w <> None))).
  { unfold GLES2_SetOrthographicProjection. cbv zeta. unfold deref. ends.
    - right. split; [reflexivity | congruence].
    - left. reflexivity. }
  pose proof (Hk w r w' H) as E. injection E as E1 E2.
  split; [exact E1 | split; [exact E2 | exact (He w r w' H)]].
Qed.

(** ** The shader cache as a list *)

Lemma shader_list_dll : forall l fuel h prev cur,
    dll h prev cur l -> (List.length l <= fuel)%nat -> shader_list fuel h cur = l.
Proof.
  induction l as [| a l IH]; intros fuel h prev cur Hd Hlen; simpl in Hd.
  - subst cur. destruct fuel; reflexivity.
  - destruct Hd as [-> [e [He [_ Hrest]]]]. simpl in Hlen.
    destruct fuel as [| k]; [lia | ]. simpl. rewrite He. f_equal.
    apply (IH k h (Some a)); [exact Hrest | lia].
Qed.

Lemma cached_shaders_consistent : forall w l, consistent w l -> cached_shaders w = l.
Proof.
  intros w l [Hs _]. unfold cached_shaders.
  apply (shader_list_dll l (brk w) _ None); [exact (s_dll _ _ _ _ _ _ _ Hs) | ].
  apply length_below; [exact (s_nodup _ _ _ _ _ _ _ Hs) | exact (s_bound _ _ _ _ _ _ _ Hs)].
Qed.

Lemma count_below_positive_at : forall (f : addr -> nat) (n : nat),
    (0 < count_below f n)%nat -> exists a, (a < n)%nat /\ (0 < f a)%nat.
Proof.
  intros f n. induction n as [| k IH]; simpl; intro H; [lia | ].
  destruct (f k) as [| m] eqn:E.
  - destruct IH as [a [Ha Hf]]; [lia | ]. exists a. split; [lia | exact Hf].
  - exists k. split; [lia | lia].
Qed.

Lemma used_by_a_program : forall w l s e,
    consistent w l -> shader_heap w s = Some e -> 1 <= references e ->
    exists p pe, program_heap w p = Some pe /\
                 (vertex_shader pe = s \/ fragment_shader pe = s).
Proof.
  intros w l s e [Hs _] He Hone.
  pose proof (s_refs _ _ _ _ _ _ _ Hs s e He) as Hr. unfold no_extra in Hr.
  destruct (count_below_positive_at (fun p => uses (pairs_of w p) s) (brk w))
    as [p [_ Hp]].
  { unfold held in Hr. lia. }
  unfold pairs_of in Hp. destruct (program_heap w p) as [pe |] eqn:Epe;
    [ | simpl in Hp; lia].
  exists p, pe. split; [exact Epe | ]. simpl in Hp.
  destruct (Nat.eqb_spec (vertex_shader pe) s) as [Ev | _]; [left; exact Ev | ].
  destruct (Nat.eqb_spec (fragment_shader pe) s) as [Ef | _]; [right; exact Ef | ].
  simpl in Hp. lia.
Qed.

Section CacheShaderOutcomes.

Variable GetShader : GLES2_ShaderType -> Z -> option GLES2_Shader.

Lemma CacheShader_none_quiet : forall type blendMode o w l w',
    consistent w l ->
    GLES2_CacheShader GetShader type blendMode o w = Val (None, w') ->
    quiet_change w w'.
Proof.
  intros type blendMode o w l w' Hc H.
  destruct (GetShader type blendMode) as [shader |] eqn:H1.
  2: { rewrite (CacheShader_undefined GetShader _ _ _ _ H1) in H.
       injection H as <-. apply quiet_error. }
  destruct (find_instance shader (shader_formats w)) as [instance |] eqn:H2.
  2: { rewrite (CacheShader_unsupported GetShader _ _ _ _ _ H1 H2) in H.
       injection H as <-. apply quiet_error. }
  destruct (find_shader_ok w l instance Hc) as [[c [ec [Hec [Hsame _]]]] | [Hmiss _]].
  - rewrite (CacheShader_hit GetShader type blendMode o w l shader instance c ec
               Hc H1 H2 Hec Hsame) in H. discriminate.
  - destruct (so_alloc o) eqn:Halloc.
    2: { rewrite (CacheShader_no_memory GetShader type blendMode o w l shader instance
                    Hc H1 H2 Hmiss Halloc) in H.
         injection H as <-. apply quiet_error. }
    destruct (load_fails o instance) eqn:Hload.
    { destruct (CacheShader_load_fails GetShader type blendMode o w l shader instance
                  Hc H1 H2 Hmiss Halloc Hload) as [w1 [E Hq]].
      rewrite E in H. injection H as <-. exact Hq. }
    destruct (CacheShader_create GetShader type blendMode o w l shader instance
                Hc H1 H2 Hmiss Halloc Hload) as [sh' [E _]].
    rewrite E in H. discriminate.
Qed.

Lemma CacheShader_returns : forall type blendMode o w l,
    consistent w l ->
    exists r w', GLES2_CacheShader GetShader type blendMode o w = Val (r, w').
Proof.
  intros type blendMode o w l Hc.
  destruct (GetShader type blendMode) as [shader |] eqn:H1.
  2: { eexists. eexists. apply CacheShader_undefined. exact H1. }
  destruct (find_instance shader (shader_formats w)) as [instance |] eqn:H2.
  2: { eexists. eexists. eapply CacheShader_unsupported; eassumption. }
  destruct (find_shader_ok w l instance Hc) as [[c [ec [Hec [Hsame _]]]] | [Hmiss _]].
  - eexists. eexists. eapply CacheShader_hit; eassumption.
  - destruct (so_alloc o) eqn:Halloc.
    2: { eexists. eexists. eapply CacheShader_no_memory; eassumption. }
    destruct (load_fails o instance) eqn:Hload.
    { destruct (CacheShader_load_fails GetShader type blendMode o w l shader instance
                  Hc H1 H2 Hmiss Halloc Hload) as [w1 [E _]].
      eexists. eexists. exact E. }
    destruct (CacheShader_create GetShader type blendMode o w l shader instance
                Hc H1 H2 Hmiss Halloc Hload) as [sh' [E _]].
    eexists. eexists. exact E.
Qed.

Lemma CacheShader_found_again : forall type blendMode o o' w l a w1,
    consistent w l ->
    GLES2_CacheShader GetShader type blendMode o w = Val (Some a, w1) ->
    GLES2_CacheShader GetShader type blendMode o' w1 = Val (Some a, w1).
Proof.
  intros type blendMode o o' w l a w1 Hc H.
  destruct (CacheShader_ok GetShader type blendMode o w l (Some a) w1 Hc H)
    as [l1 [Hc1 [_ [_ [_ [Hfm [_ [shader [instance [e' [H1 [H2 [He' Hsame]]]]]]]]]]]]].
  rewrite <- Hfm in H2.
  exact (CacheShader_hit GetShader type blendMode o' w1 l1 shader instance a e'
           Hc1 H1 H2 He' Hsame).
Qed.

End CacheShaderOutcomes.

Lemma quiet_change_fields : forall w w',
    quiet_change w w' ->
    (forall a, shader_heap w' a = shader_heap w a) /\
    (forall a, program_heap w' a = program_heap w a) /\
    shader_cache_count w' = shader_cache_count w /\
    shader_cache_head w' = shader_cache_head w /\
    program_cache_count w' = program_cache_count w /\
    program_cache_head w' = program_cache_head w /\
    program_cache_tail w' = program_cache_tail w /\
    current_program w' = current_program w.
Proof.
  intros w w' [sh [ph [log [err [b [-> [Hsh [Hph _]]]]]]]]. wsimpl.
  repeat split; assumption.
Qed.

Lemma EvictShader_unlinks : forall w l x e,
    consistent w l -> shader_heap w x = Some e -> references e <= 0 ->
    exists l1 l2 w',
      cached_shaders w = l1 ++ x :: l2 /\
      GLES2_EvictShader x w = Val (tt, w') /\
      cached_shaders w' = l1 ++ l2 /\
      consistent w' (l1 ++ l2) /\
      shader_cache_count w' = shader_cache_count w - 1 /\
      shader_heap w' x = None /\
      gl_log w' = gl_log w ++ [glDeleteShader (sh_id e)] /\
      (forall a ea, a <> x -> shader_heap w a = Some ea ->
         exists ea', shader_heap w' a = Some ea' /\ payload ea' = payload ea).
Proof.
  intros w l x e Hc Hx Hr.
  pose proof (cached_shaders_consistent w l Hc) as Hl.
  destruct Hc as [Hs [Hp Hh]].
  assert (Hheld : held (pairs_of w) (brk w) x = 0%nat).
  { pose proof (s_refs _ _ _ _ _ _ _ Hs x e Hx) as E. unfold no_extra in E. lia. }
  assert (Hin : In x l) by (eapply (s_live _ _ _ _ _ _ _ Hs); exact Hx).
  apply in_split in Hin. destruct Hin as [l1 [l2 ->]].
  destruct (EvictShader_ok w (brk w) (pairs_of w) no_extra l1 x l2 e Hs Hx Hheld)
    as [sh' [hd' [E [Hs' [Hgone [Hkeep _]]]]]].
  exists l1, l2. eexists. split; [exact Hl | split; [exact E | ]].
  assert (Hc' : consistent
                  (set_gl_log (gl_log w ++ [glDeleteShader (sh_id e)])
                     (with_shaders sh' hd' (shader_cache_count w - 1) w))
                  (l1 ++ l2)).
  { split; [ | split]; wsimpl; [ | exact Hp | exact Hh].
    eapply shaders_ok_ext; [ | | exact Hs']; [ | reflexivity].
    intro p. reflexivity. }
  split; [apply cached_shaders_consistent; exact Hc' | ].
  split; [exact Hc' | ]. wsimpl.
  split; [reflexivity | split; [exact Hgone | split; [reflexivity | exact Hkeep]]].
Qed.

(** ** The search for a supported instance *)

Lemma supported_in : forall formats c,
    supported formats c = true <-> In (inst_format c) formats.
Proof.
  intros formats c. unfold supported. rewrite existsb_exists. split.
  - intros [x [Hx E]]. apply Z.eqb_eq in E. rewrite E. exact Hx.
  - intro H. exists (inst_format c). split; [exact H | apply Z.eqb_refl].
Qed.

Lemma find_rev_last : forall (A : Type) (f : A -> bool) (l : list A),
    match find f (rev l) with
    | Some c => exists before after,
                  l = before ++ c :: after /\ f c = true /\
                  forall d, In d after -> f d = false
    | None => forall c, In c l -> f c = false
    end.
Proof.
  intros A f l. induction l as [| x l IH] using rev_ind.
  - simpl. intros c [].
  - rewrite rev_app_distr. cbn [rev app find]. destruct (f x) eqn:Hx.
    + exists l, []. split; [reflexivity | split; [exact Hx | intros d []]].
    + destruct (find f (rev l)) as [c |].
      * destruct IH as [before [after [-> [Hc Hafter]]]].
        exists before, (after ++ [x]).
        split; [rewrite <- app_assoc; reflexivity | split; [exact Hc | ]].
        intros d Hd. apply in_app_or in Hd.
        destruct Hd as [Hd | [<- | []]]; [apply Hafter; exact Hd | exact Hx].
      * intros c Hc. apply in_app_or in Hc.
        destruct Hc as [Hc | [<- | []]]; [apply IH; exact Hc | exact Hx].
Qed.

(** X1: the two loops of [GLES2_CacheShader] find an instance exactly
    when some candidate of the shader is in a format of the platform's
    list, and the instance found is the last such candidate: every
    candidate after it in the shader's list is in no listed format. *)
Theorem find_instance_last_supported : forall shader formats,
    match find_instance shader formats with
    | Some c =>
        exists before after,
          instances shader = before ++ c :: after /\
          In (inst_format c) formats /\
          forall d, In d after -> ~ In (inst_format d) formats
    | None => forall c, In c (instances shader) -> ~ In (inst_format c) formats
    end.
Proof.
  intros shader formats. rewrite find_instance_last.
  pose proof (find_rev_last _ (supported formats) (instances shader)) as H.
  destruct (find (supported formats) (rev (instances shader))) as [c |].
  - destruct H as [before [after [E [Hc Hafter]]]]. exists before, after.
    split; [exact E | split; [apply supported_in; exact Hc | ]].
    intros d Hd Hin. apply supported_in in Hin. rewrite (Hafter d Hd) in Hin.
    discriminate.
  - intros c Hc Hin. apply supported_in in Hin. rewrite (H c Hc) in Hin.
    discriminate.
Qed.

(** ** The shader cache *)

Section ShaderCache.

Variable GetShader : GLES2_ShaderType -> Z -> option GLES2_Shader.

(** X2: a shader that [GLES2_CacheShader] returned is found again: the
    next call for the same type and blend mode returns the same entry,
    whatever the platform would answer, and changes nothing: no block, no
    GL call, no error message. *)
Theorem CacheShader_again_is_silent : forall type blendMode o o' w a w1,
    cache_reachable GetShader w ->
    GLES2_CacheShader GetShader type blendMode o w = Val (Some a, w1) ->
    GLES2_CacheShader GetShader type blendMode o' w1 = Val (Some a, w1).
Proof.
  intros type blendMode o o' w a w1 Hreach H.
  destruct (cache_reachable_consistent GetShader w Hreach) as [l Hc].
  exact (CacheShader_found_again GetShader type blendMode o o' w l a w1 Hc H).
Qed.

(** X3: when [GLES2_CacheShader] returns NULL it has set an error message
    and both caches are as before: every block, the heads, the tail, the
    counts, the current program and the lists read from the heads. *)
Theorem CacheShader_failure_changes_nothing : forall type blendMode o w w',
    cache_reachable GetShader w ->
    GLES2_CacheShader GetShader type blendMode o w = Val (None, w') ->
    sdl_error w' <> None /\
    (forall a, shader_heap w' a = shader_heap w a) /\
    (forall a, program_heap w' a = program_heap w a) /\
    shader_cache_count w' = shader_cache_count w /\
    shader_cache_head w' = shader_cache_head w /\
    program_cache_count w' = program_cache_count w /\
    program_cache_head w' = program_cache_head w /\
    program_cache_tail w' = program_cache_tail w /\
    current_program w' = current_program w /\
    cached_shaders w' = cached_shaders w.
Proof.
  intros type blendMode o w w' Hreach H.
  destruct (cache_reachable_consistent GetShader w Hreach) as [l Hc].
  pose proof (CacheShader_none_quiet GetShader type blendMode o w l w' Hc H) as Hq.
  split; [exact (CacheShader_none_sets_error GetShader type blendMode o w None w' H
                   eq_refl) | ].
  destruct (quiet_change_fields w w' Hq) as [A [B [C [D [E [F [G I]]]]]]].
  repeat (split; [assumption | ]).
  rewrite (cached_shaders_consistent w l Hc).
  apply cached_shaders_consistent. exact (quiet_consistent w w' l Hq Hc).
Qed.

(** X4: in every state the cache operations can reach,
    [GLES2_CacheShader] returns: the scan of the shader cache ends, and
    no block it reads has been released. *)
Theorem CacheShader_always_returns : forall type blendMode o w,
    cache_reachable GetShader w ->
    exists r w', GLES2_CacheShader GetShader type blendMode o w = Val (r, w').
Proof.
  intros type blendMode o w Hreach.
  destruct (cache_reachable_consistent GetShader w Hreach) as [l Hc].
  exact (CacheShader_returns GetShader type blendMode o w l Hc).
Qed.

(** X5: [GLES2_EvictShader], for a cached shader that no program uses,
    deletes its GL shader, releases its block and takes exactly that
    entry out of the list: the entries before and after it stay, in
    order, with the data they had, and the count goes down by one. *)
Theorem EvictShader_unlinks_one : forall w x e,
    cache_reachable GetShader w ->
    shader_heap w x = Some e -> references e <= 0 ->
    exists l1 l2 w',
      cached_shaders w = l1 ++ x :: l2 /\
      GLES2_EvictShader x w = Val (tt, w') /\
      cached_shaders w' = l1 ++ l2 /\
      shader_cache_count w' = shader_cache_count w - 1 /\
      shader_heap w' x = None /\
      gl_log w' = gl_log w ++ [glDeleteShader (sh_id e)] /\
      (forall a ea, a <> x -> shader_heap w a = Some ea ->
         exists ea', shader_heap w' a = Some ea' /\ payload ea' = payload ea).
Proof.
  intros w x e Hreach Hx Hrefs.
  destruct (cache_reachable_consistent GetShader w Hreach) as [l Hc].
  destruct (EvictShader_unlinks w l x e Hc Hx Hrefs)
    as [l1 [l2 [w' [A [B [C [_ [D [E [F G]]]]]]]]]].
  exists l1, l2, w'. repeat (split; [assumption | ]). exact G.
Qed.

(** X6: the shape of the shader cache in every state the cache
    operations can reach: the list from its head has no entry twice, its
    length is the count, it holds exactly the blocks not released, no two
    of them for one shader instance, and both shaders of every program
    entry are on it. *)
Theorem shader_cache_well_formed : forall w,
    cache_reachable GetShader w ->
    NoDup (cached_shaders w) /\
    shader_cache_count w = Z.of_nat (List.length (cached_shaders w)) /\
    (forall a, In a (cached_shaders w) <-> shader_heap w a <> None) /\
    (forall a c ea ec,
        shader_heap w a = Some ea -> shader_heap w c = Some ec ->
        same_instance (sh_instance ea) (sh_instance ec) = true -> a = c) /\
    (forall p pe, program_heap w p = Some pe ->
                  In (vertex_shader pe) (cached_shaders w) /\
                  In (fragment_shader pe) (cached_shaders w)).
Proof.
  intros w Hreach.
  destruct (cache_reachable_consistent GetShader w Hreach) as [l Hc].
  rewrite (cached_shaders_consistent w l Hc). destruct Hc as [Hs _].
  split; [exact (s_nodup _ _ _ _ _ _ _ Hs) | ].
  split; [exact (s_count _ _ _ _ _ _ _ Hs) | ].
  split.
  { intro a. split.
    - intro Hin. destruct (dll_live _ _ _ _ a (s_dll _ _ _ _ _ _ _ Hs) Hin) as [e He].
      congruence.
    - intro Hlive. destruct (shader_heap w a) as [e |] eqn:He; [ | contradiction].
      exact (s_live _ _ _ _ _ _ _ Hs a e He). }
  split; [exact (s_inst _ _ _ _ _ _ _ Hs) | ].
  intros p pe Hp. apply (s_pairs _ _ _ _ _ _ _ Hs p).
  unfold pairs_of. rewrite Hp. reflexivity.
Qed.

(** X7: between two calls into the driver no cached shader is an orphan:
    every shader entry is the vertex or the fragment shader of some
    program entry. *)
Theorem cached_shader_is_in_use : forall w s e,
    reachable GetShader w ->
    shader_heap w s = Some e ->
    exists p pe, program_heap w p = Some pe /\
                 (vertex_shader pe = s \/ fragment_shader pe = s).
Proof.
  intros w s e Hreach Hs.
  destruct (reachable_invariant GetShader w Hreach) as [[l Hc] [Href _]].
  exact (used_by_a_program w l s e Hc Hs (Href s e Hs)).
Qed.

End ShaderCache.

Lemma CacheShader_again_is_silent_witness :
  GLES2_CacheShader Demo.GetShader GLES2_SHADER_VERTEX_DEFAULT 0 (Demo.shader_ok 1000)
    Demo.created = Val (Some 1%nat, Scene.lone_shader) /\
  GLES2_CacheShader Demo.GetShader GLES2_SHADER_VERTEX_DEFAULT 0 Scene.load_refused
    Scene.lone_shader = Val (Some 1%nat, Scene.lone_shader).
Proof.
  assert (H : GLES2_CacheShader Demo.GetShader GLES2_SHADER_VERTEX_DEFAULT 0
                (Demo.shader_ok 1000) Demo.created
              = Val (Some 1%nat, Scene.lone_shader)) by (vm_compute; reflexivity).
  split; [exact H | ].
  exact (CacheShader_again_is_silent Demo.GetShader GLES2_SHADER_VERTEX_DEFAULT 0
           (Demo.shader_ok 1000) Scene.load_refused Demo.created 1%nat
           Scene.lone_shader (reachable_cache_reachable _ _ created_reachable) H).
Defined.

Lemma CacheShader_failure_changes_nothing_witness :
  GLES2_CacheShader Demo.GetShader GLES2_SHADER_VERTEX_DEFAULT 0 Scene.load_refused
    Demo.created = Val (None, Scene.refused) /\
  sdl_error Scene.refused <> None /\
  (forall a, shader_heap Scene.refused a = shader_heap Demo.created a) /\
  cached_shaders Scene.refused = cached_shaders Demo.created /\
  gl_log Scene.refused <> gl_log Demo.created.
Proof.
  assert (H : GLES2_CacheShader Demo.GetShader GLES2_SHADER_VERTEX_DEFAULT 0
                Scene.load_refused Demo.created
              = Val (None, Scene.refused)) by (vm_compute; reflexivity).
  destruct (CacheShader_failure_changes_nothing Demo.GetShader
              GLES2_SHADER_VERTEX_DEFAULT 0 Scene.load_refused Demo.created
              Scene.refused (reachable_cache_reachable _ _ created_reachable) H)
    as [A [B [_ [_ [_ [_ [_ [_ [_ C]]]]]]]]].
  split; [exact H | split; [exact A | split; [exact B | split; [exact C | ]]]].
  vm_compute. discriminate.
Defined.

Lemma CacheShader_always_returns_witness :
  exists r w',
    GLES2_CacheShader Demo.GetShader GLES2_SHADER_FRAGMENT_SOLID_SRC 3
      (Demo.shader_ok 1103) Scene.lone_shader = Val (r, w').
Proof.
  exact (CacheShader_always_returns Demo.GetShader GLES2_SHADER_FRAGMENT_SOLID_SRC 3
           (Demo.shader_ok 1103) Scene.lone_shader lone_shader_reachable).
Defined.

Lemma EvictShader_unlinks_one_witness :
  exists l1 l2 w',
    cached_shaders Scene.shaders_ready = l1 ++ 1%nat :: l2 /\
    GLES2_EvictShader 1%nat Scene.shaders_ready = Val (tt, w') /\
    cached_shaders w' = l1 ++ l2 /\
    shader_cache_count w' = shader_cache_count Scene.shaders_ready - 1 /\
    shader_heap w' 1%nat = None /\
    gl_log w' = gl_log Scene.shaders_ready ++ [glDeleteShader 1000] /\
    (forall a ea, a <> 1%nat -> shader_heap Scene.shaders_ready a = Some ea ->
       exists ea', shader_heap w' a = Some ea' /\ payload ea' = payload ea).
Proof.
  apply (EvictShader_unlinks_one Demo.GetShader Scene.shaders_ready 1%nat
           (mkShaderEntry 1000 GLES2_SHADER_VERTEX_DEFAULT
              (mkInstance 1%nat Demo.GL_VERTEX_SHADER Demo.binary_format 16 1%nat)
              0 (Some 2%nat) None)
           shaders_ready_reachable).
  - vm_compute. reflexivity.
  - vm_compute. discriminate.
Defined.

Lemma shader_cache_well_formed_witness :
  cached_shaders Scene.two_programs = [4%nat; 2%nat; 1%nat] /\
  NoDup (cached_shaders Scene.two_programs) /\
  shader_cache_count Scene.two_programs
  = Z.of_nat (List.length (cached_shaders Scene.two_programs)) /\
  (forall a, In a (cached_shaders Scene.two_programs)
             <-> shader_heap Scene.two_programs a <> None).
Proof.
  destruct (shader_cache_well_formed Demo.GetShader Scene.two_programs
              (reachable_cache_reachable _ _ two_programs_reachable))
    as [A [B [C _]]].
  split; [vm_compute; reflexivity | split; [exact A | split; [exact B | exact C]]].
Defined.

Lemma cached_shader_is_in_use_witness :
  exists p pe, program_heap Scene.two_programs p = Some pe /\
               (vertex_shader pe = 2%nat \/ fragment_shader pe = 2%nat).
Proof.
  apply (cached_shader_is_in_use Demo.GetShader Scene.two_programs 2%nat
           (mkShaderEntry 1100 GLES2_SHADER_FRAGMENT_SOLID_SRC
              (mkInstance 100%nat Demo.GL_FRAGMENT_SHADER Demo.binary_format 16
                 100%nat)
              1 (Some 4%nat) (Some 1%nat))
           two_programs_reachable).
  vm_compute. reflexivity.
Defined.

(** ** Selecting a program *)

Section Result.

Variable GetShader : GLES2_ShaderType -> Z -> option GLES2_Shader.

(** X8: whenever [GLES2_SelectProgram] returns, it returns 0 and the
    current program is a live entry, or it returns -1, there is no current
    program and an error message is set.  (It need not return: see X12.) *)
Theorem SelectProgram_result : forall source blendMode o w r w',
    GLES2_SelectProgram GetShader source blendMode o w = Val (r, w') ->
    (r = 0 /\ exists c ce, current_program w' = Some c /\ program_heap w' c = Some ce) \/
    (r = -1 /\ current_program w' = None /\ sdl_error w' <> None).
Proof.
  intros source blendMode o w r w' H.
  assert (Hexit : forall vertex fragment wx,
             sdl_error wx <> None ->
             fault vertex fragment wx = Val (r, w') ->
             (r = 0 /\ exists c ce, current_program w' = Some c /\
                                    program_heap w' c = Some ce) \/
             (r = -1 /\ current_program w' = None /\ sdl_error w' <> None)).
  { intros vertex fragment wx He Hf.
    destruct (fault_result vertex fragment wx r w' Hf) as [Hr [Hcur Herr]].
    right. split; [exact Hr | split; [exact Hcur | congruence]]. }
  unfold GLES2_SelectProgram in H. cbv zeta in H.
  apply bind_val in H. destruct H as [vertex [w1 [Hv H]]].
  destruct vertex as [v |].
  2: { apply (Hexit None None w1); [ | exact H].
       apply (CacheShader_none_sets_error GetShader _ _ _ _ _ _ Hv). reflexivity. }
  apply bind_val in H. destruct H as [fragment [w2 [Hf H]]].
  destruct fragment as [f |].
  2: { apply (Hexit (Some v) None w2); [ | exact H].
       apply (CacheShader_none_sets_error GetShader _ _ _ _ _ _ Hf). reflexivity. }
  rewrite bind_gets in H.
  apply bind_val in H. destruct H as [unchanged [w2' [Hun H]]].
  assert (Hsame : w2' = w2 /\
                  (unchanged = true ->
                   exists c ce, current_program w2 = Some c /\
                                program_heap w2 c = Some ce)).
  { destruct (current_program w2) as [c |] eqn:Hcur.
    - apply bind_val in Hun. destruct Hun as [ce [wx [Hl Hun]]].
      apply load_program_val in Hl. destruct Hl as [Hce ->].
      unfold ret in Hun. injection Hun as _ <-.
      split; [reflexivity | ]. intros _. exists c, ce. split; [reflexivity | exact Hce].
    - unfold ret in Hun. injection Hun as <- <-.
      split; [reflexivity | discriminate]. }
  destruct Hsame as [-> Hunch].
  destruct unchanged.
  { unfold ret in H. injection H as <- <-. left. split; [reflexivity | ].
    apply Hunch. reflexivity. }
  apply bind_val in H. destruct H as [program [w3 [Hp H]]].
  destruct program as [p |].
  2: { apply (Hexit (Some v) (Some f) w3); [ | exact H].
       apply (CacheProgram_none_sets_error _ _ _ _ _ _ _ Hp). reflexivity. }
  rewrite bind_gl in H.
  apply bind_val in H. destruct H as [pe [w4 [Hl H]]].
  apply load_program_val in Hl. destruct Hl as [Hpe ->]. wsimpl_in Hpe.
  rewrite !bind_gl in H. wsimpl_in H.
  destruct (o_use_error o).
  { rewrite bind_SetError in H. apply (Hexit _ _ _) in H; [exact H | ].
    wsimpl. discriminate. }
  rewrite bind_modify in H.
  apply bind_val in H. destruct H as [r0 [w5 [Hsop H]]].
  destruct (SetOrthographicProjection_result _ _ _ _ Hsop) as [Hcur5 [Hph5 Hr0]].
  wsimpl_in Hcur5. wsimpl_in Hph5.
  destruct (r0 <? 0) eqn:Hneg.
  - apply (Hexit (Some v) (Some f) w5); [ | exact H].
    destruct Hr0 as [-> | [_ He]]; [discriminate | exact He].
  - unfold ret in H. injection H as <- <-. left. split; [reflexivity | ].
    exists p, pe. split; [exact Hcur5 | ]. rewrite Hph5. exact Hpe.
Qed.

End Result.

Lemma SelectProgram_result_witness :
  (0 = 0 /\ exists c ce, current_program Demo.selected = Some c /\
                         program_heap Demo.selected c = Some ce) \/
  (0 = -1 /\ current_program Demo.selected = None /\ sdl_error Demo.selected <> None).
Proof.
  apply (SelectProgram_result Demo.GetShader GLES2_IMAGESOURCE_SOLID 1 (Demo.all_ok 1)
           Demo.created 0 Demo.selected).
  vm_compute. reflexivity.
Defined.

(** ** Making the renderer current *)

Ltac frame_all :=
  repeat first
    [ frame_step
    | match goal with
      | |- keeps _ (GLES2_EvictShader _) => unfold GLES2_EvictShader
      | |- keeps _ (release_shader _) => unfold release_shader
      | |- keeps _ evict_tail => unfold evict_tail
      | |- keeps _ (promote _) => unfold promote
      | |- keeps _ (locate_uniform _ _ _ _) => unfold locate_uniform
      | |- keeps _ (fault _ _) => unfold fault
      | |- keeps _ (GLES2_CacheShader _ _ _ _) => unfold GLES2_CacheShader
      | |- keeps _ (GLES2_CacheProgram _ _ _ _) => unfold GLES2_CacheProgram
      | |- keeps _ (GLES2_SetOrthographicProjection _) =>
          unfold GLES2_SetOrthographicProjection; cbv zeta
      | |- keeps _ (GLES2_SelectProgram _ _ _ _) =>
          unfold GLES2_SelectProgram; cbv zeta
      | |- keeps _ (GLES2_ActivateRenderer _) => unfold GLES2_ActivateRenderer
      end ].

Lemma SelectProgram_keeps_binding : forall GetShader source blendMode o,
    keeps (fun w => (SDL_CurrentContext w, context w, updateSize w,
                     window_w w, window_h w, shader_formats w))
          (GLES2_SelectProgram GetShader source blendMode o).
Proof. intros. frame_all. Qed.

Lemma ActivateRenderer_outcome : forall mk w,
    exists r w',
      GLES2_ActivateRenderer mk w = Val (r, w') /\
      ((r = 0 /\
        SDL_CurrentContext w' = context w' /\ updateSize w' = false /\
        gl_log w' = gl_log w
                    ++ (if updateSize w
                        then [glViewport 0 0 (window_w w) (window_h w)] else []) /\
        current_program w'
        = (if ptr_eqb (SDL_CurrentContext w) (context w)
           then current_program w else None) /\
        (forall again, GLES2_ActivateRenderer again w' = Val (0, w'))) \/
       (r = -1 /\ mk = false /\ SDL_CurrentContext w <> context w /\
        w' = set_current_program None w)).
Proof.
  intros mk w. unfold GLES2_ActivateRenderer. rewrite !bind_gets.
  destruct (ptr_eqb (SDL_CurrentContext w) (context w)) eqn:Hcur; cbn [negb].
  - apply ptr_eqb_eq in Hcur. rewrite bind_ret, bind_gets.
    destruct (updateSize w) eqn:Hup; unfold when.
    + mrun. eexists. eexists. split; [reflexivity | left]. wsimpl.
      repeat split; try reflexivity; try assumption.
      intro again. apply ActivateRenderer_idle; wsimpl; [exact Hcur | reflexivity].
    + mrun. eexists. eexists. split; [reflexivity | left].
      rewrite app_nil_r. repeat split; try reflexivity; try assumption.
      intro again. apply ActivateRenderer_idle; assumption.
  - apply ptr_eqb_neq in Hcur. rewrite bind_assoc, bind_modify. destruct mk.
    + mrun. destruct (updateSize w) eqn:Hup; unfold when.
      * mrun. eexists. eexists. split; [reflexivity | left]. wsimpl.
        repeat split; try reflexivity.
        intro again. apply ActivateRenderer_idle; reflexivity.
      * mrun. eexists. eexists. split; [reflexivity | left]. wsimpl.
        rewrite app_nil_r. repeat split; try reflexivity; try assumption.
        intro again. apply ActivateRenderer_idle; wsimpl; [reflexivity | exact Hup].
    + mrun. eexists. eexists. split; [reflexivity | right].
      repeat split; try reflexivity. exact Hcur.
Qed.

Section Binding.

Variable GetShader : GLES2_ShaderType -> Z -> option GLES2_Shader.

(** X9: [GLES2_SelectProgram] never touches what [GLES2_ActivateRenderer]
    manages: the context made current, the renderer's context, the resize
    flag, the window size and the list of shader formats are as before,
    whatever the result. *)
Theorem SelectProgram_leaves_binding : forall source blendMode o w r w',
    GLES2_SelectProgram GetShader source blendMode o w = Val (r, w') ->
    SDL_CurrentContext w' = SDL_CurrentContext w /\
    context w' = context w /\
    updateSize w' = updateSize w /\
    window_w w' = window_w w /\ window_h w' = window_h w /\
    shader_formats w' = shader_formats w.
Proof.
  intros source blendMode o w r w' H.
  pose proof (SelectProgram_keeps_binding GetShader source blendMode o w r w' H) as E.
  cbv beta in E. injection E as E1 E2 E3 E4 E5 E6. repeat split; assumption.
Qed.

End Binding.

Lemma SelectProgram_leaves_binding_witness :
  SDL_CurrentContext Demo.selected = SDL_CurrentContext Demo.created /\
  context Demo.selected = context Demo.created /\
  updateSize Demo.selected = updateSize Demo.created /\
  window_w Demo.selected = window_w Demo.created /\
  window_h Demo.selected = window_h Demo.created /\
  shader_formats Demo.selected = shader_formats Demo.created.
Proof.
  apply (SelectProgram_leaves_binding Demo.GetShader GLES2_IMAGESOURCE_SOLID 1
           (Demo.all_ok 1) Demo.created 0 Demo.selected).
  vm_compute. reflexivity.
Defined.

(** X10: [GLES2_ActivateRenderer] always returns, and never touches the
    caches.  It returns 0 with the renderer's context recorded as the
    current one, the resize flag down, the viewport set once if the flag
    was up, and the current program forgotten exactly when the context
    had to be made current; activating again at once does nothing at
    all.  It returns -1 only when the context was not current and could
    not be made so, and then the current program is forgotten and nothing
    else has changed but the error message, which is the business of
    [SDL_GL_MakeCurrent] and about which nothing is said. *)
Theorem ActivateRenderer_binds : forall make_current w,
    exists r w',
      GLES2_ActivateRenderer make_current w = Val (r, w') /\
      same_caches w w' /\
      ((r = 0 /\
        SDL_CurrentContext w' = context w' /\ updateSize w' = false /\
        gl_log w' = gl_log w
                    ++ (if updateSize w
                        then [glViewport 0 0 (window_w w) (window_h w)] else []) /\
        current_program w'
        = (if ptr_eqb (SDL_CurrentContext w) (context w)
           then current_program w else None) /\
        (forall again, GLES2_ActivateRenderer again w' = Val (0, w'))) \/
       (r = -1 /\ make_current = false /\ SDL_CurrentContext w <> context w /\
        exists message, w' = set_sdl_error message (set_current_program None w))).
Proof.
  intros mk w. destruct (ActivateRenderer_outcome mk w) as [r [w' [H Hout]]].
  exists r, w'. split; [exact H | ].
  split; [exact (ActivateRenderer_caches mk w r w' H) | ].
  destruct Hout as [Hok | [Hr [Hmk [Hctx ->]]]]; [left; exact Hok | right].
  split; [exact Hr | split; [exact Hmk | split; [exact Hctx | ]]].
  exists (sdl_error w). destruct w; reflexivity.
Qed.

(** ** A hit on the entry at the head *)

Lemma find_program_at_head : forall fuel ph h e,
    ph h = Some e ->
    find_program fuel ph (Some h) (vertex_shader e) (fragment_shader e) = Val (Some h).
Proof.
  intros fuel ph h e He. destruct fuel; simpl; rewrite He, !Nat.eqb_refl; reflexivity.
Qed.

Lemma find_program_self_loop : forall fuel ph h e v f,
    ph h = Some e -> pr_next e = Some h ->
    v <> vertex_shader e \/ f <> fragment_shader e ->
    find_program fuel ph (Some h) v f = Div.
Proof.
  intros fuel ph h e v f He Hnext Hne.
  assert (Hb : Nat.eqb (vertex_shader e) v && Nat.eqb (fragment_shader e) f = false).
  { apply andb_false_iff. destruct Hne as [Hv | Hf]; [left | right];
      apply Nat.eqb_neq; congruence. }
  induction fuel as [| k IH]; simpl; rewrite He, Hb; [reflexivity | ].
  rewrite Hnext. exact IH.
Qed.

(** X11: a hit of [GLES2_CacheProgram] on the entry at the head, when the
    cache holds more than one program, links the head to itself: the
    block under [if (rdata->program_cache.count > 1)] does not check that
    the entry is the head already, and stores the head in its own [next].
    The entries that followed it are no longer linked from the head.  This
    is the call [GLES2_SelectProgram] makes for the pair last selected
    once the current program has been forgotten. *)
Theorem CacheProgram_hit_on_head_loops : forall w h e blendMode o,
    program_cache_head w = Some h ->
    program_heap w h = Some e ->
    1 < program_cache_count w ->
    pr_prev e = None ->
    (forall n, pr_next e = Some n -> n <> h /\ program_heap w n <> None) ->
    exists w' e',
      GLES2_CacheProgram (vertex_shader e) (fragment_shader e) blendMode o w
      = Val (Some h, w') /\
      program_cache_head w' = Some h /\
      program_heap w' h = Some e' /\
      vertex_shader e' = vertex_shader e /\ fragment_shader e' = fragment_shader e /\
      pr_next e' = Some h.
Proof.
  intros w h e blendMode o Hhead He Hcount Hprev Hnext.
  assert (Hgt : (program_cache_count w >? 1) = true) by (apply Z.gtb_lt; lia).
  assert (Hfind : find_program (brk w) (program_heap w) (program_cache_head w)
                    (vertex_shader e) (fragment_shader e) = Val (Some h)).
  { rewrite Hhead. apply find_program_at_head. exact He. }
  destruct (pr_next e) as [n |] eqn:Hn.
  - destruct (Hnext n eq_refl) as [Hnh Hnlive].
    destruct (program_heap w n) as [en |] eqn:Hen; [ | contradiction].
    eexists. eexists. split.
    + unfold GLES2_CacheProgram.
      rewrite (bind_lift _ _ _ _ w (Some h)) by exact Hfind.
      unfold promote. rewrite !bind_assoc, bind_gets, Hgt. unfold when.
      rewrite !bind_assoc. rewrite (bind_load_program _ h e) by exact He.
      rewrite Hn. unfold if_nonnull. rewrite !bind_assoc.
      rewrite (bind_update_program _ n _ en) by exact Hen. wflat.
      rewrite !bind_assoc.
      rewrite (bind_load_program _ h e)
        by (wsimpl; rewrite upd_neq by congruence; exact He).
      rewrite Hprev. mrunf.
      rewrite (bind_update_program _ h _ e)
        by (wsimpl; rewrite upd_neq by congruence; exact He). wflat.
      mrunf. rewrite Hhead.
      erewrite bind_update_program by (wsimpl; apply upd_eq). wflat.
      unfold deref. mrunf.
      erewrite bind_update_program by (wsimpl; apply upd_eq). wflat.
      mrunf. unfold ret. reflexivity.
    + wsimpl. split; [reflexivity | ]. split; [apply upd_eq | ]. repeat split.
  - eexists. eexists. split.
    + unfold GLES2_CacheProgram.
      rewrite (bind_lift _ _ _ _ w (Some h)) by exact Hfind.
      unfold promote. rewrite !bind_assoc, bind_gets, Hgt. unfold when.
      rewrite !bind_assoc. rewrite (bind_load_program _ h e) by exact He.
      rewrite Hn. unfold if_nonnull. mrunf.
      rewrite (bind_load_program _ h e) by exact He.
      rewrite Hprev. mrunf.
      rewrite (bind_update_program _ h _ e) by exact He. wflat.
      mrunf. rewrite Hhead.
      erewrite bind_update_program by (wsimpl; apply upd_eq). wflat.
      unfold deref. mrunf.
      erewrite bind_update_program by (wsimpl; apply upd_eq). wflat.
      mrunf. unfold ret. reflexivity.
    + wsimpl. split; [reflexivity | ]. split; [apply upd_eq | ]. repeat split.
Qed.

(** X12: once the head is its own [next], [GLES2_CacheProgram] for any
    other pair of shaders never returns: the scan for the pair goes round
    the head for ever, whether or not a program for the pair is cached. *)
Theorem CacheProgram_never_returns : forall w h e v f blendMode o,
    program_cache_head w = Some h ->
    program_heap w h = Some e -> pr_next e = Some h ->
    v <> vertex_shader e \/ f <> fragment_shader e ->
    GLES2_CacheProgram v f blendMode o w = Div.
Proof.
  intros w h e v f blendMode o Hhead He Hnext Hne.
  unfold GLES2_CacheProgram, bind, lift. rewrite Hhead.
  rewrite (find_program_self_loop (brk w) (program_heap w) h e v f He Hnext Hne).
  reflexivity.
Qed.

Lemma CacheProgram_hit_on_head_loops_witness :
  reachable Demo.GetShader Scene.rebound /\
  shader_pair Scene.rebound 5%nat = Some (1%nat, 4%nat) /\
  exists w' e',
    GLES2_CacheProgram 1%nat 4%nat 1 (Demo.program_ok 2001) Scene.rebound
    = Val (Some 5%nat, w') /\
    program_cache_head w' = Some 5%nat /\
    program_heap w' 5%nat = Some e' /\
    vertex_shader e' = 1%nat /\ fragment_shader e' = 4%nat /\
    pr_next e' = Some 5%nat.
Proof.
  split; [exact rebound_reachable | split; [vm_compute; reflexivity | ]].
  apply (CacheProgram_hit_on_head_loops Scene.rebound 5%nat
           (mkProgramEntry 2001 1 1%nat 4%nat (repeat 0 16) None (Some 3%nat))
           1 (Demo.program_ok 2001)).
  - vm_compute. reflexivity.
  - vm_compute. reflexivity.
  - vm_compute. reflexivity.
  - reflexivity.
  - intros n Hn. injection Hn as <-. split; [discriminate | ].
    vm_compute. discriminate.
Defined.

Lemma CacheProgram_never_returns_witness :
  reachable Demo.GetShader Scene.looped /\
  shader_pair Scene.looped 3%nat = Some (1%nat, 2%nat) /\
  GLES2_CacheProgram 1%nat 2%nat 0 (Demo.program_ok 2000) Scene.looped = Div /\
  GLES2_SelectProgram Demo.GetShader GLES2_IMAGESOURCE_SOLID 0 (Demo.all_ok 0)
    Scene.looped = Div.
Proof.
  split; [exact looped_reachable | split; [vm_compute; reflexivity | ]].
  split; [ | vm_compute; reflexivity].
  apply (CacheProgram_never_returns Scene.looped 5%nat
           (mkProgramEntry 2001 1 1%nat 4%nat (repeat 0 16) (Some 5%nat) (Some 5%nat))).
  - vm_compute. reflexivity.
  - vm_compute. reflexivity.
  - reflexivity.
  - right. discriminate.
Defined.

(** ** Releasing the renderer *)

Lemma chain_live : forall l ph cur a,
    chain ph cur l -> In a l -> ph a <> None.
Proof.
  induction l as [| b l IH]; intros ph cur a Hc Hin; [destruct Hin | ].
  simpl in Hc. destruct Hc as [_ [e [He Hrest]]]. destruct Hin as [<- | Hin].
  - congruence.
  - exact (IH ph _ a Hrest Hin).
Qed.

Lemma chain_ext : forall l ph ph' cur,
    (forall a, In a l -> ph' a = ph a) -> chain ph cur l -> chain ph' cur l.
Proof.
  induction l as [| b l IH]; intros ph ph' cur Hext Hc; simpl in *; [exact Hc | ].
  destruct Hc as [-> [e [He Hrest]]]. split; [reflexivity | ].
  exists e. split; [rewrite Hext by (left; reflexivity); exact He | ].
  apply (IH ph); [ | exact Hrest]. intros a Ha. apply Hext. right. exact Ha.
Qed.

Lemma chain_unique : forall l l' ph cur,
    chain ph cur l -> chain ph cur l' -> l = l'.
Proof.
  induction l as [| a l IH]; intros l' ph cur H H'; destruct l' as [| a' l'];
    simpl in *.
  - reflexivity.
  - destruct H' as [E _]. congruence.
  - destruct H as [E _]. congruence.
  - destruct H as [E [e [He Hrest]]]. destruct H' as [E' [e' [He' Hrest']]].
    assert (a' = a) by congruence. subst a'. f_equal.
    assert (e' = e) by congruence. subst e'.
    exact (IH l' ph _ Hrest Hrest').
Qed.

Lemma program_list_chain : forall l fuel ph cur,
    chain ph cur l -> (List.length l <= fuel)%nat -> program_list fuel ph cur = l.
Proof.
  induction l as [| a l IH]; intros fuel ph cur Hc Hlen; simpl in Hc.
  - subst cur. destruct fuel; reflexivity.
  - destruct Hc as [-> [e [He Hrest]]]. simpl in Hlen.
    destruct fuel as [| k]; [lia | ]. simpl. rewrite He. f_equal.
    apply IH; [exact Hrest | lia].
Qed.

Lemma shaders_of_ext : forall l ph ph',
    (forall a, In a l -> ph' a = ph a) -> shaders_of ph' l = shaders_of ph l.
Proof.
  induction l as [| b l IH]; intros ph ph' Hext; [reflexivity | ].
  unfold shaders_of in *. simpl. rewrite Hext by (left; reflexivity). f_equal.
  apply IH. intros a Ha. apply Hext. right. exact Ha.
Qed.

Lemma shaders_of_in : forall l ph s,
    In s (shaders_of ph l) <->
    exists p e, In p l /\ ph p = Some e /\ (vertex_shader e = s \/ fragment_shader e = s).
Proof.
  intros l ph s. unfold shaders_of. rewrite in_flat_map. split.
  - intros [p [Hp Hs]]. destruct (ph p) as [e |] eqn:E; [ | destruct Hs].
    exists p, e. split; [exact Hp | split; [exact E | ]].
    destruct Hs as [Hs | [Hs | []]]; [left | right]; exact Hs.
  - intros [p [e [Hp [He Hs]]]]. exists p. split; [exact Hp | ]. rewrite He.
    destruct Hs as [Hs | Hs]; [left | right; left]; exact Hs.
Qed.

Lemma deletions_ext : forall l ph ph' sh sh',
    (forall a, In a l -> ph' a = ph a) ->
    (forall s, In s (shaders_of ph l) -> sh' s = sh s) ->
    deletions ph' sh' l = deletions ph sh l.
Proof.
  induction l as [| b l IH]; intros ph ph' sh sh' Hext Hsh; [reflexivity | ].
  unfold deletions in *. simpl. rewrite Hext by (left; reflexivity).
  f_equal.
  - destruct (ph b) as [e |] eqn:E; [ | reflexivity].
    rewrite !Hsh; [reflexivity | | ];
      apply shaders_of_in; exists b, e; (split; [left; reflexivity | ]);
      (split; [exact E | ]); [right | left]; reflexivity.
  - apply IH.
    + intros a Ha. apply Hext. right. exact Ha.
    + intros s Hs. apply Hsh. apply shaders_of_in. apply shaders_of_in in Hs.
      destruct Hs as [p [e [Hp Hs]]]. exists p, e. split; [right; exact Hp | exact Hs].
Qed.

Lemma free_shader_val : forall a w u w',
    free_shader (Some a) w = Val (u, w') ->
    exists e, shader_heap w a = Some e /\
              w' = set_shader_heap (upd (shader_heap w) a None) w.
Proof.
  intros a w u w' H. unfold free_shader in H.
  destruct (shader_heap w a) as [e |] eqn:E; [ | discriminate].
  injection H as _ <-. exists e. split; reflexivity.
Qed.

Lemma gl_val : forall c w u w',
    gl c w = Val (u, w') -> w' = set_gl_log (gl_log w ++ [c]) w.
Proof. intros c w u w' H. unfold gl, modify in H. injection H as _ <-. reflexivity. Qed.

Lemma destroy_programs_val : forall fuel entry w u w',
    destroy_programs fuel entry w = Val (u, w') ->
    exists l,
      chain (program_heap w) entry l /\
      NoDup l /\
      NoDup (shaders_of (program_heap w) l) /\
      (forall s, In s (shaders_of (program_heap w) l) ->
                 shader_heap w s <> None /\ shader_heap w' s = None) /\
      (forall p, In p l -> program_heap w' p = None) /\
      (forall s, ~ In s (shaders_of (program_heap w) l) ->
                 shader_heap w' s = shader_heap w s) /\
      (forall p, ~ In p l -> program_heap w' p = program_heap w p) /\
      gl_log w' = gl_log w ++ deletions (program_heap w) (shader_heap w) l.
Proof.
  induction fuel as [| k IH]; intros entry w u w' H.
  - destruct entry as [a |].
    + exfalso. simpl in H.
      repeat (apply bind_val in H; destruct H as [? [? [_ H]]]). discriminate.
    + simpl in H. unfold ret in H. injection H as _ <-. exists [].
      simpl. repeat split; try constructor; try contradiction.
      rewrite app_nil_r. reflexivity.
  - destruct entry as [a |].
    2: { simpl in H. unfold ret in H. injection H as _ <-. exists [].
         simpl. repeat split; try constructor; try contradiction.
         rewrite app_nil_r. reflexivity. }
    cbn [destroy_programs] in H.
    apply bind_val in H. destruct H as [e [w1 [H1 H]]].
    apply load_program_val in H1. destruct H1 as [He ->].
    apply bind_val in H. destruct H as [ev [w1 [H1 H]]].
    apply load_shader_val in H1. destruct H1 as [Hev ->].
    apply bind_val in H. destruct H as [u1 [w1 [H1 H]]].
    apply gl_val in H1. subst w1.
    apply bind_val in H. destruct H as [ef [w1 [H1 H]]].
    apply load_shader_val in H1. destruct H1 as [Hef ->]. wsimpl_in Hef.
    apply bind_val in H. destruct H as [u2 [w1 [H1 H]]].
    apply gl_val in H1. subst w1. wsimpl_in H.
    apply bind_val in H. destruct H as [u3 [w1 [H1 H]]].
    apply free_shader_val in H1. destruct H1 as [ev' [_ ->]]. wsimpl_in H.
    apply bind_val in H. destruct H as [u4 [w1 [H1 H]]].
    apply free_shader_val in H1. destruct H1 as [ef' [Hef' ->]].
    wsimpl_in Hef'. wsimpl_in H.
    assert (Hvf : fragment_shader e <> vertex_shader e).
    { intro E. rewrite E, upd_eq in Hef'. discriminate. }
    apply bind_val in H. destruct H as [u5 [w1 [H1 H]]].
    apply gl_val in H1. subst w1. wsimpl_in H.
    apply bind_val in H. destruct H as [u6 [w1 [H1 H]]].
    apply free_program_val in H1. destruct H1 as [e' [_ ->]]. wsimpl_in H.
    set (v := vertex_shader e) in *. set (f := fragment_shader e) in *.
    match type of H with
    | destroy_programs k _ ?W = _ => set (W1 := W) in *
    end.
    destruct (IH _ W1 u w' H)
      as [l1 [Hch [Hnd [Hnds [Hsh [Hpr [Hshk [Hprk Hlog]]]]]]]].
    assert (HW1p : program_heap W1 = upd (program_heap w) a None) by reflexivity.
    assert (HW1s : shader_heap W1 = upd (upd (shader_heap w) v None) f None)
      by reflexivity.
    assert (Hal1 : ~ In a l1).
    { intro Hin. apply (chain_live l1 _ _ a Hch Hin). rewrite HW1p. apply upd_eq. }
    assert (Hsame : forall p, In p l1 -> program_heap W1 p = program_heap w p).
    { intros p Hp. rewrite HW1p. apply upd_neq. intro E. subst p. contradiction. }
    assert (Hso : shaders_of (program_heap W1) l1 = shaders_of (program_heap w) l1)
      by (apply shaders_of_ext; exact Hsame).
    rewrite Hso in Hnds, Hsh, Hshk.
    assert (Hvl : ~ In v (shaders_of (program_heap w) l1)).
    { intro Hin. destruct (Hsh v Hin) as [Hlive _]. apply Hlive. rewrite HW1s.
      rewrite upd_neq by congruence. apply upd_eq. }
    assert (Hfl : ~ In f (shaders_of (program_heap w) l1)).
    { intro Hin. destruct (Hsh f Hin) as [Hlive _]. apply Hlive. rewrite HW1s.
      apply upd_eq. }
    exists (a :: l1).
    assert (Hshs : shaders_of (program_heap w) (a :: l1)
                   = v :: f :: shaders_of (program_heap w) l1).
    { unfold shaders_of. simpl. rewrite He. reflexivity. }
    rewrite Hshs.
    split.
    { simpl. split; [reflexivity | ]. exists e. split; [exact He | ].
      apply (chain_ext l1 (program_heap W1)); [ | exact Hch].
      intros p Hp. symmetry. apply Hsame. exact Hp. }
    split; [constructor; assumption | ].
    split.
    { constructor.
      - intros [E | Hin]; [congruence | contradiction].
      - constructor; assumption. }
    split.
    { intros s [<- | [<- | Hin]].
      - split; [congruence | ]. rewrite (Hshk v Hvl), HW1s.
        rewrite upd_neq by congruence. apply upd_eq.
      - split; [congruence | ]. rewrite (Hshk f Hfl), HW1s. apply upd_eq.
      - destruct (Hsh s Hin) as [Hlive Hgone]. split; [ | exact Hgone].
        intro E. apply Hlive. rewrite HW1s. unfold upd.
        destruct (Nat.eqb s f); [reflexivity | ].
        destruct (Nat.eqb s v); [reflexivity | exact E]. }
    split.
    { intros p [<- | Hin]; [ | exact (Hpr p Hin)].
      rewrite (Hprk a Hal1), HW1p. apply upd_eq. }
    split.
    { intros s Hs. rewrite Hshk by (intro Hin; apply Hs; right; right; exact Hin).
      rewrite HW1s, !upd_neq; [reflexivity | | ];
        intro E; apply Hs; subst s; [left | right; left]; reflexivity. }
    split.
    { intros p Hp. rewrite Hprk by (intro Hin; apply Hp; right; exact Hin).
      rewrite HW1p. apply upd_neq. intro E. apply Hp. left. congruence. }
    rewrite Hlog.
    assert (Hd : deletions (program_heap W1) (shader_heap W1) l1
                 = deletions (program_heap w) (shader_heap w) l1).
    { apply deletions_ext; [exact Hsame | ].
      intros s Hs. rewrite HW1s, !upd_neq; [reflexivity | | ];
        intro E; subst s; contradiction. }
    rewrite Hd. unfold deletions at 2. simpl. rewrite He. fold v f.
    rewrite Hev, Hef. unfold W1. wsimpl. rewrite <- !app_assoc. reflexivity.
Qed.

Lemma destroy_programs_runs : forall l fuel entry w,
    chain (program_heap w) entry l ->
    NoDup l ->
    NoDup (shaders_of (program_heap w) l) ->
    (forall s, In s (shaders_of (program_heap w) l) -> shader_heap w s <> None) ->
    (List.length l <= fuel)%nat ->
    exists w', destroy_programs fuel entry w = Val (tt, w').
Proof.
  induction l as [| a l IH]; intros fuel entry w Hch Hnd Hnds Hlive Hlen.
  - simpl in Hch. subst entry. exists w. destruct fuel; reflexivity.
  - simpl in Hch. destruct Hch as [-> [e [He Hrest]]]. simpl in Hlen.
    destruct fuel as [| k]; [lia | ].
    assert (Hshs : shaders_of (program_heap w) (a :: l)
                   = vertex_shader e :: fragment_shader e
                     :: shaders_of (program_heap w) l).
    { unfold shaders_of. simpl. rewrite He. reflexivity. }
    rewrite Hshs in Hnds, Hlive.
    set (v := vertex_shader e) in *. set (f := fragment_shader e) in *.
    destruct (shader_heap w v) as [ev |] eqn:Hev;
      [ | exfalso; apply (Hlive v); [left; reflexivity | exact Hev]].
    destruct (shader_heap w f) as [ef |] eqn:Hef;
      [ | exfalso; apply (Hlive f); [right; left; reflexivity | exact Hef]].
    inversion Hnds as [| ? ? Hv Hnds1]; subst.
    inversion Hnds1 as [| ? ? Hf Hnds2]; subst.
    inversion Hnd as [| ? ? Ha Hnd1]; subst.
    assert (Hvf : f <> v) by (intro E; apply Hv; left; exact E).
    cbn [destroy_programs].
    rewrite (bind_load_program _ a e) by exact He.
    fold v f.
    rewrite (bind_load_shader _ v ev) by exact Hev.
    rewrite bind_gl.
    rewrite (bind_load_shader _ f ef) by exact Hef.
    rewrite bind_gl.
    unfold free_shader at 1. unfold bind at 1. wsimpl. rewrite Hev.
    unfold free_shader at 1. unfold bind at 1. wsimpl.
    rewrite upd_neq by exact Hvf. rewrite Hef.
    rewrite bind_gl.
    unfold free_program at 1. unfold bind at 1. wsimpl. rewrite He.
    match goal with
    | |- exists _, destroy_programs k _ ?W = _ => set (W1 := W)
    end.
    assert (HW1p : program_heap W1 = upd (program_heap w) a None) by reflexivity.
    assert (HW1s : shader_heap W1 = upd (upd (shader_heap w) v None) f None)
      by reflexivity.
    assert (Hsame : forall p, In p l -> program_heap W1 p = program_heap w p).
    { intros p Hp. rewrite HW1p. apply upd_neq. intro E. subst p. contradiction. }
    assert (Hso : shaders_of (program_heap W1) l = shaders_of (program_heap w) l)
      by (apply shaders_of_ext; exact Hsame).
    apply (IH k (pr_next e) W1).
    + apply (chain_ext l (program_heap w)); [exact Hsame | exact Hrest].
    + exact Hnd1.
    + rewrite Hso. exact Hnds2.
    + rewrite Hso. intros s Hs. rewrite HW1s, !upd_neq.
      * apply Hlive. right. right. exact Hs.
      * intro E. subst s. apply Hv. right. exact Hs.
      * intro E. subst s. contradiction.
    + lia.
Qed.

Lemma shaders_of_nodup : forall l ph,
    (forall a, In a l -> ph a <> None) -> NoDup (shaders_of ph l) -> NoDup l.
Proof.
  induction l as [| a l IH]; intros ph Hlive Hnd; [constructor | ].
  destruct (ph a) as [e |] eqn:He;
    [ | exfalso; apply (Hlive a); [left; reflexivity | exact He]].
  assert (Hshs : shaders_of ph (a :: l)
                 = vertex_shader e :: fragment_shader e :: shaders_of ph l).
  { unfold shaders_of. simpl. rewrite He. reflexivity. }
  rewrite Hshs in Hnd.
  inversion Hnd as [| ? ? Hv Hnd1]; subst. inversion Hnd1 as [| ? ? Hf Hnd2]; subst.
  constructor.
  - intro Hin. apply Hv. right. apply shaders_of_in. exists a, e.
    split; [exact Hin | split; [exact He | left; reflexivity]].
  - apply (IH ph); [ | exact Hnd2]. intros b Hb. apply Hlive. right. exact Hb.
Qed.

Lemma nodup_below : forall (l : list nat) (b : nat),
    NoDup l -> (forall a, In a l -> (a < b)%nat) -> (List.length l <= b)%nat.
Proof.
  intros l b Hnd Hlt.
  assert (H : incl l (seq 0 b)).
  { intros a Ha. apply in_seq. specialize (Hlt a Ha). lia. }
  apply (NoDup_incl_length Hnd) in H. rewrite length_seq in H. exact H.
Qed.

Lemma chain_cached : forall w l0 l,
    consistent w l0 ->
    chain (program_heap w) (program_cache_head w) l ->
    NoDup l ->
    cached_programs w = l.
Proof.
  intros w l0 l [_ [Hp _]] Hch Hnd. unfold cached_programs.
  apply program_list_chain; [exact Hch | ].
  apply nodup_below; [exact Hnd | ].
  intros a Ha. destruct (program_heap w a) as [e |] eqn:He.
  - exact (p_bound _ _ Hp a e He).
  - exfalso. exact (chain_live l _ _ a Hch Ha He).
Qed.

Lemma DestroyRenderer_val : forall mk w u w',
    GLES2_DestroyRenderer mk w = Val (u, w') ->
    exists r wa,
      GLES2_ActivateRenderer mk w = Val (r, wa) /\
      destroy_programs (brk w) (program_cache_head w) wa = Val (u, w').
Proof.
  intros mk w u w' H. unfold GLES2_DestroyRenderer in H.
  apply bind_val in H. destruct H as [r [wa [Ha H]]].
  rewrite !bind_gets in H.
  destruct (ActivateRenderer_caches mk w r wa Ha)
    as [_ [_ [_ [_ [Hh [_ [_ [_ Hb]]]]]]]].
  rewrite Hh, Hb in H. exists r, wa. split; assumption.
Qed.

Section Destroy.

Variable GetShader : GLES2_ShaderType -> Z -> option GLES2_Shader.

(** X13: with the program entries [l] linked from the head up to NULL,
    [GLES2_DestroyRenderer] returns exactly when no shader entry is
    pointed to twice by them: as soon as two cached programs share a
    shader (or the list comes back to an entry) it releases a block a
    second time. *)
Theorem DestroyRenderer_returns_iff : forall make_current w l,
    cache_reachable GetShader w ->
    chain (program_heap w) (program_cache_head w) l ->
    (exists w', GLES2_DestroyRenderer make_current w = Val (tt, w')) <->
    NoDup (shaders_of (program_heap w) l).
Proof.
  intros mk w l Hreach Hch.
  destruct (cache_reachable_consistent GetShader w Hreach) as [l0 Hc].
  split.
  - intros [w' H]. apply DestroyRenderer_val in H. destruct H as [r [wa [Ha H]]].
    destruct (ActivateRenderer_caches mk w r wa Ha)
      as [Hsh [_ [_ [Hph _]]]].
    destruct (destroy_programs_val _ _ _ _ _ H) as [l' [Hch' [_ [Hnd _]]]].
    rewrite Hph in Hch', Hnd.
    rewrite (chain_unique l l' _ _ Hch Hch'). exact Hnd.
  - intro Hnd. destruct (ActivateRenderer_outcome mk w) as [r [wa [Ha _]]].
    destruct (ActivateRenderer_caches mk w r wa Ha)
      as [Hsh [_ [_ [Hph [Hhd [_ [_ [_ Hbrk]]]]]]]].
    assert (Hl : NoDup l).
    { apply (shaders_of_nodup l (program_heap w)); [ | exact Hnd].
      intros a Ha'. exact (chain_live l _ _ a Hch Ha'). }
    destruct (destroy_programs_runs l (brk w) (program_cache_head w) wa)
      as [w' Hrun].
    + rewrite Hph. exact Hch.
    + exact Hl.
    + rewrite Hph. exact Hnd.
    + rewrite Hph, Hsh. intros s Hs. apply shaders_of_in in Hs.
      destruct Hs as [p [e [_ [He Hs]]]].
      destruct (referenced_by_program w l0 p e Hc He) as [[ev [Hev _]] [ef [Hef _]]].
      destruct Hs as [<- | <-]; congruence.
    + apply nodup_below; [exact Hl | ]. intros a Ha'.
      destruct Hc as [_ [Hp _]].
      destruct (program_heap w a) as [e |] eqn:He.
      * exact (p_bound _ _ Hp a e He).
      * exfalso. exact (chain_live l _ _ a Hch Ha' He).
    + exists w'. unfold GLES2_DestroyRenderer.
      rewrite (bind_run _ _ _ _ _ _ _ Ha), !bind_gets, Hhd, Hbrk. exact Hrun.
Qed.

End Destroy.

Lemma DestroyRenderer_returns_iff_witness :
  chain (program_heap Scene.two_programs) (program_cache_head Scene.two_programs)
        [5%nat; 3%nat] /\
  shaders_of (program_heap Scene.two_programs) [5%nat; 3%nat]
  = [1%nat; 4%nat; 1%nat; 2%nat] /\
  ~ (exists w', GLES2_DestroyRenderer true Scene.two_programs = Val (tt, w')).
Proof.
  assert (Hch : chain (program_heap Scene.two_programs)
                      (program_cache_head Scene.two_programs) [5%nat; 3%nat]).
  { split; [vm_compute; reflexivity | ]. eexists. split; [vm_compute; reflexivity | ].
    split; [vm_compute; reflexivity | ]. eexists. split; [vm_compute; reflexivity | ].
    vm_compute. reflexivity. }
  assert (Hs : shaders_of (program_heap Scene.two_programs) [5%nat; 3%nat]
               = [1%nat; 4%nat; 1%nat; 2%nat]) by (vm_compute; reflexivity).
  split; [exact Hch | split; [exact Hs | ]].
  intro H.
  apply (DestroyRenderer_returns_iff Demo.GetShader true Scene.two_programs
           [5%nat; 3%nat] (reachable_cache_reachable _ _ two_programs_reachable) Hch)
    in H.
  rewrite Hs in H. inversion H as [| ? ? Hnotin _]. apply Hnotin.
  right. left. reflexivity.
Defined.

(** X14: what [GLES2_DestroyRenderer] has done when it returns: it went
    through the program entries linked from the head up to NULL, deleted
    for each the two GL shaders and the GL program, in that order, and
    released the three blocks.  Every other block is as before: a program
    entry that is no longer linked from the head is not released, nor is
    a shader that only such entries use. *)
Theorem DestroyRenderer_releases : forall make_current w u w',
    GLES2_DestroyRenderer make_current w = Val (u, w') ->
    exists l viewport,
      chain (program_heap w) (program_cache_head w) l /\
      (forall p, In p l -> program_heap w' p = None) /\
      (forall s, In s (shaders_of (program_heap w) l) -> shader_heap w' s = None) /\
      (forall p, ~ In p l -> program_heap w' p = program_heap w p) /\
      (forall s, ~ In s (shaders_of (program_heap w) l) ->
                 shader_heap w' s = shader_heap w s) /\
      gl_log w' = gl_log w ++ viewport
                  ++ deletions (program_heap w) (shader_heap w) l /\
      (viewport = [] \/ viewport = [glViewport 0 0 (window_w w) (window_h w)]).
Proof.
  intros mk w u w' H. apply DestroyRenderer_val in H.
  destruct H as [r [wa [Ha H]]].
  destruct (ActivateRenderer_caches mk w r wa Ha) as [Hsh [_ [_ [Hph _]]]].
  destruct (destroy_programs_val _ _ _ _ _ H)
    as [l [Hch [_ [_ [Hs [Hp [Hsk [Hpk Hlog]]]]]]]].
  rewrite Hph in Hch, Hs, Hpk, Hsk, Hlog. rewrite Hsh in Hsk, Hlog.
  assert (Hv : exists viewport,
             gl_log wa = gl_log w ++ viewport /\
             (viewport = [] \/
              viewport = [glViewport 0 0 (window_w w) (window_h w)])).
  { destruct (ActivateRenderer_outcome mk w) as [r' [wa' [Ha' Hout]]].
    rewrite Ha in Ha'. injection Ha' as <- <-.
    destruct Hout as [[_ [_ [_ [Hlog' _]]]] | [_ [_ [_ ->]]]].
    - destruct (updateSize w); eexists; (split; [exact Hlog' | ]);
        [right | left]; reflexivity.
    - exists []. split; [wsimpl; rewrite app_nil_r; reflexivity | left; reflexivity]. }
  destruct Hv as [viewport [Hv Hvs]].
  exists l, viewport. split; [exact Hch | ]. split; [exact Hp | ].
  split; [intros s Hin; exact (proj2 (Hs s Hin)) | ].
  split; [exact Hpk | ]. split; [exact Hsk | ].
  split; [rewrite Hlog, Hv, <- app_assoc; reflexivity | exact Hvs].
Qed.

Lemma DestroyRenderer_releases_witness :
  GLES2_DestroyRenderer true Demo.selected = Val (tt, Scene.released) /\
  exists l viewport,
    chain (program_heap Demo.selected) (program_cache_head Demo.selected) l /\
    (forall p, In p l -> program_heap Scene.released p = None) /\
    (forall s, In s (shaders_of (program_heap Demo.selected) l) ->
               shader_heap Scene.released s = None) /\
    (forall p, ~ In p l -> program_heap Scene.released p = program_heap Demo.selected p) /\
    (forall s, ~ In s (shaders_of (program_heap Demo.selected) l) ->
               shader_heap Scene.released s = shader_heap Demo.selected s) /\
    gl_log Scene.released
    = gl_log Demo.selected ++ viewport
      ++ deletions (program_heap Demo.selected) (shader_heap Demo.selected) l /\
    (viewport = [] \/
     viewport = [glViewport 0 0 (window_w Demo.selected) (window_h Demo.selected)]).
Proof.
  assert (H : GLES2_DestroyRenderer true Demo.selected = Val (tt, Scene.released))
    by (vm_compute; reflexivity).
  split; [exact H | ].
  exact (DestroyRenderer_releases true Demo.selected tt Scene.released H).
Defined.

(** ** Copying pixel rows *)

Lemma byte_nat : forall buf (n : nat), byte buf (Z.of_nat n) = nth_error buf n.
Proof.
  intros buf n. unfold byte.
  destruct (Z.ltb_spec (Z.of_nat n) 0); [lia | ]. rewrite Nat2Z.id. reflexivity.
Qed.

Lemma byte_at : forall buf k,
    0 <= k -> byte buf k = nth_error buf (Z.to_nat k).
Proof.
  intros buf k Hk. unfold byte. destruct (Z.ltb_spec k 0); [lia | reflexivity].
Qed.

Lemma byte_inside : forall buf k,
    0 <= k < Z.of_nat (List.length buf) -> byte buf k <> None.
Proof.
  intros buf k Hk. rewrite byte_at by lia. apply nth_error_Some. lia.
Qed.

Lemma slice_some : forall buf off len,
    0 <= off -> 0 <= len -> off + len <= Z.of_nat (List.length buf) ->
    exists r, slice buf off len = Some r.
Proof.
  intros buf off len H1 H2 H3. unfold slice.
  destruct (Z.leb_spec 0 off); [ | lia]. destruct (Z.leb_spec 0 len); [ | lia].
  destruct (Z.leb_spec (off + len) (Z.of_nat (List.length buf))); [ | lia].
  eexists. reflexivity.
Qed.

Lemma slice_val : forall buf off len r,
    slice buf off len = Some r ->
    0 <= off /\ 0 <= len /\ off + len <= Z.of_nat (List.length buf) /\
    Z.of_nat (List.length r) = len /\
    forall i, 0 <= i < len -> byte r i = byte buf (off + i).
Proof.
  intros buf off len r H. unfold slice in H.
  destruct (Z.leb_spec 0 off); [ | discriminate].
  destruct (Z.leb_spec 0 len); [ | discriminate].
  destruct (Z.leb_spec (off + len) (Z.of_nat (List.length buf))); [ | discriminate].
  cbn [andb] in H. injection H as <-.
  repeat split; try assumption.
  - rewrite length_firstn, length_skipn. lia.
  - intros i Hi. rewrite !byte_at by lia.
    rewrite nth_error_firstn.
    destruct (Nat.ltb_spec (Z.to_nat i) (Z.to_nat len)); [ | lia].
    rewrite nth_error_skipn. f_equal. lia.
Qed.

Lemma splice_some : forall buf off data,
    0 <= off -> off + Z.of_nat (List.length data) <= Z.of_nat (List.length buf) ->
    exists r, splice buf off data = Some r.
Proof.
  intros buf off data H1 H2. unfold splice.
  destruct (Z.leb_spec 0 off); [ | lia].
  destruct (Z.leb_spec (off + Z.of_nat (List.length data))
              (Z.of_nat (List.length buf))); [ | lia].
  eexists. reflexivity.
Qed.

Lemma splice_val : forall buf off data r,
    splice buf off data = Some r ->
    0 <= off /\ off + Z.of_nat (List.length data) <= Z.of_nat (List.length buf) /\
    List.length r = List.length buf /\
    (forall i, 0 <= i < Z.of_nat (List.length data) ->
               byte r (off + i) = byte data i) /\
    (forall k, k < off \/ off + Z.of_nat (List.length data) <= k ->
               byte r k = byte buf k).
Proof.
  intros buf off data r H. unfold splice in H.
  destruct (Z.leb_spec 0 off); [ | discriminate].
  destruct (Z.leb_spec (off + Z.of_nat (List.length data))
              (Z.of_nat (List.length buf))); [ | discriminate].
  cbn [andb] in H. injection H as <-.
  assert (Hf : List.length (firstn (Z.to_nat off) buf) = Z.to_nat off)
    by (rewrite length_firstn; lia).
  repeat split; try assumption.
  - rewrite !length_app, Hf, length_skipn. lia.
  - intros i Hi. rewrite !byte_at by lia.
    rewrite nth_error_app2 by (rewrite Hf; lia). rewrite Hf.
    rewrite nth_error_app1 by lia. f_equal. lia.
  - intros k Hk. unfold byte. destruct (Z.ltb_spec k 0); [reflexivity | ].
    destruct Hk as [Hk | Hk].
    + rewrite nth_error_app1 by (rewrite Hf; lia).
      rewrite nth_error_firstn.
      destruct (Nat.ltb_spec (Z.to_nat k) (Z.to_nat off)); [reflexivity | lia].
    + rewrite nth_error_app2 by (rewrite Hf; lia). rewrite Hf.
      rewrite nth_error_app2 by lia. rewrite nth_error_skipn. f_equal. lia.
Qed.

Lemma byte_app_l : forall a b k,
    k < Z.of_nat (List.length a) -> byte (a ++ b) k = byte a k.
Proof.
  intros a b k Hk. unfold byte. destruct (Z.ltb_spec k 0); [reflexivity | ].
  apply nth_error_app1. lia.
Qed.

Lemma byte_app_r : forall a b k,
    0 <= k -> byte (a ++ b) (Z.of_nat (List.length a) + k) = byte b k.
Proof.
  intros a b k Hk. rewrite !byte_at by lia.
  rewrite nth_error_app2 by lia. f_equal. lia.
Qed.

(** The packed rows: [rows] rows of [srcPitch] bytes, row [y] being the
    bytes of [pixels] from [off + y * pitch]. *)
Lemma pack_rows_val : forall rows pixels off pitch srcPitch out,
    pack_rows rows pixels off pitch srcPitch = Some out ->
    Z.of_nat (List.length out) = Z.of_nat rows * srcPitch /\
    forall y i, 0 <= y < Z.of_nat rows -> 0 <= i < srcPitch ->
                byte out (y * srcPitch + i) = byte pixels (off + y * pitch + i).
Proof.
  induction rows as [| k IH]; intros pixels off pitch srcPitch out H.
  - simpl in H. injection H as <-. split; [reflexivity | ]. intros y i Hy. lia.
  - cbn [pack_rows] in H.
    destruct (slice pixels off srcPitch) as [r |] eqn:Hr; [ | discriminate].
    destruct (pack_rows k pixels (off + pitch) pitch srcPitch) as [rest |] eqn:Hrest;
      [ | discriminate].
    injection H as <-.
    destruct (slice_val _ _ _ _ Hr) as [_ [_ [_ [Hlen Hbytes]]]].
    destruct (IH _ _ _ _ _ Hrest) as [Hlen' Hbytes'].
    split; [rewrite length_app; lia | ].
    intros y i Hy Hi.
    destruct (Z.eq_dec y 0) as [-> | Hy0].
    + rewrite byte_app_l by lia. rewrite Hbytes by lia. f_equal. lia.
    + replace (y * srcPitch + i)
        with (Z.of_nat (List.length r) + ((y - 1) * srcPitch + i)) by lia.
      rewrite byte_app_r by nia. rewrite Hbytes' by lia. f_equal. lia.
Qed.

Lemma pack_rows_some : forall rows pixels off pitch srcPitch,
    0 <= off -> 0 <= pitch -> 0 <= srcPitch ->
    (rows <> O ->
     off + (Z.of_nat rows - 1) * pitch + srcPitch <= Z.of_nat (List.length pixels)) ->
    exists out, pack_rows rows pixels off pitch srcPitch = Some out.
Proof.
  induction rows as [| k IH]; intros pixels off pitch srcPitch Hoff Hp Hs Hlen.
  - exists []. reflexivity.
  - cbn [pack_rows]. specialize (Hlen ltac:(discriminate)).
    destruct (slice_some pixels off srcPitch) as [r Hr]; [lia | lia | nia | ].
    rewrite Hr.
    destruct (IH pixels (off + pitch) pitch srcPitch) as [rest Hrest];
      [lia | lia | lia | intros _; lia | ].
    rewrite Hrest. eexists. reflexivity.
Qed.

(** The rows copied into the streaming buffer: row [y] of the packed
    source lands [y * dpitch] bytes after [doff]; nothing else changes. *)
Lemma copy_rows_val : forall rows dest doff src soff dpitch srcPitch out,
    0 <= srcPitch <= dpitch ->
    copy_rows rows dest doff src soff dpitch srcPitch = Some out ->
    List.length out = List.length dest /\
    (forall y i, 0 <= y < Z.of_nat rows -> 0 <= i < srcPitch ->
                 byte out (doff + y * dpitch + i) = byte src (soff + y * srcPitch + i)) /\
    (forall k, (forall y, 0 <= y < Z.of_nat rows ->
                          k < doff + y * dpitch \/ doff + y * dpitch + srcPitch <= k) ->
               byte out k = byte dest k).
Proof.
  induction rows as [| n IH]; intros dest doff src soff dpitch srcPitch out Hp H.
  - simpl in H. injection H as <-. split; [reflexivity | ].
    split; [intros y i Hy; lia | reflexivity].
  - cbn [copy_rows] in H.
    destruct (slice src soff srcPitch) as [r |] eqn:Hr; [ | discriminate].
    destruct (splice dest doff r) as [dest' |] eqn:Hd; [ | discriminate].
    destruct (slice_val _ _ _ _ Hr) as [_ [_ [_ [Hlen Hbytes]]]].
    destruct (splice_val _ _ _ _ Hd) as [_ [_ [Hlen' [Hin Hout]]]].
    destruct (IH _ _ _ _ _ _ _ Hp H) as [Hl [Hrows Hrest]].
    split; [congruence | ]. split.
    + intros y i Hy Hi. destruct (Z.eq_dec y 0) as [-> | Hy0].
      * replace (doff + 0 * dpitch + i) with (doff + i) by lia.
        rewrite Hrest by (intros y Hy'; left; nia).
        rewrite Hin by lia. rewrite Hbytes by lia. f_equal. lia.
      * replace (doff + y * dpitch + i) with (doff + dpitch + (y - 1) * dpitch + i)
          by lia.
        rewrite Hrows by lia. f_equal. lia.
    + intros k Hk. rewrite Hrest.
      * apply Hout. destruct (Hk 0 ltac:(lia)) as [Hk0 | Hk0]; [left | right]; lia.
      * intros y Hy. destruct (Hk (y + 1) ltac:(lia)) as [Hk1 | Hk1];
          [left | right]; lia.
Qed.

Lemma copy_rows_some : forall rows dest doff src soff dpitch srcPitch,
    0 <= doff -> 0 <= soff -> 0 <= srcPitch -> 0 <= dpitch ->
    soff + Z.of_nat rows * srcPitch <= Z.of_nat (List.length src) ->
    (rows <> O ->
     doff + (Z.of_nat rows - 1) * dpitch + srcPitch <= Z.of_nat (List.length dest)) ->
    exists out, copy_rows rows dest doff src soff dpitch srcPitch = Some out.
Proof.
  induction rows as [| n IH]; intros dest doff src soff dpitch srcPitch
                                      Hd Hs Hsp Hdp Hsrc Hdest.
  - exists dest. reflexivity.
  - cbn [copy_rows]. specialize (Hdest ltac:(discriminate)).
    destruct (slice_some src soff srcPitch) as [r Hr]; [lia | lia | nia | ].
    rewrite Hr. destruct (slice_val _ _ _ _ Hr) as [_ [_ [_ [Hlen _]]]].
    destruct (splice_some dest doff r) as [dest' Hd']; [lia | nia | ].
    rewrite Hd'. destruct (splice_val _ _ _ _ Hd') as [_ [_ [Hlen' _]]].
    apply IH; lia.
Qed.

Lemma copy_rows_length : forall rows dest doff src soff dpitch srcPitch out,
    copy_rows rows dest doff src soff dpitch srcPitch = Some out ->
    List.length out = List.length dest.
Proof.
  induction rows as [| n IH]; intros dest doff src soff dpitch srcPitch out H.
  - simpl in H. injection H as <-. reflexivity.
  - cbn [copy_rows] in H.
    destruct (slice src soff srcPitch) as [r |]; [ | discriminate].
    destruct (splice dest doff r) as [dest' |] eqn:Hd; [ | discriminate].
    rewrite (IH _ _ _ _ _ _ _ H).
    exact (proj1 (proj2 (proj2 (splice_val _ _ _ _ Hd)))).
Qed.

Lemma row_of : forall k dest p rows,
    0 < p -> dest <= k < dest + rows * p ->
    exists y, 0 <= y < rows /\ dest + y * p <= k < dest + y * p + p.
Proof.
  intros k dest p rows Hp Hk. exists ((k - dest) / p).
  assert (H1 := Z.div_mod (k - dest) p ltac:(lia)).
  assert (H2 := Z.mod_pos_bound (k - dest) p Hp).
  assert (H3 : 0 <= (k - dest) / p) by (apply Z.div_pos; lia).
  assert (H4 : (k - dest) / p < rows) by (apply Z.div_lt_upper_bound; nia).
  nia.
Qed.

Lemma as_unsigned_small : forall bits x,
    0 <= x < 2 ^ bits -> as_unsigned bits x = x.
Proof. intros bits x H. unfold as_unsigned. apply Z.mod_small. exact H. Qed.

Lemma as_int_small : forall x, 0 <= x <= INT_MAX -> as_int x = x.
Proof.
  intros x H. unfold as_int. cbv zeta.
  rewrite as_unsigned_small by (unfold INT_MAX in H; lia).
  destruct (Z.leb_spec x INT_MAX); [reflexivity | lia].
Qed.

Lemma int_fits_size : forall bits x,
    32 <= bits -> 0 <= x <= INT_MAX -> 0 <= x < 2 ^ bits.
Proof.
  intros bits x Hb Hx. split; [lia | ].
  assert (2 ^ 32 <= 2 ^ bits) by (apply Z.pow_le_mono_r; lia).
  unfold INT_MAX in Hx. lia.
Qed.

Section Streaming.

Variable SDL_BYTESPERPIXEL : Z -> Z.

(** The width of [size_t], in bits. *)
Variable SIZE_BITS : Z.

(** X15: an update of a rectangle inside a streaming texture, whose
    buffer has [pitch = w * bytes per pixel] and [pitch * h] bytes, from
    pixel rows [pixels_pitch] apart.  The buffer has no more than
    [INT_MAX] bytes and [size_t] has 32 bits or more, so that none of the
    products the source computes in [int], in 32-bit unsigned or in
    [size_t] arithmetic leaves its range, and [pixels_pitch] is an [int].
    Then [GLES2_UpdateTexture] returns 0
    (given the blob if the rows need packing, and no GL error); it hands
    GL the rows of the rectangle tightly packed, row [y] being the bytes
    of [pixels] from [y * pixels_pitch]; and it stores the same rows in
    the streaming buffer where [GLES2_LockTexture] for the rectangle
    points afterwards, [pitch] apart, every other byte of the buffer
    being as before.  The upload is made whatever [GLES2_ActivateRenderer]
    returned. *)
Theorem UpdateTexture_streams :
  forall make_current blob_alloc tex rect pixels pixels_pitch buf w,
    let bpp := SDL_BYTESPERPIXEL (format tex) in
    let srcPitch := rect_w rect * bpp in
    0 < bpp ->
    0 < rect_w rect -> 0 < rect_h rect -> 0 <= rect_x rect -> 0 <= rect_y rect ->
    rect_x rect + rect_w rect <= tex_w tex ->
    rect_y rect + rect_h rect <= tex_h tex ->
    pitch (driverdata tex) = tex_w tex * bpp ->
    pixel_data (driverdata tex) = Some buf ->
    Z.of_nat (List.length buf) = pitch (driverdata tex) * tex_h tex ->
    pitch (driverdata tex) * tex_h tex <= INT_MAX ->
    32 <= SIZE_BITS ->
    0 <= pixels_pitch <= INT_MAX ->
    (rect_h rect - 1) * pixels_pitch + srcPitch <= Z.of_nat (List.length pixels) ->
    pixels_pitch = srcPitch \/ blob_alloc = true ->
    exists r wa src buf' off p,
      GLES2_ActivateRenderer make_current w = Val (r, wa) /\
      GLES2_UpdateTexture SDL_BYTESPERPIXEL make_current blob_alloc false tex rect
        pixels pixels_pitch w
      = Val ((0, set_pixel_data (Some buf') tex),
             set_gl_log
               (gl_log wa
                ++ [glGetError; glActiveTexture GL_TEXTURE0;
                    glBindTexture (texture_type (driverdata tex))
                                  (texture (driverdata tex));
                    glPixelStorei GL_UNPACK_ALIGNMENT 1;
                    glTexSubImage2D (texture_type (driverdata tex)) 0
                      (rect_x rect) (rect_y rect) (rect_w rect) (rect_h rect)
                      (pixel_format (driverdata tex)) (pixel_type (driverdata tex))
                      src;
                    glGetError]) wa) /\
      Z.of_nat (List.length src) = rect_h rect * srcPitch /\
      (forall y i, 0 <= y < rect_h rect -> 0 <= i < srcPitch ->
                   byte src (y * srcPitch + i) = byte pixels (y * pixels_pitch + i)) /\
      List.length buf' = List.length buf /\
      GLES2_LockTexture SDL_BYTESPERPIXEL SIZE_BITS
        (set_pixel_data (Some buf') tex) rect
      = (0, (off, p)) /\
      (forall y i, 0 <= y < rect_h rect -> 0 <= i < srcPitch ->
                   byte buf' (off + y * p + i) = byte pixels (y * pixels_pitch + i) /\
                   byte buf' (off + y * p + i) <> None) /\
      (forall k, (forall y, 0 <= y < rect_h rect ->
                            k < off + y * p \/ off + y * p + srcPitch <= k) ->
                 byte buf' k = byte buf k).
Proof.
  intros mk blob tex rect pixels ppitch buf w bpp srcPitch
         Hbpp Hw Hh Hx Hy Hxw Hyh Hpitch Hbuf Hlen Hmax Hsize [Hpp Hppmax]
         Hpixels Hblob.
  destruct (ActivateRenderer_outcome mk w) as [r [wa [Ha _]]].
  set (tdata := driverdata tex) in *.
  set (P := pitch tdata) in *.
  set (dest := P * rect_y rect + bpp * rect_x rect).
  assert (HsP : 0 <= srcPitch <= P) by (unfold srcPitch; nia).
  assert (Hdest : 0 <= dest) by (unfold dest; nia).
  (* the packed source *)
  assert (Hsrc : exists src,
             (if negb (ppitch =? srcPitch)
              then pack_rows (Z.to_nat (rect_h rect)) pixels 0 ppitch srcPitch
              else slice pixels 0 (srcPitch * rect_h rect)) = Some src /\
             Z.of_nat (List.length src) = rect_h rect * srcPitch /\
             forall y i, 0 <= y < rect_h rect -> 0 <= i < srcPitch ->
                         byte src (y * srcPitch + i) = byte pixels (y * ppitch + i)).
  { destruct (Z.eqb_spec ppitch srcPitch) as [E | E]; cbn [negb].
    - destruct (slice_some pixels 0 (srcPitch * rect_h rect)) as [src Hs];
        [lia | nia | nia | ].
      exists src. split; [exact Hs | ].
      destruct (slice_val _ _ _ _ Hs) as [_ [_ [_ [Hl Hb]]]].
      split; [lia | ]. intros y i Hy' Hi. rewrite Hb by nia. rewrite E. reflexivity.
    - destruct (pack_rows_some (Z.to_nat (rect_h rect)) pixels 0 ppitch srcPitch)
        as [src Hs]; [lia | lia | lia | intros _; rewrite Z2Nat.id by lia; lia | ].
      exists src. split; [exact Hs | ].
      destruct (pack_rows_val _ _ _ _ _ _ Hs) as [Hl Hb].
      rewrite Z2Nat.id in Hl, Hb by lia.
      split; [exact Hl | ]. intros y i Hy' Hi. rewrite Hb by lia. reflexivity. }
  destruct Hsrc as [src [Hsrc [Hsl Hsb]]].
  (* the streaming buffer *)
  assert (Hcopy : exists buf',
             (if rect_w rect =? tex_w tex then splice buf dest src
              else copy_rows (Z.to_nat (rect_h rect)) buf dest src 0 P srcPitch)
             = Some buf' /\
             List.length buf' = List.length buf /\
             (forall y i, 0 <= y < rect_h rect -> 0 <= i < srcPitch ->
                          byte buf' (dest + y * P + i) = byte src (y * srcPitch + i) /\
                          byte buf' (dest + y * P + i) <> None) /\
             (forall k, (forall y, 0 <= y < rect_h rect ->
                                   k < dest + y * P \/ dest + y * P + srcPitch <= k) ->
                        byte buf' k = byte buf k)).
  { assert (Hfit : dest + (rect_h rect - 1) * P + srcPitch
                   <= Z.of_nat (List.length buf)).
    { rewrite Hlen. unfold dest, srcPitch. fold P in Hpitch. nia. }
    destruct (Z.eqb_spec (rect_w rect) (tex_w tex)) as [E | E].
    - assert (HP : P = srcPitch) by (unfold srcPitch; rewrite E; exact Hpitch).
      destruct (splice_some buf dest src) as [buf' Hb]; [lia | nia | ].
      exists buf'. split; [exact Hb | ].
      destruct (splice_val _ _ _ _ Hb) as [_ [_ [Hl [Hin Hout]]]].
      split; [exact Hl | ]. split.
      + intros y i Hy' Hi.
        replace (dest + y * P + i) with (dest + (y * srcPitch + i)) by nia.
        split; [apply Hin; nia | ].
        apply byte_inside. rewrite Hl. nia.
      + intros k Hk. apply Hout.
        destruct (Z_lt_le_dec k dest) as [Hlt | Hge]; [left; exact Hlt | right].
        destruct (Z_lt_le_dec k (dest + rect_h rect * P)) as [Hlt | Hge'];
          [ | nia].
        exfalso. destruct (row_of k dest P (rect_h rect)) as [y [Hy' Hrow]];
          [lia | lia | ].
        destruct (Hk y Hy'); lia.
    - destruct (copy_rows_some (Z.to_nat (rect_h rect)) buf dest src 0 P srcPitch)
        as [buf' Hb]; [lia | lia | lia | lia | lia | intros _; lia | ].
      exists buf'. split; [exact Hb | ].
      destruct (copy_rows_val _ _ _ _ _ _ _ _ HsP Hb) as [Hl [Hin Hout]].
      rewrite Z2Nat.id in Hin, Hout by lia.
      split; [exact Hl | ]. split.
      + intros y i Hy' Hi. split; [rewrite Hin by lia; f_equal; lia | ].
        apply byte_inside. rewrite Hl. nia.
      + exact Hout. }
  destruct Hcopy as [buf' [Hcopy [Hbl [Hbin Hbout]]]].
  exists r, wa, src, buf', dest, P.
  split; [exact Ha | ]. split.
  { unfold GLES2_UpdateTexture. cbv zeta.
    rewrite (bind_run _ _ _ _ _ _ _ Ha).
    destruct (Z.leb_spec (rect_w rect) 0); [lia | ].
    destruct (Z.leb_spec (rect_h rect) 0); [lia | ]. cbn [orb].
    fold bpp. fold srcPitch.
    replace (negb (ppitch =? srcPitch) && negb blob) with false.
    2: { destruct Hblob as [-> | ->];
           [rewrite Z.eqb_refl; reflexivity | apply eq_sym, andb_false_r]. }
    rewrite Hsrc. unfold or_undefined at 1. rewrite bind_ret. mrun.
    fold tdata. rewrite Hbuf. fold P. fold dest. rewrite Hcopy.
    unfold or_undefined. rewrite bind_ret. unfold ret.
    rewrite <- !app_assoc. reflexivity. }
  split; [exact Hsl | ]. split; [exact Hsb | ]. split; [exact Hbl | ]. split.
  { unfold GLES2_LockTexture, set_pixel_data.
    cbn [driverdata pitch format rect_x rect_y]. fold tdata. fold P. fold bpp.
    assert (HP : 0 <= P <= INT_MAX) by nia.
    assert (Hrow : 0 <= P * rect_y rect <= INT_MAX) by nia.
    assert (Hcol : 0 <= rect_x rect * bpp <= INT_MAX) by (unfold srcPitch in HsP; nia).
    rewrite (as_unsigned_small SIZE_BITS)
      by (apply int_fits_size; assumption).
    rewrite (as_unsigned_small 32) by (apply int_fits_size; [lia | assumption]).
    rewrite (as_int_small P HP).
    apply f_equal. apply f_equal2; [ | reflexivity]. unfold dest. lia. }
  split; [ | exact Hbout].
  intros y i Hy' Hi. destruct (Hbin y i Hy' Hi) as [H1 H2].
  split; [rewrite H1; apply Hsb; assumption | exact H2].
Qed.

(** X16: however [GLES2_UpdateTexture] ends, the caches are as before.
    It returns 0, with the texture as it was but for the contents of the
    streaming buffer, whose size stays, or -1, with the texture untouched
    and an error message set; and -1 only on a GL error or when the blob
    for packing the rows could not be allocated, 0 after a GL error only
    for an empty rectangle. *)
Theorem UpdateTexture_result :
  forall make_current blob_alloc gl_error tex rect pixels pixels_pitch w r tex' w',
    GLES2_UpdateTexture SDL_BYTESPERPIXEL make_current blob_alloc gl_error tex rect
      pixels pixels_pitch w = Val ((r, tex'), w') ->
    same_caches w w' /\
    ((r = 0 /\
     (tex' = tex \/
      exists buf buf', pixel_data (driverdata tex) = Some buf /\
                       tex' = set_pixel_data (Some buf') tex /\
                       List.length buf' = List.length buf) /\
     (gl_error = true -> rect_w rect <= 0 \/ rect_h rect <= 0)) \/
    (r = -1 /\ tex' = tex /\ sdl_error w' <> None /\
     (gl_error = true \/
      blob_alloc = false /\
      pixels_pitch <> rect_w rect * SDL_BYTESPERPIXEL (format tex)))).
Proof.
  intros mk blob gerr tex rect pixels ppitch w r tex' w' H.
  split; [exact (UpdateTexture_caches _ _ _ _ _ _ _ _ _ _ _ H) | ].
  unfold GLES2_UpdateTexture in H. cbv zeta in H.
  apply bind_val in H. destruct H as [r0 [w1 [_ H]]].
  destruct ((rect_w rect <=? 0) || (rect_h rect <=? 0)) eqn:Hempty.
  { unfold ret in H. injection H as <- <- <-. left.
    split; [reflexivity | ]. split; [left; reflexivity | ]. intros _.
    apply orb_true_iff in Hempty. destruct Hempty as [E | E];
      apply Z.leb_le in E; [left | right]; exact E. }
  destruct (negb (ppitch =? rect_w rect * SDL_BYTESPERPIXEL (format tex))
            && negb blob) eqn:Hmem.
  { rewrite bind_OutOfMemory in H. unfold ret in H. injection H as <- <- <-. right.
    split; [reflexivity | ]. split; [reflexivity | ]. split; [discriminate | ].
    right. apply andb_true_iff in Hmem. destruct Hmem as [E1 E2].
    apply negb_true_iff in E1, E2. apply Z.eqb_neq in E1. split; assumption. }
  apply bind_val in H. destruct H as [src [w2 [Hs H]]].
  apply or_undefined_val in Hs. destruct Hs as [_ ->].
  mflat H.
  destruct gerr.
  { mflat H. unfold ret in H. injection H as <- <- <-. right.
    split; [reflexivity | ]. split; [reflexivity | ]. split; [discriminate | ].
    left. reflexivity. }
  left. split.
  2: { split; [ | discriminate].
       destruct (pixel_data (driverdata tex)) as [buf |] eqn:Hbuf.
       - apply bind_val in H. destruct H as [buf' [w3 [Hb H]]].
         apply or_undefined_val in Hb. destruct Hb as [Hb ->].
         unfold ret in H. injection H as _ <- _. right. exists buf, buf'.
         split; [reflexivity | ]. split; [reflexivity | ].
         destruct (rect_w rect =? tex_w tex).
         + exact (proj1 (proj2 (proj2 (splice_val _ _ _ _ Hb)))).
         + exact (copy_rows_length _ _ _ _ _ _ _ _ Hb).
       - unfold ret in H. injection H as _ <- _. left. reflexivity. }
  destruct (pixel_data (driverdata tex)) as [buf |].
  - apply bind_val in H. destruct H as [buf' [w3 [Hb H]]].
    apply or_undefined_val in Hb. destruct Hb as [_ ->].
    unfold ret in H. injection H as <- _ _. reflexivity.
  - unfold ret in H. injection H as <- _ _. reflexivity.
Qed.

End Streaming.

Lemma UpdateTexture_streams_witness :
  exists r wa src buf' off p,
    GLES2_ActivateRenderer true Demo.start = Val (r, wa) /\
    GLES2_UpdateTexture Scene.bytes_per_pixel true true false Scene.streaming
      Scene.area Scene.padded_pixels 6 Demo.start
    = Val ((0, set_pixel_data (Some buf') Scene.streaming),
           set_gl_log
             (gl_log wa
              ++ [glGetError; glActiveTexture GL_TEXTURE0; glBindTexture 0x0DE1 5;
                  glPixelStorei GL_UNPACK_ALIGNMENT 1;
                  glTexSubImage2D 0x0DE1 0 1 1 2 2 0x1908 0x1401 src;
                  glGetError]) wa) /\
    Z.of_nat (List.length src) = 2 * (2 * 2) /\
    (forall y i, 0 <= y < 2 -> 0 <= i < 2 * 2 ->
                 byte src (y * (2 * 2) + i) = byte Scene.padded_pixels (y * 6 + i)) /\
    List.length buf' = 24%nat /\
    GLES2_LockTexture Scene.bytes_per_pixel 64
      (set_pixel_data (Some buf') Scene.streaming) Scene.area = (0, (off, p)) /\
    (forall y i, 0 <= y < 2 -> 0 <= i < 2 * 2 ->
                 byte buf' (off + y * p + i) = byte Scene.padded_pixels (y * 6 + i) /\
                 byte buf' (off + y * p + i) <> None) /\
    (forall k, (forall y, 0 <= y < 2 -> k < off + y * p \/ off + y * p + 2 * 2 <= k) ->
               byte buf' k = byte (repeat 0 24) k).
Proof.
  apply (UpdateTexture_streams Scene.bytes_per_pixel 64 true true Scene.streaming
           Scene.area Scene.padded_pixels 6 (repeat 0 24) Demo.start);
    try reflexivity; try (vm_compute; discriminate);
    try (split; vm_compute; discriminate).
  right. reflexivity.
Defined.

Lemma UpdateTexture_result_witness :
  GLES2_UpdateTexture Scene.bytes_per_pixel true true true Demo.some_texture
    (mkRect 0 0 1 1) [1; 2] 2 Demo.start
  = Val ((-1, Demo.some_texture), Scene.upload_refused) /\
  same_caches Demo.start Scene.upload_refused /\
  sdl_error Scene.upload_refused = Some "Failed to update texture"%string.
Proof.
  assert (H : GLES2_UpdateTexture Scene.bytes_per_pixel true true true
                Demo.some_texture (mkRect 0 0 1 1) [1; 2] 2 Demo.start
              = Val ((-1, Demo.some_texture), Scene.upload_refused))
    by (vm_compute; reflexivity).
  split; [exact H | ].
  split; [ | vm_compute; reflexivity].
  exact (proj1 (UpdateTexture_result Scene.bytes_per_pixel true true true
                  Demo.some_texture (mkRect 0 0 1 1) [1; 2] 2 Demo.start (-1)
                  Demo.some_texture Scene.upload_refused H)).
Defined.

(** ** A program that cannot be made *)

Lemma CacheProgram_none_why : forall v f blendMode o,
    ensures (GLES2_CacheProgram v f blendMode o)
            (fun r w => r = None ->
                        po_alloc o = false \/ po_error o || negb (po_linked o) = true).
Proof.
  intros v f blendMode o. unfold GLES2_CacheProgram, SDL_OutOfMemory.
  apply ensures_bind. intros [entry |].
  - ends.
  - intros w r w' H. destruct (po_alloc o) eqn:Halloc; [ | left; reflexivity].
    destruct (po_error o || negb (po_linked o)) eqn:Hlink; [right; reflexivity | ].
    intro Hr.
    match type of H with
    | ?m w = _ => assert (E : ensures m (fun r _ => r = None -> False))
    end.
    { intros w0 r0 w0' H0. rewrite bind_calloc_program in H0.
      cbv beta iota in H0. revert H0.
      match goal with
      | |- ?m ?W = Val (r0, w0') -> _ =>
          assert (E0 : ensures m (fun r _ => r = None -> False)) by ends;
          exact (E0 W r0 w0')
      end. }
    exfalso. exact (E w r w' H Hr).
Qed.

Lemma CacheProgram_none_quiet : forall w l v f blendMode o w',
    consistent w l ->
    GLES2_CacheProgram v f blendMode o w = Val (None, w') ->
    quiet_change w w'.
Proof.
  intros w l v f blendMode o w' Hc H.
  pose proof (CacheProgram_none_why v f blendMode o w None w' H eq_refl) as Hwhy.
  unfold GLES2_CacheProgram in H.
  apply bind_val in H. destruct H as [found [w0 [Hfind H]]].
  apply lift_val in Hfind. destruct Hfind as [Hfind ->].
  destruct found as [entry |].
  { apply bind_val in H. destruct H as [u [w1 [_ H]]]. discriminate. }
  rewrite (world_eta w) in H.
  destruct (po_alloc o) eqn:Halloc.
  2: { unfold bind, calloc_program in H. mflat H. unfold ret in H.
       injection H as <-. apply quiet_fields; wsimpl; try reflexivity; lia. }
  destruct Hwhy as [Hwhy | Hlink]; [discriminate | ].
  rewrite bind_calloc_program in H. wflat_in H. set (N := brk w) in *. mflat H.
  set (init := mkProgramEntry 0 blendMode v f (repeat 0 16) None None) in *.
  rewrite (bind_update_program _ N _ init) in H by (wsimpl; apply upd_eq).
  rewrite (bind_load_program _ N (set_pr_id (po_id o) init)) in H
    by (wsimpl; apply upd_eq).
  apply bind_val in H. destruct H as [ev [w1 [Hev H]]].
  apply load_shader_val in Hev. destruct Hev as [_ ->]. mflat H.
  apply bind_val in H. destruct H as [ef [w1 [Hef H]]].
  apply load_shader_val in Hef. destruct Hef as [_ ->]. mflat H.
  assert (HNfree : program_heap w N = None).
  { destruct Hc as [_ [[Hpb _ _] _]].
    destruct (program_heap w N) as [e |] eqn:E; [ | reflexivity].
    specialize (Hpb N e E). unfold N in Hpb. lia. }
  rewrite Hlink in H.
  mflat H. unfold free_program, bind in H. wflat_in H.
  rewrite upd_eq in H. unfold ret in H. injection H as <-.
  apply quiet_fields; wsimpl; try reflexivity; [ | unfold N; lia].
  intro a. unfold upd. destruct (Nat.eqb_spec a N) as [-> | _]; [ | reflexivity].
  symmetry. exact HNfree.
Qed.

(** X17: when [GLES2_CacheProgram] returns NULL, the block could not be
    allocated or the program did not link; an error message is set, and
    both caches are as before: every block, the heads, the tail, the
    counts and the current program.  The program object of a failed link
    has been deleted and its block released. *)
Theorem CacheProgram_failure_changes_nothing :
  forall GetShader v f blendMode o w w',
    cache_reachable GetShader w ->
    GLES2_CacheProgram v f blendMode o w = Val (None, w') ->
    (po_alloc o = false \/ po_error o || negb (po_linked o) = true) /\
    sdl_error w' <> None /\
    (forall a, shader_heap w' a = shader_heap w a) /\
    (forall a, program_heap w' a = program_heap w a) /\
    shader_cache_count w' = shader_cache_count w /\
    shader_cache_head w' = shader_cache_head w /\
    program_cache_count w' = program_cache_count w /\
    program_cache_head w' = program_cache_head w /\
    program_cache_tail w' = program_cache_tail w /\
    current_program w' = current_program w.
Proof.
  intros GetShader v f blendMode o w w' Hreach H.
  destruct (cache_reachable_consistent GetShader w Hreach) as [l Hc].
  split; [exact (CacheProgram_none_why v f blendMode o w None w' H eq_refl) | ].
  split; [exact (CacheProgram_none_sets_error v f blendMode o w None w' H eq_refl) | ].
  exact (quiet_change_fields w w'
           (CacheProgram_none_quiet w l v f blendMode o w' Hc H)).
Qed.

Lemma CacheProgram_failure_changes_nothing_witness :
  GLES2_CacheProgram 1%nat 2%nat 0 Scene.link_fails Scene.shaders_ready
  = Val (None, Scene.unlinked) /\
  sdl_error Scene.unlinked <> None /\
  (forall a, program_heap Scene.unlinked a = program_heap Scene.shaders_ready a) /\
  program_cache_count Scene.unlinked = program_cache_count Scene.shaders_ready /\
  brk Scene.unlinked <> brk Scene.shaders_ready.
Proof.
  assert (H : GLES2_CacheProgram 1%nat 2%nat 0 Scene.link_fails Scene.shaders_ready
              = Val (None, Scene.unlinked)) by (vm_compute; reflexivity).
  destruct (CacheProgram_failure_changes_nothing Demo.GetShader 1%nat 2%nat 0
              Scene.link_fails Scene.shaders_ready Scene.unlinked
              shaders_ready_reachable H)
    as [_ [A [_ [B [_ [_ [C _]]]]]]].
  split; [exact H | split; [exact A | split; [exact B | split; [exact C | ]]]].
  vm_compute. discriminate.
Defined.

(** ** The renderer just created *)

Lemma store_at_length : forall (A : Type) (a : list A) n x,
    List.length (store_at n x a) = List.length a.
Proof.
  induction a as [| hd tl IH]; intros n x; [destruct n; reflexivity | ].
  destruct n; simpl; [reflexivity | ]. rewrite IH. reflexivity.
Qed.

Lemma store_at_last : forall (A : Type) (a : list A) (y x : A),
    store_at (List.length a) x (a ++ [y]) = a ++ [x].
Proof.
  induction a as [| hd tl IH]; intros y x; [reflexivity | ].
  simpl. rewrite IH. reflexivity.
Qed.

Lemma query_formats_listed : forall o,
    List.length (co_formats o) = co_nFormats o ->
    query_formats o
    = co_formats o ++ (if co_hasCompiler o then [GLenum_minus_one] else []).
Proof.
  intros o Hlen. unfold query_formats. cbv zeta.
  rewrite <- Hlen. rewrite firstn_all.
  destruct (co_hasCompiler o).
  - rewrite Nat.add_1_r. cbn [repeat].
    replace (co_formats o ++ 0 :: repeat 0 (List.length (co_formats o)))
      with ((co_formats o ++ [0]) ++ repeat 0 (List.length (co_formats o)))
      by (rewrite <- app_assoc; reflexivity).
    rewrite firstn_app.
    replace (S (List.length (co_formats o)) - List.length (co_formats o ++ [0%Z]))%nat
      with O by (rewrite length_app; cbn [List.length]; lia).
    rewrite firstn_O, app_nil_r.
    rewrite firstn_all2 by (rewrite length_app; cbn [List.length]; lia).
    replace (S (List.length (co_formats o)) - 1)%nat
      with (List.length (co_formats o)) by lia.
    apply store_at_last.
  - rewrite Nat.add_0_r, app_nil_r.
    rewrite firstn_app, Nat.sub_diag, firstn_O, app_nil_r. apply firstn_all.
Qed.

Lemma find_instance_none : forall shader formats,
    find_instance shader formats = None <->
    forall c, In c (instances shader) -> ~ In (inst_format c) formats.
Proof.
  intros shader formats. rewrite find_instance_last. split.
  - intros H c Hc Hin.
    apply find_none with (a := c) in H; [ | apply in_rev in Hc; exact Hc].
    apply supported_in in Hin. congruence.
  - intro H. destruct (find (supported formats) (rev (instances shader)))
      as [c |] eqn:E; [ | reflexivity].
    apply find_some in E. destruct E as [Hc Hs]. exfalso.
    apply (H c); [apply in_rev; exact Hc | apply supported_in; exact Hs].
Qed.

Lemma CreateRenderer_val : forall o w0 w,
    GLES2_CreateRenderer o w0 = Val (true, w) ->
    co_renderer o = true /\ co_rdata o = true /\ co_context o <> None /\
    co_make_current o = true /\ co_shader_formats o = true /\ co_error o = false /\
    w = set_shader_formats (query_formats o)
          (set_gl_log
             (gl_log w0
              ++ [glGetError; glGetIntegerv GL_NUM_SHADER_BINARY_FORMATS;
                  glGetBooleanv GL_SHADER_COMPILER;
                  glGetIntegerv GL_SHADER_BINARY_FORMATS; glGetError])
             (set_context (co_context o) (zero_driver_context w0))).
Proof.
  intros o w0 w H. unfold GLES2_CreateRenderer in H.
  destruct (co_renderer o); cbn [negb] in H.
  2: { rewrite bind_OutOfMemory in H. discriminate. }
  destruct (co_rdata o); cbn [negb] in H; [ | discriminate].
  rewrite !bind_modify in H.
  destruct (co_context o) as [c |]; [ | discriminate].
  destruct (co_make_current o); cbn [negb] in H; [ | discriminate].
  rewrite !bind_gl in H.
  destruct (co_shader_formats o); cbn [negb] in H.
  2: { rewrite bind_OutOfMemory in H. discriminate. }
  rewrite !bind_gl in H.
  destruct (co_error o).
  { rewrite bind_SetError in H. discriminate. }
  rewrite bind_modify in H. unfold ret in H. injection H as <-.
  repeat split; try discriminate.
  wsimpl. rewrite <- !app_assoc. reflexivity.
Qed.

(** X18: the format list of a renderer just created, when GL lists as
    many binary formats as it counted: those formats, followed by the
    tag for source form exactly when the platform has a compiler.  So
    [GLES2_CacheShader] finds no instance of a shader exactly when none
    of its candidates is in a listed binary format or, with a compiler,
    in source form. *)
Theorem CreateRenderer_formats : forall o w0 w,
    GLES2_CreateRenderer o w0 = Val (true, w) ->
    List.length (co_formats o) = co_nFormats o ->
    shader_formats w
    = co_formats o ++ (if co_hasCompiler o then [GLenum_minus_one] else []) /\
    forall shader,
      find_instance shader (shader_formats w) = None <->
      forall c, In c (instances shader) ->
                ~ In (inst_format c) (co_formats o) /\
                (co_hasCompiler o = true -> inst_format c <> GLenum_minus_one).
Proof.
  intros o w0 w H Hlen.
  destruct (CreateRenderer_val o w0 w H) as [_ [_ [_ [_ [_ [_ ->]]]]]]. wsimpl.
  rewrite (query_formats_listed o Hlen). split; [reflexivity | ].
  intro shader. rewrite find_instance_none. split.
  - intros Hnone c Hc. specialize (Hnone c Hc). split.
    + intro Hin. apply Hnone. apply in_or_app. left. exact Hin.
    + intros Hcomp E. apply Hnone. apply in_or_app. right. rewrite Hcomp, E.
      left. reflexivity.
  - intros Hnone c Hc Hin. destruct (Hnone c Hc) as [Hbin Hsrc].
    apply in_app_or in Hin. destruct Hin as [Hin | Hin]; [exact (Hbin Hin) | ].
    destruct (co_hasCompiler o); [ | destruct Hin].
    destruct Hin as [E | []]. apply Hsrc; [reflexivity | symmetry; exact E].
Qed.

Lemma CreateRenderer_formats_witness :
  GLES2_CreateRenderer Scene.with_compiler Demo.nothing = Val (true, Scene.compiling) /\
  shader_formats Scene.compiling = [Demo.binary_format; GLenum_minus_one] /\
  forall shader,
    find_instance shader (shader_formats Scene.compiling) = None <->
    forall c, In c (instances shader) ->
              ~ In (inst_format c) [Demo.binary_format] /\
              (true = true -> inst_format c <> GLenum_minus_one).
Proof.
  assert (H : GLES2_CreateRenderer Scene.with_compiler Demo.nothing
              = Val (true, Scene.compiling)) by (vm_compute; reflexivity).
  split; [exact H | ].
  apply (CreateRenderer_formats Scene.with_compiler Demo.nothing Scene.compiling H).
  reflexivity.
Defined.

(** X19: [GLES2_CreateRenderer] makes its context current but does not
    record it as the current one, so the renderer it returns is not yet
    active: unless that context was already recorded, the first
    [GLES2_ActivateRenderer] has to make it current again; if it cannot,
    it returns -1 and changes nothing but the error message (about which
    nothing is said), and otherwise it returns 0 and records the
    context. *)
Theorem CreateRenderer_then_activate : forall o w0 w,
    GLES2_CreateRenderer o w0 = Val (true, w) ->
    SDL_CurrentContext w0 <> co_context o ->
    SDL_CurrentContext w = SDL_CurrentContext w0 /\
    context w = co_context o /\
    (exists message,
        GLES2_ActivateRenderer false w = Val (-1, set_sdl_error message w)) /\
    GLES2_ActivateRenderer true w = Val (0, set_SDL_CurrentContext (co_context o) w).
Proof.
  intros o w0 w H Hctx.
  destruct (CreateRenderer_val o w0 w H) as [_ [_ [_ [_ [_ [_ ->]]]]]].
  apply ptr_eqb_neq in Hctx.
  split; [reflexivity | split; [reflexivity | ]].
  split.
  - exists (sdl_error w0).
    unfold GLES2_ActivateRenderer, zero_driver_context. rewrite !bind_gets. wsimpl.
    rewrite Hctx. cbn [negb]. mrun. reflexivity.
  - unfold GLES2_ActivateRenderer, zero_driver_context. rewrite !bind_gets. wsimpl.
    rewrite Hctx. cbn [negb]. mrun. unfold when. rewrite bind_ret. reflexivity.
Qed.

Lemma CreateRenderer_then_activate_witness :
  SDL_CurrentContext Demo.created = SDL_CurrentContext Demo.nothing /\
  context Demo.created = Some 1%nat /\
  (exists message,
      GLES2_ActivateRenderer false Demo.created
      = Val (-1, set_sdl_error message Demo.created)) /\
  GLES2_ActivateRenderer true Demo.created
  = Val (0, set_SDL_CurrentContext (Some 1%nat) Demo.created).
Proof.
  apply (CreateRenderer_then_activate Demo.create_ok Demo.nothing Demo.created).
  - vm_compute. reflexivity.
  - vm_compute. discriminate.
Defined.

(** ** The program in use *)

Lemma in_use_snoc : forall log c,
    program_in_use (log ++ [c])
    = match c with glUseProgram p => Some p | _ => program_in_use log end.
Proof.
  intros log c. unfold program_in_use. rewrite fold_left_app. reflexivity.
Qed.

Lemma in_use_other : forall log c,
    is_glUseProgram c = false -> program_in_use (log ++ [c]) = program_in_use log.
Proof.
  intros log c H. rewrite in_use_snoc. destruct c; try reflexivity. discriminate.
Qed.

Lemma keeps_gl_other : forall (B : Type) (g : World -> B),
    (forall v w, g (set_gl_log v w) = g w) ->
    forall c, is_glUseProgram c = false ->
              keeps (fun w => (g w, program_in_use (gl_log w))) (gl c).
Proof.
  intros B g Hg c Hc w r w' H. apply gl_val in H. subst w'.
  rewrite Hg. cbn [gl_log set_gl_log]. rewrite (in_use_other _ c Hc). reflexivity.
Qed.

Ltac frame_use :=
  repeat first
    [ match goal with
      | |- keeps _ (gl _) => apply keeps_gl_other; [intros; reflexivity | reflexivity]
      end
    | frame_step
    | match goal with
      | |- keeps _ (GLES2_EvictShader _) => unfold GLES2_EvictShader
      | |- keeps _ (GLES2_CacheShader _ _ _ _) => unfold GLES2_CacheShader
      | |- keeps _ (GLES2_SetOrthographicProjection _) =>
          unfold GLES2_SetOrthographicProjection; cbv zeta
      end ].

Section InUse.

Variable GetShader : GLES2_ShaderType -> Z -> option GLES2_Shader.

Lemma CacheShader_keeps_use : forall type blendMode o,
    keeps (fun w => ((program_heap w, current_program w), program_in_use (gl_log w)))
          (GLES2_CacheShader GetShader type blendMode o).
Proof. intros. frame_use. Qed.

Lemma SetOrthographicProjection_keeps_use : forall ue,
    keeps (fun w => ((program_heap w, current_program w), program_in_use (gl_log w)))
          (GLES2_SetOrthographicProjection ue).
Proof. intros. frame_use. Qed.

Lemma fault_forgets : forall vertex fragment w r w',
    fault vertex fragment w = Val (r, w') -> current_in_use w'.
Proof.
  intros vertex fragment w r w' H c Hc.
  destruct (fault_result vertex fragment w r w' H) as [_ [E _]]. congruence.
Qed.

Lemma SelectProgram_in_use : forall source blendMode o w r w',
    current_in_use w ->
    GLES2_SelectProgram GetShader source blendMode o w = Val (r, w') ->
    current_in_use w'.
Proof.
  intros source blendMode o w r w' J H.
  unfold GLES2_SelectProgram in H. cbv zeta in H.
  apply bind_val in H. destruct H as [vertex [w1 [H1 H]]].
  pose proof (CacheShader_keeps_use _ _ _ w vertex w1 H1) as K1. cbv beta in K1.
  destruct vertex as [v |]; [ | exact (fault_forgets _ _ _ _ _ H)].
  apply bind_val in H. destruct H as [fragment [w2 [H2 H]]].
  pose proof (CacheShader_keeps_use _ _ _ w1 fragment w2 H2) as K2. cbv beta in K2.
  destruct fragment as [f |]; [ | exact (fault_forgets _ _ _ _ _ H)].
  assert (J2 : current_in_use w2).
  { injection K1 as A1 B1 C1. injection K2 as A2 B2 C2.
    intros c Hc. rewrite B2, B1 in Hc. destruct (J c Hc) as [ce [Hce Huse]].
    exists ce. rewrite A2, A1, C2, C1. split; assumption. }
  clear K1 K2 H1 H2 J.
  rewrite bind_gets in H.
  apply bind_val in H. destruct H as [unchanged [w3 [H3 H]]].
  assert (E3 : w3 = w2).
  { destruct (current_program w2) as [c |].
    - apply bind_val in H3. destruct H3 as [ce [w4 [H4 H3]]].
      apply load_program_val in H4. destruct H4 as [_ ->].
      unfold ret in H3. injection H3 as _ <-. reflexivity.
    - unfold ret in H3. injection H3 as _ <-. reflexivity. }
  subst w3. clear H3.
  destruct unchanged.
  { unfold ret in H. injection H as _ <-. exact J2. }
  apply bind_val in H. destruct H as [program [w3 [_ H]]].
  destruct program as [p |]; [ | exact (fault_forgets _ _ _ _ _ H)].
  rewrite bind_gl in H.
  apply bind_val in H. destruct H as [pe [w4 [H4 H]]].
  apply load_program_val in H4. destruct H4 as [Hpe ->].
  rewrite !bind_gl in H.
  destruct (o_use_error o).
  { rewrite bind_SetError in H. exact (fault_forgets _ _ _ _ _ H). }
  rewrite bind_modify in H.
  apply bind_val in H. destruct H as [r5 [w5 [H5 H]]].
  pose proof (SetOrthographicProjection_keeps_use _ _ _ _ H5) as K5. cbv beta in K5.
  destruct (r5 <? 0); [exact (fault_forgets _ _ _ _ _ H) | ].
  unfold ret in H. injection H as _ <-.
  injection K5 as A5 B5 C5. wsimpl_in A5. wsimpl_in B5. wsimpl_in C5. wsimpl_in Hpe.
  intros c Hc. rewrite B5 in Hc. injection Hc as <-.
  exists pe. rewrite A5, C5. split; [exact Hpe | ].
  rewrite in_use_other by reflexivity. rewrite in_use_snoc. reflexivity.
Qed.

Lemma ActivateRenderer_in_use : forall mk w r w',
    current_in_use w ->
    GLES2_ActivateRenderer mk w = Val (r, w') ->
    current_in_use w'.
Proof.
  intros mk w r w' J H.
  destruct (ActivateRenderer_caches mk w r w' H) as [_ [_ [_ [Hph _]]]].
  destruct (ActivateRenderer_outcome mk w) as [r0 [w0 [H0 Hout]]].
  rewrite H in H0. injection H0 as <- <-.
  intros c Hc.
  destruct Hout as [[_ [_ [_ [Hlog [Hcur _]]]]] | [_ [_ [_ ->]]]]; [ | discriminate].
  rewrite Hcur in Hc.
  destruct (ptr_eqb (SDL_CurrentContext w) (context w)); [ | discriminate].
  destruct (J c Hc) as [ce [Hce Huse]]. exists ce. rewrite Hph, Hlog.
  split; [exact Hce | ].
  destruct (updateSize w); [ | rewrite app_nil_r; exact Huse].
  rewrite in_use_other by reflexivity. exact Huse.
Qed.

Lemma keeps_in_use : forall (A : Type) (m : M A) w r w',
    keeps (fun w => ((program_heap w, current_program w), program_in_use (gl_log w))) m ->
    current_in_use w -> m w = Val (r, w') -> current_in_use w'.
Proof.
  intros A m w r w' K J H. pose proof (K w r w' H) as E. cbv beta in E.
  injection E as E1 E2 E3. intros c Hc. rewrite E2 in Hc.
  destruct (J c Hc) as [ce [Hce Huse]]. exists ce. rewrite E1, E3.
  split; assumption.
Qed.

Lemma step_in_use : forall w w',
    step GetShader w w' -> current_in_use w -> current_in_use w'.
Proof.
  intros w w' Hstep J.
  destruct Hstep as [source blendMode o r w w' H | mk r w w' H
                    | RESIZED event w w' H
                    | bpp mk blob gerr tex rect pixels pitch r w w' H | ww wh w].
  - exact (SelectProgram_in_use source blendMode o w r w' J H).
  - exact (ActivateRenderer_in_use mk w r w' J H).
  - refine (keeps_in_use _ _ w tt w' _ J H). unfold GLES2_WindowEvent. frame_use.
  - unfold GLES2_UpdateTexture in H. cbv zeta in H.
    apply bind_val in H. destruct H as [r0 [w1 [Ha H]]].
    apply (ActivateRenderer_in_use mk w r0 w1 J) in Ha.
    refine (keeps_in_use _ _ w1 r w' _ Ha H). frame_use.
  - exact J.
Qed.

(** X20: between two calls into the driver, the current program, if there
    is one, is a program entry that has not been released, and the last
    [glUseProgram] the driver made was for its GL program: the pointer
    that [GLES2_SelectProgram] follows for its check is never dangling,
    and the driver never believes current a program other than the one
    GL has in use. *)
Theorem current_program_in_use : forall w c,
    reachable GetShader w ->
    current_program w = Some c ->
    exists ce, program_heap w c = Some ce /\
               program_in_use (gl_log w) = Some (pr_id ce).
Proof.
  intros w c Hreach. revert c.
  change (current_in_use w).
  induction Hreach as [o w0 w Hno Hcreate | w w' Hreach IH Hstep].
  - destruct (CreateRenderer_val o w0 w Hcreate) as [_ [_ [_ [_ [_ [_ ->]]]]]].
    intros c Hc. discriminate.
  - exact (step_in_use w w' Hstep IH).
Qed.

End InUse.

Lemma current_program_in_use_witness :
  current_program Scene.two_programs = Some 5%nat /\
  exists ce, program_heap Scene.two_programs 5%nat = Some ce /\
             program_in_use (gl_log Scene.two_programs) = Some (pr_id ce).
Proof.
  assert (H : current_program Scene.two_programs = Some 5%nat)
    by (vm_compute; reflexivity).
  split; [exact H | ].
  exact (current_program_in_use Demo.GetShader Scene.two_programs 5%nat
           two_programs_reachable H).
Defined.

(** ** The capacity of the program cache *)

(** What [GLES2_CacheProgram] does to the program blocks: nothing (a hit
    or a failure), one block more, or one block more and one less. *)
Lemma CacheProgram_blocks : forall w l v f blendMode o r w',
    consistent w l ->
    shader_heap w v <> None -> shader_heap w f <> None ->
    GLES2_CacheProgram v f blendMode o w = Val (r, w') ->
    ((forall p, pair_of (program_heap w' p) = pair_of (program_heap w p)) /\
     program_cache_count w' = program_cache_count w /\
     (r = None \/
      exists p, r = Some p /\ pair_of (program_heap w p) = Some (v, f))) \/
    (r = Some (brk w) /\
     pair_of (program_heap w' (brk w)) = Some (v, f) /\
     program_heap w (brk w) = None /\
     ((program_cache_count w + 1 <= GLES2_MAX_CACHED_PROGRAMS /\
       program_cache_count w' = program_cache_count w + 1 /\
       forall p, p <> brk w ->
                 pair_of (program_heap w' p) = pair_of (program_heap w p)) \/
      (GLES2_MAX_CACHED_PROGRAMS < program_cache_count w + 1 /\
       program_cache_count w' = program_cache_count w /\
       exists t, t <> brk w /\ program_heap w t <> None /\
                 program_heap w' t = None /\
                 forall p, p <> brk w -> p <> t ->
                           pair_of (program_heap w' p) = pair_of (program_heap w p)))).
Proof.
  intros w l v f blendMode o r w' Hc Hvlive Hflive H.
  unfold GLES2_CacheProgram in H.
  apply bind_val in H. destruct H as [found [w0 [Hfind H]]].
  apply lift_val in Hfind. destruct Hfind as [Hfind ->].
  destruct found as [entry |].
  - (* a hit *)
    apply find_program_some in Hfind. destruct Hfind as [e [He [Hv Hf]]].
    apply bind_val in H. destruct H as [u [w1 [Hprom H]]].
    injection H as <- <-.
    destruct Hc as [Hs [Hp Hh]].
    destruct (promote_ok w entry u w1 Hp Hh) as [ph' [hd' [-> [Hp' [Hpairs Hh']]]]];
      [congruence | exact Hprom | ].
    left. wsimpl. split; [exact Hpairs | split; [reflexivity | ]].
    right. exists entry. split; [reflexivity | ]. rewrite He. simpl. congruence.
  - (* a miss *)
    rewrite (world_eta w) in H.
    destruct (po_alloc o) eqn:Halloc.
    2: { unfold bind, calloc_program in H. mflat H. unfold ret in H.
         injection H as <- <-.
         left. wsimpl.
         split; [intro p; reflexivity | split; [reflexivity | left; reflexivity]]. }
    rewrite bind_calloc_program in H. wflat_in H. set (N := brk w) in *. mflat H.
    set (init := mkProgramEntry 0 blendMode v f (repeat 0 16) None None) in *.
    rewrite (bind_update_program _ N _ init) in H by (wsimpl; apply upd_eq).
    rewrite (bind_load_program _ N (set_pr_id (po_id o) init)) in H
      by (wsimpl; apply upd_eq).
    destruct (shader_heap w v) as [ev |] eqn:Hev; [ | contradiction].
    destruct (shader_heap w f) as [ef |] eqn:Hef; [ | contradiction].
    rewrite (bind_load_shader _ v ev) in H by (wsimpl; exact Hev). mflat H.
    rewrite (bind_load_shader _ f ef) in H by (wsimpl; exact Hef). mflat H.
    assert (HNfree : program_heap w N = None).
    { destruct Hc as [_ [[Hpb _ _] _]].
      destruct (program_heap w N) as [e |] eqn:E; [ | reflexivity].
      specialize (Hpb N e E). unfold N in Hpb. lia. }
    destruct (po_error o || negb (po_linked o)) eqn:Hlink.
    + (* the link fails *)
      mflat H. unfold free_program, bind in H. wflat_in H.
      rewrite upd_eq in H. unfold ret in H. injection H as <- <-.
      assert (Hsame : forall a,
                 upd (upd (upd (program_heap w) N (Some init)) N
                          (Some (set_pr_id (po_id o) init))) N None a
                 = program_heap w a).
      { intro a. unfold upd. destruct (Nat.eqb_spec a N) as [-> | _]; [ | reflexivity].
        symmetry. exact HNfree. }
      left. wsimpl.
      split; [intro p; rewrite Hsame; reflexivity | split; [reflexivity | left; reflexivity]].
    + (* the program is linked *)
      erewrite bind_locate_uniform in H by (wsimpl; apply upd_eq). wflat_in H.
      erewrite bind_locate_uniform in H by (wsimpl; apply upd_eq). wflat_in H.
      erewrite bind_locate_uniform in H by (wsimpl; apply upd_eq). wflat_in H.
      erewrite bind_locate_uniform in H by (wsimpl; apply upd_eq). wflat_in H.
      erewrite bind_locate_uniform in H by (wsimpl; apply upd_eq). wflat_in H.
      mflat H.
      match type of H with
      | context [mkWorld _ _ _ _ _ _ _ _ _ _ _ (upd ?h N (Some ?e))] =>
          set (ph5 := upd h N (Some e)) in *; set (e5 := e) in *
      end.
      assert (H5 : ph5 N = Some e5) by apply upd_eq.
      assert (Hother : forall a, a <> N -> ph5 a = program_heap w a).
      { intros a Ha. unfold ph5. rewrite !upd_neq by exact Ha. reflexivity. }
      pose proof (tracks_refl ph5) as T0.
      (* linked in at the head *)
      assert (Hlinked : exists phA w6,
                 tracks ph5 phA
                   (fun a e => if ptr_eqb (program_cache_head w) (Some a)
                               then Some N else pr_prev e)
                   (fun a e => if Nat.eqb a N then program_cache_head w else pr_next e) /\
                 program_heap w6 = phA /\
                 (exists log tl,
                    w6 = set_program_cache_tail tl
                           (set_gl_log log
                              (set_brk (S N) (set_program_heap phA w)))) /\
                 (modify (set_program_cache_head (Some N));;
                  modify (fun w => set_program_cache_count (program_cache_count w + 1) w);;
                  update_shader v (fun e => set_references (references e + 1) e);;
                  update_shader f (fun e => set_references (references e + 1) e);;
                  count <- gets program_cache_count;;
                  when (count >? GLES2_MAX_CACHED_PROGRAMS) evict_tail;;
                  ret (Some N)) w6 = Val (r, w')).
      { destruct (program_cache_head w) as [h |] eqn:Hh.
        - rewrite bind_assoc in H.
          rewrite (bind_update_program _ N _ e5) in H by (wsimpl; exact H5).
          apply bind_val in H. destruct H as [u [w6 [Hu H]]].
          apply update_program_val in Hu. destruct Hu as [eh [Heh ->]]. wflat_in Heh.
          wflat_in H.
          pose proof (tracks_set_next _ _ _ _ N e5 (Some h) T0 H5) as T1.
          pose proof (tracks_set_prev _ _ _ _ h eh (Some N) T1 Heh) as T2.
          eexists. eexists. split; [ | split; [reflexivity | split; [ | exact H]]].
          + eapply tracks_ext; [ | | exact T2].
            * intros a e _. simpl. rewrite Nat.eqb_sym. reflexivity.
            * intros a e _. reflexivity.
          + eexists. exists (program_cache_tail w).
            apply world_ext; wsimpl; first [reflexivity | symmetry; assumption].
        - rewrite bind_modify in H. wflat_in H.
          eexists. eexists. split; [ | split; [reflexivity | split; [ | exact H]]].
          + eapply tracks_ext; [ | | exact T0].
            * intros a e _. reflexivity.
            * intros a e Ha. simpl.
              destruct (Nat.eqb_spec a N) as [-> | _]; [ | reflexivity].
              rewrite H5 in Ha. injection Ha as <-. reflexivity.
          + eexists. exists (Some N).
            apply world_ext; wsimpl; first [reflexivity | symmetry; assumption]. }
      clear H. destruct Hlinked as [phA [w6 [T [_ [[log [tl ->]] H]]]]].
      mflat H.
      rewrite (bind_update_shader _ v _ ev) in H by (wsimpl; exact Hev).
      assert (Hef1 : exists ef1,
                 upd (shader_heap w) v
                     (Some (set_references (references ev + 1) ev)) f = Some ef1).
      { unfold upd. destruct (Nat.eqb f v); eexists; [reflexivity | exact Hef]. }
      destruct Hef1 as [ef1 Hef1].
      rewrite (bind_update_shader _ f _ ef1) in H by (wsimpl; exact Hef1).
      mflat H.
      match type of H with
      | bind _ _ ?W = _ => set (wA := W) in *
      end.
      assert (HcA : consistent wA l).
      { pose proof (inserted_consistent w l v f ev ph5 e5 log
                      (upd (upd (shader_heap w) v
                                (Some (set_references (references ev + 1) ev)))
                           f (Some (set_references (references ef1 + 1) ef1)))
                      phA Hc Hev) as HA.
        rewrite Hef in HA. specialize (HA ltac:(discriminate) H5 Hother).
        specialize (HA eq_refl eq_refl eq_refl eq_refl T).
        specialize (HA (ex_intro _ ef1 (conj Hef1 eq_refl))).
        unfold consistent, pairs_of in HA |- *. unfold wA.
        wsimpl. wflat_in HA. exact HA. }
      assert (HkA : entries_kept (shader_heap w) (shader_heap wA)).
      { unfold wA. wsimpl.
        eapply entries_kept_trans; [apply (bump_kept _ v ev Hev) | ].
        apply (bump_kept _ f ef1 Hef1). }
      assert (HNA : exists eN, program_heap wA N = Some eN /\ pr_prev eN = None /\
                               vertex_shader eN = v /\ fragment_shader eN = f).
      { destruct T as [_ Tsome]. destruct (Tsome N e5 H5) as [eN [E1 [E2 [_ [E4 E5]]]]].
        exists eN. unfold wA. wsimpl. split; [exact E1 | ].
        split; [ | split; [exact E4 | exact E5]].
        rewrite E2.
        assert (Hhn : ptr_eqb (program_cache_head w) (Some N) = false).
        { apply ptr_eqb_neq. intro E. destruct Hc as [_ [_ Hh]].
          specialize (Hh N E). unfold N in Hh. lia. }
        rewrite Hhn. reflexivity. }
      destruct HNA as [eN [HeN [HprevN [HvN HfN]]]].
      assert (HpA : forall q, pair_of (program_heap wA q) = pair_of (program_heap w q) \/
                              pair_of (program_heap wA q) = Some (v, f)).
      { intro q. unfold wA. wsimpl. rewrite (tracks_pairs _ _ _ _ q T).
        destruct (Nat.eq_dec q N) as [-> | Hne].
        - right. rewrite H5. reflexivity.
        - left. rewrite (Hother q Hne). reflexivity. }
      assert (HpA' : forall q, q <> N ->
                       pair_of (program_heap wA q) = pair_of (program_heap w q)).
      { intros q Hne. unfold wA. wsimpl. rewrite (tracks_pairs _ _ _ _ q T).
        rewrite (Hother q Hne). reflexivity. }
      assert (HsA : forall s e, shader_heap w s = Some e ->
                      exists eA, shader_heap wA s = Some eA /\
                                 references eA
                                 = references e + Z.of_nat (uses (Some (v, f)) s)).
      { intros s e Hs. unfold wA. wsimpl. rewrite uses_pair.
        unfold upd in Hef1 |- *. rewrite (Nat.eqb_sym v s), (Nat.eqb_sym f s).
        destruct (Nat.eqb_spec s f) as [-> | Hsf].
        - eexists. split; [reflexivity | ].
          destruct (Nat.eqb_spec f v) as [-> | Hfv].
          + injection Hef1 as <-. rewrite Hev in Hs. injection Hs as <-.
            simpl. lia.
          + rewrite Hef1 in Hs. injection Hs as <-. simpl. lia.
        - destruct (Nat.eqb_spec s v) as [-> | Hsv].
          + eexists. split; [reflexivity | ].
            rewrite Hev in Hs. injection Hs as <-. simpl. lia.
          + exists e. split; [exact Hs | simpl; lia]. }
      right. fold N.
      destruct (program_cache_count w + 1 >? GLES2_MAX_CACHED_PROGRAMS) eqn:Hover;
        unfold when in H.
      * (* the tail is evicted *)
        apply bind_val in H. destruct H as [u [w7 [Hev7 H]]].
        unfold ret in H. injection H as <- <-.
        destruct (evict_tail_ok wA l u w7 HcA Hev7)
          as [t [te [q [sh' [hd' [cnt' [log' [ph' [l'
             [Ht [Hte [Hq [-> [Hc7 [Hgone [Hpairs7 _]]]]]]]]]]]]]]]].
        assert (HNt : N <> t) by (intro E; rewrite <- E in Hte; congruence).
        wsimpl.
        split; [reflexivity | ].
        split; [rewrite (Hpairs7 N HNt), HeN; simpl; congruence | ].
        split; [exact HNfree | ]. right.
        split; [apply Z.gtb_lt in Hover; lia | ].
        split; [unfold wA; wsimpl; lia | ].
        exists t. split; [congruence | ].
        split.
        { pose proof (HpA' t ltac:(congruence)) as E. rewrite Hte in E.
          intro E'. rewrite E' in E. discriminate. }
        split; [exact Hgone | ].
        intros p HpN Hpt. rewrite (Hpairs7 p Hpt). exact (HpA' p HpN).
      * rewrite bind_ret in H. unfold ret in H. injection H as <- <-.
        split; [reflexivity | ].
        split; [rewrite HeN; simpl; congruence | ].
        split; [exact HNfree | ]. left.
        split; [destruct (Z.gtb_spec (program_cache_count w + 1) GLES2_MAX_CACHED_PROGRAMS);
                [discriminate | lia] | ].
        split; [unfold wA; wsimpl; reflexivity | exact HpA'].
Qed.

Lemma count_below_beyond : forall (f : addr -> nat) (b n : nat),
    (forall p, (b <= p)%nat -> f p = 0%nat) ->
    count_below f (b + n) = count_below f b.
Proof.
  intros f b n H. induction n as [| n IH].
  - rewrite Nat.add_0_r. reflexivity.
  - rewrite Nat.add_succ_r. simpl. rewrite IH, (H (b + n)%nat) by lia. lia.
Qed.

Lemma count_below_bounds : forall (f : addr -> nat) (b b' : nat),
    (forall p, f p <> 0%nat -> (p < b)%nat) ->
    (forall p, f p <> 0%nat -> (p < b')%nat) ->
    count_below f b = count_below f b'.
Proof.
  intros f b b' H H'.
  assert (Hz : forall c, (forall p, f p <> 0%nat -> (p < c)%nat) ->
                         forall p, (c <= p)%nat -> f p = 0%nat).
  { intros c Hc p Hp. destruct (f p) eqn:E; [reflexivity | ].
    assert (p < c)%nat by (apply Hc; rewrite E; discriminate). lia. }
  destruct (Nat.le_ge_cases b b') as [Hle | Hle].
  - replace b' with (b + (b' - b))%nat by lia.
    symmetry. apply count_below_beyond. exact (Hz b H).
  - replace b with (b' + (b - b'))%nat by lia.
    apply count_below_beyond. exact (Hz b' H').
Qed.

Lemma alive_pair : forall ph ph' p,
    pair_of (ph' p) = pair_of (ph p) -> alive ph' p = alive ph p.
Proof.
  intros ph ph' p H. unfold alive.
  destruct (ph' p), (ph p); try reflexivity; discriminate.
Qed.

Lemma alive_bound : forall w l p,
    consistent w l -> alive (program_heap w) p <> 0%nat -> (p < brk w)%nat.
Proof.
  intros w l p [_ [Hp _]] H. unfold alive in H.
  destruct (program_heap w p) as [e |] eqn:E; [ | contradiction].
  exact (p_bound _ _ Hp p e E).
Qed.

Lemma capacity_same : forall w l w' l',
    consistent w l -> consistent w' l' ->
    (forall p, pair_of (program_heap w' p) = pair_of (program_heap w p)) ->
    program_cache_count w' = program_cache_count w ->
    within_capacity w -> within_capacity w'.
Proof.
  intros w l w' l' Hc Hc' Hph Hcount [K1 K2]. unfold within_capacity.
  rewrite Hcount. split; [ | exact K2]. rewrite <- K1. f_equal.
  unfold live_programs.
  rewrite (count_below_ext (alive (program_heap w')) (alive (program_heap w)))
    by (intros a _; apply alive_pair; apply Hph).
  apply count_below_bounds; [ | exact (fun p => alive_bound w l p Hc)].
  intros p Hp. apply (alive_bound w' l' p Hc').
  rewrite (alive_pair _ _ p (Hph p)). exact Hp.
Qed.

Lemma capacity_blocks : forall w l w3 w' l' v f r,
    consistent w l -> consistent w' l' ->
    within_capacity w ->
    ((forall p, pair_of (program_heap w3 p) = pair_of (program_heap w p)) /\
     program_cache_count w3 = program_cache_count w /\
     (r = None \/
      exists p : addr, r = Some p /\ pair_of (program_heap w p) = Some (v, f))) \/
    (r = Some (brk w) /\
     pair_of (program_heap w3 (brk w)) = Some (v, f) /\
     program_heap w (brk w) = None /\
     ((program_cache_count w + 1 <= GLES2_MAX_CACHED_PROGRAMS /\
       program_cache_count w3 = program_cache_count w + 1 /\
       forall p, p <> brk w ->
                 pair_of (program_heap w3 p) = pair_of (program_heap w p)) \/
      (GLES2_MAX_CACHED_PROGRAMS < program_cache_count w + 1 /\
       program_cache_count w3 = program_cache_count w /\
       exists t, t <> brk w /\ program_heap w t <> None /\
                 program_heap w3 t = None /\
                 forall p, p <> brk w -> p <> t ->
                           pair_of (program_heap w3 p) = pair_of (program_heap w p)))) ->
    program_heap w' = program_heap w3 ->
    program_cache_count w' = program_cache_count w3 ->
    within_capacity w'.
Proof.
  intros w l w3 w' l' v f r Hc Hc' [K1 K2] Hblocks Hph Hcount.
  destruct Hblocks as [[Hsame [Hcnt _]] | [_ [HN [HNfree Hcases]]]].
  - apply (capacity_same w l w' l' Hc Hc'); [ | congruence | split; assumption].
    intro p. rewrite Hph. apply Hsame.
  - set (N := brk w) in *.
    set (f2 := alive (program_heap w)). set (f3 := alive (program_heap w3)).
    assert (H2 : Z.of_nat (count_below f2 N) = program_cache_count w) by exact K1.
    assert (H3N : f3 N = 1%nat).
    { unfold f3, alive. destruct (program_heap w3 N); [reflexivity | discriminate]. }
    assert (H2N : f2 N = 0%nat) by (unfold f2, alive; rewrite HNfree; reflexivity).
    assert (Hgoal : Z.of_nat (count_below f3 (S N)) = program_cache_count w3 /\
                    program_cache_count w3 <= GLES2_MAX_CACHED_PROGRAMS /\
                    forall p, f3 p <> 0%nat -> (p < S N)%nat).
    { destruct Hcases as [[Hle [Hcnt Hother]] | [Hgt [Hcnt [t [HtN [Htl [Htg Hother]]]]]]].
      - split; [ | split; [lia | ]].
        + simpl. rewrite H3N.
          rewrite (count_below_ext f3 f2 N)
            by (intros a Ha; apply alive_pair; apply Hother; lia). lia.
        + intros p Hp. destruct (Nat.eq_dec p N) as [-> | Hne]; [lia | ].
          unfold f3 in Hp. rewrite (alive_pair _ _ p (Hother p Hne)) in Hp.
          pose proof (alive_bound w l p Hc Hp). fold N in H. lia.
      - assert (Ht2 : f2 t = 1%nat).
        { unfold f2, alive. destruct (program_heap w t); [reflexivity | contradiction]. }
        assert (Ht3 : f3 t = 0%nat) by (unfold f3, alive; rewrite Htg; reflexivity).
        assert (HtN' : (t < N)%nat).
        { apply (alive_bound w l t Hc). fold f2. rewrite Ht2. discriminate. }
        pose proof (count_below_change f2 f3 N t HtN') as Hch.
        assert (Hext : forall a, (a < N)%nat -> a <> t -> f2 a = f3 a).
        { intros a Ha Hat. symmetry. apply alive_pair. apply Hother; [lia | exact Hat]. }
        specialize (Hch Hext). rewrite Ht2, Ht3 in Hch.
        split; [ | split; [unfold GLES2_MAX_CACHED_PROGRAMS in *; lia | ]].
        + simpl. rewrite H3N. lia.
        + intros p Hp. destruct (Nat.eq_dec p N) as [-> | Hne]; [lia | ].
          destruct (Nat.eq_dec p t) as [-> | Hnet]; [contradiction | ].
          unfold f3 in Hp. rewrite (alive_pair _ _ p (Hother p Hne Hnet)) in Hp.
          pose proof (alive_bound w l p Hc Hp). fold N in H. lia. }
    destruct Hgoal as [G1 [G2 G3]]. unfold within_capacity.
    rewrite Hcount. split; [ | exact G2]. rewrite <- G1. f_equal.
    unfold live_programs. rewrite Hph. fold f3.
    apply count_below_bounds; [ | exact G3].
    intros p Hp. apply (alive_bound w' l' p Hc'). rewrite Hph. exact Hp.
Qed.

Section Capacity.

Variable GetShader : GLES2_ShaderType -> Z -> option GLES2_Shader.

Lemma CacheShader_keeps_count : forall type blendMode o,
    keeps program_cache_count (GLES2_CacheShader GetShader type blendMode o).
Proof. intros. frame_all. Qed.

Lemma fault_keeps_programs : forall vertex fragment,
    keeps (fun w => (program_heap w, program_cache_count w)) (fault vertex fragment).
Proof. intros. frame_all. Qed.

Lemma SetOrthographicProjection_keeps_programs : forall ue,
    keeps (fun w => (program_heap w, program_cache_count w))
          (GLES2_SetOrthographicProjection ue).
Proof. intros. frame_all. Qed.

Lemma SelectProgram_capacity : forall source blendMode o w l r w' l',
    consistent w l -> consistent w' l' ->
    within_capacity w ->
    GLES2_SelectProgram GetShader source blendMode o w = Val (r, w') ->
    within_capacity w'.
Proof.
  intros source blendMode o w l r w' l' Hc Hc' K H.
  assert (Hfault : forall wx vertex fragment,
             (forall p, program_heap wx p = program_heap w p) ->
             program_cache_count wx = program_cache_count w ->
             fault vertex fragment wx = Val (r, w') -> within_capacity w').
  { intros wx vertex fragment Hph Hcnt Hf.
    pose proof (fault_keeps_programs _ _ _ _ _ Hf) as E. cbv beta in E.
    injection E as E1 E2.
    apply (capacity_same w l w' l' Hc Hc'); [ | congruence | exact K].
    intro p. rewrite E1, Hph. reflexivity. }
  unfold GLES2_SelectProgram in H. cbv zeta in H.
  apply bind_val in H. destruct H as [vertex [w1 [Hv H]]].
  destruct (CacheShader_ok GetShader _ _ _ w l vertex w1 Hc Hv)
    as [l1 [Hc1 [_ [_ [Hph1 [_ [_ Hm1]]]]]]].
  pose proof (CacheShader_keeps_count _ _ _ _ _ _ Hv) as Hcnt1.
  destruct vertex as [v |]; [ | exact (Hfault w1 _ _ Hph1 Hcnt1 H)].
  apply bind_val in H. destruct H as [fragment [w2 [Hf H]]].
  destruct (CacheShader_ok GetShader _ _ _ w1 l1 fragment w2 Hc1 Hf)
    as [l2 [Hc2 [_ [Hret2 [Hph2 [_ [_ Hm2]]]]]]].
  pose proof (CacheShader_keeps_count _ _ _ _ _ _ Hf) as Hcnt2.
  assert (Hph12 : forall p, program_heap w2 p = program_heap w p)
    by (intro p; rewrite Hph2; apply Hph1).
  assert (Hcnt12 : program_cache_count w2 = program_cache_count w) by congruence.
  destruct fragment as [f |]; [ | exact (Hfault w2 _ _ Hph12 Hcnt12 H)].
  assert (K2 : within_capacity w2).
  { apply (capacity_same w l w2 l2 Hc Hc2); [ | exact Hcnt12 | exact K].
    intro p. rewrite Hph12. reflexivity. }
  assert (Hvlive : shader_heap w2 v <> None).
  { destruct Hm1 as [_ [_ [e1 [_ [_ [He1 _]]]]]].
    destruct (Hret2 v e1 He1) as [e2 [He2 _]]. congruence. }
  assert (Hflive : shader_heap w2 f <> None).
  { destruct Hm2 as [_ [_ [e2 [_ [_ [He2 _]]]]]]. congruence. }
  rewrite bind_gets in H.
  apply bind_val in H. destruct H as [unchanged [w3 [H3 H]]].
  assert (E3 : w3 = w2).
  { destruct (current_program w2) as [c |].
    - apply bind_val in H3. destruct H3 as [ce [w4 [H4 H3]]].
      apply load_program_val in H4. destruct H4 as [_ ->].
      unfold ret in H3. injection H3 as _ <-. reflexivity.
    - unfold ret in H3. injection H3 as _ <-. reflexivity. }
  subst w3. clear H3.
  destruct unchanged.
  { unfold ret in H. injection H as _ <-. exact K2. }
  apply bind_val in H. destruct H as [program [w3 [Hp H]]].
  pose proof (CacheProgram_blocks w2 l2 v f blendMode (o_program o) program w3
                Hc2 Hvlive Hflive Hp) as Hblocks.
  assert (Hrest : forall (m : M Z),
             keeps (fun w => (program_heap w, program_cache_count w)) m ->
             forall wx, program_heap wx = program_heap w3 ->
                        program_cache_count wx = program_cache_count w3 ->
                        m wx = Val (r, w') -> within_capacity w').
  { intros m Km wx Hphx Hcntx Hm. pose proof (Km _ _ _ Hm) as E. cbv beta in E.
    injection E as E1 E2.
    apply (capacity_blocks w2 l2 w3 w' l' v f program Hc2 Hc' K2 Hblocks);
      congruence. }
  destruct program as [p |];
    [ | exact (Hrest _ (fault_keeps_programs _ _) w3 eq_refl eq_refl H)].
  rewrite bind_gl in H.
  apply bind_val in H. destruct H as [pe [w4 [H4 H]]].
  apply load_program_val in H4. destruct H4 as [_ ->].
  rewrite !bind_gl in H.
  destruct (o_use_error o).
  { rewrite bind_SetError in H.
    refine (Hrest _ (fault_keeps_programs _ _) _ _ _ H); reflexivity. }
  rewrite bind_modify in H.
  apply bind_val in H. destruct H as [r5 [w5 [H5 H]]].
  pose proof (SetOrthographicProjection_keeps_programs _ _ _ _ H5) as K5.
  cbv beta in K5. injection K5 as A5 B5. wsimpl_in A5. wsimpl_in B5.
  destruct (r5 <? 0); [exact (Hrest _ (fault_keeps_programs _ _) w5 A5 B5 H) | ].
  exact (Hrest _ (keeps_ret _ _ _) w5 A5 B5 H).
Qed.

Lemma step_capacity : forall w l w' l',
    consistent w l -> consistent w' l' ->
    step GetShader w w' -> within_capacity w -> within_capacity w'.
Proof.
  intros w l w' l' Hc Hc' Hstep K.
  assert (Hsame : same_caches w w' -> within_capacity w').
  { intros [_ [_ [_ [A4 [_ [_ [A7 _]]]]]]].
    apply (capacity_same w l w' l' Hc Hc'); [ | exact A7 | exact K].
    intro p. rewrite A4. reflexivity. }
  destruct Hstep as [source blendMode o r w w' H | mk r w w' H
                    | RESIZED event w w' H
                    | bpp mk blob gerr tex rect pixels pitch r w w' H | ww wh w].
  - exact (SelectProgram_capacity source blendMode o w l r w' l' Hc Hc' K H).
  - exact (Hsame (ActivateRenderer_caches mk w r w' H)).
  - exact (Hsame (WindowEvent_caches RESIZED event w tt w' H)).
  - exact (Hsame (UpdateTexture_caches bpp mk blob gerr tex rect pixels pitch w r w' H)).
  - exact (Hsame (window_size_caches ww wh w)).
Qed.

(** X21: between two calls into the driver the program cache holds as
    many program entries as [program_cache.count] says, and never more
    than [GLES2_MAX_CACHED_PROGRAMS]: every entry allocated is counted,
    an insertion that takes the count to nine releases exactly one entry
    before it returns, and nothing else releases or allocates one. *)
Theorem program_cache_within_capacity : forall w,
    reachable GetShader w ->
    Z.of_nat (live_programs w) = program_cache_count w /\
    program_cache_count w <= GLES2_MAX_CACHED_PROGRAMS.
Proof.
  intros w Hreach. change (within_capacity w).
  induction Hreach as [o w0 w Hno Hcreate | w w' Hreach IH Hstep].
  - destruct (CreateRenderer_val o w0 w Hcreate) as [_ [_ [_ [_ [_ [_ ->]]]]]].
    destruct Hno as [_ Hph]. unfold within_capacity, live_programs. wsimpl.
    unfold zero_driver_context. wsimpl.
    rewrite count_below_zero by (intros a _; unfold alive; rewrite Hph; reflexivity).
    split; [reflexivity | discriminate].
  - assert (Hreach' : reachable GetShader w')
      by exact (reach_step GetShader w w' Hreach Hstep).
    destruct (reachable_invariant GetShader w Hreach) as [[l Hc] _].
    destruct (reachable_invariant GetShader w' Hreach') as [[l' Hc'] _].
    exact (step_capacity w l w' l' Hc Hc' Hstep IH).
Qed.

End Capacity.

Lemma program_cache_within_capacity_witness :
  live_programs Demo.eight_selected = 8%nat /\
  Z.of_nat (live_programs Demo.eight_selected)
  = program_cache_count Demo.eight_selected /\
  program_cache_count Demo.eight_selected <= GLES2_MAX_CACHED_PROGRAMS.
Proof.
  split; [vm_compute; reflexivity | ].
  apply (program_cache_within_capacity Demo.GetShader Demo.eight_selected).
  apply (selects_reachable [0; 1; 2; 3; 4; 5; 6; 7] Demo.created);
    [exact created_reachable | vm_compute; reflexivity].
Defined.
